(** * cpp-threadpool: a shallow embedding of [include/threadpool/threadpool.hpp]

    The model has two layers.

    - The _sequential objects_: [Task], the [std::priority_queue] behind
      [TaskQueue], [WorkStealingDeque], [PoolStats], the packaged tasks that
      carry the futures' shared states, and [ThreadPool] with its public
      member functions written as state-passing functions.
    - The _threads_: every worker and every caller of the public interface
      is an automaton whose program points are the shared-memory accesses
      of the C++ code (one critical section, one atomic access or one plain
      load or store each); an execution is an interleaving of their steps.

    In the second layer a thread that waits on the condition variable of
    the queue is a thread that cannot step until the predicate of its
    wait holds, and the steps follow the data of the pool only.  Two
    refinements of the steps come after it: [Cancel.step] adds what the
    destruction of a discarded task does to its future, and [Sync.step]
    adds the mutex and the condition variable of the queue, with the
    wake-ups ([notify_one], [notify_all], spurious ones).

    The model comes first, then the vocabulary of the statements, then the
    facts. *)

From stdpp Require Import base list strings.
From Stdlib Require Import ZArith Lia ZifyNat Sorted.

Local Open Scope Z_scope.

(* ===================================================================== *)
(** ** Machine integers                                                   *)
(* ===================================================================== *)

(** [size_t] is a 64-bit unsigned integer: arithmetic wraps modulo 2^64. *)
Definition size_t_modulus : N := (2 ^ 64)%N.
Definition size_t_wrap (x : N) : N := (x mod size_t_modulus)%N.
Definition size_t_add (a b : N) : N := size_t_wrap (a + b)%N.
(** [++x] and [--x] on a [size_t]. *)
Definition size_t_incr (x : N) : N := size_t_add x 1.
Definition size_t_decr (x : N) : N := size_t_wrap (x + (size_t_modulus - 1))%N.

(* ===================================================================== *)
(** ** Task                                                               *)
(* ===================================================================== *)

(** The only callable the pool ever stores in a [Task] is the closure
    lambda of [submit_priority], which captures [task_ptr] and calls the
    packaged task it points to; it is represented by the pointer it
    captures (an index in the store of packaged tasks). *)
Inductive Callable : Type :=
  | RunPackaged (task_ptr : nat).

(** [class Task]: [func_] is [None] for an empty [std::function]. *)
Record Task : Type := mkTask {
  func_ : option Callable;
  priority_ : Z
}.

#[global] Instance Callable_eq_dec : EqDecision Callable.
Proof. solve_decision. Defined.
#[global] Instance Task_eq_dec : EqDecision Task.
Proof. solve_decision. Defined.

(** [Task::priority()]. *)
Definition priority (t : Task) : Z := priority_ t.

(** [Task::operator<]: [return priority_ > other.priority_;]. *)
Definition task_lt (a other : Task) : bool := priority_ other <? priority_ a.

(* ===================================================================== *)
(** ** std::priority_queue<Task>                                          *)
(* ===================================================================== *)

(** [TaskQueue::queue_] is a [std::priority_queue<Task>]: a [std::vector]
    kept as a binary max-heap for [std::less<Task>], that is for
    [Task::operator<].  [push] is [push_back] then [std::push_heap], [pop]
    is [std::pop_heap] then [pop_back], [top] is [front].  The heap
    algorithms below are the ones of libstdc++'s [bits/stl_heap.h]; moves
    are modelled as copies ([priority_] is an [int], and a moved-from
    element is never compared again before it is overwritten). *)
Module StlHeap.

(** The [while] loop of [std::__push_heap]:
<<
    parent = (holeIndex - 1) / 2;
    while (holeIndex > topIndex && comp(first + parent, value)) {
      *(first + holeIndex) = *(first + parent);
      holeIndex = parent;
      parent = (holeIndex - 1) / 2;
    }
    *(first + holeIndex) = value;
>>
    [holeIndex] strictly decreases, so [holeIndex] units of fuel are
    enough: with no fuel left [holeIndex] is [0] and the loop is over. *)
Fixpoint push_heap_loop (fuel : nat) (c : list Task)
         (holeIndex topIndex : nat) (value : Task) : list Task :=
  match fuel with
  | O => <[holeIndex := value]> c
  | S fuel' =>
      let parent := ((holeIndex - 1) / 2)%nat in
      match c !! parent with
      | Some p =>
          if (topIndex <? holeIndex)%nat && task_lt p value
          then push_heap_loop fuel' (<[holeIndex := p]> c) parent topIndex value
          else <[holeIndex := value]> c
      | None => <[holeIndex := value]> c
      end
  end.

Definition __push_heap (c : list Task) (holeIndex topIndex : nat)
           (value : Task) : list Task :=
  push_heap_loop holeIndex c holeIndex topIndex value.

(** [std::push_heap(first, last)]: the new element is the last one. *)
Definition push_heap (c : list Task) : list Task :=
  match last c with
  | Some value => __push_heap c (length c - 1) 0 value
  | None => c
  end.

(** The [while] loop of [std::__adjust_heap] over the range of length
    [len]: the hole goes down to a leaf along the larger children.
<<
    while (secondChild < (len - 1) / 2) {
      secondChild = 2 * (secondChild + 1);
      if (comp(first + secondChild, first + (secondChild - 1)))
        secondChild--;
      *(first + holeIndex) = *(first + secondChild);
      holeIndex = secondChild;
    }
>>
    It returns the vector, [holeIndex] and [secondChild]. *)
Fixpoint adjust_heap_loop (fuel : nat) (c : list Task)
         (holeIndex secondChild len : nat) : list Task * nat * nat :=
  match fuel with
  | O => (c, holeIndex, secondChild)
  | S fuel' =>
      if (secondChild <? (len - 1) / 2)%nat then
        let sc := (2 * (secondChild + 1))%nat in
        match c !! sc, c !! (sc - 1)%nat with
        | Some r, Some l =>
            let sc' := if task_lt r l then (sc - 1)%nat else sc in
            let x := if task_lt r l then l else r in
            adjust_heap_loop fuel' (<[holeIndex := x]> c) sc' sc' len
        | _, _ => (c, holeIndex, secondChild)
        end
      else (c, holeIndex, secondChild)
  end.

(** [std::__adjust_heap(first, holeIndex, len, value)], called with
    [1 <= len] only (see [pop_heap]).
<<
    if ((len & 1) == 0 && secondChild == (len - 2) / 2) {
      secondChild = 2 * (secondChild + 1);
      *(first + holeIndex) = *(first + (secondChild - 1));
      holeIndex = secondChild - 1;
    }
    __push_heap(first, holeIndex, topIndex, value);
>>  *)
Definition __adjust_heap (c : list Task) (holeIndex len : nat)
           (value : Task) : list Task :=
  let topIndex := holeIndex in
  let '(c1, hole1, secondChild) :=
    adjust_heap_loop len c holeIndex holeIndex len in
  if Nat.even len && (secondChild =? (len - 2) / 2)%nat then
    let sc := (2 * (secondChild + 1))%nat in
    match c1 !! (sc - 1)%nat with
    | Some x => __push_heap (<[hole1 := x]> c1) (sc - 1) topIndex value
    | None => __push_heap c1 hole1 topIndex value
    end
  else __push_heap c1 hole1 topIndex value.

(** [std::pop_heap(first, last)]:
<<
    if (last - first > 1) {
      --last;
      value = *last; *last = *first;          // __pop_heap
      __adjust_heap(first, 0, last - first, value);
    }
>>  *)
Definition pop_heap (c : list Task) : list Task :=
  if (1 <? length c)%nat then
    let last_ := (length c - 1)%nat in
    match c !! last_, c !! 0%nat with
    | Some value, Some top => __adjust_heap (<[last_ := top]> c) 0 last_ value
    | _, _ => c
    end
  else c.

End StlHeap.

(** [std::priority_queue<Task>] over its underlying vector. *)
Module PriorityQueue.
Definition empty (c : list Task) : bool := bool_decide (c = []).
Definition size (c : list Task) : nat := length c.
(** [top()] is [c.front()]; it is only called on a non-empty queue. *)
Definition top (c : list Task) : option Task := c !! 0%nat.
(** [push(x)]: [c.push_back(x); std::push_heap(c.begin(), c.end())]. *)
Definition push (x : Task) (c : list Task) : list Task := StlHeap.push_heap (c ++ [x]).
(** [pop()]: [std::pop_heap(c.begin(), c.end()); c.pop_back()]. *)
Definition pop (c : list Task) : list Task := removelast (StlHeap.pop_heap c).
End PriorityQueue.

(* ===================================================================== *)
(** ** TaskQueue                                                          *)
(* ===================================================================== *)

(** [class TaskQueue].  [mutex_] makes every member function one critical
    section; [cv_] holds no data.  A member function is a function from the
    queue to its result and the new queue. *)
Record TaskQueue : Type := mkTaskQueue {
  queue_ : list Task
}.

Module TaskQueueM.

Definition push (task : Task) (q : TaskQueue) : TaskQueue :=
  mkTaskQueue (PriorityQueue.push task (queue_ q)).

Definition try_pop (q : TaskQueue) : option Task * TaskQueue :=
  if PriorityQueue.empty (queue_ q) then (None, q)
  else (PriorityQueue.top (queue_ q),
        mkTaskQueue (PriorityQueue.pop (queue_ q))).

(** [wait_pop(stop_flag)]: [cv_.wait] returns once the queue is not empty
    or the flag is set; until then the caller is blocked, which is the
    outer [None]. *)
Definition wait_pop (stop_flag : bool) (q : TaskQueue)
  : option (option Task * TaskQueue) :=
  if negb (PriorityQueue.empty (queue_ q)) || stop_flag then
    if PriorityQueue.empty (queue_ q) then Some (None, q)
    else Some (PriorityQueue.top (queue_ q),
               mkTaskQueue (PriorityQueue.pop (queue_ q)))
  else None.

Definition size (q : TaskQueue) : nat := PriorityQueue.size (queue_ q).
Definition empty (q : TaskQueue) : bool := PriorityQueue.empty (queue_ q).

(** [clear()]: [while (!queue_.empty()) queue_.pop();], on the number of
    elements left. *)
Fixpoint clear_loop (fuel : nat) (c : list Task) : list Task :=
  match fuel with
  | O => c
  | S fuel' =>
      if PriorityQueue.empty c then c
      else clear_loop fuel' (PriorityQueue.pop c)
  end.

Definition clear (q : TaskQueue) : TaskQueue :=
  mkTaskQueue (clear_loop (length (queue_ q)) (queue_ q)).

End TaskQueueM.

(* ===================================================================== *)
(** ** WorkStealingDeque                                                  *)
(* ===================================================================== *)

(** [class WorkStealingDeque]: a [std::deque<Task>] whose front is the head
    of the list; every member function is one critical section of
    [mutex_]. *)
Record WorkStealingDeque : Type := mkDeque {
  deque_ : list Task
}.

Module Deque.

Definition push_front (task : Task) (d : WorkStealingDeque) : WorkStealingDeque :=
  mkDeque (task :: deque_ d).

Definition pop_front (d : WorkStealingDeque) : option Task * WorkStealingDeque :=
  match deque_ d with
  | [] => (None, d)
  | task :: rest => (Some task, mkDeque rest)
  end.

Definition steal (d : WorkStealingDeque) : option Task * WorkStealingDeque :=
  match last (deque_ d) with
  | None => (None, d)
  | Some task => (Some task, mkDeque (removelast (deque_ d)))
  end.

Definition size (d : WorkStealingDeque) : nat := length (deque_ d).
Definition empty (d : WorkStealingDeque) : bool := bool_decide (deque_ d = []).

End Deque.

(* ===================================================================== *)
(** ** Packaged tasks and futures                                         *)
(* ===================================================================== *)

Inductive Exception : Type :=
  | runtime_error (what : string)
  | future_error_promise_already_satisfied
  | future_error_broken_promise
  | user_exception (code : nat).

(** What the bound callable [std::bind(func, args...)] does when it runs. *)
Inductive Outcome : Type :=
  | Returns (v : Z)
  | Throws (e : Exception).

(** The shared state of a [std::packaged_task] and its [std::future]: the
    Result Channel. *)
Inductive SharedState : Type :=
  | Unresolved
  | Value (v : Z)
  | Failure (e : Exception).

Record PackagedTask : Type := mkPackaged {
  callable : Outcome;
  shared_state : SharedState
}.

(** [std::packaged_task::operator()]: runs the callable and stores its
    value or the exception it throws in the shared state; on a task that
    has already run it throws [std::future_error].  The result is the
    exception that leaves [operator()], if any. *)
Definition packaged_call (pt : PackagedTask) : option Exception * PackagedTask :=
  match shared_state pt with
  | Unresolved =>
      (None,
       mkPackaged (callable pt)
         match callable pt with
         | Returns v => Value v
         | Throws e => Failure e
         end)
  | _ => (Some future_error_promise_already_satisfied, pt)
  end.

(** [std::future::get()]: blocks ([None]) until the state is resolved, then
    returns the value or rethrows the stored exception. *)
Definition future_get (pt : PackagedTask) : option (Z + Exception) :=
  match shared_state pt with
  | Unresolved => None
  | Value v => Some (inl v)
  | Failure e => Some (inr e)
  end.

(** [std::future::wait_for(d)]: [true] for [future_status::ready]; it never
    throws. *)
Definition future_wait_for (pt : PackagedTask) : bool :=
  match shared_state pt with
  | Unresolved => false
  | _ => true
  end.

(* ===================================================================== *)
(** ** PoolStats and ThreadPool                                           *)
(* ===================================================================== *)

Record PoolStats : Type := mkStats {
  total_tasks_submitted : N;
  total_tasks_completed : N;
  total_tasks_stolen : N;
  total_execution_time : Z   (* nanoseconds *)
}.

(** The data members of [class ThreadPool]; the threads of [workers_] are
    in the second layer. *)
Record ThreadPool : Type := mkPool {
  num_threads_ : nat;
  stop_ : bool;
  active_tasks_ : N;
  global_queue_ : TaskQueue;
  local_queues_ : list WorkStealingDeque;
  stats_ : PoolStats
}.

(** The memory the pool's code works on: the pool object and the packaged
    tasks allocated by [std::make_shared], addressed by their index. *)
Record Memory : Type := mkMemory {
  pool : ThreadPool;
  packaged_tasks : list PackagedTask
}.

Definition set_stop (b : bool) (p : ThreadPool) : ThreadPool :=
  mkPool (num_threads_ p) b (active_tasks_ p) (global_queue_ p)
         (local_queues_ p) (stats_ p).
Definition set_active (a : N) (p : ThreadPool) : ThreadPool :=
  mkPool (num_threads_ p) (stop_ p) a (global_queue_ p)
         (local_queues_ p) (stats_ p).
Definition set_global (q : TaskQueue) (p : ThreadPool) : ThreadPool :=
  mkPool (num_threads_ p) (stop_ p) (active_tasks_ p) q
         (local_queues_ p) (stats_ p).
Definition set_locals (l : list WorkStealingDeque) (p : ThreadPool) : ThreadPool :=
  mkPool (num_threads_ p) (stop_ p) (active_tasks_ p) (global_queue_ p)
         l (stats_ p).
Definition set_stats (s : PoolStats) (p : ThreadPool) : ThreadPool :=
  mkPool (num_threads_ p) (stop_ p) (active_tasks_ p) (global_queue_ p)
         (local_queues_ p) s.

Definition set_submitted (v : N) (s : PoolStats) : PoolStats :=
  mkStats v (total_tasks_completed s) (total_tasks_stolen s) (total_execution_time s).
Definition set_completed (v : N) (s : PoolStats) : PoolStats :=
  mkStats (total_tasks_submitted s) v (total_tasks_stolen s) (total_execution_time s).
Definition set_stolen (v : N) (s : PoolStats) : PoolStats :=
  mkStats (total_tasks_submitted s) (total_tasks_completed s) v (total_execution_time s).
Definition set_execution_time (v : Z) (s : PoolStats) : PoolStats :=
  mkStats (total_tasks_submitted s) (total_tasks_completed s) (total_tasks_stolen s) v.

Module Pool.

(** The constructor: [num_threads_(num_threads > 0 ? num_threads : 1)],
    one empty deque per worker. *)
Definition create (num_threads : nat) : ThreadPool :=
  let n := if (0 <? num_threads)%nat then num_threads else 1%nat in
  mkPool n false 0%N (mkTaskQueue [])
         (replicate n (mkDeque [])) (mkStats 0 0 0 0).

(** The [Task] built at line 309: the lambda around [task_ptr], with the
    priority. *)
Definition make_task (task_ptr : nat) (priority : Z) : Task :=
  mkTask (Some (RunPackaged task_ptr)) priority.

Definition rejected : Exception :=
  runtime_error "Cannot submit to stopped thread pool"%string.

(** [submit_priority(priority, func, args...)]: the exception it throws,
    or the future (the address of the packaged task it reads). *)
Definition submit_priority (priority : Z) (f : Outcome) (m : Memory)
  : (Exception + nat) * Memory :=
  if stop_ (pool m) then (inl rejected, m)
  else
    let task_ptr := length (packaged_tasks m) in
    let result := task_ptr in
    let task := make_task task_ptr priority in
    let p1 := set_global (TaskQueueM.push task (global_queue_ (pool m))) (pool m) in
    let p2 := set_stats (set_submitted
                (size_t_incr (total_tasks_submitted (stats_ p1))) (stats_ p1)) p1 in
    (inr result, mkMemory p2 (packaged_tasks m ++ [mkPackaged f Unresolved])).

(** [submit(func, args...)]. *)
Definition submit (f : Outcome) (m : Memory) : (Exception + nat) * Memory :=
  submit_priority 0 f m.

Definition size (p : ThreadPool) : nat := num_threads_ p.

(** [pending()]: [count = global_queue_.size()], then
    [count += q->size()] for every local queue. *)
Definition pending (p : ThreadPool) : N :=
  foldl (fun count q => size_t_add count (N.of_nat (Deque.size q)))
        (N.of_nat (TaskQueueM.size (global_queue_ p)))
        (local_queues_ p).

Definition active (p : ThreadPool) : N := active_tasks_ p.

(** The condition of the [while] of [wait()]; [wait()] returns when it
    reads [false]. *)
Definition wait_condition (p : ThreadPool) : bool :=
  (0 <? pending p)%N || (0 <? active p)%N.

(** [shutdown()], on the data of the pool: [notify_all] changes no data
    (the wake-ups are in [Sync.step]). *)
Definition shutdown (p : ThreadPool) : ThreadPool := set_stop true p.

(** [while (q->pop_front().has_value()) {}], on the number of elements
    plus one for the call that finds the deque empty. *)
Fixpoint drain (fuel : nat) (d : WorkStealingDeque) : WorkStealingDeque :=
  match fuel with
  | O => d
  | S fuel' =>
      match Deque.pop_front d with
      | (Some _, d') => drain fuel' d'
      | (None, d') => d'
      end
  end.

(** [shutdown_now()], on the data of the pool (what becomes of the
    packaged tasks of the discarded tasks is in [Cancel.shutdown_now]). *)
Definition shutdown_now (p : ThreadPool) : ThreadPool :=
  let p1 := set_stop true p in
  let p2 := set_global (TaskQueueM.clear (global_queue_ p1)) p1 in
  set_locals (map (fun q => drain (S (Deque.size q)) q) (local_queues_ p2)) p2.

(** The destructor up to the joins: [shutdown()]. *)
Definition destroy (p : ThreadPool) : ThreadPool := shutdown p.

Definition stats (p : ThreadPool) : PoolStats := stats_ p.

(** [try_steal(worker_id)], the [for] loop over the indices [ixs] still
    to visit. *)
Fixpoint try_steal_loop (ixs : list nat) (worker_id : nat) (p : ThreadPool)
  : option Task * ThreadPool :=
  match ixs with
  | [] => (None, p)
  | i :: is' =>
      let victim := ((worker_id + i + 1) mod num_threads_ p)%nat in
      if (victim =? worker_id)%nat then try_steal_loop is' worker_id p
      else
        match local_queues_ p !! victim with
        | Some q =>
            match Deque.steal q with
            | (Some task, q') =>
                let p1 := set_locals (<[victim := q']> (local_queues_ p)) p in
                (Some task,
                 set_stats (set_stolen
                   (size_t_incr (total_tasks_stolen (stats_ p1))) (stats_ p1)) p1)
            | (None, _) => try_steal_loop is' worker_id p
            end
        | None => try_steal_loop is' worker_id p
        end
  end.

Definition try_steal (worker_id : nat) (p : ThreadPool) : option Task * ThreadPool :=
  try_steal_loop (seq 0 (num_threads_ p)) worker_id p.

End Pool.

(* ===================================================================== *)
(** ** Shared memory and its atomic actions                               *)
(* ===================================================================== *)

(** What all threads share: the memory and the clock read by
    [high_resolution_clock::now()], in nanoseconds. *)
Record World : Type := mkWorld {
  memory : Memory;
  now : Z
}.

Inductive Counter : Type := Submitted | Completed | Stolen.

(** The actions a thread performs on the shared memory, indexed by the
    type of what they return.  Each is indivisible: a member function of a
    deque or of the queue is one critical section, [stop_] and
    [active_tasks_] are [std::atomic], and the fields of [stats_] are plain
    [size_t] and [nanoseconds] fields, which are read and written by
    separate loads and stores. *)
Inductive Op : Type -> Type :=
  (* WorkStealingDeque, on local_queues_[q] *)
  | DequePushFront (q : nat) (task : Task) : Op unit
  | DequePopFront (q : nat) : Op (option Task)
  | DequeSteal (q : nat) : Op (option Task)
  | DequeSize (q : nat) : Op nat
  (* TaskQueue, on global_queue_ *)
  | QueuePush (task : Task) : Op unit
  | QueueTryPop : Op (option Task)
  | QueueWaitPop : Op (option Task)
  | QueueSize : Op nat
  | QueueClear : Op unit
  | QueueNotifyAll : Op unit
  (* std::atomic<bool> stop_, std::atomic<size_t> active_tasks_ *)
  | StopLoad : Op bool
  | StopStore (b : bool) : Op unit
  | ActiveIncr : Op unit
  | ActiveDecr : Op unit
  | ActiveLoad : Op N
  (* PoolStats stats_ *)
  | StatsLoad (c : Counter) : Op N
  | StatsStore (c : Counter) (v : N) : Op unit
  | TimeLoad : Op Z
  | TimeStore (v : Z) : Op unit
  (* packaged tasks, the clock *)
  | MakePackaged (f : Outcome) : Op nat
  | CallTask (task : Task) : Op (option Exception)
  | ClockNow : Op Z.

Definition set_pool (p : ThreadPool) (w : World) : World :=
  mkWorld (mkMemory p (packaged_tasks (memory w))) (now w).
Definition set_packaged (l : list PackagedTask) (w : World) : World :=
  mkWorld (mkMemory (pool (memory w)) l) (now w).

(** A member function [f] of the deque [local_queues_[q]]; an index out
    of range has no behaviour. *)
Definition on_deque {X : Type} (q : nat)
           (f : WorkStealingDeque -> X * WorkStealingDeque) (w : World)
  : option (X * World) :=
  let p := pool (memory w) in
  match local_queues_ p !! q with
  | Some d =>
      let '(x, d') := f d in
      Some (x, set_pool (set_locals (<[q := d']> (local_queues_ p)) p) w)
  | None => None
  end.

Definition load_counter (c : Counter) (s : PoolStats) : N :=
  match c with
  | Submitted => total_tasks_submitted s
  | Completed => total_tasks_completed s
  | Stolen => total_tasks_stolen s
  end.

Definition store_counter (c : Counter) (v : N) (s : PoolStats) : PoolStats :=
  match c with
  | Submitted => set_submitted v s
  | Completed => set_completed v s
  | Stolen => set_stolen v s
  end.

(** [Task::operator()]: [if (func_) func_();], where [func_] calls the
    packaged task it points to. *)
Definition call_task (task : Task) (l : list PackagedTask)
  : option (option Exception * list PackagedTask) :=
  match func_ task with
  | None => Some (None, l)
  | Some (RunPackaged task_ptr) =>
      match l !! task_ptr with
      | Some pt =>
          let '(e, pt') := packaged_call pt in
          Some (e, <[task_ptr := pt']> l)
      | None => None
      end
  end.

(** The effect of an action on the data: its result and the new memory,
    or [None] when the thread cannot proceed (a [wait_pop] whose
    predicate is false).  The destruction of the tasks that [clear()]
    removes is added in [Cancel.step]; who holds the mutex of the queue,
    who is blocked on its condition variable and whom a notification
    wakes is added in [Sync.step]. *)
Definition perform {X : Type} (o : Op X) (w : World) : option (X * World) :=
  let p := pool (memory w) in
  match o in Op X return option (X * World) with
  | DequePushFront q task => on_deque q (fun d => (tt, Deque.push_front task d)) w
  | DequePopFront q => on_deque q Deque.pop_front w
  | DequeSteal q => on_deque q Deque.steal w
  | DequeSize q => on_deque q (fun d => (Deque.size d, d)) w
  | QueuePush task =>
      Some (tt, set_pool (set_global (TaskQueueM.push task (global_queue_ p)) p) w)
  | QueueTryPop =>
      let '(r, q') := TaskQueueM.try_pop (global_queue_ p) in
      Some (r, set_pool (set_global q' p) w)
  | QueueWaitPop =>
      match TaskQueueM.wait_pop (stop_ p) (global_queue_ p) with
      | Some (r, q') => Some (r, set_pool (set_global q' p) w)
      | None => None
      end
  | QueueSize => Some (TaskQueueM.size (global_queue_ p), w)
  | QueueClear =>
      Some (tt, set_pool (set_global (TaskQueueM.clear (global_queue_ p)) p) w)
  | QueueNotifyAll => Some (tt, w)
  | StopLoad => Some (stop_ p, w)
  | StopStore b => Some (tt, set_pool (set_stop b p) w)
  | ActiveIncr => Some (tt, set_pool (set_active (size_t_incr (active_tasks_ p)) p) w)
  | ActiveDecr => Some (tt, set_pool (set_active (size_t_decr (active_tasks_ p)) p) w)
  | ActiveLoad => Some (active_tasks_ p, w)
  | StatsLoad c => Some (load_counter c (stats_ p), w)
  | StatsStore c v => Some (tt, set_pool (set_stats (store_counter c v (stats_ p)) p) w)
  | TimeLoad => Some (total_execution_time (stats_ p), w)
  | TimeStore v => Some (tt, set_pool (set_stats (set_execution_time v (stats_ p)) p) w)
  | MakePackaged f =>
      Some (length (packaged_tasks (memory w)),
            set_packaged (packaged_tasks (memory w) ++ [mkPackaged f Unresolved]) w)
  | CallTask task =>
      match call_task task (packaged_tasks (memory w)) with
      | Some (e, l') => Some (e, set_packaged l' w)
      | None => None
      end
  | ClockNow => Some (now w, w)
  end.

(** One step of a thread whose program points are of type [S]: an action
    on the shared memory and the next program point for each result, a
    step that touches no shared memory, the wait for a worker thread to
    finish ([std::thread::join]), or nothing left to do. *)
Inductive Action (S : Type) : Type :=
  | Act {X : Type} (o : Op X) (k : X -> S)
  | Tau (next : S)
  | Await (worker : nat) (next : S)
  | Halt.
Arguments Act {S X} o k.
Arguments Tau {S} next.
Arguments Await {S} worker next.
Arguments Halt {S}.

(* ===================================================================== *)
(** ** The worker threads                                                 *)
(* ===================================================================== *)

(** The program points of [ThreadPool::worker_loop] and of the
    [try_steal] it calls, with the local variables that are live there. *)
Inductive WorkerPC : Type :=
  | W_pop_local                              (* 387 *)
  | W_try_global                             (* 391 *)
  | W_steal (i : nat)                        (* 428-432, loop index i *)
  | W_stolen_load (task : Task)              (* 434, the read *)
  | W_stolen_store (task : Task) (v : N)     (* 434, the write *)
  | W_wait_global                            (* 401 *)
  | W_check_stop                             (* 405 *)
  | W_active_incr (task : Task)              (* 412 *)
  | W_clock_start (task : Task)              (* 413 *)
  | W_call (task : Task) (start : Z)         (* 415 *)
  | W_clock_end (start : Z)                  (* 417 *)
  | W_time_load (elapsed : Z)                (* 418, the read *)
  | W_time_store (v : Z)                     (* 418, the write *)
  | W_completed_load                         (* 419, the read *)
  | W_completed_store (v : N)                (* 419, the write *)
  | W_active_decr                            (* 420 *)
  | W_exited                                 (* after the break of 406 *)
  | W_terminated (e : Exception).            (* an exception left the loop *)

(** [worker_loop(worker_id)] in a pool of [n] threads. *)
Definition worker_loop (n worker_id : nat) (pc : WorkerPC) : Action WorkerPC :=
  match pc with
  | W_pop_local =>
      Act (DequePopFront worker_id) (fun task =>
        match task with
        | Some t => W_active_incr t
        | None => W_try_global
        end)
  | W_try_global =>
      Act QueueTryPop (fun task =>
        match task with
        | Some t => W_active_incr t
        | None => W_steal 0
        end)
  | W_steal i =>
      if (i <? n)%nat then
        let victim := ((worker_id + i + 1) mod n)%nat in
        if (victim =? worker_id)%nat then Tau (W_steal (S i))
        else
          Act (DequeSteal victim) (fun task =>
            match task with
            | Some t => W_stolen_load t
            | None => W_steal (S i)
            end)
      else Tau W_wait_global
  | W_stolen_load t =>
      Act (StatsLoad Stolen) (fun v => W_stolen_store t (size_t_incr v))
  | W_stolen_store t v =>
      Act (StatsStore Stolen v) (fun _ => W_active_incr t)
  | W_wait_global =>
      Act QueueWaitPop (fun task =>
        match task with
        | Some t => W_active_incr t
        | None => W_check_stop
        end)
  | W_check_stop =>
      Act StopLoad (fun stop => if stop then W_exited else W_pop_local)
  | W_active_incr t => Act ActiveIncr (fun _ => W_clock_start t)
  | W_clock_start t => Act ClockNow (fun start => W_call t start)
  | W_call t start =>
      Act (CallTask t) (fun e =>
        match e with
        | None => W_clock_end start
        | Some e => W_terminated e
        end)
  | W_clock_end start => Act ClockNow (fun end_ => W_time_load (end_ - start))
  | W_time_load elapsed => Act TimeLoad (fun v => W_time_store (v + elapsed))
  | W_time_store v => Act (TimeStore v) (fun _ => W_completed_load)
  | W_completed_load =>
      Act (StatsLoad Completed) (fun v => W_completed_store (size_t_incr v))
  | W_completed_store v => Act (StatsStore Completed v) (fun _ => W_active_decr)
  | W_active_decr => Act ActiveDecr (fun _ => W_pop_local)
  | W_exited => Halt
  | W_terminated _ => Halt
  end.

(* ===================================================================== *)
(** ** The threads that call the public interface                         *)
(* ===================================================================== *)

(** A call of a public member function, made by any thread: a thread of
    the program that owns the pool, or a task body running on a worker. *)
Inductive Call : Type :=
  | CallSubmit (f : Outcome)
  | CallSubmitPriority (priority : Z) (f : Outcome)
  | CallWait
  | CallShutdown
  | CallShutdownNow
  | CallDestroy.

(** How a call ends. *)
Inductive Result : Type :=
  | RVoid
  | RFuture (task_ptr : nat)
  | RThrow (e : Exception).

(** The program points of the member functions. *)
Inductive ClientPC : Type :=
  (* submit_priority *)
  | S_check_stop (priority : Z) (f : Outcome)      (* 299 *)
  | S_make (priority : Z) (f : Outcome)            (* 303-307 *)
  | S_push (task_ptr : nat) (task : Task)          (* 309-310 *)
  | S_submitted_load (task_ptr : nat)              (* 312, the read *)
  | S_submitted_store (task_ptr : nat) (v : N)     (* 312, the write *)
  (* wait, with pending() and active() inlined *)
  | Wt_pending_global                              (* 328 *)
  | Wt_pending_local (i : nat) (count : N)         (* 329-331 *)
  | Wt_active                                      (* 339 *)
  | Wt_sleep                                       (* 347 *)
  (* shutdown *)
  | SD_store_stop                                  (* 355 *)
  | SD_notify                                      (* 356 *)
  (* shutdown_now *)
  | SN_store_stop                                  (* 363 *)
  | SN_clear                                       (* 364 *)
  | SN_drain (i : nat)                             (* 365-367 *)
  | SN_notify                                      (* 368 *)
  (* the destructor *)
  | D_store_stop                                   (* 259, 355 *)
  | D_notify                                       (* 259, 356 *)
  | D_join (i : nat)                               (* 260-264 *)
  | C_returned (r : Result).

Definition call_entry (c : Call) : ClientPC :=
  match c with
  | CallSubmit f => S_check_stop 0 f
  | CallSubmitPriority priority f => S_check_stop priority f
  | CallWait => Wt_pending_global
  | CallShutdown => SD_store_stop
  | CallShutdownNow => SN_store_stop
  | CallDestroy => D_store_stop
  end.

(** The member functions of a pool of [n] threads. *)
Definition client_code (n : nat) (pc : ClientPC) : Action ClientPC :=
  match pc with
  | S_check_stop priority f =>
      Act StopLoad (fun stop =>
        if stop then C_returned (RThrow Pool.rejected) else S_make priority f)
  | S_make priority f =>
      Act (MakePackaged f) (fun task_ptr =>
        S_push task_ptr (Pool.make_task task_ptr priority))
  | S_push task_ptr task =>
      Act (QueuePush task) (fun _ => S_submitted_load task_ptr)
  | S_submitted_load task_ptr =>
      Act (StatsLoad Submitted) (fun v => S_submitted_store task_ptr (size_t_incr v))
  | S_submitted_store task_ptr v =>
      Act (StatsStore Submitted v) (fun _ => C_returned (RFuture task_ptr))
  | Wt_pending_global =>
      Act QueueSize (fun sz => Wt_pending_local 0 (N.of_nat sz))
  | Wt_pending_local i count =>
      if (i <? n)%nat then
        Act (DequeSize i) (fun sz =>
          Wt_pending_local (S i) (size_t_add count (N.of_nat sz)))
      else if (0 <? count)%N then Tau Wt_sleep
      else Tau Wt_active
  | Wt_active =>
      Act ActiveLoad (fun a => if (0 <? a)%N then Wt_sleep else C_returned RVoid)
  | Wt_sleep => Tau Wt_pending_global
  | SD_store_stop => Act (StopStore true) (fun _ => SD_notify)
  | SD_notify => Act QueueNotifyAll (fun _ => C_returned RVoid)
  | SN_store_stop => Act (StopStore true) (fun _ => SN_clear)
  | SN_clear => Act QueueClear (fun _ => SN_drain 0)
  | SN_drain i =>
      if (i <? n)%nat then
        Act (DequePopFront i) (fun task =>
          match task with
          | Some _ => SN_drain i
          | None => SN_drain (S i)
          end)
      else Tau SN_notify
  | SN_notify => Act QueueNotifyAll (fun _ => C_returned RVoid)
  | D_store_stop => Act (StopStore true) (fun _ => D_notify)
  | D_notify => Act QueueNotifyAll (fun _ => D_join 0)
  | D_join i =>
      if (i <? n)%nat then Await i (D_join (S i))
      else Tau (C_returned RVoid)
  | C_returned _ => Halt
  end.

(* ===================================================================== *)
(** ** Executions                                                         *)
(* ===================================================================== *)

Record State : Type := mkState {
  world : World;
  workers : list WorkerPC;
  clients : list ClientPC
}.

(** The pool right after its constructor: every worker is at the top of
    its loop. *)
Definition init (num_threads : nat) : State :=
  let p := Pool.create num_threads in
  mkState (mkWorld (mkMemory p []) 0)
          (replicate (num_threads_ p) W_pop_local) [].

Inductive Label : Type :=
  | Tick                       (* time passes *)
  | Spawn (c : Call)           (* a thread starts a call *)
  | StepWorker (i : nat)
  | StepClient (j : nat).

(** One step of a thread at an action [a]: the next program point and the
    new memory, or [None] when the thread is blocked or has finished. *)
Definition run_action {S : Type} (a : Action S) (s : State) : option (S * World) :=
  match a with
  | Act o k =>
      match perform o (world s) with
      | Some (x, w') => Some (k x, w')
      | None => None
      end
  | Tau next => Some (next, world s)
  | Await i next =>
      match workers s !! i with
      | Some W_exited => Some (next, world s)
      | _ => None
      end
  | Halt => None
  end.

Definition threads_of (s : State) : nat := num_threads_ (pool (memory (world s))).

Definition step (l : Label) (s : State) : option State :=
  match l with
  | Tick =>
      Some (mkState (mkWorld (memory (world s)) (now (world s) + 1))
                    (workers s) (clients s))
  | Spawn c => Some (mkState (world s) (workers s) (clients s ++ [call_entry c]))
  | StepWorker i =>
      match workers s !! i with
      | Some pc =>
          match run_action (worker_loop (threads_of s) i pc) s with
          | Some (pc', w') => Some (mkState w' (<[i := pc']> (workers s)) (clients s))
          | None => None
          end
      | None => None
      end
  | StepClient j =>
      match clients s !! j with
      | Some pc =>
          match run_action (client_code (threads_of s) pc) s with
          | Some (pc', w') => Some (mkState w' (workers s) (<[j := pc']> (clients s)))
          | None => None
          end
      | None => None
      end
  end.

(** An execution: the labels are taken in order. *)
Fixpoint run (ls : list Label) (s : State) : option State :=
  match ls with
  | [] => Some s
  | l :: ls' =>
      match step l s with
      | Some s' => run ls' s'
      | None => None
      end
  end.

(** The pool object of a state. *)
Definition the_pool (s : State) : ThreadPool := pool (memory (world s)).

(* ===================================================================== *)
(** ** Histories of calls on one queue and on one deque                   *)
(* ===================================================================== *)

Inductive QueueCall : Type :=
  | QCPush (task : Task)
  | QCTryPop
  | QCWaitPop (stop_flag : bool)
  | QCClear.

(** One call: the task it returns, if any, and the new queue.  A
    [wait_pop] that blocks has not returned: it gives nothing and leaves
    the queue as it is. *)
Definition queue_call (c : QueueCall) (q : TaskQueue) : option Task * TaskQueue :=
  match c with
  | QCPush task => (None, TaskQueueM.push task q)
  | QCTryPop => TaskQueueM.try_pop q
  | QCWaitPop stop_flag =>
      match TaskQueueM.wait_pop stop_flag q with
      | Some r => r
      | None => (None, q)
      end
  | QCClear => (None, TaskQueueM.clear q)
  end.

(** The tasks returned along a history, in order, and the final queue. *)
Fixpoint queue_history (cs : list QueueCall) (q : TaskQueue) : list Task * TaskQueue :=
  match cs with
  | [] => ([], q)
  | c :: cs' =>
      let '(r, q1) := queue_call c q in
      let '(out, q2) := queue_history cs' q1 in
      (option_list r ++ out, q2)
  end.

(** The queue after a history that starts with the empty queue of the
    constructor. *)
Definition queue_after (cs : list QueueCall) : TaskQueue :=
  (queue_history cs (mkTaskQueue [])).2.

Inductive DequeCall : Type :=
  | DCPushFront (task : Task)
  | DCPopFront
  | DCSteal.

(** What a history of calls on one deque has produced. *)
Record DequeLog : Type := mkDequeLog {
  pushed : list Task;       (* given to push_front, in order *)
  popped : list Task;       (* returned by pop_front, in order *)
  stolen : list Task;       (* returned by steal, in order *)
  queued : WorkStealingDeque
}.

Definition deque_call (c : DequeCall) (g : DequeLog) : DequeLog :=
  match c with
  | DCPushFront task =>
      mkDequeLog (pushed g ++ [task]) (popped g) (stolen g)
                 (Deque.push_front task (queued g))
  | DCPopFront =>
      let '(r, d) := Deque.pop_front (queued g) in
      mkDequeLog (pushed g) (popped g ++ option_list r) (stolen g) d
  | DCSteal =>
      let '(r, d) := Deque.steal (queued g) in
      mkDequeLog (pushed g) (popped g) (stolen g ++ option_list r) d
  end.

Definition deque_history (cs : list DequeCall) (d : WorkStealingDeque) : DequeLog :=
  foldl (fun g c => deque_call c g) (mkDequeLog [] [] [] d) cs.

(* ===================================================================== *)
(** ** One thread against any environment                                 *)
(* ===================================================================== *)

(** Whatever the other threads do shows in what the actions of a thread
    return: an environment gives every action its result. *)
Definition Oracle : Type := forall X : Type, Op X -> X.

(** Where a worker looks for a task. *)
Inductive Source : Type :=
  | FromLocal (q : nat)         (* pop_front on local_queues_[q] *)
  | FromGlobalTry               (* try_pop on global_queue_ *)
  | FromSteal (victim : nat)    (* steal on local_queues_[victim] *)
  | FromGlobalWait.             (* wait_pop on global_queue_ *)

Definition source_of {X : Type} (o : Op X) : option Source :=
  match o with
  | DequePopFront q => Some (FromLocal q)
  | QueueTryPop => Some FromGlobalTry
  | DequeSteal q => Some (FromSteal q)
  | QueueWaitPop => Some FromGlobalWait
  | _ => None
  end.

(** What the environment [env] answers at a source. *)
Definition answer (env : Oracle) (s : Source) : option Task :=
  match s with
  | FromLocal q => env _ (DequePopFront q)
  | FromGlobalTry => env _ QueueTryPop
  | FromSteal victim => env _ (DequeSteal victim)
  | FromGlobalWait => env _ QueueWaitPop
  end.

(** The program points at which one iteration of the [while (true)] of
    [worker_loop] has settled: a task is about to be executed, the loop
    starts again, or the thread has left the loop. *)
Definition iteration_over (pc : WorkerPC) : bool :=
  match pc with
  | W_active_incr _ | W_pop_local | W_exited | W_terminated _ => true
  | _ => false
  end.

(** The worker [worker_id] runs [worker_loop] from [pc] in the environment
    [env] until the iteration is over: the sources it has tried, in order,
    and where it ends. *)
Fixpoint worker_fetch (fuel n worker_id : nat) (env : Oracle) (pc : WorkerPC)
  : list Source * WorkerPC :=
  match fuel with
  | O => ([], pc)
  | S fuel' =>
      match worker_loop n worker_id pc with
      | Act o k =>
          let pc' := k (env _ o) in
          let rest := if iteration_over pc' then ([], pc')
                      else worker_fetch fuel' n worker_id env pc' in
          (option_list (source_of o) ++ rest.1, rest.2)
      | Tau pc' =>
          if iteration_over pc' then ([], pc')
          else worker_fetch fuel' n worker_id env pc'
      | Await _ _ => ([], pc)
      | Halt => ([], pc)
      end
  end.

(** The scheduling policy in the words of the specification: the victims
    of worker [worker_id] are all the other workers, in round-robin order
    starting just after it. *)
Definition victims (n worker_id : nat) : list nat :=
  map (fun k => ((worker_id + k) mod n)%nat) (seq 1 (n - 1)).

(** The sources of one iteration, in order: the own deque, the global
    queue without blocking, the victims, the global queue with blocking. *)
Definition sources (n worker_id : nat) : list Source :=
  FromLocal worker_id :: FromGlobalTry ::
  map FromSteal (victims n worker_id) ++ [FromGlobalWait].

(** Trying the sources [l] in order up to the first that gives a task: the
    sources tried, and the task. *)
Fixpoint first_success (env : Oracle) (l : list Source) : list Source * option Task :=
  match l with
  | [] => ([], None)
  | s :: l' =>
      match answer env s with
      | Some t => ([s], Some t)
      | None => (s :: (first_success env l').1, (first_success env l').2)
      end
  end.

(** Where the iteration ends: with a task, at its execution; with none, out
    of the loop when the stop flag is read as set, and at the top of the
    loop otherwise. *)
Definition after_fetch (env : Oracle) (got : option Task) : WorkerPC :=
  match got with
  | Some t => W_active_incr t
  | None => if env _ StopLoad then W_exited else W_pop_local
  end.

(** An environment in which every deque and the queue are empty. *)
Definition quiet_env (stop : bool) : Oracle :=
  fun X o =>
    match o in Op X return X with
    | DequePushFront _ _ => tt
    | DequePopFront _ => None
    | DequeSteal _ => None
    | DequeSize _ => 0%nat
    | QueuePush _ => tt
    | QueueTryPop => None
    | QueueWaitPop => None
    | QueueSize => 0%nat
    | QueueClear => tt
    | QueueNotifyAll => tt
    | StopLoad => stop
    | StopStore _ => tt
    | ActiveIncr => tt
    | ActiveDecr => tt
    | ActiveLoad => 0%N
    | StatsLoad _ => 0%N
    | StatsStore _ _ => tt
    | TimeLoad => 0
    | TimeStore _ => tt
    | MakePackaged _ => 0%nat
    | CallTask _ => None
    | ClockNow => 0
    end.

(* ===================================================================== *)
(** ** parallel_for and parallel_map                                      *)
(* ===================================================================== *)

(** [a - b] on [size_t]. *)
Definition size_t_sub (a b : N) : N := size_t_wrap (a + (size_t_modulus - b))%N.

(** One step of a call [pool.submit(...)] made inside another function:
    the call goes on at the program points of [submit_priority], returns
    its future, or lets its exception through. *)
Definition submit_step {PC : Type} (s : State) (pc : ClientPC)
           (continue : ClientPC -> PC) (returned : nat -> PC) (thrown : Exception -> PC)
  : option (PC * World) :=
  match pc with
  | C_returned (RFuture task_ptr) => Some (returned task_ptr, world s)
  | C_returned (RThrow e) => Some (thrown e, world s)
  | C_returned RVoid => None
  | _ =>
      match run_action (client_code (threads_of s) pc) s with
      | Some (pc', w') => Some (continue pc', w')
      | None => None
      end
  end.

(** How [parallel_for] ends: it returns, an exception of [submit] leaves
    it, or [reserve] throws [std::length_error]. *)
Inductive ForResult : Type :=
  | FVoid
  | FThrow (e : Exception)
  | FLengthError.

(** The program points of [parallel_for], with [futures] as a list of the
    addresses of the packaged tasks. *)
Inductive ForPC : Type :=
  | PF_reserve                                              (* 459 *)
  | PF_loop (i : N) (futures : list nat)                    (* 461 *)
  | PF_submit (i : N) (futures : list nat) (pc : ClientPC)  (* 462 *)
  | PF_wait (k : nat) (futures : list nat)                  (* 465-467 *)
  | PF_returned (r : ForResult).

(** [parallel_for(pool, start, end, func)], where [func i] is what
    [func(i)] does when it runs and [max_size] is [max_size()] of the
    vector of futures: [reserve(n)] throws when [n] exceeds it.
    [f.wait()] blocks until the future is ready. *)
Definition for_code (max_size start end_ : N) (func : N -> Outcome)
           (pc : ForPC) (s : State) : option (ForPC * World) :=
  match pc with
  | PF_reserve =>
      if (max_size <? size_t_sub end_ start)%N
      then Some (PF_returned FLengthError, world s)
      else Some (PF_loop start [], world s)
  | PF_loop i futures =>
      if (i <? end_)%N
      then Some (PF_submit i futures (call_entry (CallSubmit (func i))), world s)
      else Some (PF_wait 0 futures, world s)
  | PF_submit i futures pc =>
      submit_step s pc (PF_submit i futures)
                  (fun task_ptr => PF_loop (size_t_incr i) (futures ++ [task_ptr]))
                  (fun e => PF_returned (FThrow e))
  | PF_wait k futures =>
      match futures !! k with
      | Some task_ptr =>
          match packaged_tasks (memory (world s)) !! task_ptr with
          | Some pt =>
              if future_wait_for pt then Some (PF_wait (S k) futures, world s)
              else None
          | None => None
          end
      | None => Some (PF_returned FVoid, world s)
      end
  | PF_returned _ => None
  end.

(** How [parallel_map] ends. *)
Inductive MapResult : Type :=
  | MValues (results : list Z)
  | MThrow (e : Exception)
  | MLengthError.

(** The program points of [parallel_map]; [rest] is what is left of
    [input]. *)
Inductive MapPC : Type :=
  | PM_reserve                                                       (* 479 *)
  | PM_loop (rest : list Z) (futures : list nat)                     (* 481 *)
  | PM_submit (rest : list Z) (futures : list nat) (pc : ClientPC)   (* 482 *)
  | PM_reserve_results (futures : list nat)                          (* 486 *)
  | PM_get (k : nat) (futures : list nat) (results : list Z)         (* 488-490 *)
  | PM_returned (r : MapResult).

(** [parallel_map(pool, input, func)] on a container of integers, where
    [func item] is what [func(item)] does when it runs.  [f.get()] blocks
    until the future is ready, then gives the value or rethrows. *)
Definition map_code (max_futures max_results : N) (input : list Z)
           (func : Z -> Outcome) (pc : MapPC) (s : State) : option (MapPC * World) :=
  match pc with
  | PM_reserve =>
      if (max_futures <? N.of_nat (length input))%N
      then Some (PM_returned MLengthError, world s)
      else Some (PM_loop input [], world s)
  | PM_loop rest futures =>
      match rest with
      | item :: rest' =>
          Some (PM_submit rest' futures (call_entry (CallSubmit (func item))), world s)
      | [] => Some (PM_reserve_results futures, world s)
      end
  | PM_submit rest futures pc =>
      submit_step s pc (PM_submit rest futures)
                  (fun task_ptr => PM_loop rest (futures ++ [task_ptr]))
                  (fun e => PM_returned (MThrow e))
  | PM_reserve_results futures =>
      if (max_results <? N.of_nat (length futures))%N
      then Some (PM_returned MLengthError, world s)
      else Some (PM_get 0 futures [], world s)
  | PM_get k futures results =>
      match futures !! k with
      | Some task_ptr =>
          match packaged_tasks (memory (world s)) !! task_ptr with
          | Some pt =>
              match future_get pt with
              | Some (inl v) => Some (PM_get (S k) futures (results ++ [v]), world s)
              | Some (inr e) => Some (PM_returned (MThrow e), world s)
              | None => None
              end
          | None => None
          end
      | None => Some (PM_returned (MValues results), world s)
      end
  | PM_returned _ => None
  end.

(** The pool and its threads together with one more thread, the driver,
    whose program is [code]: a step is a step of the pool's side or a step
    of the driver. *)
Record Driven (PC : Type) : Type := mkDriven {
  pool_side : State;
  driver : PC
}.
Arguments mkDriven {PC} pool_side driver.
Arguments pool_side {PC} d.
Arguments driver {PC} d.

Inductive DLabel : Type :=
  | PoolStep (l : Label)
  | DriverStep.

Definition dstep {PC : Type} (code : PC -> State -> option (PC * World))
           (l : DLabel) (u : Driven PC) : option (Driven PC) :=
  match l with
  | PoolStep l' =>
      match step l' (pool_side u) with
      | Some s' => Some (mkDriven s' (driver u))
      | None => None
      end
  | DriverStep =>
      match code (driver u) (pool_side u) with
      | Some (pc', w') =>
          Some (mkDriven (mkState w' (workers (pool_side u)) (clients (pool_side u))) pc')
      | None => None
      end
  end.

Fixpoint drun {PC : Type} (code : PC -> State -> option (PC * World))
         (ls : list DLabel) (u : Driven PC) : option (Driven PC) :=
  match ls with
  | [] => Some u
  | l :: ls' =>
      match dstep code l u with
      | Some u' => drun code ls' u'
      | None => None
      end
  end.

(* ===================================================================== *)
(** ** examples/parallel_sort.cpp: the sequential merge sort              *)
(* ===================================================================== *)

(** The example sorts a [std::vector<int>]; the elements are only compared
    and copied.  A vector is the list of its elements, the indices are
    [size_t]; an access outside the vector is undefined behaviour, [None]
    here.  The allocation of [temp] is taken to succeed. *)

Module MergeSort.

(** [arr[i]], read. *)
Definition vector_at (arr : list Z) (i : N) : option Z := arr !! N.to_nat i.

(** [arr[i] = v]. *)
Definition vector_store (arr : list Z) (i : N) (v : Z) : option (list Z) :=
  match arr !! N.to_nat i with
  | Some _ => Some (<[N.to_nat i := v]> arr)
  | None => None
  end.

(** The first loop of [merge]:
<<
    while (i <= mid && j <= right) {
        if (arr[i] <= arr[j]) {
            temp[k++] = arr[i++];
        } else {
            temp[k++] = arr[j++];
        }
    }
>>
    Every round stores at [temp[k]] and increments [k], so after
    [temp.size()] rounds a further one is outside [temp]:
    [temp.size() + 1] units of fuel are never used up.  It returns [temp],
    [i], [j] and [k]. *)
Fixpoint merge_both (fuel : nat) (arr temp : list Z) (mid right i j k : N)
  : option (list Z * N * N * N) :=
  if (i <=? mid)%N && (j <=? right)%N then
    match fuel with
    | O => None
    | S fuel' =>
        match vector_at arr i, vector_at arr j with
        | Some a, Some b =>
            if (a <=? b)%Z then
              match vector_store temp k a with
              | Some temp' =>
                  merge_both fuel' arr temp' mid right (size_t_incr i) j (size_t_incr k)
              | None => None
              end
            else
              match vector_store temp k b with
              | Some temp' =>
                  merge_both fuel' arr temp' mid right i (size_t_incr j) (size_t_incr k)
              | None => None
              end
        | _, _ => None
        end
    end
  else Some (temp, i, j, k).

(** The second and the third loop of [merge], which differ in the names
    of their variables only:
<<
    while (i <= mid) {
        temp[k++] = arr[i++];
    }
    while (j <= right) {
        temp[k++] = arr[j++];
    }
>>
    [last] is [mid] or [right].  It returns [temp], [i] and [k]. *)
Fixpoint merge_rest (fuel : nat) (arr temp : list Z) (last i k : N)
  : option (list Z * N * N) :=
  if (i <=? last)%N then
    match fuel with
    | O => None
    | S fuel' =>
        match vector_at arr i with
        | Some a =>
            match vector_store temp k a with
            | Some temp' =>
                merge_rest fuel' arr temp' last (size_t_incr i) (size_t_incr k)
            | None => None
            end
        | None => None
        end
    end
  else Some (temp, i, k).

(** The last loop of [merge], where [rest] is what is left of [temp] from
    [temp[i]] on:
<<
    for (size_t i = 0; i < temp.size(); ++i) {
        arr[left + i] = temp[i];
    }
>> *)
Fixpoint copy_back (rest arr : list Z) (left i : N) : option (list Z) :=
  match rest with
  | [] => Some arr
  | v :: rest' =>
      match vector_store arr (size_t_add left i) v with
      | Some arr' => copy_back rest' arr' left (size_t_incr i)
      | None => None
      end
  end.

(** [merge(arr, left, mid, right)]:
<<
    std::vector<T> temp(right - left + 1);
    size_t i = left, j = mid + 1, k = 0;
>>
    and the four loops. *)
Definition merge (arr : list Z) (left mid right : N) : option (list Z) :=
  let temp := replicate (N.to_nat (size_t_add (size_t_sub right left) 1)) 0%Z in
  let fuel := S (length temp) in
  match merge_both fuel arr temp mid right left (size_t_add mid 1) 0 with
  | Some (temp1, i, j, k1) =>
      match merge_rest fuel arr temp1 mid i k1 with
      | Some (temp2, _, k2) =>
          match merge_rest fuel arr temp2 right j k2 with
          | Some (temp3, _, _) => copy_back temp3 arr left 0
          | None => None
          end
      | None => None
      end
  | None => None
  end.

(** [sequential_merge_sort(arr, left, right)]:
<<
    if (left >= right) return;
    size_t mid = left + (right - left) / 2;
    sequential_merge_sort(arr, left, mid);
    sequential_merge_sort(arr, mid + 1, right);
    merge(arr, left, mid, right);
>>
    [fuel] bounds the depth of the recursion. *)
Fixpoint sequential_merge_sort (fuel : nat) (arr : list Z) (left right : N)
  : option (list Z) :=
  if (right <=? left)%N then Some arr
  else
    match fuel with
    | O => None
    | S fuel' =>
        let mid := size_t_add left (size_t_sub right left / 2)%N in
        match sequential_merge_sort fuel' arr left mid with
        | Some arr1 =>
            match sequential_merge_sort fuel' arr1 (size_t_add mid 1) right with
            | Some arr2 => merge arr2 left mid right
            | None => None
            end
        | None => None
        end
    end.

(** The loop of [is_sorted]:
<<
    for (size_t i = 1; i < vec.size(); ++i) {
        if (vec[i] < vec[i-1]) return false;
    }
    return true;
>> *)
Fixpoint is_sorted_loop (fuel : nat) (vec : list Z) (i : N) : option bool :=
  if (i <? N.of_nat (length vec))%N then
    match fuel with
    | O => None
    | S fuel' =>
        match vector_at vec i, vector_at vec (size_t_sub i 1) with
        | Some a, Some b =>
            if (a <? b)%Z then Some false
            else is_sorted_loop fuel' vec (size_t_incr i)
        | _, _ => None
        end
    end
  else Some true.

(** [is_sorted(vec)]; the loop makes fewer than [vec.size()] rounds. *)
Definition is_sorted (vec : list Z) : option bool :=
  is_sorted_loop (length vec) vec 1.

End MergeSort.

(* ===================================================================== *)
(** ** The destruction of discarded tasks                                 *)
(* ===================================================================== *)

(** [step] follows the data of the pool.  This section adds what the
    destructors do to the packaged tasks.

    The [std::shared_ptr] to a packaged task (line 303) is captured by
    the lambda of the [Task] (line 309); the only other copy is the local
    variable of [submit_priority], which goes when the call returns.  A
    [Task] that is destroyed without having been called takes its
    packaged task with it, and [~packaged_task] abandons the shared
    state: a state that is not ready is made ready with
    [std::future_error(broken_promise)].  Tasks are destroyed in this way
    by [clear()], whose [queue_.pop()] destroys the task on top of the
    queue, and by the loop of [shutdown_now()] over the local deques,
    which drops what [pop_front()] returns.  (A [Task] that a worker has
    called is destroyed at the end of the iteration, when the shared
    state is ready: nothing changes then.)

    The promise is broken here at the step that discards the task.  When
    the submitter of the task has pushed it and has not returned yet, its
    local copy keeps the packaged task alive until it returns, at which
    point the promise is broken in the same way; the caller has no future
    in its hands before that.

    The tasks that are still queued when [~ThreadPool] ends are destroyed
    with the members of the pool, and their promises are broken likewise.
    The executions end with the return of the destructor and do not
    follow that. *)

Module Cancel.

(** [~packaged_task]. *)
Definition abandon (pt : PackagedTask) : PackagedTask :=
  match shared_state pt with
  | Unresolved => mkPackaged (callable pt) (Failure future_error_broken_promise)
  | _ => pt
  end.

(** [~Task] on a task that has not been called. *)
Definition destroy_task (task : Task) (l : list PackagedTask) : list PackagedTask :=
  match func_ task with
  | Some (RunPackaged task_ptr) =>
      match l !! task_ptr with
      | Some pt => <[task_ptr := abandon pt]> l
      | None => l
      end
  | None => l
  end.

(** The tasks are destroyed one after the other; the order makes no
    difference to the result. *)
Definition destroy_tasks (tasks : list Task) (l : list PackagedTask)
  : list PackagedTask :=
  foldl (fun l' task => destroy_task task l') l tasks.

(** The tasks that a step discards: those in the global queue for the
    [clear()] of line 364, the task that [pop_front()] returns at line
    366. *)
Definition discarded (l : Label) (s : State) : list Task :=
  match l with
  | StepClient j =>
      match clients s !! j with
      | Some SN_clear => queue_ (global_queue_ (the_pool s))
      | Some (SN_drain i) =>
          if (i <? threads_of s)%nat then
            match local_queues_ (the_pool s) !! i with
            | Some d => option_list (Deque.pop_front d).1
            | None => []
            end
          else []
      | _ => []
      end
  | _ => []
  end.

(** One step of a thread, with the destruction of the tasks it
    discards. *)
Definition step (l : Label) (s : State) : option State :=
  match step l s with
  | Some s' =>
      Some (mkState
              (set_packaged
                 (destroy_tasks (discarded l s) (packaged_tasks (memory (world s'))))
                 (world s'))
              (workers s') (clients s'))
  | None => None
  end.

Fixpoint run (ls : list Label) (s : State) : option State :=
  match ls with
  | [] => Some s
  | l :: ls' =>
      match step l s with
      | Some s' => run ls' s'
      | None => None
      end
  end.

(** The tasks that are queued: in the global queue, then in the local
    deques, front first. *)
Definition pending_tasks (p : ThreadPool) : list Task :=
  queue_ (global_queue_ p) ++ concat (map deque_ (local_queues_ p)).

(** [shutdown_now()] on the memory: the pool, and the packaged tasks of
    the tasks that were queued. *)
Definition shutdown_now (m : Memory) : Memory :=
  mkMemory (Pool.shutdown_now (pool m))
           (destroy_tasks (pending_tasks (pool m)) (packaged_tasks m)).

End Cancel.

(* ===================================================================== *)
(** ** The mutex and the condition variable of the global queue           *)
(* ===================================================================== *)

(** In [step] a worker in [wait_pop] cannot move while the predicate of
    its wait is false, and can move as soon as it is true.  The code gets
    there with [mutex_] and [cv_], and this section follows them.

    - [push], [try_pop], [size] and [clear] are critical sections of
      [mutex_]; [push] calls [cv_.notify_one()] after its critical
      section (lines 79-84).
    - [wait_pop] locks [mutex_] and evaluates the predicate
      [!queue_.empty() || stop_flag.load()] (lines 103-106).  When it is
      true the task is taken, or [nullopt] returned, in the same critical
      section.  When it is false the worker still holds [mutex_]; its
      next step is to block in [cv_.wait], which releases [mutex_].  A
      worker that is blocked moves again only after a [notify_one] that
      picks it, a [notify_all], or a spurious wake-up, and then starts
      over: it locks [mutex_] and evaluates the predicate.
    - [stop_] is a [std::atomic<bool>]: [stop_.store(true)] (lines 355
      and 363) takes no mutex, and neither does [notify_all()] (line
      137).

    An execution here is an execution of the threads in which some steps
    are delayed and some steps of waiting and waking are added. *)

Module Sync.

(** What an action does with [mutex_] and [cv_]. *)
Inductive QueueUse : Type :=
  | NoLock
  | Locks
  | LocksNotifyOne
  | NotifyAll
  | Waits.

Definition queue_use {X : Type} (o : Op X) : QueueUse :=
  match o with
  | QueuePush _ => LocksNotifyOne
  | QueueTryPop | QueueSize | QueueClear => Locks
  | QueueWaitPop => Waits
  | QueueNotifyAll => NotifyAll
  | _ => NoLock
  end.

Definition use_of {S : Type} (a : Action S) : QueueUse :=
  match a with
  | Act o _ => queue_use o
  | _ => NoLock
  end.

(** What the next step of a thread does with them. *)
Definition use_at (l : Label) (s : State) : QueueUse :=
  match l with
  | StepWorker i =>
      match workers s !! i with
      | Some pc => use_of (worker_loop (threads_of s) i pc)
      | None => NoLock
      end
  | StepClient j =>
      match clients s !! j with
      | Some pc => use_of (client_code (threads_of s) pc)
      | None => NoLock
      end
  | _ => NoLock
  end.

Record SyncState : Type := mkSync {
  threads : State;
  (* the worker inside [cv_.wait] that holds [mutex_]: its predicate was
     false and it has not blocked yet *)
  holder : option nat;
  (* the workers blocked in [cv_.wait] *)
  blocked : list nat;
  (* the callers of [push] between its critical section and
     [cv_.notify_one()] *)
  notifying : list nat
}.

Definition init (num_threads : nat) : SyncState :=
  mkSync (init num_threads) None [] [].

Inductive SyncLabel : Type :=
  | Thread (l : Label)                        (* a step of a thread *)
  | NotifyOne (j : nat) (woken : option nat)  (* line 83, and the waiter it wakes *)
  | SpuriousWake (i : nat).                   (* cv_.wait returns unnotified *)

Definition member (i : nat) (l : list nat) : bool := existsb (Nat.eqb i) l.

Definition without (i : nat) (l : list nat) : list nat :=
  List.filter (fun k => negb (Nat.eqb i k)) l.

Definition free (σ : SyncState) : bool :=
  match holder σ with
  | None => true
  | Some _ => false
  end.

(** The thread moves as in [Cancel.step]. *)
Definition moves (l : Label) (σ : SyncState) : option SyncState :=
  match Cancel.step l (threads σ) with
  | Some s' => Some (mkSync s' (holder σ) (blocked σ) (notifying σ))
  | None => None
  end.

(** The next step of a thread that is neither blocked in [cv_.wait] nor
    about to block. *)
Definition thread_step (l : Label) (σ : SyncState) : option SyncState :=
  match use_at l (threads σ) with
  | NoLock => moves l σ
  | Locks => if free σ then moves l σ else None
  | LocksNotifyOne =>
      if free σ then
        match moves l σ, l with
        | Some σ', StepClient j =>
            Some (mkSync (threads σ') (holder σ') (blocked σ') (j :: notifying σ'))
        | r, _ => r
        end
      else None
  | NotifyAll =>
      match moves l σ with
      | Some σ' => Some (mkSync (threads σ') (holder σ') [] (notifying σ'))
      | None => None
      end
  | Waits =>
      if free σ then
        match moves l σ, l with
        | Some σ', _ => Some σ'
        | None, StepWorker i =>
            Some (mkSync (threads σ) (Some i) (blocked σ) (notifying σ))
        | None, _ => None
        end
      else None
  end.

Definition step (l : SyncLabel) (σ : SyncState) : option SyncState :=
  match l with
  | Thread (StepWorker i) =>
      if member i (blocked σ) then None
      else
        match holder σ with
        | Some i' =>
            if (i =? i')%nat
            then Some (mkSync (threads σ) None (blocked σ ++ [i]) (notifying σ))
            else thread_step (StepWorker i) σ
        | None => thread_step (StepWorker i) σ
        end
  | Thread (StepClient j) =>
      if member j (notifying σ) then None else thread_step (StepClient j) σ
  | Thread l' => moves l' σ
  | NotifyOne j woken =>
      if member j (notifying σ) then
        match woken with
        | Some i =>
            if member i (blocked σ)
            then Some (mkSync (threads σ) (holder σ) (without i (blocked σ))
                              (without j (notifying σ)))
            else None
        | None =>
            match blocked σ with
            | [] => Some (mkSync (threads σ) (holder σ) [] (without j (notifying σ)))
            | _ :: _ => None
            end
        end
      else None
  | SpuriousWake i =>
      if member i (blocked σ)
      then Some (mkSync (threads σ) (holder σ) (without i (blocked σ)) (notifying σ))
      else None
  end.

Fixpoint run (ls : list SyncLabel) (σ : SyncState) : option SyncState :=
  match ls with
  | [] => Some σ
  | l :: ls' =>
      match step l σ with
      | Some σ' => run ls' σ'
      | None => None
      end
  end.

End Sync.

(* ===================================================================== *)
(** * The vocabulary of the statements                                    *)
(* ===================================================================== *)

(** ** The heap of the priority queue *)

(** The first [n] elements of [c] form a heap: no parent has a larger
    priority value than its children. *)
Definition heap_on (n : nat) (c : list Task) : Prop :=
  forall i x y, (0 < i < n)%nat ->
    c !! i = Some x -> c !! ((i - 1) / 2)%nat = Some y ->
    priority_ y <= priority_ x.

(** What [__push_heap] needs of the vector around the hole [h], for the
    value [v] that will fill it. *)
Record hole_ok (n : nat) (c : list Task) (h : nat) (v : Task) : Prop := {
  hole_others : forall i x y, (0 < i < n)%nat -> i <> h ->
    c !! i = Some x -> c !! ((i - 1) / 2)%nat = Some y ->
    priority_ y <= priority_ x;
  hole_grand : forall i x y, (0 < i < n)%nat -> (0 < h)%nat ->
    ((i - 1) / 2)%nat = h ->
    c !! i = Some x -> c !! ((h - 1) / 2)%nat = Some y ->
    priority_ y <= priority_ x;
  hole_below : forall i x, (0 < i < n)%nat -> ((i - 1) / 2)%nat = h ->
    c !! i = Some x -> priority_ v <= priority_ x
}.

(** The invariant of the vector of a [std::priority_queue]. *)
Definition heap_ordered (c : list Task) : Prop := heap_on (length c) c.

(** Four tasks of priority [0], told apart by the packaged task they
    point to. *)
Definition same_priority_tasks : list Task :=
  [Pool.make_task 0 0; Pool.make_task 1 0; Pool.make_task 2 0; Pool.make_task 3 0].

(** ** The deque *)

(** What is conserved: the tasks the deque started with and those pushed
    since are those returned and those still queued. *)
Definition conserved (init : list Task) (g : DequeLog) : Prop :=
  init ++ pushed g ≡ₚ popped g ++ stolen g ++ deque_ (queued g).

(** ** The worker *)

(** The victims the loop of [try_steal] of worker [worker_id] visits from
    index [i] on, in a pool of [n] threads. *)
Definition loop_victims (n worker_id i : nat) : list nat :=
  omap (fun j => let victim := ((worker_id + j + 1) mod n)%nat in
                 if (victim =? worker_id)%nat then None else Some victim)
       (seq i (n - i)).

(** ** Executions *)

(** A call that has thrown was rejected, and the stop flag is set. *)
Definition rejections_justified (s : State) : Prop :=
  forall j e, clients s !! j = Some (C_returned (RThrow e)) ->
    e = Pool.rejected /\ stop_ (the_pool s) = true.

(** Every local deque of the pool is empty. *)
Definition deques_empty (p : ThreadPool) : Prop :=
  Forall (fun d => deque_ d = []) (local_queues_ p).

(** The program points of [try_steal] after a successful [steal]. *)
Definition has_stolen (pc : WorkerPC) : bool :=
  match pc with
  | W_stolen_load _ | W_stolen_store _ _ => true
  | _ => false
  end.

(** No task is on a local deque, none has been stolen, and no worker is
    past a successful [steal]. *)
Definition no_local_work (s : State) : Prop :=
  deques_empty (the_pool s) /\
  total_tasks_stolen (stats_ (the_pool s)) = 0%N /\
  Forall (fun pc => has_stolen pc = false) (workers s).

(** There is one local deque for each worker. *)
Definition deques_counted (s : State) : Prop :=
  length (local_queues_ (the_pool s)) = threads_of s.

(** [push_front] among the actions. *)
Definition is_push_front {X : Type} (o : Op X) : bool :=
  match o with
  | DequePushFront _ _ => true
  | _ => false
  end.

(** The action of a program point is not a [push_front]. *)
Definition never_pushes_front {S : Type} (a : Action S) : Prop :=
  match a with
  | Act o _ => is_push_front o = false
  | _ => True
  end.

(** [k] steps of the caller [j], with no step of another thread in
    between. *)
Definition alone (j k : nat) (s : State) : option State :=
  run (replicate k (StepClient j)) s.

(** The program points of [shutdown_now]. *)
Definition in_shutdown_now (pc : ClientPC) : bool :=
  match pc with
  | SN_store_stop | SN_clear | SN_drain _ | SN_notify => true
  | _ => false
  end.

(** [1] when the task [t] is the closure around the packaged task at
    [ptr]. *)
Definition holds (ptr : nat) (t : Task) : nat :=
  if decide (func_ t = Some (RunPackaged ptr)) then 1%nat else 0%nat.

(** The task a worker has taken and not yet called. *)
Definition worker_holds (ptr : nat) (pc : WorkerPC) : nat :=
  match pc with
  | W_stolen_load t | W_stolen_store t _ | W_active_incr t
  | W_clock_start t | W_call t _ => holds ptr t
  | _ => 0%nat
  end.

(** The task a [submit_priority] has built and not yet pushed. *)
Definition client_holds (ptr : nat) (pc : ClientPC) : nat :=
  match pc with
  | S_push _ t => holds ptr t
  | _ => 0%nat
  end.

(** How many tasks not yet called point to the packaged task at [ptr]:
    in the global queue, in the hands of a worker, in those of a
    submitter. *)
Definition owners (ptr : nat) (s : State) : nat :=
  (sum_list_with (holds ptr) (queue_ (global_queue_ (the_pool s)))
   + sum_list_with (worker_holds ptr) (workers s)
   + sum_list_with (client_holds ptr) (clients s))%nat.

(** The worker thread has ended with an exception. *)
Definition is_terminated (pc : WorkerPC) : bool :=
  match pc with
  | W_terminated _ => true
  | _ => false
  end.

(** What every execution keeps true. *)
Record exec_inv (s : State) : Prop := mkExecInv {
  inv_local : no_local_work s;
  inv_heap : heap_ordered (queue_ (global_queue_ (the_pool s)));
  inv_once : forall ptr, (owners ptr s <= 1)%nat;
  inv_fresh : forall ptr, (1 <= owners ptr s)%nat ->
    exists pt, packaged_tasks (memory (world s)) !! ptr = Some pt /\
               shared_state pt = Unresolved;
  inv_alive : Forall (fun pc => is_terminated pc = false) (workers s)
}.

(** ** Some executions *)

(** A task whose body throws is submitted to a pool of two workers, and
    worker 0 takes it up to its call. *)
Definition throwing_run : list Label :=
  [Spawn (CallSubmit (Throws (user_exception 3)))]
  ++ replicate 5 (StepClient 0) ++ replicate 4 (StepWorker 0).

(** The state this run leads to. *)
Definition throwing_state : State :=
  Eval vm_compute in
    match run throwing_run (init 2) with
    | Some s => s
    | None => init 2
    end.

(** One task is submitted to a pool of one worker; the worker takes it
    from the global queue (lines 387 and 391) and has not yet reached
    [++active_tasks_] (line 412) when another thread calls [wait()], which
    reads the sizes of the queues and the number of active tasks. *)
Definition wait_race : list Label :=
  [Spawn (CallSubmit (Returns 7))] ++ replicate 5 (StepClient 0)
  ++ [StepWorker 0; StepWorker 0]
  ++ [Spawn CallWait] ++ replicate 4 (StepClient 1).

(** The state this run leads to. *)
Definition wait_race_state : State :=
  Eval vm_compute in
    match run wait_race (init 1) with
    | Some s => s
    | None => init 1
    end.

(** Two tasks are submitted to a pool of two workers; each worker
    executes one and reads [total_tasks_completed] (line 419) before the
    other has written it. *)
Definition lost_update_run : list Label :=
  [Spawn (CallSubmit (Returns 1))] ++ replicate 5 (StepClient 0)
  ++ [Spawn (CallSubmit (Returns 2))] ++ replicate 5 (StepClient 1)
  ++ replicate 9 (StepWorker 0) ++ replicate 9 (StepWorker 1)
  ++ [StepWorker 0; StepWorker 0; StepWorker 1; StepWorker 1].

(** The state this run leads to. *)
Definition lost_update_state : State :=
  Eval vm_compute in
    match run lost_update_run (init 2) with
    | Some s => s
    | None => init 2
    end.

(** Three tasks are submitted; worker 0 executes the first and reads
    [total_tasks_completed] as [0]; worker 1 then executes the other two
    and counts them; worker 0 is about to write [1]. *)
Definition stale_store_run : list Label :=
  [Spawn (CallSubmit (Returns 1))] ++ replicate 5 (StepClient 0)
  ++ [Spawn (CallSubmit (Returns 2))] ++ replicate 5 (StepClient 1)
  ++ [Spawn (CallSubmit (Returns 3))] ++ replicate 5 (StepClient 2)
  ++ replicate 9 (StepWorker 0) ++ replicate 22 (StepWorker 1).

(** The state this run leads to. *)
Definition stale_store_state : State :=
  Eval vm_compute in
    match run stale_store_run (init 2) with
    | Some s => s
    | None => init 2
    end.

(** ** Orders and conservation on the queue *)

(** The tasks come in ascending order of priority value: none is followed
    by a task of a smaller priority value. *)
Fixpoint ascending (l : list Task) : Prop :=
  match l with
  | [] => True
  | t :: l' => (forall u, u ∈ l' -> priority t <= priority u) /\ ascending l'
  end.

(** The tasks given to [push] along a history, in order. *)
Definition queue_pushed (cs : list QueueCall) : list Task :=
  omap (fun c => match c with QCPush task => Some task | _ => None end) cs.

Definition is_clear (c : QueueCall) : bool :=
  match c with
  | QCClear => true
  | _ => false
  end.

(** ** The pool as a whole *)

(** How many tasks are queued in the pool: in the global queue and in the
    local deques. *)
Definition queued_tasks (p : ThreadPool) : nat :=
  (TaskQueueM.size (global_queue_ p)
   + sum_list_with Deque.size (local_queues_ p))%nat.

(** The first of the deques at the indices [vs] that is not empty. *)
Fixpoint first_nonempty (vs : list nat) (qs : list WorkStealingDeque) : option nat :=
  match vs with
  | [] => None
  | v :: vs' =>
      match qs !! v with
      | Some d => if Deque.empty d then first_nonempty vs' qs else Some v
      | None => first_nonempty vs' qs
      end
  end.

(** The pool once the oldest task of the deque [victim] has been stolen
    and counted. *)
Definition stolen_from (victim : nat) (p : ThreadPool) : ThreadPool :=
  match local_queues_ p !! victim with
  | Some q =>
      set_stats (set_stolen (size_t_incr (total_tasks_stolen (stats_ p))) (stats_ p))
        (set_locals (<[victim := mkDeque (removelast (deque_ q))]> (local_queues_ p)) p)
  | None => p
  end.

(** The oldest task of the deque [victim]. *)
Definition oldest_of (victim : nat) (p : ThreadPool) : option Task :=
  match local_queues_ p !! victim with
  | Some q => last (deque_ q)
  | None => None
  end.

(** ** Futures *)

(** The shared state a packaged task gets when its callable has run. *)
Definition resolved_as (f : Outcome) : SharedState :=
  match f with
  | Returns v => Value v
  | Throws e => Failure e
  end.

(** What [get()] gives on the future of a callable that has run. *)
Definition result_of (f : Outcome) : Z + Exception :=
  match f with
  | Returns v => inl v
  | Throws e => inr e
  end.

(** The packaged tasks of [l] are still there in [l'], with the same
    callable; those that were resolved have not changed, the others are as
    before or hold the outcome of their callable. *)
Definition futures_kept (l l' : list PackagedTask) : Prop :=
  forall ptr pt, l !! ptr = Some pt ->
    exists pt', l' !! ptr = Some pt' /\
      callable pt' = callable pt /\
      (shared_state pt' = shared_state pt \/
       (shared_state pt = Unresolved /\
        shared_state pt' = resolved_as (callable pt))).

(** The labels that start a [shutdown_now()] or the destructor. *)
Definition is_cancel (l : Label) : bool :=
  match l with
  | Spawn CallShutdownNow | Spawn CallDestroy => true
  | _ => false
  end.

(** The execution has no [shutdown_now()] and no destructor: no task
    object is destroyed before it has run, and a future gets ready only
    through the call of its task. *)
Definition cancel_free (ls : list Label) : bool :=
  forallb (fun l => negb (is_cancel l)) ls.

(** ** The callers along an execution *)

(** The call a label starts, if any. *)
Definition spawned (l : Label) : list Call :=
  match l with
  | Spawn c => [c]
  | _ => []
  end.

(** The calls started along an execution, in order: the one of caller [j]
    is at index [j]. *)
Definition calls_of (ls : list Label) : list Call := concat (map spawned ls).

(** The priority and the callable of a submission. *)
Definition submission (c : Call) : option (Z * Outcome) :=
  match c with
  | CallSubmit f => Some (0, f)
  | CallSubmitPriority priority f => Some (priority, f)
  | _ => None
  end.

(** The future a caller is about to return, or has returned. *)
Definition future_of (pc : ClientPC) : option nat :=
  match pc with
  | S_push task_ptr _ | S_submitted_load task_ptr | S_submitted_store task_ptr _
  | C_returned (RFuture task_ptr) => Some task_ptr
  | _ => None
  end.

(** The program point [pc] of a caller agrees with the call [c] it makes:
    a submission is at its own priority and callable, and past the
    allocation its packaged task holds its callable. *)
Definition tracks (c : Call) (pc : ClientPC) (l : list PackagedTask) : Prop :=
  match pc with
  | S_check_stop priority f | S_make priority f => submission c = Some (priority, f)
  | S_push task_ptr task =>
      exists priority f,
        submission c = Some (priority, f) /\
        task = Pool.make_task task_ptr priority /\
        callable <$> l !! task_ptr = Some f
  | S_submitted_load task_ptr | S_submitted_store task_ptr _
  | C_returned (RFuture task_ptr) =>
      exists priority f,
        submission c = Some (priority, f) /\ callable <$> l !! task_ptr = Some f
  | _ => True
  end.

(** A shared state is unresolved or holds the outcome of the callable. *)
Definition faithful (pt : PackagedTask) : Prop :=
  shared_state pt = Unresolved \/ shared_state pt = resolved_as (callable pt).

(** What every execution keeps true of the callers and their futures. *)
Record history_inv (cs : list Call) (s : State) : Prop := mkHistoryInv {
  hist_callers : length (clients s) = length cs;
  hist_tracks : forall j c pc,
    cs !! j = Some c -> clients s !! j = Some pc ->
    tracks c pc (packaged_tasks (memory (world s)));
  hist_distinct : forall j j' pc pc' ptr,
    clients s !! j = Some pc -> clients s !! j' = Some pc' ->
    future_of pc = Some ptr -> future_of pc' = Some ptr -> j = j';
  hist_faithful : Forall faithful (packaged_tasks (memory (world s)))
}.

(** ** Shutdown and destruction *)

(** How far the destructor has got: past [shutdown()] the stop flag is
    set, at [D_join i] the workers before [i] have left their loop, and
    when it returns all of them have. *)
Definition joined (pc : ClientPC) (s : State) : Prop :=
  match pc with
  | D_store_stop => True
  | D_notify => stop_ (the_pool s) = true
  | D_join i =>
      stop_ (the_pool s) = true /\
      forall k, (k < i)%nat -> (k < threads_of s)%nat -> workers s !! k = Some W_exited
  | C_returned r =>
      r = RVoid /\ stop_ (the_pool s) = true /\
      Forall (fun pc => pc = W_exited) (workers s)
  | _ => False
  end.

(** What every execution keeps true of the callers of the destructor. *)
Record join_inv (cs : list Call) (s : State) : Prop := mkJoinInv {
  join_callers : length (clients s) = length cs;
  join_workers : length (workers s) = threads_of s;
  join_joined : forall j pc,
    cs !! j = Some CallDestroy -> clients s !! j = Some pc -> joined pc s
}.

(** A worker has left its loop only when the stop flag is set. *)
Definition exits_justified (s : State) : Prop :=
  forall i, workers s !! i = Some W_exited -> stop_ (the_pool s) = true.

(** The destructor of a pool of two idle workers: it sets the stop flag,
    both workers leave their loop, and it joins them. *)
Definition destroyed_run : list Label :=
  [Spawn CallDestroy; StepClient 0; StepClient 0]
  ++ replicate 7 (StepWorker 0) ++ replicate 7 (StepWorker 1)
  ++ replicate 3 (StepClient 0).

(** ** Active tasks *)

(** [1] for a worker between [++active_tasks_] (line 412) and
    [--active_tasks_] (line 420). *)
Definition busy (pc : WorkerPC) : nat :=
  match pc with
  | W_clock_start _ | W_call _ _ | W_clock_end _ | W_time_load _ | W_time_store _
  | W_completed_load | W_completed_store _ | W_active_decr => 1%nat
  | _ => 0%nat
  end.

(** How many workers are between the two. *)
Definition running (s : State) : nat := sum_list_with busy (workers s).

(** [active_tasks_] counts them. *)
Definition active_counted (s : State) : Prop :=
  active_tasks_ (the_pool s) = size_t_wrap (N.of_nat (running s)).

(** ** What becomes of a task *)

(** [1] when the packaged task at [ptr] exists and has not run. *)
Definition unresolved_at (ptr : nat) (l : list PackagedTask) : nat :=
  match l !! ptr with
  | Some (mkPackaged _ Unresolved) => 1%nat
  | _ => 0%nat
  end.

(** No caller is inside [shutdown_now()]. *)
Definition no_cancel (s : State) : Prop :=
  Forall (fun pc => in_shutdown_now pc = false) (clients s).

(** Every packaged task that has not run is held by exactly one task
    object, and those that have run by none. *)
Definition accounted (s : State) : Prop :=
  forall ptr, owners ptr s = unresolved_at ptr (packaged_tasks (memory (world s))).

(** ** Waiting *)

(** The task of [throwing_run] is about to be called by worker 0 when
    another thread calls [wait()]. *)
Definition waiting_run : list Label := throwing_run ++ [Spawn CallWait].

(** The state this run leads to. *)
Definition waiting_state : State :=
  Eval vm_compute in
    match run waiting_run (init 2) with
    | Some s => s
    | None => init 2
    end.

(** ** parallel_for and parallel_map *)

(** The indices [start], [start + 1], ... *)
Fixpoint N_seq (start : N) (len : nat) : list N :=
  match len with
  | O => []
  | S len' => start :: N_seq (start + 1)%N len'
  end.

(** The futures are those of packaged tasks that hold the callables
    [fs], in order. *)
Definition holds_callables (fs : list Outcome) (futures : list nat)
           (l : list PackagedTask) : Prop :=
  Forall2 (fun f ptr => callable <$> l !! ptr = Some f) fs futures.

(** The first [k] futures are ready. *)
Definition ready_upto (k : nat) (futures : list nat) (l : list PackagedTask) : Prop :=
  forall k' ptr, (k' < k)%nat -> futures !! k' = Some ptr ->
    exists pt, l !! ptr = Some pt /\ shared_state pt <> Unresolved.

(** A call that has thrown inside the driver was rejected, and the stop
    flag is set. *)
Definition thrown_justified (pc : ClientPC) (s : State) : Prop :=
  match pc with
  | C_returned (RThrow e) => e = Pool.rejected /\ stop_ (the_pool s) = true
  | _ => True
  end.

(** The futures collected so far: they are different, and are not the
    one of the call in progress. *)
Definition futures_fresh (futures : list nat) (pc : ClientPC) : Prop :=
  NoDup futures /\ forall ptr, future_of pc = Some ptr -> ptr ∉ futures.

(** The callables [fs] have run, each as a packaged task of its own,
    whose future is in [futures] at the same position. *)
Definition all_ran (fs : list Outcome) (futures : list nat)
           (l : list PackagedTask) : Prop :=
  NoDup futures /\
  Forall2 (fun f ptr =>
             exists pt, l !! ptr = Some pt /\ callable pt = f /\
                        shared_state pt = resolved_as f) fs futures.

(** What every execution keeps true of [parallel_for]. *)
Definition for_inv (max_size start end_ : N) (func : N -> Outcome)
           (pc : ForPC) (s : State) : Prop :=
  let l := packaged_tasks (memory (world s)) in
  match pc with
  | PF_reserve => True
  | PF_loop i futures =>
      i = (start + N.of_nat (length futures))%N /\
      (futures <> [] -> (i <= end_)%N) /\
      NoDup futures /\
      holds_callables (map func (N_seq start (length futures))) futures l
  | PF_submit i futures pc =>
      i = (start + N.of_nat (length futures))%N /\
      (i < end_)%N /\
      futures_fresh futures pc /\
      holds_callables (map func (N_seq start (length futures))) futures l /\
      tracks (CallSubmit (func i)) pc l /\
      thrown_justified pc s
  | PF_wait k futures =>
      length futures = N.to_nat (end_ - start) /\
      NoDup futures /\
      holds_callables (map func (N_seq start (length futures))) futures l /\
      ready_upto k futures l
  | PF_returned FVoid =>
      exists futures,
        length futures = N.to_nat (end_ - start) /\
        NoDup futures /\
        holds_callables (map func (N_seq start (length futures))) futures l /\
        ready_upto (length futures) futures l
  | PF_returned (FThrow e) => e = Pool.rejected /\ stop_ (the_pool s) = true
  | PF_returned FLengthError => (max_size < size_t_sub end_ start)%N
  end.

(** What every execution keeps true of [parallel_map]. *)
Definition map_inv (max_futures max_results : N) (input : list Z) (func : Z -> Outcome)
           (pc : MapPC) (s : State) : Prop :=
  let l := packaged_tasks (memory (world s)) in
  match pc with
  | PM_reserve => True
  | PM_loop rest futures =>
      exists done,
        input = done ++ rest /\ NoDup futures /\
        holds_callables (map func done) futures l
  | PM_submit rest futures pc =>
      exists done item,
        input = done ++ item :: rest /\
        futures_fresh futures pc /\
        holds_callables (map func done) futures l /\
        tracks (CallSubmit (func item)) pc l /\
        thrown_justified pc s
  | PM_reserve_results futures =>
      NoDup futures /\ holds_callables (map func input) futures l
  | PM_get k futures results =>
      NoDup futures /\
      holds_callables (map func input) futures l /\
      length results = k /\
      ready_upto k futures l /\
      Forall2 (fun x v => func x = Returns v) (take k input) results
  | PM_returned (MValues results) =>
      Forall2 (fun x v => func x = Returns v) input results /\
      exists futures, all_ran (map func input) futures l
  | PM_returned (MThrow e) =>
      (e = Pool.rejected /\ stop_ (the_pool s) = true) \/
      (exists k x,
          input !! k = Some x /\ func x = Throws e /\
          Forall (fun y => exists v, func y = Returns v) (take k input))
  | PM_returned MLengthError =>
      (max_futures < N.of_nat (length input))%N \/
      (max_results < N.of_nat (length input))%N
  end.

Definition driven_cancel_free (ls : list DLabel) : bool :=
  forallb (fun l => match l with
                    | PoolStep l' => negb (is_cancel l')
                    | DriverStep => true
                    end) ls.

(** One task whose body throws: [parallel_for(pool, 0, 1, func)] on a
    pool of one worker, which runs the task while [parallel_for] waits. *)
Definition for_run : list DLabel :=
  replicate 9 DriverStep ++ replicate 11 (PoolStep (StepWorker 0))
  ++ replicate 2 DriverStep.

(** The state this run leads to. *)
Definition for_state : Driven ForPC :=
  Eval vm_compute in
    match drun (for_code 1000 0 1 (fun i => Throws (user_exception (N.to_nat i))))
               for_run (mkDriven (init 1) PF_reserve) with
    | Some u => u
    | None => mkDriven (init 1) PF_reserve
    end.

(** Two items: [parallel_map(pool, {3, 4}, square)] on a pool of two
    workers; worker 1 runs the first task it finds and worker 0 the other,
    while [parallel_map] waits. *)
Definition map_run : list DLabel :=
  replicate 16 DriverStep
  ++ replicate 11 (PoolStep (StepWorker 1)) ++ replicate 11 (PoolStep (StepWorker 0))
  ++ replicate 4 DriverStep.

(** The state this run leads to. *)
Definition map_state : Driven MapPC :=
  Eval vm_compute in
    match drun (map_code 1000 1000 [3; 4] (fun x => Returns (x * x)))
               map_run (mkDriven (init 2) PM_reserve) with
    | Some u => u
    | None => mkDriven (init 2) PM_reserve
    end.

(** ** Statistics *)

(** [1] for a task whose [func_] is empty. *)
Definition anonymous (t : Task) : nat :=
  match func_ t with
  | None => 1%nat
  | Some _ => 0%nat
  end.

Definition worker_anonymous (pc : WorkerPC) : nat :=
  match pc with
  | W_stolen_load t | W_stolen_store t _ | W_active_incr t
  | W_clock_start t | W_call t _ => anonymous t
  | _ => 0%nat
  end.

Definition client_anonymous (pc : ClientPC) : nat :=
  match pc with
  | S_push _ t => anonymous t
  | _ => 0%nat
  end.

(** How many tasks with an empty [func_] there are: in the global queue,
    in the hands of a worker, in those of a submitter. *)
Definition anonymous_tasks (s : State) : nat :=
  (sum_list_with anonymous (queue_ (global_queue_ (the_pool s)))
   + sum_list_with worker_anonymous (workers s)
   + sum_list_with client_anonymous (clients s))%nat.

(** [1] for a future that is ready. *)
Definition ready (pt : PackagedTask) : nat :=
  if future_wait_for pt then 1%nat else 0%nat.

(** How many futures are ready. *)
Definition ready_futures (s : State) : nat :=
  sum_list_with ready (packaged_tasks (memory (world s))).

(** [1] for a worker that has called its task and has not yet written
    [total_tasks_completed] (lines 417 to 419). *)
Definition uncounted (pc : WorkerPC) : nat :=
  match pc with
  | W_clock_end _ | W_time_load _ | W_time_store _
  | W_completed_load | W_completed_store _ => 1%nat
  | _ => 0%nat
  end.

(** The value a worker is about to write to [total_tasks_completed]. *)
Definition completed_claim (pc : WorkerPC) : N :=
  match pc with
  | W_completed_store v => v
  | _ => 0%N
  end.

(** [1] for a submitter that has allocated its packaged task and has not
    yet written [total_tasks_submitted] (lines 309 to 312). *)
Definition unsubmitted (pc : ClientPC) : nat :=
  match pc with
  | S_push _ _ | S_submitted_load _ | S_submitted_store _ _ => 1%nat
  | _ => 0%nat
  end.

(** The value a submitter is about to write to [total_tasks_submitted]. *)
Definition submitted_claim (pc : ClientPC) : N :=
  match pc with
  | S_submitted_store _ v => v
  | _ => 0%N
  end.

(** What every execution keeps true of the statistics. *)
Record stats_inv (s : State) : Prop := mkStatsInv {
  si_named : anonymous_tasks s = 0%nat;
  si_completed :
    (total_tasks_completed (stats_ (the_pool s))
     + N.of_nat (sum_list_with uncounted (workers s))
     <= N.of_nat (ready_futures s))%N;
  si_completed_claims : forall i pc, workers s !! i = Some pc ->
    (completed_claim pc + N.of_nat (sum_list_with uncounted (workers s))
     <= N.of_nat (ready_futures s) + 1)%N;
  si_submitted :
    (total_tasks_submitted (stats_ (the_pool s))
     + N.of_nat (sum_list_with unsubmitted (clients s))
     <= N.of_nat (length (packaged_tasks (memory (world s)))))%N;
  si_submitted_claims : forall j pc, clients s !! j = Some pc ->
    (submitted_claim pc + N.of_nat (sum_list_with unsubmitted (clients s))
     <= N.of_nat (length (packaged_tasks (memory (world s)))) + 1)%N
}.

(** ** Draining the queue *)

(** The task has run: the future of its packaged task is ready. *)
Definition task_ran (l : list PackagedTask) (t : Task) : Prop :=
  match func_ t with
  | Some (RunPackaged task_ptr) =>
      exists pt, l !! task_ptr = Some pt /\ future_wait_for pt = true
  | None => True
  end.

(** Two tasks are submitted to a pool of one worker, with priorities 1
    and 7, and [shutdown()] is called before the worker has done
    anything. *)
Definition draining_run : list Label :=
  [Spawn (CallSubmitPriority 1 (Returns 10))] ++ replicate 5 (StepClient 0)
  ++ [Spawn (CallSubmitPriority 7 (Throws (user_exception 3)))] ++ replicate 5 (StepClient 1)
  ++ [Spawn CallShutdown] ++ replicate 2 (StepClient 2).

(** The state this run leads to. *)
Definition draining_state : State :=
  Eval vm_compute in
    match run draining_run (init 1) with
    | Some s => s
    | None => init 1
    end.

(** ** The merge sort of the example *)

(** The elements [arr[left]], ..., [arr[right]]. *)
Definition segment (arr : list Z) (left right : N) : list Z :=
  take (N.to_nat right + 1 - N.to_nat left) (drop (N.to_nat left) arr).

(** [arr'] has the size of [arr] and the same elements before [left] and
    after [right]. *)
Definition outside_kept (arr arr' : list Z) (left right : N) : Prop :=
  length arr' = length arr /\
  take (N.to_nat left) arr' = take (N.to_nat left) arr /\
  drop (N.to_nat right + 1) arr' = drop (N.to_nat right + 1) arr.

(** The elements of [l] are in [arr] from index [p] on. *)
Definition lies_at (arr : list Z) (p : nat) (l : list Z) : Prop :=
  forall x a, l !! x = Some a -> arr !! (p + x)%nat = Some a.

(** The merge of two lists, the first list winning ties. *)
Fixpoint merge_lists (l1 : list Z) : list Z -> list Z :=
  fix merge_right (l2 : list Z) : list Z :=
    match l1, l2 with
    | [], _ => l2
    | _, [] => l1
    | a :: l1', b :: l2' =>
        if (a <=? b)%Z then a :: merge_lists l1' l2 else b :: merge_right l2'
    end.

(** ** Cancellation *)

(** The future of the task is ready and holds the broken promise: [get()]
    throws [std::future_error], [wait_for] reports [ready]. *)
Definition promise_broken (l : list PackagedTask) (t : Task) : Prop :=
  forall ptr, func_ t = Some (RunPackaged ptr) ->
    exists pt, l !! ptr = Some pt /\
      future_get pt = Some (inr future_error_broken_promise) /\
      future_wait_for pt = true.

(** The future of the task is not resolved. *)
Definition left_unresolved (l : list PackagedTask) (t : Task) : Prop :=
  forall ptr, func_ t = Some (RunPackaged ptr) ->
    exists pt, l !! ptr = Some pt /\ shared_state pt = Unresolved.

(** Three tasks are submitted to a pool of one worker; the worker takes
    the first and is about to call it when another thread calls
    [shutdown_now()]. *)
Definition cancel_run : list Label :=
  [Spawn (CallSubmit (Returns 1))] ++ replicate 5 (StepClient 0)
  ++ [Spawn (CallSubmit (Returns 2))] ++ replicate 5 (StepClient 1)
  ++ [Spawn (CallSubmit (Returns 3))] ++ replicate 5 (StepClient 2)
  ++ replicate 4 (StepWorker 0)
  ++ [Spawn CallShutdownNow].

(** The state this run leads to. *)
Definition cancel_state : State :=
  Eval vm_compute in
    match Cancel.run cancel_run (init 1) with
    | Some s => s
    | None => init 1
    end.

(** A pool of two workers that is not one of an execution: a task is in
    the global queue, another in the deque of worker 0, and a thread
    calls [shutdown_now()]. *)
Definition stray_state : State :=
  mkState
    (mkWorld
       (mkMemory
          (mkPool 2 false 0 (mkTaskQueue [Pool.make_task 0 0])
                  [mkDeque [Pool.make_task 1 0]; mkDeque []] (mkStats 0 0 0 0))
          [mkPackaged (Returns 1) Unresolved; mkPackaged (Returns 2) Unresolved;
           mkPackaged (Returns 3) (Value 3)])
       0)
    [W_pop_local; W_pop_local] [SN_store_stop].

(** ** Lost wake-ups *)

(** A pool of one worker is constructed and destroyed at once.  The
    worker finds nothing in its deque and in the global queue, has nobody
    to steal from, enters [wait_pop] and evaluates the predicate of the
    wait, which is false; then the destructor stores the stop flag and
    calls [notify_all()]; then the worker blocks. *)
Definition lost_wakeup_run : list Sync.SyncLabel :=
  map Sync.Thread
      (replicate 5 (StepWorker 0)
       ++ [Spawn CallDestroy; StepClient 0; StepClient 0]
       ++ [StepWorker 0]).

(** Another thread calls [shutdown()]; the worker and the destructor go
    on. *)
Definition second_shutdown_run : list Sync.SyncLabel :=
  map Sync.Thread
      ([Spawn CallShutdown; StepClient 1; StepClient 1]
       ++ [StepWorker 0; StepWorker 0]
       ++ [StepClient 0; StepClient 0]).

(** The same with [shutdown_now()] in place of the destructor: the worker
    has evaluated the predicate of the wait when [shutdown_now()] stores
    the stop flag. *)
Definition cancel_before_block_run : list Sync.SyncLabel :=
  map Sync.Thread
      (replicate 5 (StepWorker 0) ++ [Spawn CallShutdownNow; StepClient 0]).

(** The worker blocks; [shutdown_now()] goes on; the worker goes on. *)
Definition cancel_after_block_run : list Sync.SyncLabel :=
  map Sync.Thread
      ([StepWorker 0] ++ replicate 4 (StepClient 0) ++ [StepWorker 0; StepWorker 0]).

(** The steps of the threads that are there: no further call is started
    and [cv_.wait] does not return without a notification. *)
Definition left_alone (l : Sync.SyncLabel) : bool :=
  match l with
  | Sync.Thread (Spawn _) | Sync.SpuriousWake _ => false
  | _ => true
  end.

(** The state the first run leads to, at time [t]: the stop flag is set,
    the worker is blocked in [cv_.wait], the destructor is at the [join]
    of the worker. *)
Definition lost_wakeup_state (t : Z) : Sync.SyncState :=
  Sync.mkSync
    (mkState (mkWorld (mkMemory (Pool.destroy (Pool.create 1)) []) t)
             [W_wait_global] [D_join 0])
    None [0%nat] [].

(* ===================================================================== *)
(** * Facts                                                               *)
(* ===================================================================== *)

Ltac Zify.zify_post_hook ::= Z.to_euclidean_division_equations.

(* ===================================================================== *)
(** ** The heap behind the priority queue                                 *)
(* ===================================================================== *)

Module HeapFacts.
Import StlHeap.

Lemma task_lt_true a b : task_lt a b = true <-> priority_ b < priority_ a.
Proof. unfold task_lt. apply Z.ltb_lt. Qed.

Lemma task_lt_false a b : task_lt a b = false <-> priority_ a <= priority_ b.
Proof. unfold task_lt. rewrite Z.ltb_ge. tauto. Qed.

Lemma length_push_heap_loop fuel : forall c hole top value,
  length (push_heap_loop fuel c hole top value) = length c.
Proof.
  induction fuel as [|fuel IH]; intros c hole top value; cbn [push_heap_loop].
  - by rewrite length_insert.
  - destruct (c !! ((hole - 1) / 2)%nat) as [p|]; [|by rewrite length_insert].
    destruct (_ && _); [|by rewrite length_insert].
    by rewrite IH, length_insert.
Qed.

Lemma push_heap_loop_heap fuel : forall n c hole value,
  (hole <= fuel)%nat -> (hole < n <= length c)%nat ->
  hole_ok n c hole value ->
  heap_on n (push_heap_loop fuel c hole 0 value).
Proof.
  induction fuel as [|fuel IH]; intros n c hole value Hf Hn Hok.
  - cbn [push_heap_loop]. assert (hole = 0)%nat as -> by lia.
    intros i x y Hi Hx Hy.
    rewrite list_lookup_insert_ne in Hx by lia.
    destruct (decide ((i - 1) / 2 = 0)%nat) as [Hp|Hp].
    + rewrite Hp in Hy. rewrite list_lookup_insert_eq in Hy by lia.
      injection Hy as <-. eapply (hole_below _ _ _ _ Hok); eauto.
    + rewrite list_lookup_insert_ne in Hy by lia.
      eapply (hole_others _ _ _ _ Hok); eauto. lia.
  - cbn [push_heap_loop].
    destruct (c !! ((hole - 1) / 2)%nat) as [p|] eqn:Hp.
    2: { apply lookup_ge_None in Hp. lia. }
    destruct ((0 <? hole)%nat && task_lt p value) eqn:Hc.
    + apply andb_true_iff in Hc as [Hh Hlt].
      apply Nat.ltb_lt in Hh. apply task_lt_true in Hlt.
      apply IH; [lia | rewrite length_insert; lia |].
      set (par := ((hole - 1) / 2)%nat) in *.
      assert (par < hole)%nat by (subst par; lia).
      split.
      * intros i x y Hi Hne Hx Hy.
        destruct (decide (i = hole)) as [->|Hih].
        { rewrite list_lookup_insert_eq in Hx by lia. injection Hx as <-.
          fold par in Hy. rewrite list_lookup_insert_ne in Hy by lia.
          rewrite Hp in Hy. injection Hy as <-. lia. }
        rewrite list_lookup_insert_ne in Hx by lia.
        destruct (decide ((i - 1) / 2 = hole)%nat) as [Hph|Hph].
        { rewrite Hph in Hy. rewrite list_lookup_insert_eq in Hy by lia.
          injection Hy as <-.
          eapply (hole_grand _ _ _ _ Hok i); eauto. }
        rewrite list_lookup_insert_ne in Hy by lia.
        eapply (hole_others _ _ _ _ Hok i); eauto.
      * intros i x y Hi Hpar Hpi Hx Hy.
        rewrite list_lookup_insert_ne in Hy by lia.
        assert (priority_ y <= priority_ p).
        { eapply (hole_others _ _ _ _ Hok par); eauto; lia. }
        destruct (decide (i = hole)) as [->|Hih].
        { rewrite list_lookup_insert_eq in Hx by lia. by injection Hx as <-. }
        rewrite list_lookup_insert_ne in Hx by lia.
        assert (priority_ p <= priority_ x); [|lia].
        eapply (hole_others _ _ _ _ Hok i); eauto. by rewrite Hpi.
      * intros i x Hi Hpi Hx.
        destruct (decide (i = hole)) as [->|Hih].
        { rewrite list_lookup_insert_eq in Hx by lia. injection Hx as <-. lia. }
        rewrite list_lookup_insert_ne in Hx by lia.
        assert (priority_ p <= priority_ x); [|lia].
        eapply (hole_others _ _ _ _ Hok i); eauto. by rewrite Hpi.
    + intros i x y Hi Hx Hy.
      destruct (decide (i = hole)) as [->|Hih].
      * rewrite list_lookup_insert_eq in Hx by lia. injection Hx as <-.
        assert (0 < hole)%nat by lia.
        rewrite list_lookup_insert_ne in Hy by lia.
        rewrite Hp in Hy. injection Hy as <-.
        apply andb_false_iff in Hc as [Hc|Hc].
        { apply Nat.ltb_ge in Hc. lia. }
        by apply task_lt_false in Hc.
      * rewrite list_lookup_insert_ne in Hx by lia.
        destruct (decide ((i - 1) / 2 = hole)%nat) as [Hph|Hph].
        { rewrite Hph in Hy. rewrite list_lookup_insert_eq in Hy by lia.
          injection Hy as <-. eapply (hole_below _ _ _ _ Hok); eauto. }
        rewrite list_lookup_insert_ne in Hy by lia.
        eapply (hole_others _ _ _ _ Hok i); eauto.
Qed.

Lemma hole_move_perm n (c : list Task) h h' v x :
  (h < n <= length c)%nat -> (h' < n)%nat -> h <> h' ->
  c !! h' = Some x ->
  take n (<[h' := v]> (<[h := x]> c)) ≡ₚ take n (<[h := v]> c).
Proof.
  intros Hh Hh' Hne Hx.
  rewrite !take_insert_lt by lia.
  assert (<[h:=x]> (take n c) = <[h:=x]> (<[h:=v]> (take n c))) as ->
    by by rewrite list_insert_insert_eq.
  apply Permutation_insert_swap.
  - apply list_lookup_insert_eq. rewrite length_take. lia.
  - rewrite list_lookup_insert_ne by lia. by rewrite lookup_take_lt by lia.
Qed.

Lemma push_heap_loop_perm fuel n c hole value :
  (hole < n <= length c)%nat ->
  take n (push_heap_loop fuel c hole 0 value) ≡ₚ take n (<[hole := value]> c).
Proof.
  revert c hole.
  induction fuel as [|fuel IH]; intros c hole Hn; cbn [push_heap_loop]; [done|].
  destruct (c !! ((hole - 1) / 2)%nat) as [p|] eqn:Hp; [|done].
  destruct ((0 <? hole)%nat && task_lt p value) eqn:Hc; [|done].
  apply andb_true_iff in Hc as [Hh _]. apply Nat.ltb_lt in Hh.
  rewrite IH by (rewrite length_insert; lia).
  apply hole_move_perm; [lia | lia | lia | done].
Qed.

Lemma adjust_heap_loop_spec fuel : forall n c hole,
  heap_on n c -> (hole < n <= length c)%nat -> (n <= fuel + hole)%nat ->
  exists c1 h1,
    adjust_heap_loop fuel c hole hole n = (c1, h1, h1) /\
    (h1 < n)%nat /\ ~ (h1 < (n - 1) / 2)%nat /\
    length c1 = length c /\ heap_on n c1 /\
    (forall v, take n (<[h1 := v]> c1) ≡ₚ take n (<[hole := v]> c)).
Proof.
  induction fuel as [|fuel IH]; intros n c hole Hheap Hn Hf; [lia|].
  cbn [adjust_heap_loop].
  destruct (hole <? (n - 1) / 2)%nat eqn:Hlt.
  2: { apply Nat.ltb_ge in Hlt. exists c, hole. repeat split; auto; lia. }
  apply Nat.ltb_lt in Hlt.
  set (sc := (2 * (hole + 1))%nat).
  assert (sc < n)%nat as Hsc by (subst sc; lia).
  destruct (lookup_lt_is_Some_2 c sc) as [r Hr]; [lia|].
  destruct (lookup_lt_is_Some_2 c (sc - 1)%nat) as [l Hl]; [lia|].
  rewrite Hr, Hl.
  set (sc' := if task_lt r l then (sc - 1)%nat else sc).
  set (x := if task_lt r l then l else r).
  assert (c !! sc' = Some x) as Hx by (subst sc' x; by destruct (task_lt r l)).
  assert (sc' = sc - 1 \/ sc' = sc)%nat as Hsc'
    by (subst sc'; destruct (task_lt r l); auto).
  assert (priority_ x <= priority_ r /\ priority_ x <= priority_ l) as [Hxr Hxl].
  { subst x. destruct (task_lt r l) eqn:E.
    - apply task_lt_true in E. lia.
    - apply task_lt_false in E. lia. }
  destruct (IH n (<[hole := x]> c) sc') as (c1 & h1 & Heq & Hh1 & Hex & Hlen & Hh & Hperm).
  - intros i a b Hi Ha Hb.
    destruct (decide (i = hole)) as [->|Hih].
    + rewrite list_lookup_insert_eq in Ha by lia. injection Ha as <-.
      rewrite list_lookup_insert_ne in Hb by lia.
      destruct (lookup_lt_is_Some_2 c hole) as [hv Hhv]; [lia|].
      assert (priority_ b <= priority_ hv) by (eapply (Hheap hole); eauto).
      assert (priority_ hv <= priority_ x); [|lia].
      eapply (Hheap sc'); eauto; [lia|].
      replace ((sc' - 1) / 2)%nat with hole by lia. done.
    + rewrite list_lookup_insert_ne in Ha by lia.
      destruct (decide ((i - 1) / 2 = hole)%nat) as [Hph|Hph].
      * rewrite Hph in Hb. rewrite list_lookup_insert_eq in Hb by lia.
        injection Hb as <-.
        assert (i = sc - 1 \/ i = sc)%nat as [->| ->] by lia;
          rewrite ?Hl, ?Hr in Ha; injection Ha as <-; done.
      * rewrite list_lookup_insert_ne in Hb by lia. eapply Hheap; eauto.
  - rewrite length_insert. lia.
  - lia.
  - exists c1, h1. rewrite Heq. repeat split; auto.
    + by rewrite Hlen, length_insert.
    + intros v. rewrite Hperm. apply hole_move_perm; [lia | lia | lia | done].
Qed.

Lemma length_adjust_heap_loop fuel : forall c hole sc n,
  length (adjust_heap_loop fuel c hole sc n).1.1 = length c.
Proof.
  induction fuel as [|fuel IH]; intros c hole sc n; cbn [adjust_heap_loop]; [done|].
  destruct (_ <? _)%nat; [|done].
  destruct (c !! _) as [r|]; [|done].
  destruct (c !! _) as [l|]; [|done].
  by rewrite IH, length_insert.
Qed.

(** Leaves have nothing below them. *)
Lemma leaf_hole_ok n c h v :
  heap_on n c -> (n <= 2 * h + 1)%nat -> hole_ok n c h v.
Proof.
  intros Hheap Hleaf. split.
  - intros i x y Hi _ Hx Hy. eapply Hheap; eauto.
  - intros i x y Hi Hh Hp. lia.
  - intros i x Hi Hp. lia.
Qed.

Lemma adjust_heap_spec n c value :
  heap_on n c -> (1 <= n <= length c)%nat ->
  heap_on n (__adjust_heap c 0 n value) /\
  length (__adjust_heap c 0 n value) = length c /\
  take n (__adjust_heap c 0 n value) ≡ₚ take n (<[0%nat := value]> c).
Proof.
  intros Hheap Hn. unfold __adjust_heap.
  destruct (adjust_heap_loop_spec n n c 0) as (c1 & h1 & Heq & Hh1 & Hex & Hlen & Hh & Hperm);
    [done | lia | lia |].
  rewrite Heq.
  destruct (Nat.even n && (h1 =? (n - 2) / 2)%nat) eqn:Hc.
  - apply andb_true_iff in Hc as [Hev Hh1eq].
    apply Nat.eqb_eq in Hh1eq. apply Nat.even_spec in Hev as [m ->].
    assert (2 * (h1 + 1) - 1 = 2 * m - 1)%nat as Hidx by lia.
    rewrite Hidx.
    destruct (lookup_lt_is_Some_2 c1 (2 * m - 1)%nat) as [x Hx]; [lia|].
    rewrite Hx. unfold __push_heap.
    assert (heap_on (2 * m) (<[h1 := x]> c1)) as Hheap'.
    { intros i a b Hi Ha Hb.
      destruct (decide (i = h1)) as [->|Hih].
      - rewrite list_lookup_insert_eq in Ha by lia. injection Ha as <-.
        rewrite list_lookup_insert_ne in Hb by lia.
        destruct (lookup_lt_is_Some_2 c1 h1) as [hv Hhv]; [lia|].
        assert (priority_ b <= priority_ hv) by (eapply (Hh h1); eauto).
        assert (priority_ hv <= priority_ x); [|lia].
        eapply (Hh (2 * m - 1)%nat); eauto; [lia|].
        replace ((2 * m - 1 - 1) / 2)%nat with h1 by lia. done.
      - rewrite list_lookup_insert_ne in Ha by lia.
        destruct (decide ((i - 1) / 2 = h1)%nat) as [Hph|Hph].
        + rewrite Hph in Hb. rewrite list_lookup_insert_eq in Hb by lia.
          injection Hb as <-.
          assert (i = 2 * m - 1)%nat as -> by lia.
          rewrite Hx in Ha. by injection Ha as <-.
        + rewrite list_lookup_insert_ne in Hb by lia. eapply Hh; eauto. }
    repeat split.
    + apply push_heap_loop_heap; [lia | rewrite length_insert; lia |].
      apply leaf_hole_ok; [done | lia].
    + by rewrite length_push_heap_loop, length_insert.
    + rewrite push_heap_loop_perm by (rewrite length_insert; lia).
      rewrite <- Hperm.
      apply hole_move_perm; [lia | lia | lia | done].
  - unfold __push_heap. repeat split.
    + apply push_heap_loop_heap; [lia | lia |].
      apply leaf_hole_ok; [done|].
      apply andb_false_iff in Hc as [Hc|Hc].
      * assert (Nat.odd n = true) as Hodd
          by (rewrite <- Nat.negb_even, Hc; done).
        apply Nat.odd_spec in Hodd as [m ->]. lia.
      * apply Nat.eqb_neq in Hc.
        destruct (Nat.even n) eqn:Hev.
        { apply Nat.even_spec in Hev as [m ->]. lia. }
        assert (Nat.odd n = true) as Hodd
          by (rewrite <- Nat.negb_even, Hev; done).
        apply Nat.odd_spec in Hodd as [m ->]. lia.
    + by rewrite length_push_heap_loop.
    + rewrite push_heap_loop_perm by lia. apply Hperm.
Qed.

Lemma heap_ordered_nil : heap_ordered [].
Proof. intros i x y Hi. simpl in Hi. lia. Qed.

Lemma removelast_take (c : list Task) : removelast c = take (length c - 1) c.
Proof. rewrite removelast_firstn_len. f_equal. lia. Qed.

Lemma heap_on_take n (c : list Task) :
  (n <= length c)%nat -> heap_on n c -> heap_ordered (take n c).
Proof.
  intros Hn Hheap i x y Hi Hx Hy.
  rewrite length_take in Hi.
  rewrite lookup_take_lt in Hx by lia.
  rewrite lookup_take_lt in Hy by lia.
  eapply Hheap; eauto. lia.
Qed.

Lemma push_spec x c :
  heap_ordered c ->
  heap_ordered (PriorityQueue.push x c) /\ PriorityQueue.push x c ≡ₚ x :: c.
Proof.
  intros Hheap. unfold PriorityQueue.push, push_heap, __push_heap.
  rewrite last_snoc, length_app. cbn [length].
  replace (length c + 1 - 1)%nat with (length c) by lia.
  assert (hole_ok (length c + 1) (c ++ [x]) (length c) x) as Hok.
  { split.
    - intros i a b Hi Hne Ha Hb.
      rewrite lookup_app_l in Ha by lia. rewrite lookup_app_l in Hb by lia.
      eapply Hheap; eauto. lia.
    - intros i a b Hi Hh Hp. lia.
    - intros i a Hi Hp. lia. }
  split.
  - unfold heap_ordered. rewrite length_push_heap_loop, length_app.
    cbn [length].
    apply push_heap_loop_heap; [lia | rewrite length_app; simpl; lia | done].
  - assert (forall l : list Task, length l = (length c + 1)%nat ->
              take (length c + 1) l = l) as Htake
      by (intros l Hl; apply take_ge; lia).
    rewrite <- (Htake (push_heap_loop _ _ _ _ _))
      by (rewrite length_push_heap_loop, length_app; simpl; lia).
    rewrite push_heap_loop_perm by (rewrite length_app; simpl; lia).
    rewrite Htake by (rewrite length_insert, length_app; simpl; lia).
    rewrite list_insert_id
      by (rewrite lookup_app_r by lia; by rewrite Nat.sub_diag).
    by rewrite Permutation_app_comm.
Qed.

Lemma pop_spec c t :
  heap_ordered c -> c !! 0%nat = Some t ->
  heap_ordered (PriorityQueue.pop c) /\ c ≡ₚ t :: PriorityQueue.pop c.
Proof.
  intros Hheap Ht. unfold PriorityQueue.pop, pop_heap.
  assert (0 < length c)%nat as Hpos by (apply lookup_lt_Some in Ht; lia).
  destruct (1 <? length c)%nat eqn:Hlen.
  - apply Nat.ltb_lt in Hlen.
    remember (length c - 1)%nat as n eqn:Hn.
    destruct (lookup_lt_is_Some_2 c n) as [value Hv]; [lia|].
    rewrite Hv, Ht.
    destruct (adjust_heap_spec n (<[n := t]> c) value) as (Hh & Hl & Hp).
    { intros i a b Hi Ha Hb.
      rewrite list_lookup_insert_ne in Ha by lia.
      rewrite list_lookup_insert_ne in Hb by lia.
      apply (Hheap i a b); [lia | done | done]. }
    { rewrite length_insert. lia. }
    rewrite length_insert in Hl.
    rewrite removelast_take, Hl, <- Hn. split.
    + apply heap_on_take; [lia | done].
    + rewrite Hp.
      set (s := <[0%nat := value]> (<[n := t]> c)).
      assert (s ≡ₚ c) as <- by (apply Permutation_insert_swap; done).
      assert (length s = S n) as Hs by (subst s; rewrite !length_insert; lia).
      rewrite <- (take_drop n s) at 1.
      rewrite Permutation_app_comm.
      rewrite (drop_S s t n).
      * rewrite drop_ge by lia. done.
      * subst s. rewrite list_lookup_insert_ne by lia.
        apply list_lookup_insert_eq. lia.
  - apply Nat.ltb_ge in Hlen.
    destruct c as [|a [|b c]]; simpl in *; try lia.
    injection Ht as ->. split; [apply heap_ordered_nil | done].
Qed.

Lemma heap_top_min c t :
  heap_ordered c -> c !! 0%nat = Some t ->
  forall x, x ∈ c -> priority_ t <= priority_ x.
Proof.
  intros Hheap Ht x Hx.
  apply list_elem_of_lookup in Hx as [i Hi]. revert x Hi.
  induction i as [i IH] using lt_wf_ind. intros x Hi.
  destruct (decide (i = 0%nat)) as [->|Hne].
  - rewrite Ht in Hi. injection Hi as <-. lia.
  - assert (i < length c)%nat by (by apply lookup_lt_Some in Hi).
    destruct (lookup_lt_is_Some_2 c ((i - 1) / 2)%nat) as [y Hy]; [lia|].
    assert (priority_ t <= priority_ y) by (apply (IH ((i - 1) / 2)%nat); [lia|done]).
    assert (priority_ y <= priority_ x); [|lia].
    apply (Hheap i x y); [lia | done | done].
Qed.

Lemma length_pop (c : list Task) :
  length (PriorityQueue.pop c) = (length c - 1)%nat.
Proof.
  unfold PriorityQueue.pop, pop_heap.
  rewrite removelast_take.
  destruct (1 <? length c)%nat; [|rewrite length_take; lia].
  destruct (c !! (length c - 1)%nat) as [v|]; [|rewrite length_take; lia].
  destruct (c !! 0%nat) as [t|]; [|rewrite length_take; lia].
  unfold __adjust_heap.
  pose proof (length_adjust_heap_loop (length c - 1) (<[(length c - 1)%nat := t]> c)
                0 0 (length c - 1)) as Hl.
  destruct (adjust_heap_loop _ _ _ _ _) as [[c1 h1] sc1]. simpl in Hl.
  rewrite length_insert in Hl.
  assert (forall r : list Task, length r = length c ->
            length (take (length r - 1) r) = (length c - 1)%nat) as Hr
    by (intros r Hr; rewrite length_take; lia).
  destruct (_ && _).
  - destruct (c1 !! _); apply Hr; unfold __push_heap;
      rewrite length_push_heap_loop, ?length_insert; done.
  - apply Hr. unfold __push_heap. by rewrite length_push_heap_loop.
Qed.

Lemma clear_loop_nil fuel : forall c,
  (length c <= fuel)%nat -> TaskQueueM.clear_loop fuel c = [].
Proof.
  induction fuel as [|fuel IH]; intros c Hc; cbn [TaskQueueM.clear_loop].
  - destruct c; [done | simpl in Hc; lia].
  - unfold PriorityQueue.empty. case_bool_decide; [done|].
    apply IH. rewrite length_pop. lia.
Qed.

End HeapFacts.

(* ===================================================================== *)
(** ** TaskQueue                                                          *)
(* ===================================================================== *)

Module QueueFacts.
Import HeapFacts.

Lemma empty_false (c : list Task) : PriorityQueue.empty c = false <-> c <> [].
Proof. unfold PriorityQueue.empty. by rewrite bool_decide_eq_false. Qed.

Lemma empty_true (c : list Task) : PriorityQueue.empty c = true <-> c = [].
Proof. unfold PriorityQueue.empty. by rewrite bool_decide_eq_true. Qed.

Lemma top_nonempty (c : list Task) : c <> [] -> exists t, c !! 0%nat = Some t.
Proof. destruct c as [|t c]; [done|]. by exists t. Qed.

Lemma clear_empty q : TaskQueueM.clear q = mkTaskQueue [].
Proof. unfold TaskQueueM.clear. by rewrite clear_loop_nil. Qed.

Lemma try_pop_heap q :
  heap_ordered (queue_ q) -> heap_ordered (queue_ (TaskQueueM.try_pop q).2).
Proof.
  intros Hq. unfold TaskQueueM.try_pop.
  destruct (PriorityQueue.empty (queue_ q)) eqn:He; [done|].
  apply empty_false, top_nonempty in He as [t Ht].
  by apply (pop_spec _ t).
Qed.

Lemma queue_call_heap c q :
  heap_ordered (queue_ q) -> heap_ordered (queue_ (queue_call c q).2).
Proof.
  intros Hq. destruct c as [task| |stop_flag|]; cbn [queue_call].
  - by apply push_spec.
  - by apply try_pop_heap.
  - unfold TaskQueueM.wait_pop.
    destruct (PriorityQueue.empty (queue_ q)) eqn:He; simpl.
    + by destruct stop_flag.
    + apply empty_false, top_nonempty in He as [t Ht].
      by apply (pop_spec _ t).
  - rewrite clear_empty. apply heap_ordered_nil.
Qed.

Lemma queue_history_heap cs : forall q,
  heap_ordered (queue_ q) -> heap_ordered (queue_ (queue_history cs q).2).
Proof.
  induction cs as [|c cs IH]; intros q Hq; cbn [queue_history]; [done|].
  pose proof (queue_call_heap c q Hq) as H1.
  destruct (queue_call c q) as [r q1].
  specialize (IH q1 H1). by destruct (queue_history cs q1).
Qed.

(** Every queue a history leads to is a heap. *)
Lemma queue_after_heap cs : heap_ordered (queue_ (queue_after cs)).
Proof. apply queue_history_heap, heap_ordered_nil. Qed.

(** C2.  In every state the global queue can be in (after any history of
    its member functions, the empty queue included), [push] accepts the
    task: it returns, and the task is then queued with those that were
    queued, one more than before.  When the queue is not empty, [try_pop],
    and [wait_pop] (which does not block then, whatever the stop flag),
    remove and return one task whose priority value is the least of those
    queued, the others staying queued.  Between tasks of equal priority
    the order is neither the order of the pushes nor its reverse: four
    tasks of priority [0] pushed as first, second, third, fourth are
    popped as first, third, second, fourth. *)
Theorem task_queue_pops_minimum (cs : list QueueCall) :
  (forall task,
      queue_ (TaskQueueM.push task (queue_after cs))
        ≡ₚ task :: queue_ (queue_after cs) /\
      TaskQueueM.size (TaskQueueM.push task (queue_after cs))
        = S (TaskQueueM.size (queue_after cs))) /\
  (queue_ (queue_after cs) <> [] ->
   exists t q',
      TaskQueueM.try_pop (queue_after cs) = (Some t, q') /\
      (forall stop_flag,
          TaskQueueM.wait_pop stop_flag (queue_after cs) = Some (Some t, q')) /\
      (forall u, u ∈ queue_ (queue_after cs) -> priority t <= priority u) /\
      queue_ (queue_after cs) ≡ₚ t :: queue_ q') /\
  (queue_history (map QCPush same_priority_tasks ++ replicate 4 QCTryPop)
                 (mkTaskQueue [])).1
    = [Pool.make_task 0 0; Pool.make_task 2 0; Pool.make_task 1 0; Pool.make_task 3 0].
Proof.
  pose proof (queue_after_heap cs) as Hheap.
  set (q := queue_after cs) in *.
  split; [|split].
  - intros task. destruct (push_spec task _ Hheap) as [_ Hperm].
    split; [exact Hperm|].
    unfold TaskQueueM.size, PriorityQueue.size.
    cbn [TaskQueueM.push queue_]. by rewrite Hperm.
  - intros Hne. destruct (top_nonempty _ Hne) as [t Ht].
    destruct (pop_spec _ t Hheap Ht) as [_ Hperm].
    exists t, (mkTaskQueue (PriorityQueue.pop (queue_ q))).
    assert (PriorityQueue.empty (queue_ q) = false) as He by by apply empty_false.
    repeat split.
    + unfold TaskQueueM.try_pop. rewrite He. unfold PriorityQueue.top. by rewrite Ht.
    + intros stop_flag. unfold TaskQueueM.wait_pop. rewrite He. simpl.
      unfold PriorityQueue.top. by rewrite Ht.
    + intros u Hu. unfold priority. by apply (heap_top_min _ _ Hheap Ht).
    + done.
  - vm_compute. reflexivity.
Qed.

(** The theorem at the queue that holds priorities 5 and 3, and at the
    empty queue. *)
Lemma task_queue_pops_minimum_witness :
  (exists t q',
     TaskQueueM.try_pop
       (queue_after [QCPush (Pool.make_task 0 5); QCPush (Pool.make_task 1 3)])
       = (Some t, q') /\ priority t = 3) /\
  queue_ (TaskQueueM.push (Pool.make_task 0 5) (queue_after []))
    ≡ₚ [Pool.make_task 0 5].
Proof.
  split.
  - destruct (task_queue_pops_minimum
                [QCPush (Pool.make_task 0 5); QCPush (Pool.make_task 1 3)])
      as (_ & Hpop & _).
    destruct Hpop as (t & q' & Hpop & _); [vm_compute; discriminate|].
    exists t, q'. split; [exact Hpop|].
    vm_compute in Hpop. injection Hpop as <- _. reflexivity.
  - destruct (task_queue_pops_minimum []) as (Hpush & _).
    apply (Hpush (Pool.make_task 0 5)).
Defined.

End QueueFacts.

(* ===================================================================== *)
(** ** WorkStealingDeque                                                  *)
(* ===================================================================== *)

Module DequeFacts.

Lemma last_removelast (l : list Task) t :
  last l = Some t -> l = removelast l ++ [t].
Proof.
  intros Hl. destruct (decide (l = [])) as [->|Hne]; [done|].
  destruct (exists_last Hne) as (l' & a & ->).
  rewrite last_snoc in Hl. injection Hl as ->.
  by rewrite removelast_last.
Qed.

Lemma steal_back l t : Deque.steal (mkDeque (l ++ [t])) = (Some t, mkDeque l).
Proof. unfold Deque.steal. simpl. by rewrite last_snoc, removelast_last. Qed.

Lemma deque_call_conserved init c g :
  conserved init g -> conserved init (deque_call c g).
Proof.
  unfold conserved. destruct g as [pu po st [l]]. intros H.
  destruct c as [task| |]; cbn [deque_call].
  - cbn in *. rewrite (assoc_L (++)), H.
    rewrite <- !(assoc_L (++)). rewrite (Permutation_app_comm _ [task]).
    cbn. by rewrite <- !Permutation_middle.
  - unfold Deque.pop_front. cbn [queued deque_]. destruct l as [|t r]; cbn in *.
    + by rewrite (right_id_L [] (++)).
    + rewrite H. rewrite <- !(assoc_L (++)). cbn.
      by rewrite <- !Permutation_middle.
  - unfold Deque.steal. cbn [queued deque_].
    destruct (last l) as [t|] eqn:Hl; cbn in *.
    + rewrite H. rewrite (last_removelast l t Hl) at 1.
      rewrite <- !(assoc_L (++)). cbn.
      apply Permutation_app_head, Permutation_app_head.
      by rewrite Permutation_app_comm.
    + by rewrite (right_id_L [] (++)).
Qed.

Lemma deque_history_conserved init cs : forall g,
  conserved init g -> conserved init (foldl (fun g c => deque_call c g) g cs).
Proof.
  induction cs as [|c cs IH]; intros g Hg; cbn [foldl]; [done|].
  by apply IH, deque_call_conserved.
Qed.

Lemma pushes_stack ts : forall g,
  popped g = [] -> stolen g = [] ->
  deque_ (queued (foldl (fun g c => deque_call c g) g (map DCPushFront ts)))
    = reverse ts ++ deque_ (queued g).
Proof.
  induction ts as [|t ts IH]; intros g Hp Hs; cbn [map foldl]; [done|].
  rewrite IH by done. by rewrite reverse_cons, <- (assoc_L (++)).
Qed.

(** C3.  For every sequence of [push_front], [pop_front] and [steal] on one
    deque, the tasks it started with and the pushed ones are, counted with
    their multiplicity, those returned by [pop_front], those returned by
    [steal] and those still queued: none is lost, and when they are
    distinct none is delivered twice.  [pop_front] takes the task pushed
    last and [steal] the one at the other end, pushed first. *)
Theorem deque_delivers_each_task_once (cs : list DequeCall) (d0 : WorkStealingDeque) :
  deque_ d0 ++ pushed (deque_history cs d0)
    ≡ₚ popped (deque_history cs d0) ++ stolen (deque_history cs d0)
         ++ deque_ (queued (deque_history cs d0)) /\
  (NoDup (deque_ d0 ++ pushed (deque_history cs d0)) ->
   NoDup (popped (deque_history cs d0) ++ stolen (deque_history cs d0)
            ++ deque_ (queued (deque_history cs d0)))) /\
  (forall t d, Deque.pop_front (Deque.push_front t d) = (Some t, d)) /\
  (forall t l, Deque.steal (mkDeque (l ++ [t])) = (Some t, mkDeque l)) /\
  (forall oldest ts newest,
      let d := queued (deque_history
                         (map DCPushFront (oldest :: ts ++ [newest])) (mkDeque [])) in
      (Deque.pop_front d).1 = Some newest /\ (Deque.steal d).1 = Some oldest).
Proof.
  assert (conserved (deque_ d0) (deque_history cs d0)) as Hc.
  { apply deque_history_conserved. unfold conserved. cbn.
    by rewrite (right_id_L [] (++)). }
  unfold conserved in Hc. split; [exact Hc|]. split; [by rewrite Hc|].
  split; [by intros t [l]|]. split; [intros t l; apply steal_back|].
  intros oldest ts newest d. subst d. unfold deque_history.
  pose proof (pushes_stack (oldest :: ts ++ [newest]) (mkDequeLog [] [] [] (mkDeque []))
                eq_refl eq_refl) as Hst.
  cbn [queued deque_] in Hst. rewrite (right_id_L [] (++)) in Hst.
  rewrite reverse_cons, reverse_app in Hst. cbn [reverse rev_append app] in Hst.
  unfold Deque.pop_front, Deque.steal. rewrite Hst. split; [done|].
  change (newest :: reverse ts ++ [oldest])
    with ((newest :: reverse ts) ++ [oldest]).
  by rewrite last_snoc.
Qed.

End DequeFacts.

(* ===================================================================== *)
(** ** The scheduling loop of a worker                                    *)
(* ===================================================================== *)

Module WorkerFacts.

Section Fetch.
Context (n worker_id : nat) (env : Oracle).

Lemma loop_victims_done i : (n <= i)%nat -> loop_victims n worker_id i = [].
Proof. intros Hi. unfold loop_victims. by replace (n - i)%nat with 0%nat by lia. Qed.

Lemma loop_victims_step i :
  (i < n)%nat ->
  loop_victims n worker_id i =
    (let victim := ((worker_id + i + 1) mod n)%nat in
     if (victim =? worker_id)%nat then [] else [victim]) ++ loop_victims n worker_id (S i).
Proof.
  intros Hi. unfold loop_victims.
  replace (n - i)%nat with (S (n - S i)) by lia. cbn [seq omap list_omap].
  by destruct ((worker_id + i + 1) mod n =? worker_id)%nat.
Qed.

Lemma fetch_from_wait fuel :
  (2 <= fuel)%nat ->
  worker_fetch fuel n worker_id env W_wait_global =
    ((first_success env [FromGlobalWait]).1,
     after_fetch env (first_success env [FromGlobalWait]).2).
Proof.
  intros Hf. destruct fuel as [|[|fuel]]; [lia | lia |].
  cbn [worker_fetch worker_loop first_success answer].
  destruct (env _ QueueWaitPop) as [t|]; [reflexivity|].
  cbn. by destruct (env bool StopLoad).
Qed.

Lemma fetch_from_steal k : forall i fuel,
  (n - i)%nat = k -> (k + 3 <= fuel)%nat ->
  worker_fetch fuel n worker_id env (W_steal i) =
    ((first_success env (map FromSteal (loop_victims n worker_id i) ++ [FromGlobalWait])).1,
     after_fetch env
       (first_success env (map FromSteal (loop_victims n worker_id i) ++ [FromGlobalWait])).2).
Proof.
  induction k as [|k IH]; intros i fuel Hk Hf.
  - rewrite loop_victims_done by lia.
    destruct fuel as [|fuel]; [lia|].
    cbn [worker_fetch worker_loop].
    assert ((i <? n)%nat = false) as -> by (apply Nat.ltb_ge; lia).
    cbn [iteration_over]. apply fetch_from_wait. lia.
  - destruct fuel as [|fuel]; [lia|].
    rewrite loop_victims_step by lia.
    cbn [worker_fetch worker_loop].
    assert ((i <? n)%nat = true) as -> by (apply Nat.ltb_lt; lia).
    cbv zeta.
    destruct ((worker_id + i + 1) mod n =? worker_id)%nat.
    + cbn [iteration_over app]. apply IH; lia.
    + cbn [map app first_success answer].
      destruct (env _ (DequeSteal _)) as [t|].
      * destruct fuel as [|[|fuel]]; [lia | lia |]. reflexivity.
      * cbn [iteration_over option_list source_of app fst snd].
        rewrite IH by lia. done.
Qed.

Lemma fetch_from_top fuel :
  (n + 5 <= fuel)%nat ->
  worker_fetch fuel n worker_id env W_pop_local =
    ((first_success env
        (FromLocal worker_id :: FromGlobalTry ::
         map FromSteal (loop_victims n worker_id 0) ++ [FromGlobalWait])).1,
     after_fetch env
       (first_success env
          (FromLocal worker_id :: FromGlobalTry ::
           map FromSteal (loop_victims n worker_id 0) ++ [FromGlobalWait])).2).
Proof.
  intros Hf. destruct fuel as [|[|fuel]]; [lia | lia |].
  cbn [worker_fetch worker_loop first_success answer].
  destruct (env _ (DequePopFront worker_id)) as [t|]; [reflexivity|].
  cbn [iteration_over worker_loop].
  destruct (env _ QueueTryPop) as [t|]; [reflexivity|].
  cbn [iteration_over option_list source_of app fst snd].
  rewrite (fetch_from_steal n 0 fuel) by lia. done.
Qed.

End Fetch.

Lemma loop_victims_spec n worker_id :
  (worker_id < n)%nat -> loop_victims n worker_id 0 = victims n worker_id.
Proof.
  intros Hid. unfold loop_victims, victims.
  replace (n - 0)%nat with (n - 1 + 1)%nat by lia.
  rewrite seq_app, omap_app. cbn [seq omap list_omap].
  replace ((worker_id + (0 + (n - 1)) + 1) mod n)%nat with worker_id.
  2: { replace (worker_id + (0 + (n - 1)) + 1)%nat with (worker_id + 1 * n)%nat by lia.
       rewrite Nat.Div0.mod_add. by rewrite Nat.mod_small. }
  rewrite Nat.eqb_refl, (right_id_L [] (++)).
  rewrite <- fmap_S_seq, <- list_fmap_compose.
  assert (forall l : list nat, Forall (fun j => j < n - 1)%nat l ->
    omap (fun j => if ((worker_id + j + 1) mod n =? worker_id)%nat then None
                   else Some ((worker_id + j + 1) mod n)%nat) l
    = (fun k => ((worker_id + k) mod n)%nat) ∘ S <$> l) as Hl.
  { induction l as [|j l IHl]; intros Hall; [done|].
    inversion Hall as [|? ? Hj Hall']; subst.
    cbn [omap list_omap fmap list_fmap].
    assert ((worker_id + j + 1) mod n <> worker_id)%nat as Hne.
    { destruct (decide (worker_id + j + 1 < n)%nat).
      - rewrite Nat.mod_small by lia. lia.
      - replace (worker_id + j + 1)%nat with ((worker_id + j + 1 - n) + 1 * n)%nat by lia.
        rewrite Nat.Div0.mod_add, Nat.mod_small by lia. lia. }
    apply Nat.eqb_neq in Hne. rewrite Hne. cbn.
    rewrite IHl by done. f_equal. f_equal. lia. }
  apply Hl. apply Forall_forall. intros j Hj. apply elem_of_seq in Hj. lia.
Qed.

Lemma mod_wrap_once a n :
  (0 < n)%nat -> (a < 2 * n)%nat ->
  (a mod n = if (a <? n)%nat then a else a - n)%nat.
Proof.
  intros Hn Ha. destruct (a <? n)%nat eqn:E.
  - apply Nat.ltb_lt in E. by apply Nat.mod_small.
  - apply Nat.ltb_ge in E.
    replace a with ((a - n) + 1 * n)%nat at 1 by lia.
    rewrite Nat.Div0.mod_add. apply Nat.mod_small. lia.
Qed.

Lemma elem_of_victims n worker_id v :
  (worker_id < n)%nat ->
  v ∈ victims n worker_id <-> (v < n)%nat /\ v <> worker_id.
Proof.
  intros Hid. unfold victims. rewrite list_elem_of_fmap. split.
  - intros (k & -> & Hk). apply elem_of_seq in Hk.
    rewrite mod_wrap_once by lia. destruct (_ <? _)%nat eqn:E.
    + apply Nat.ltb_lt in E. lia.
    + apply Nat.ltb_ge in E. lia.
  - intros [Hv Hne].
    exists (if (worker_id <? v)%nat then v - worker_id else v + n - worker_id)%nat.
    destruct (worker_id <? v)%nat eqn:E.
    + apply Nat.ltb_lt in E. split; [|apply elem_of_seq; lia].
      rewrite mod_wrap_once by lia.
      assert ((worker_id + (v - worker_id) <? n)%nat = true) as ->
        by (apply Nat.ltb_lt; lia). lia.
    + apply Nat.ltb_ge in E. split; [|apply elem_of_seq; lia].
      rewrite mod_wrap_once by lia.
      assert ((worker_id + (v + n - worker_id) <? n)%nat = false) as ->
        by (apply Nat.ltb_ge; lia). lia.
Qed.

Lemma NoDup_victims n worker_id :
  (worker_id < n)%nat -> NoDup (victims n worker_id).
Proof.
  intros Hid. unfold victims. apply NoDup_fmap_2_strong; [|apply NoDup_seq].
  intros k1 k2 Hk1 Hk2. apply elem_of_seq in Hk1, Hk2.
  rewrite !mod_wrap_once by lia.
  destruct (_ <? _)%nat eqn:E1; destruct (worker_id + k2 <? n)%nat eqn:E2;
    try apply Nat.ltb_lt in E1; try apply Nat.ltb_ge in E1;
    try apply Nat.ltb_lt in E2; try apply Nat.ltb_ge in E2; lia.
Qed.

Lemma first_success_none env l :
  (first_success env l).2 = None <-> forall s, s ∈ l -> answer env s = None.
Proof.
  induction l as [|s l IH]; cbn [first_success].
  - split; [|done]. intros _ s Hs. by apply elem_of_nil in Hs.
  - destruct (answer env s) as [t|] eqn:Hs; cbn.
    + split; [done|]. intros H. specialize (H s (list_elem_of_here _ _)). congruence.
    + rewrite IH. split.
      * intros H s' Hs'. apply elem_of_cons in Hs' as [->|Hs']; auto.
      * intros H s' Hs'. apply H. by apply list_elem_of_further.
Qed.

(** C1.  Whatever the other threads do, one iteration of [worker_loop]
    tries the worker's own deque, then the global queue without blocking,
    then the deques of the other workers in round-robin order from the one
    just after its own, then the global queue with blocking, and stops at
    the first source that gives a task, which it goes on to execute.  It
    never steals from its own deque, and every other worker is a victim
    once.  The thread leaves the loop exactly when every source gave
    nothing and the stop flag is then read as set. *)
Theorem worker_loop_order (n worker_id fuel : nat) (env : Oracle) :
  (worker_id < n)%nat -> (n + 5 <= fuel)%nat ->
  worker_fetch fuel n worker_id env W_pop_local =
    ((first_success env (sources n worker_id)).1,
     after_fetch env (first_success env (sources n worker_id)).2) /\
  (snd (worker_fetch fuel n worker_id env W_pop_local) = W_exited <->
   (forall s, s ∈ sources n worker_id -> answer env s = None) /\
   env bool StopLoad = true) /\
  (worker_id ∉ victims n worker_id) /\
  NoDup (victims n worker_id) /\
  (forall v, (v < n)%nat -> v <> worker_id -> v ∈ victims n worker_id).
Proof.
  intros Hid Hf.
  assert (worker_fetch fuel n worker_id env W_pop_local =
    ((first_success env (sources n worker_id)).1,
     after_fetch env (first_success env (sources n worker_id)).2)) as Heq.
  { rewrite fetch_from_top by done. by rewrite loop_victims_spec. }
  split; [exact Heq|]. split; [|split; [|split]].
  - rewrite Heq. cbn [snd]. rewrite <- first_success_none.
    unfold after_fetch.
    destruct (first_success env (sources n worker_id)).2 as [t|].
    + split; [done|]. by intros [? _].
    + destruct (env bool StopLoad); split; try done. by intros [_ ?].
  - rewrite elem_of_victims by done. lia.
  - by apply NoDup_victims.
  - intros v Hv Hne. by apply elem_of_victims.
Qed.

(** The theorem for worker 1 of 3 when every source is empty and the stop
    flag is set. *)
Lemma worker_loop_order_witness :
  worker_fetch 8 3 1 (quiet_env true) W_pop_local =
    ([FromLocal 1; FromGlobalTry; FromSteal 2; FromSteal 0; FromGlobalWait],
     W_exited).
Proof.
  destruct (worker_loop_order 3 1 8 (quiet_env true)) as [H _]; [lia | lia |].
  rewrite H. reflexivity.
Defined.

End WorkerFacts.

(* ===================================================================== *)
(** ** Steps and invariants of executions                                 *)
(* ===================================================================== *)

Module StepFacts.

(** Splits a successful [perform] into the cases of its result. *)
Ltac perform_cases H :=
  cbn [perform] in H; unfold on_deque in H;
  repeat match type of H with
  | context [match ?l !! ?q with _ => _ end] =>
      let d := fresh "d" in let Hd := fresh "Hd" in
      destruct (l !! q) as [d|] eqn:Hd; [|discriminate H]
  | context [let '(_, _) := ?e in _] =>
      let r := fresh "r" in let E := fresh "E" in
      destruct e as [? r] eqn:E
  | context [match ?e with Some _ => _ | None => _ end] =>
      let E := fresh "E" in destruct e eqn:E; [|discriminate H]
  end;
  injection H as <- <-.

(** Splits a successful step into the cases of the program point of the
    thread that moves. *)
Ltac step_cases H :=
  match type of H with
  | step ?l ?s = Some ?s' =>
      let pc := fresh "pc" in let Hpc := fresh "Hpc" in
      let Hact := fresh "Hact" in let Hperf := fresh "Hperf" in
      destruct l as [|?c|?i|?j]; cbn [step] in H;
      [ injection H as <-
      | injection H as <-
      | destruct (workers s !! i) as [pc|] eqn:Hpc; [|discriminate H];
        destruct (run_action _ s) as [[? ?]|] eqn:Hact; [|discriminate H];
        injection H as <-;
        destruct pc; cbn [worker_loop] in Hact;
        repeat match type of Hact with
        | context [if ?b then _ else _] => destruct b eqn:?
        end;
        cbn [run_action] in Hact;
        first [ discriminate Hact
              | injection Hact as <- <-
              | destruct (perform _ _) as [[? ?]|] eqn:Hperf; [|discriminate Hact];
                injection Hact as <- <-; perform_cases Hperf ]
      | destruct (clients s !! j) as [pc|] eqn:Hpc; [|discriminate H];
        destruct (run_action _ s) as [[? ?]|] eqn:Hact; [|discriminate H];
        injection H as <-;
        destruct pc; cbn [client_code] in Hact;
        repeat match type of Hact with
        | context [if ?b then _ else _] => destruct b eqn:?
        end;
        cbn [run_action] in Hact;
        first [ discriminate Hact
              | injection Hact as <- <-
              | destruct (workers s !! _) as [[]|] eqn:?; try discriminate Hact;
                injection Hact as <- <-
              | destruct (perform _ _) as [[? ?]|] eqn:Hperf; [|discriminate Hact];
                injection Hact as <- <-; perform_cases Hperf ] ]
  end.

(** The stop flag is never cleared. *)
Lemma step_stop_mono l s s' :
  step l s = Some s' -> stop_ (the_pool s) = true -> stop_ (the_pool s') = true.
Proof.
  intros H Hs. unfold the_pool in *. step_cases H; cbn; try done.
Qed.

(** What every step keeps, every execution keeps. *)
Lemma run_invariant (P : State -> Prop) :
  (forall l s s', step l s = Some s' -> P s -> P s') ->
  forall ls s s', run ls s = Some s' -> P s -> P s'.
Proof.
  intros Hstep. induction ls as [|l ls IH]; intros s s' Hrun Hs; cbn [run] in Hrun.
  - by injection Hrun as <-.
  - destruct (step l s) as [s1|] eqn:Hl; [|discriminate].
    eapply IH; eauto.
Qed.

Lemma run_app ls1 : forall ls2 s,
  run (ls1 ++ ls2) s = match run ls1 s with Some s1 => run ls2 s1 | None => None end.
Proof.
  induction ls1 as [|l ls1 IH]; intros ls2 s; cbn [run app]; [done|].
  destruct (step l s); [apply IH | done].
Qed.

(** A step changes the program point of the thread that moves only. *)
Lemma step_worker_clients i s s' :
  step (StepWorker i) s = Some s' -> clients s' = clients s.
Proof.
  cbn [step]. intros H.
  destruct (workers s !! i); [|discriminate].
  destruct (run_action _ s) as [[? ?]|]; [|discriminate]. by injection H as <-.
Qed.

Lemma step_client_workers j s s' :
  step (StepClient j) s = Some s' -> workers s' = workers s.
Proof.
  cbn [step]. intros H.
  destruct (clients s !! j); [|discriminate].
  destruct (run_action _ s) as [[? ?]|]; [|discriminate]. by injection H as <-.
Qed.

Lemma step_client_others j s s' j' :
  step (StepClient j) s = Some s' -> j' <> j -> clients s' !! j' = clients s !! j'.
Proof.
  cbn [step]. intros H Hne.
  destruct (clients s !! j); [|discriminate].
  destruct (run_action _ s) as [[? ?]|]; [|discriminate]. injection H as <-.
  cbn. by rewrite list_lookup_insert_ne.
Qed.

Lemma step_client_self j s s' :
  step (StepClient j) s = Some s' ->
  exists pc pc' w',
    clients s !! j = Some pc /\
    run_action (client_code (threads_of s) pc) s = Some (pc', w') /\
    clients s' !! j = Some pc' /\ world s' = w'.
Proof.
  cbn [step]. intros H.
  destruct (clients s !! j) as [pc|] eqn:Hpc; [|discriminate].
  destruct (run_action _ s) as [[pc' w']|] eqn:Hact; [|discriminate].
  injection H as <-. exists pc, pc', w'. repeat split; auto.
  cbn. apply list_lookup_insert_eq. by eapply lookup_lt_Some.
Qed.

(** The only call that throws is a [submit] that reads the stop flag as
    set. *)
Lemma client_throws n pc s e w' :
  run_action (client_code n pc) s = Some (C_returned (RThrow e), w') ->
  e = Pool.rejected /\ stop_ (the_pool s) = true /\ w' = world s /\
  exists priority f, pc = S_check_stop priority f.
Proof.
  intros H. unfold the_pool.
  destruct pc; cbn [client_code] in H;
    repeat match type of H with
    | context [if ?b then _ else _] => destruct b eqn:?
    end;
    cbn [run_action perform] in H; unfold on_deque in H;
    repeat match type of H with
    | context [match ?e with _ => _ end] => destruct e eqn:?
    end; try discriminate H; try (injection H as H1 H2; try discriminate H1).
  subst. eauto 10.
Qed.

Lemma step_rejections l s s' :
  step l s = Some s' -> rejections_justified s -> rejections_justified s'.
Proof.
  intros H Hinv j' e Hj'.
  pose proof (step_stop_mono l s s' H) as Hmono.
  destruct l as [|c|i|j].
  - injection H as <-. by apply (Hinv j' e).
  - injection H as <-. cbn [clients] in Hj'.
    apply lookup_app_Some in Hj' as [Hj'|[_ Hj']]; [by apply (Hinv j' e)|].
    apply list_lookup_singleton_Some in Hj' as [_ Hj']. by destruct c.
  - rewrite (step_worker_clients _ _ _ H) in Hj'.
    destruct (Hinv j' e Hj'). auto.
  - destruct (decide (j' = j)) as [->|Hne].
    + destruct (step_client_self _ _ _ H) as (pc & pc' & w' & Hpc & Hact & Hpc' & _).
      rewrite Hpc' in Hj'. injection Hj' as ->.
      apply client_throws in Hact as (-> & Hstop & _). auto.
    + rewrite (step_client_others _ _ _ _ H Hne) in Hj'.
      destruct (Hinv j' e Hj'). auto.
Qed.

Lemma reachable_rejections n ls s :
  run ls (init n) = Some s -> rejections_justified s.
Proof.
  intros Hrun. eapply (run_invariant rejections_justified); eauto.
  - apply step_rejections.
  - intros j e Hj. cbn in Hj. by rewrite lookup_nil in Hj.
Qed.

End StepFacts.

(* ===================================================================== *)
(** ** The local deques                                                   *)
(* ===================================================================== *)

Module LocalQueueFacts.
Import StepFacts.

Lemma empty_deque_calls d :
  deque_ d = [] ->
  Deque.pop_front d = (None, d) /\ Deque.steal d = (None, d).
Proof. destruct d as [l]. cbn. intros ->. done. Qed.

(** No step puts a task on a local deque. *)
Lemma step_no_local_work l s s' :
  step l s = Some s' -> no_local_work s -> no_local_work s'.
Proof.
  intros H (Hd & Hst & Hw). unfold no_local_work, deques_empty, the_pool in *.
  step_cases H; cbn [world workers clients memory pool local_queues_ stats_
                     set_pool set_locals set_stats set_global set_stop set_active
                     set_packaged];
    repeat match goal with
    | Hq : local_queues_ _ !! _ = Some ?d |- _ =>
        let He := fresh "He" in
        pose proof (Forall_lookup_1 _ _ _ _ Hd Hq) as He; cbn beta in He;
        destruct (empty_deque_calls d He) as [? ?]; clear Hq
    end.
  all: repeat match goal with
       | E : Deque.pop_front ?d = _, H' : Deque.pop_front ?d = _ |- _ =>
           rewrite H' in E; injection E as <- <-
       | E : Deque.steal ?d = _, H' : Deque.steal ?d = _ |- _ =>
           rewrite H' in E; injection E as <- <-
       end.
  all: try match goal with
       | Hpc : workers _ !! _ = Some _ |- _ =>
           let Hc := fresh "Hc" in
           pose proof (Forall_lookup_1 _ _ _ _ Hw Hpc) as Hc; cbn in Hc;
           try discriminate Hc
       end.
  all: repeat split; try done; try (apply Forall_app; split; done).
  all: try (apply Forall_insert; [done|]);
       repeat match goal with
       | |- context [match ?o with Some _ => _ | None => _ end] => destruct o
       | |- context [if ?b then _ else _] => destruct b
       end; done.
Qed.

Lemma init_no_local_work n : no_local_work (init n).
Proof.
  unfold no_local_work, deques_empty, the_pool, init. cbn. repeat split.
  - by apply Forall_replicate.
  - by apply Forall_replicate.
Qed.

Lemma step_deques_counted l s s' :
  step l s = Some s' -> deques_counted s -> deques_counted s'.
Proof.
  intros H Hc. unfold deques_counted, threads_of, the_pool in *.
  step_cases H; cbn; rewrite ?length_insert; exact Hc.
Qed.

Lemma reachable_deques_counted n ls s :
  run ls (init n) = Some s -> deques_counted s.
Proof.
  intros Hrun. eapply (run_invariant deques_counted); eauto.
  - apply step_deques_counted.
  - unfold deques_counted, init, threads_of, the_pool. cbn.
    by rewrite length_replicate.
Qed.

Lemma try_steal_loop_empty p worker_id : forall ixs,
  deques_empty p -> Pool.try_steal_loop ixs worker_id p = (None, p).
Proof.
  intros ixs Hd. induction ixs as [|i ixs IH]; cbn [Pool.try_steal_loop]; [done|].
  destruct (_ =? worker_id)%nat; [done|].
  destruct (local_queues_ p !! _) as [q|] eqn:Hq; [|done].
  pose proof (Forall_lookup_1 _ _ _ _ Hd Hq) as He. cbn beta in He.
  destruct (empty_deque_calls q He) as [_ ->]. done.
Qed.

(** C8.  No code of the pool calls [push_front]: [submit_priority] pushes
    to the global queue.  So in every execution every local deque is empty
    at all times, a [steal] returns nothing, [try_steal] returns nothing
    and no worker is ever past a successful [steal], and
    [stats().total_tasks_stolen] is [0]. *)
Theorem local_deques_always_empty (n : nat) (ls : list Label) (s : State) :
  run ls (init n) = Some s ->
  Forall (fun d => deque_ d = []) (local_queues_ (the_pool s)) /\
  total_tasks_stolen (Pool.stats (the_pool s)) = 0%N /\
  (forall worker_id, Pool.try_steal worker_id (the_pool s) = (None, the_pool s)) /\
  (forall victim r w',
      perform (DequeSteal victim) (world s) = Some (r, w') -> r = None) /\
  (forall i pc, workers s !! i = Some pc -> has_stolen pc = false) /\
  (forall m worker_id pc, never_pushes_front (worker_loop m worker_id pc)) /\
  (forall m pc, never_pushes_front (client_code m pc)) /\
  (forall m task_ptr task,
      exists k, client_code m (S_push task_ptr task) = Act (QueuePush task) k).
Proof.
  intros Hrun.
  assert (no_local_work s) as (Hd & Hst & Hw).
  { eapply (run_invariant no_local_work); eauto.
    - apply step_no_local_work.
    - apply init_no_local_work. }
  split; [exact Hd|]. split; [exact Hst|]. split; [|split; [|split; [|split; [|split]]]].
  - intros worker_id. by apply try_steal_loop_empty.
  - intros victim r w' H. cbn [perform] in H. unfold on_deque in H.
    fold (the_pool s) in H.
    destruct (local_queues_ (the_pool s) !! victim) as [d|] eqn:Hq; [|discriminate].
    pose proof (Forall_lookup_1 _ _ _ _ Hd Hq) as He. cbn beta in He.
    destruct (empty_deque_calls d He) as [_ Hs]. rewrite Hs in H. by injection H as <- _.
  - intros i pc Hpc. apply (Forall_lookup_1 _ _ _ _ Hw Hpc).
  - intros m worker_id pc. destruct pc; cbn; try done.
    repeat match goal with
    | |- context [if ?b then _ else _] => destruct b
    end; done.
  - intros m pc. destruct pc; cbn; try done;
    repeat match goal with
    | |- context [if ?b then _ else _] => destruct b
    end; done.
  - intros m task_ptr task. cbn. eauto.
Qed.

(** The theorem after one task has been submitted to a pool of two
    workers and executed by worker 0. *)
Lemma local_deques_always_empty_witness :
  exists s,
    run ([Spawn (CallSubmit (Returns 7))] ++ replicate 5 (StepClient 0)
         ++ replicate 12 (StepWorker 0)) (init 2) = Some s /\
    total_tasks_completed (Pool.stats (the_pool s)) = 1%N /\
    total_tasks_stolen (Pool.stats (the_pool s)) = 0%N.
Proof.
  eexists. split; [vm_compute; reflexivity|]. split; [reflexivity|].
  apply (local_deques_always_empty 2
           ([Spawn (CallSubmit (Returns 7))] ++ replicate 5 (StepClient 0)
            ++ replicate 12 (StepWorker 0))).
  vm_compute. reflexivity.
Defined.

End LocalQueueFacts.

(* ===================================================================== *)
(** ** Calls that run alone                                               *)
(* ===================================================================== *)

Module SoloFacts.
Import StepFacts.

Lemma drain_empty fuel : forall d,
  (length (deque_ d) < fuel)%nat -> Pool.drain fuel d = mkDeque [].
Proof.
  induction fuel as [|fuel IH]; intros [l] Hf; [simpl in Hf; lia|].
  cbn [Pool.drain]. unfold Deque.pop_front. cbn [deque_] in *.
  destruct l as [|t l]; [done|]. apply IH. simpl in *. lia.
Qed.

Lemma pending_empty p :
  queue_ (global_queue_ p) = [] ->
  Forall (fun d => deque_ d = []) (local_queues_ p) ->
  Pool.pending p = 0%N.
Proof.
  intros Hg Hl. unfold Pool.pending, TaskQueueM.size, PriorityQueue.size.
  rewrite Hg. cbn [length]. induction Hl as [|d l Hd Hl IH]; [done|].
  cbn [foldl]. unfold Deque.size. rewrite Hd. exact IH.
Qed.

Lemma alone_add j k1 k2 s :
  alone j (k1 + k2) s =
    match alone j k1 s with
    | Some s1 => alone j k2 s1
    | None => None
    end.
Proof. unfold alone. by rewrite replicate_add, run_app. Qed.

(** One step of a caller, spelt out. *)
Lemma step_client_at j s pc pc' w' :
  clients s !! j = Some pc ->
  run_action (client_code (threads_of s) pc) s = Some (pc', w') ->
  step (StepClient j) s = Some (mkState w' (workers s) (<[j := pc']> (clients s))).
Proof. intros Hpc Hact. cbn [step]. by rewrite Hpc, Hact. Qed.

Lemma lookup_insert_self {A : Type} (l : list A) j x y :
  l !! j = Some x -> <[j := y]> l !! j = Some y.
Proof. intros H. apply list_lookup_insert_eq. by eapply lookup_lt_Some. Qed.

(** [submit_priority] on a running pool, alone: five steps, whose effect
    is that of [Pool.submit_priority]. *)
Lemma submit_alone s j prio f :
  clients s !! j = Some (S_check_stop prio f) ->
  stop_ (the_pool s) = false ->
  alone j 5 s =
    Some (mkState
            (mkWorld (Pool.submit_priority prio f (memory (world s))).2 (now (world s)))
            (workers s)
            (<[j := C_returned (RFuture (length (packaged_tasks (memory (world s)))))]>
               (clients s))).
Proof.
  intros Hpc Hstop. unfold the_pool in Hstop. unfold alone.
  unfold Pool.submit_priority. rewrite Hstop.
  cbn [replicate run].
  rewrite (step_client_at j s _ _ _ Hpc eq_refl).
  cbn [client_code run_action perform world threads_of]. rewrite Hstop.
  repeat (erewrite step_client_at;
          [ | cbn [clients]; by eapply lookup_insert_self | reflexivity ];
          cbn [clients workers world]; rewrite ?list_insert_insert_eq).
  reflexivity.
Qed.

(** [shutdown], alone: two steps, whose effect is that of
    [Pool.shutdown]. *)
Lemma shutdown_alone s j :
  clients s !! j = Some SD_store_stop ->
  alone j 2 s =
    Some (mkState (set_pool (Pool.shutdown (the_pool s)) (world s)) (workers s)
                  (<[j := C_returned RVoid]> (clients s))).
Proof.
  intros Hpc. unfold alone. cbn [replicate run].
  rewrite (step_client_at j s _ _ _ Hpc eq_refl).
  erewrite step_client_at;
    [ | cbn [clients]; by eapply lookup_insert_self | reflexivity ].
  cbn [clients workers world]. by rewrite list_insert_insert_eq.
Qed.

(** The inner loop of [shutdown_now] on the deque [i], alone: one step for
    each task and one that finds the deque empty. *)
Lemma drain_alone len : forall s j i d,
  clients s !! j = Some (SN_drain i) ->
  (i < threads_of s)%nat ->
  local_queues_ (the_pool s) !! i = Some d ->
  length (deque_ d) = len ->
  alone j (S len) s =
    Some (mkState
            (set_pool (set_locals (<[i := mkDeque []]> (local_queues_ (the_pool s)))
                                  (the_pool s)) (world s))
            (workers s)
            (<[j := SN_drain (S i)]> (clients s))).
Proof.
  induction len as [|len IH]; intros s j i [l] Hpc Hi Hd Hlen; cbn [deque_] in Hlen.
  - destruct l; [|done]. unfold alone. cbn [replicate run].
    erewrite step_client_at; [reflexivity | exact Hpc |].
    cbn [client_code]. apply Nat.ltb_lt in Hi. rewrite Hi.
    cbn [run_action perform]. unfold on_deque. unfold the_pool in Hd. by rewrite Hd.
  - destruct l as [|t l]; [done|]. injection Hlen as Hlen.
    change (S (S len)) with (1 + S len)%nat. rewrite alone_add.
    unfold alone at 1. cbn [replicate run].
    erewrite step_client_at; [ | exact Hpc | ].
    2: { cbn [client_code]. pose proof Hi as Hi'. apply Nat.ltb_lt in Hi'. rewrite Hi'.
         cbn [run_action perform]. unfold on_deque. unfold the_pool in Hd.
         rewrite Hd. reflexivity. }
    erewrite (IH _ j i (mkDeque l)).
    + f_equal. unfold the_pool.
      cbn [world memory pool local_queues_ set_pool set_locals workers clients
           num_threads_ stop_ active_tasks_ global_queue_ stats_ packaged_tasks now].
      by rewrite !list_insert_insert_eq.
    + cbn [clients]. by eapply lookup_insert_self.
    + done.
    + unfold the_pool. cbn. by eapply lookup_insert_self.
    + done.
Qed.

Lemma drained_all (l : list WorkStealingDeque) :
  map (fun q => Pool.drain (S (Deque.size q)) q) l = replicate (length l) (mkDeque []).
Proof.
  induction l as [|d l IH]; [done|]. cbn [map length replicate].
  rewrite IH. f_equal. apply drain_empty. unfold Deque.size. lia.
Qed.

(** The outer loop of [shutdown_now] from the deque [i] on, alone. *)
Lemma drain_from_alone m : forall s j i,
  clients s !! j = Some (SN_drain i) ->
  length (local_queues_ (the_pool s)) = threads_of s ->
  (i + m)%nat = threads_of s ->
  exists k s',
    alone j k s = Some s' /\
    local_queues_ (the_pool s')
      = take i (local_queues_ (the_pool s)) ++ replicate m (mkDeque []) /\
    set_locals (local_queues_ (the_pool s)) (the_pool s') = the_pool s /\
    packaged_tasks (memory (world s')) = packaged_tasks (memory (world s)) /\
    now (world s') = now (world s) /\
    workers s' = workers s /\
    clients s' = <[j := SN_notify]> (clients s).
Proof.
  induction m as [|m IH]; intros s j i Hpc Hlen Him.
  - exists 1%nat. eexists. split.
    + unfold alone. cbn [replicate run]. erewrite step_client_at; [reflexivity | exact Hpc |].
      cbn [client_code].
      assert ((i <? threads_of s)%nat = false) as -> by (apply Nat.ltb_ge; lia).
      reflexivity.
    + cbn [world workers clients replicate]. rewrite take_ge by lia.
      rewrite (right_id_L [] (++)). repeat split.
      unfold the_pool. by destruct s as [[[[] ?] ?] ? ?].
  - destruct (lookup_lt_is_Some_2 (local_queues_ (the_pool s)) i) as [d Hd]; [lia|].
    pose proof (drain_alone (length (deque_ d)) s j i d Hpc ltac:(lia) Hd eq_refl) as H1.
    match type of H1 with _ = Some ?s1 =>
      destruct (IH s1 j (S i)) as (k & s' & Hk & Hl & Hp & Hpt & Hnow & Hw & Hc)
    end.
    + cbn [clients]. by eapply lookup_insert_self.
    + unfold the_pool, threads_of in *. cbn. by rewrite length_insert.
    + unfold the_pool, threads_of in *. cbn. lia.
    + exists (S (length (deque_ d)) + k)%nat, s'. rewrite alone_add, H1.
      split; [exact Hk|]. unfold the_pool in *.
      cbn [world memory pool workers clients local_queues_ set_pool set_locals
           packaged_tasks now] in *.
      rewrite Hl, Hpt, Hnow, Hw, Hc. repeat split.
      * rewrite (take_S_r _ _ (mkDeque [])) by (by eapply lookup_insert_self).
        rewrite take_insert_ge by lia. rewrite <- (assoc_L (++)). done.
      * apply (f_equal (set_locals (local_queues_ (pool (memory (world s)))))) in Hp.
        unfold set_locals in Hp |- *.
        cbn [num_threads_ stop_ active_tasks_ global_queue_ stats_] in Hp.
        rewrite Hp. by destruct (pool (memory (world s))).
      * by rewrite list_insert_insert_eq.
Qed.

(** [shutdown_now], alone, in the steps of [step]: its effect on the pool
    is that of [Pool.shutdown_now] (what becomes of the futures of the
    discarded tasks is in [Cancel.step]). *)
Lemma shutdown_now_alone s j :
  clients s !! j = Some SN_store_stop ->
  length (local_queues_ (the_pool s)) = threads_of s ->
  exists k s',
    alone j k s = Some s' /\
    the_pool s' = Pool.shutdown_now (the_pool s) /\
    packaged_tasks (memory (world s')) = packaged_tasks (memory (world s)) /\
    now (world s') = now (world s) /\
    workers s' = workers s /\
    clients s' = <[j := C_returned RVoid]> (clients s).
Proof.
  intros Hpc Hlen.
  assert (alone j 2 s =
    Some (mkState
            (set_pool (set_global (TaskQueueM.clear (global_queue_ (the_pool s)))
                                  (set_stop true (the_pool s))) (world s))
            (workers s) (<[j := SN_drain 0]> (clients s)))) as H1.
  { unfold alone. cbn [replicate run].
    rewrite (step_client_at j s _ _ _ Hpc eq_refl).
    erewrite step_client_at;
      [ | cbn [clients]; by eapply lookup_insert_self | reflexivity ].
    cbn [clients workers world]. by rewrite list_insert_insert_eq. }
  match type of H1 with _ = Some ?s1 =>
    destruct (drain_from_alone (threads_of s) s1 j 0)
      as (k & s2 & Hk & Hl & Hp & Hpt & Hnow & Hw & Hc)
  end.
  - cbn [clients]. by eapply lookup_insert_self.
  - exact Hlen.
  - done.
  - assert (clients s2 !! j = Some SN_notify) as Hpc2.
    { rewrite Hc. cbn [clients]. rewrite list_insert_insert_eq.
      by eapply lookup_insert_self. }
    exists (2 + k + 1)%nat. eexists. rewrite !alone_add, H1, Hk. split.
    + unfold alone. cbn [replicate run].
      erewrite step_client_at; [reflexivity | exact Hpc2 | reflexivity].
    + unfold the_pool in *.
      cbn [world memory pool workers clients local_queues_ set_pool set_locals
           set_global set_stop packaged_tasks now threads_of num_threads_] in *.
      rewrite Hpt, Hnow, Hw, Hc, !list_insert_insert_eq. repeat split.
      unfold Pool.shutdown_now.
      cbn [local_queues_ set_global set_stop].
      rewrite drained_all, Hlen.
      rewrite take_0 in Hl. cbn [app] in Hl.
      transitivity (set_locals (local_queues_ (pool (memory (world s2))))
                               (pool (memory (world s2))));
        [by destruct (pool (memory (world s2)))|].
      rewrite Hl.
      apply (f_equal (set_locals (replicate (num_threads_ (pool (memory (world s))))
                                            (mkDeque [])))) in Hp.
      unfold set_locals, set_global, set_stop in Hp |- *.
      cbn [num_threads_ stop_ active_tasks_ global_queue_ stats_ local_queues_] in Hp |- *.
      exact Hp.
Qed.

End SoloFacts.

(* ===================================================================== *)
(** ** Submission and shutdown                                            *)
(* ===================================================================== *)

Module LifecycleFacts.
Import StepFacts LocalQueueFacts SoloFacts.

(** C4.  A [submit] or [submit_priority] that finds the stop flag set
    throws the rejection and leaves the memory as it was: no packaged task
    is allocated, the queues and the counters are unchanged; as a thread,
    the call takes one step, which changes nothing but the caller.  A call
    that finds the flag clear returns a future (alone, in five steps whose
    effect is that of [Pool.submit_priority]), and in every execution a
    call that has thrown has found the flag set. *)
Theorem submit_rejected_after_shutdown (priority : Z) (f : Outcome) :
  (forall m, stop_ (pool m) = true ->
     Pool.submit_priority priority f m = (inl Pool.rejected, m) /\
     Pool.submit f m = (inl Pool.rejected, m)) /\
  (forall m, stop_ (pool m) = false ->
     exists m',
       Pool.submit_priority priority f m = (inr (length (packaged_tasks m)), m') /\
       packaged_tasks m' = packaged_tasks m ++ [mkPackaged f Unresolved]) /\
  (forall s j,
     clients s !! j = Some (call_entry (CallSubmitPriority priority f)) ->
     stop_ (the_pool s) = true ->
     step (StepClient j) s =
       Some (mkState (world s) (workers s)
                     (<[j := C_returned (RThrow Pool.rejected)]> (clients s)))) /\
  (forall s j,
     clients s !! j = Some (call_entry (CallSubmitPriority priority f)) ->
     stop_ (the_pool s) = false ->
     alone j 5 s =
       Some (mkState
               (mkWorld (Pool.submit_priority priority f (memory (world s))).2
                        (now (world s)))
               (workers s)
               (<[j := C_returned (RFuture (length (packaged_tasks (memory (world s)))))]>
                  (clients s)))) /\
  (forall n ls s, run ls (init n) = Some s -> rejections_justified s).
Proof.
  split; [|split; [|split; [|split]]].
  4: { intros s j Hj Hstop. by apply submit_alone. }
  - intros m Hstop. unfold Pool.submit, Pool.submit_priority. by rewrite Hstop.
  - intros m Hstop. unfold Pool.submit_priority. rewrite Hstop. eauto.
  - intros s j Hj Hstop. unfold the_pool in Hstop.
    cbn [step call_entry] in *. rewrite Hj.
    cbn [client_code run_action perform]. by rewrite Hstop.
  - apply reachable_rejections.
Qed.

End LifecycleFacts.

(* ===================================================================== *)
(** ** The execution of tasks                                             *)
(* ===================================================================== *)

Module ExecutionFacts.
Import StepFacts HeapFacts QueueFacts LocalQueueFacts.

Lemma sum_insert {A : Type} (f : A -> nat) (l : list A) i x y :
  l !! i = Some x ->
  (sum_list_with f (<[i := y]> l) + f x = sum_list_with f l + f y)%nat.
Proof.
  revert i. induction l as [|a l IH]; intros [|i] Hi; try done; cbn in *.
  - injection Hi as ->. lia.
  - specialize (IH i Hi). rewrite <- !Nat.add_assoc. f_equal. exact IH.
Qed.

Lemma push_owners ptr t q :
  heap_ordered (queue_ q) ->
  heap_ordered (queue_ (TaskQueueM.push t q)) /\
  sum_list_with (holds ptr) (queue_ (TaskQueueM.push t q))
    = (holds ptr t + sum_list_with (holds ptr) (queue_ q))%nat.
Proof.
  intros Hq. destruct (push_spec t (queue_ q) Hq) as [Hh Hp].
  split; [done|]. cbn [TaskQueueM.push queue_]. by rewrite Hp.
Qed.

Lemma try_pop_owners ptr q r q' :
  heap_ordered (queue_ q) -> TaskQueueM.try_pop q = (r, q') ->
  heap_ordered (queue_ q') /\
  sum_list_with (holds ptr) (queue_ q)
    = (match r with Some t => holds ptr t | None => 0 end
       + sum_list_with (holds ptr) (queue_ q'))%nat.
Proof.
  intros Hq. unfold TaskQueueM.try_pop.
  destruct (PriorityQueue.empty (queue_ q)) eqn:He.
  - intros [= <- <-]. done.
  - apply empty_false, top_nonempty in He as [t Ht].
    unfold PriorityQueue.top. rewrite Ht. intros [= <- <-].
    destruct (pop_spec _ t Hq Ht) as [Hh Hp]. split; [done|].
    cbn [queue_]. by rewrite Hp at 1.
Qed.

Lemma wait_pop_owners ptr stop q r q' :
  heap_ordered (queue_ q) -> TaskQueueM.wait_pop stop q = Some (r, q') ->
  heap_ordered (queue_ q') /\
  sum_list_with (holds ptr) (queue_ q)
    = (match r with Some t => holds ptr t | None => 0 end
       + sum_list_with (holds ptr) (queue_ q'))%nat.
Proof.
  intros Hq. unfold TaskQueueM.wait_pop.
  destruct (PriorityQueue.empty (queue_ q)) eqn:He; cbn [negb orb].
  - destruct stop; [|done]. intros [= <- <-]. done.
  - apply empty_false, top_nonempty in He as [t Ht].
    unfold PriorityQueue.top. rewrite Ht. intros [= <- <-].
    destruct (pop_spec _ t Hq Ht) as [Hh Hp]. split; [done|].
    cbn [queue_]. by rewrite Hp at 1.
Qed.

Lemma exec_inv_keep s s' :
  exec_inv s -> no_local_work s' ->
  heap_ordered (queue_ (global_queue_ (the_pool s'))) ->
  (forall ptr, (owners ptr s' <= owners ptr s)%nat) ->
  (forall ptr, (1 <= owners ptr s')%nat ->
     packaged_tasks (memory (world s')) !! ptr
       = packaged_tasks (memory (world s)) !! ptr) ->
  Forall (fun pc => is_terminated pc = false) (workers s') ->
  exec_inv s'.
Proof.
  intros Hinv Hloc Hheap Hle Hpt Hal. split; try done.
  - intros ptr. specialize (Hle ptr). pose proof (inv_once _ Hinv ptr). lia.
  - intros ptr Hown. rewrite (Hpt ptr Hown).
    apply (inv_fresh _ Hinv). specialize (Hle ptr). lia.
Qed.

Ltac state_simpl :=
  cbn [world workers clients memory pool global_queue_ local_queues_ stats_
       packaged_tasks the_pool set_pool set_locals set_stats set_global set_stop
       set_active set_packaged] in *.

(** On the empty deques of an execution, [pop_front] and [steal] return
    nothing. *)
Ltac deque_results Hd :=
  repeat match goal with
  | Hq : local_queues_ _ !! _ = Some ?d |- _ =>
      let He := fresh "He" in
      pose proof (Forall_lookup_1 _ _ _ _ Hd Hq) as He; cbn beta in He;
      destruct (empty_deque_calls d He) as [? ?]; clear Hq
  end;
  repeat match goal with
  | E : Deque.pop_front ?d = _, H' : Deque.pop_front ?d = _ |- _ =>
      rewrite H' in E; injection E as <- <-
  | E : Deque.steal ?d = _, H' : Deque.steal ?d = _ |- _ =>
      rewrite H' in E; injection E as <- <-
  end.

Ltac case_results :=
  repeat match goal with
  | |- context [match ?o with Some _ => _ | None => _ end] => destruct o
  | |- context [if ?b then _ else _] => destruct b
  end.

Lemma holds_make_task ptr task_ptr priority :
  holds ptr (Pool.make_task task_ptr priority) = if decide (ptr = task_ptr) then 1%nat else 0%nat.
Proof.
  unfold holds, Pool.make_task. cbn [func_].
  destruct (decide (ptr = task_ptr)) as [->|Hne]; case_decide; try done.
  congruence.
Qed.

Lemma worker_owns s i pc ptr :
  workers s !! i = Some pc -> (worker_holds ptr pc <= owners ptr s)%nat.
Proof.
  intros Hpc. unfold owners.
  assert (worker_holds ptr pc <= sum_list_with (worker_holds ptr) (workers s))%nat.
  { apply sum_list_with_in. by eapply list_elem_of_lookup_2. }
  lia.
Qed.

(** A worker that calls the task it holds finds its packaged task
    unresolved: no exception leaves the call, and no other packaged task
    changes. *)
Lemma call_task_held s i task start o r :
  exec_inv s -> workers s !! i = Some (W_call task start) ->
  call_task task (packaged_tasks (memory (world s))) = Some (o, r) ->
  o = None /\
  forall ptr, holds ptr task = 0%nat ->
    r !! ptr = packaged_tasks (memory (world s)) !! ptr.
Proof.
  intros Hinv Hpc. unfold call_task.
  destruct (func_ task) as [[task_ptr]|] eqn:Hf.
  - assert (holds task_ptr task = 1%nat) as Hh
      by (unfold holds; rewrite Hf; by case_decide).
    pose proof (worker_owns s i _ task_ptr Hpc) as Hown. cbn [worker_holds] in Hown.
    destruct (inv_fresh _ Hinv task_ptr) as (pt & Hpt & Hun); [lia|].
    rewrite Hpt. unfold packaged_call. rewrite Hun. intros [= <- <-].
    split; [done|]. intros ptr Hp.
    apply list_lookup_insert_ne. intros ->. lia.
  - intros [= <- <-]. done.
Qed.

(** The task a worker has called is held by nobody else. *)
Lemma call_step_owners s i task start ptr :
  exec_inv s -> workers s !! i = Some (W_call task start) ->
  (1 <= sum_list_with (holds ptr) (queue_ (global_queue_ (pool (memory (world s)))))
        + sum_list_with (worker_holds ptr) (<[i := W_clock_end start]> (workers s))
        + sum_list_with (client_holds ptr) (clients s))%nat ->
  holds ptr task = 0%nat.
Proof.
  intros Hinv Hpc Hown.
  pose proof (sum_insert (worker_holds ptr) (workers s) i _ (W_clock_end start) Hpc) as Hs.
  cbn [worker_holds] in Hs.
  pose proof (inv_once _ Hinv ptr) as Honce. unfold owners, the_pool in Honce.
  lia.
Qed.

(** The allocation of a packaged task by [submit_priority] keeps the
    invariant: the new task is the only one that points to it. *)
Lemma make_step_inv s j prio f :
  exec_inv s -> clients s !! j = Some (S_make prio f) ->
  no_local_work
    (mkState (set_packaged (packaged_tasks (memory (world s))
                              ++ [mkPackaged f Unresolved]) (world s))
             (workers s)
             (<[j := S_push (length (packaged_tasks (memory (world s))))
                       (Pool.make_task (length (packaged_tasks (memory (world s)))) prio)]>
                (clients s))) ->
  exec_inv
    (mkState (set_packaged (packaged_tasks (memory (world s))
                              ++ [mkPackaged f Unresolved]) (world s))
             (workers s)
             (<[j := S_push (length (packaged_tasks (memory (world s))))
                       (Pool.make_task (length (packaged_tasks (memory (world s)))) prio)]>
                (clients s))).
Proof.
  intros Hinv Hpc Hloc.
  remember (length (packaged_tasks (memory (world s)))) as len eqn:Hlen.
  assert (forall ptr,
    owners ptr
      (mkState (set_packaged (packaged_tasks (memory (world s))
                                ++ [mkPackaged f Unresolved]) (world s))
               (workers s)
               (<[j := S_push len (Pool.make_task len prio)]> (clients s)))
    = (owners ptr s + if decide (ptr = len) then 1 else 0)%nat) as Hown.
  { intros ptr. unfold owners, the_pool. state_simpl.
    pose proof (sum_insert (client_holds ptr) (clients s) j _
                  (S_push len (Pool.make_task len prio)) Hpc) as Hs.
    cbn [client_holds] in Hs. rewrite holds_make_task in Hs. lia. }
  assert (owners len s = 0)%nat as Hnew.
  { destruct (decide (owners len s = 0)%nat) as [|Hne]; [done|].
    destruct (inv_fresh _ Hinv len) as (pt & Hpt & _); [lia|].
    apply lookup_lt_Some in Hpt. lia. }
  split.
  - exact Hloc.
  - exact (inv_heap _ Hinv).
  - intros ptr. rewrite Hown. pose proof (inv_once _ Hinv ptr).
    case_decide; [subst ptr; lia | lia].
  - intros ptr. rewrite Hown. state_simpl. case_decide as Hp.
    + subst ptr. intros _. exists (mkPackaged f Unresolved). split; [|done].
      rewrite lookup_app_r by lia. by replace (len - length _)%nat with 0%nat by lia.
    + intros Hp'. destruct (inv_fresh _ Hinv ptr) as (pt & Hpt & Hun); [lia|].
      exists pt. split; [|done]. by apply lookup_app_l_Some.
  - exact (inv_alive _ Hinv).
Qed.

(** Every step keeps the invariant of executions. *)
Lemma step_exec_inv l s s' :
  step l s = Some s' -> exec_inv s -> exec_inv s'.
Proof.
  intros H Hinv.
  pose proof (step_no_local_work _ _ _ H (inv_local _ Hinv)) as Hloc.
  pose proof (inv_heap _ Hinv) as Hheap.
  pose proof (inv_alive _ Hinv) as Hal.
  destruct (inv_local _ Hinv) as (Hd & _ & Hw).
  unfold the_pool, deques_empty in Hheap, Hd.
  step_cases H; deque_results Hd.
  all: try match goal with
       | Hpc : workers _ !! _ = Some _ |- _ =>
           let Hc := fresh "Hc" in
           pose proof (Forall_lookup_1 _ _ _ _ Hw Hpc) as Hc; cbn in Hc;
           try discriminate Hc
       end.
  all: try match goal with
       | Hpc : workers _ !! _ = Some (W_call _ _), E : call_task _ _ = _ |- _ =>
           destruct (call_task_held _ _ _ _ _ _ Hinv Hpc E) as [-> Hframe]
       end.
  all: lazymatch goal with
       | |- context [mkPackaged _ Unresolved] => idtac
       | |- _ =>
           apply (exec_inv_keep s); [exact Hinv | exact Hloc | ..];
           unfold owners, the_pool; state_simpl
       end.
  all: try exact Hheap.
  all: try exact Hal.
  all: try (intros ptr _; reflexivity).
  all: try (apply Forall_insert; [exact Hal|]; case_results; reflexivity).
  all: try match goal with
       | E : TaskQueueM.try_pop _ = _ |- heap_ordered _ =>
           apply (try_pop_owners 0 _ _ _ Hheap E)
       | E : TaskQueueM.wait_pop _ _ = _ |- heap_ordered _ =>
           apply (wait_pop_owners 0 _ _ _ _ Hheap E)
       | |- heap_ordered (queue_ (TaskQueueM.push _ _)) =>
           apply (push_owners 0 _ _ Hheap)
       | |- heap_ordered (queue_ (TaskQueueM.clear _)) =>
           rewrite clear_empty; apply heap_ordered_nil
       end.
  all: try (intros ptr;
       try match goal with
       | Hpc : workers ?s !! ?i = Some _ |- context [<[?i := ?pc']> (workers ?s)] =>
           pose proof (sum_insert (worker_holds ptr) (workers s) i _ pc' Hpc)
       | Hpc : clients ?s !! ?j = Some _ |- context [<[?j := ?pc']> (clients ?s)] =>
           pose proof (sum_insert (client_holds ptr) (clients s) j _ pc' Hpc)
       end;
       try match goal with
       | E : TaskQueueM.try_pop _ = _ |- _ =>
           destruct (try_pop_owners ptr _ _ _ Hheap E) as [_ ?]
       | E : TaskQueueM.wait_pop _ _ = _ |- _ =>
           destruct (wait_pop_owners ptr _ _ _ _ Hheap E) as [_ ?]
       | |- context [TaskQueueM.push ?t ?q] =>
           destruct (push_owners ptr t q Hheap) as [_ ?]
       | |- context [TaskQueueM.clear ?q] => rewrite (clear_empty q)
       end;
       rewrite ?sum_list_with_app;
       repeat match goal with
       | H' : context [match ?o with Some _ => _ | None => _ end] |- _ => destruct o
       | H' : context [if ?b then _ else _] |- _ => destruct b
       | c : Call |- _ => destruct c
       end;
       cbn [worker_holds client_holds call_entry sum_list_with queue_] in *; lia).
  - (* the call of the task *)
    match goal with
    | Hpc : workers _ !! _ = Some (W_call _ _) |- _ =>
        intros ptr Hown; apply Hframe; revert Hown;
        apply (call_step_owners _ _ _ _ _ Hinv Hpc)
    end.
  - (* the allocation of a packaged task *)
    match goal with
    | Hpc : clients _ !! _ = Some (S_make _ _) |- _ =>
        apply (make_step_inv _ _ _ _ Hinv Hpc Hloc)
    end.
Qed.

Lemma init_exec_inv n : exec_inv (init n).
Proof.
  split.
  - apply init_no_local_work.
  - apply heap_ordered_nil.
  - intros ptr. unfold owners, init. cbn [the_pool world memory pool global_queue_
      queue_ workers clients Pool.create sum_list_with].
    assert (forall m, sum_list_with (worker_holds ptr) (replicate m W_pop_local) = 0%nat) as ->
      by (induction m; cbn; auto).
    cbn. lia.
  - intros ptr. unfold owners, init. cbn [the_pool world memory pool global_queue_
      queue_ workers clients Pool.create sum_list_with].
    assert (forall m, sum_list_with (worker_holds ptr) (replicate m W_pop_local) = 0%nat) as ->
      by (induction m; cbn; auto).
    cbn. lia.
  - unfold init. cbn. by apply Forall_replicate.
Qed.

Lemma reachable_exec_inv n ls s : run ls (init n) = Some s -> exec_inv s.
Proof.
  intros Hrun. eapply (run_invariant exec_inv); eauto.
  - apply step_exec_inv.
  - apply init_exec_inv.
Qed.

(** After the call of its task a worker updates the statistics and the
    number of active tasks, and is back at the top of its loop. *)
Lemma worker_finishes s i start :
  workers s !! i = Some (W_clock_end start) ->
  exists s',
    run (replicate 6 (StepWorker i)) s = Some s' /\
    workers s' !! i = Some W_pop_local /\
    packaged_tasks (memory (world s')) = packaged_tasks (memory (world s)).
Proof.
  intros Hpc. assert (i < length (workers s))%nat as Hi by by eapply lookup_lt_Some.
  cbn [replicate run step]. rewrite Hpc. cbn [worker_loop run_action perform].
  repeat (cbn [workers world]; rewrite list_lookup_insert_eq by (by rewrite ?length_insert);
          cbn [worker_loop run_action perform]; rewrite ?list_insert_insert_eq).
  eexists. split; [reflexivity|]. cbn [workers world]. split.
  - by apply list_lookup_insert_eq.
  - reflexivity.
Qed.

(** C6.  In every execution, a worker that calls the task it has taken
    finds the packaged task unresolved: the call stores the value or the
    exception of the body in the shared state (the Result Channel) and no
    exception leaves it, so the worker goes on: six steps later it is at
    the top of its loop again, and no worker is ever terminated by an
    exception.  When the body throws, the shared state holds the
    exception: [get()] on the future rethrows it, while [wait_for] only
    reports that the future is ready. *)
Theorem failing_task_is_contained (n : nat) (ls : list Label) (s : State)
        (i : nat) (task : Task) (start : Z) :
  run ls (init n) = Some s ->
  workers s !! i = Some (W_call task start) ->
  (forall k pc, workers s !! k = Some pc -> is_terminated pc = false) /\
  exists s',
    step (StepWorker i) s = Some s' /\
    workers s' !! i = Some (W_clock_end start) /\
    (forall task_ptr pt e,
        func_ task = Some (RunPackaged task_ptr) ->
        packaged_tasks (memory (world s)) !! task_ptr = Some pt ->
        callable pt = Throws e ->
        future_get pt = None /\
        packaged_tasks (memory (world s')) !! task_ptr
          = Some (mkPackaged (Throws e) (Failure e)) /\
        future_get (mkPackaged (Throws e) (Failure e)) = Some (inr e) /\
        future_wait_for (mkPackaged (Throws e) (Failure e)) = true) /\
    exists s'',
      run (replicate 6 (StepWorker i)) s' = Some s'' /\
      workers s'' !! i = Some W_pop_local.
Proof.
  intros Hrun Hpc. pose proof (reachable_exec_inv _ _ _ Hrun) as Hinv.
  split.
  { intros k pc Hk. apply (Forall_lookup_1 _ _ _ _ (inv_alive _ Hinv) Hk). }
  assert (i < length (workers s))%nat as Hi by by eapply lookup_lt_Some.
  destruct (call_task task (packaged_tasks (memory (world s)))) as [[o r]|] eqn:E.
  2: { exfalso. unfold call_task in E.
       destruct (func_ task) as [[task_ptr]|] eqn:Hf; [|discriminate].
       assert (holds task_ptr task = 1%nat) as Hh
         by (unfold holds; rewrite Hf; by case_decide).
       pose proof (worker_owns s i _ task_ptr Hpc) as Hown.
       cbn [worker_holds] in Hown.
       destruct (inv_fresh _ Hinv task_ptr) as (pt & Hpt & _); [lia|].
       rewrite Hpt in E. by destruct (packaged_call pt). }
  destruct (call_task_held _ _ _ _ _ _ Hinv Hpc E) as [-> _].
  eexists. split; [|split; [|split]].
  - cbn [step]. rewrite Hpc. cbn [worker_loop run_action perform]. rewrite E.
    reflexivity.
  - cbn [workers]. by apply list_lookup_insert_eq.
  - intros task_ptr pt e Hf Hpt Hthrow. cbn [world memory packaged_tasks set_packaged].
    assert (holds task_ptr task = 1%nat) as Hh
      by (unfold holds; rewrite Hf; by case_decide).
    pose proof (worker_owns s i _ task_ptr Hpc) as Hown. cbn [worker_holds] in Hown.
    destruct (inv_fresh _ Hinv task_ptr) as (pt' & Hpt' & Hun); [lia|].
    rewrite Hpt in Hpt'. injection Hpt' as <-.
    unfold call_task in E. rewrite Hf, Hpt in E. unfold packaged_call in E.
    rewrite Hun, Hthrow in E. injection E as <-.
    split; [unfold future_get; by rewrite Hun|].
    split; [|done]. apply list_lookup_insert_eq. by eapply lookup_lt_Some.
  - match goal with |- context [run _ ?s1] =>
      destruct (worker_finishes s1 i start) as (s'' & Hr & Hw & _)
    end.
    + cbn [workers]. by apply list_lookup_insert_eq.
    + eauto.
Qed.

Lemma failing_task_is_contained_witness :
  exists s',
    run throwing_run (init 2) = Some throwing_state /\
    step (StepWorker 0) throwing_state = Some s' /\
    workers s' !! 0%nat = Some (W_clock_end 0) /\
    packaged_tasks (memory (world s')) !! 0%nat
      = Some (mkPackaged (Throws (user_exception 3)) (Failure (user_exception 3))).
Proof.
  destruct (failing_task_is_contained 2 throwing_run throwing_state 0
              (Pool.make_task 0 0) 0)
    as (_ & s' & Hstep & Hw & Hthrow & _);
    [vm_compute; reflexivity | reflexivity |].
  exists s'. split; [reflexivity|]. split; [exact Hstep|]. split; [exact Hw|].
  eapply Hthrow; reflexivity.
Defined.

End ExecutionFacts.

(* ===================================================================== *)
(** ** Races                                                              *)
(* ===================================================================== *)

Module RaceFacts.

(** C7, on the code.  [wait()] has returned in [wait_race_state]: nothing
    is pending and nothing is active, but the one task that was submitted
    has not run (its future is unresolved), [total_tasks_completed] is
    [0], and the worker holds the task and makes [active()] one at its
    next step.  No shutdown took place. *)
Theorem wait_returns_before_completion :
  run wait_race (init 1) = Some wait_race_state /\
  clients wait_race_state = [C_returned (RFuture 0); C_returned RVoid] /\
  stop_ (the_pool wait_race_state) = false /\
  Pool.pending (the_pool wait_race_state) = 0%N /\
  Pool.active (the_pool wait_race_state) = 0%N /\
  Pool.wait_condition (the_pool wait_race_state) = false /\
  total_tasks_submitted (Pool.stats (the_pool wait_race_state)) = 1%N /\
  total_tasks_completed (Pool.stats (the_pool wait_race_state)) = 0%N /\
  packaged_tasks (memory (world wait_race_state))
    = [mkPackaged (Returns 7) Unresolved] /\
  workers wait_race_state = [W_active_incr (Pool.make_task 0 0)] /\
  exists s',
    step (StepWorker 0) wait_race_state = Some s' /\
    Pool.active (the_pool s') = 1%N.
Proof.
  repeat split; try (vm_compute; reflexivity).
  eexists. split; vm_compute; reflexivity.
Qed.

(** C9, on the code.  The counters of [stats_] are plain fields, read and
    written in two steps.  In [lost_update_state] both tasks have run and
    both workers are back at the top of their loop, but
    [total_tasks_completed] is [1]: an update is lost.  From
    [stale_store_state], where the counter is [2], the step of worker 0
    brings it down to [1]: the counter decreases. *)
Theorem stats_updates_can_be_lost :
  (run lost_update_run (init 2) = Some lost_update_state /\
   packaged_tasks (memory (world lost_update_state))
     = [mkPackaged (Returns 1) (Value 1); mkPackaged (Returns 2) (Value 2)] /\
   workers lost_update_state = [W_pop_local; W_pop_local] /\
   total_tasks_submitted (Pool.stats (the_pool lost_update_state)) = 2%N /\
   total_tasks_completed (Pool.stats (the_pool lost_update_state)) = 1%N) /\
  (run stale_store_run (init 2) = Some stale_store_state /\
   total_tasks_completed (Pool.stats (the_pool stale_store_state)) = 2%N /\
   exists s',
     step (StepWorker 0) stale_store_state = Some s' /\
     total_tasks_completed (Pool.stats (the_pool s')) = 1%N).
Proof.
  repeat split; try (vm_compute; reflexivity).
  eexists. split; vm_compute; reflexivity.
Qed.

End RaceFacts.

(* ===================================================================== *)
(** ** Cancellation                                                      *)
(* ===================================================================== *)

Module CancelFacts.
Import StepFacts HeapFacts QueueFacts LocalQueueFacts SoloFacts ExecutionFacts.

(** *** The destruction of tasks *)

Lemma abandon_idemp pt : Cancel.abandon (Cancel.abandon pt) = Cancel.abandon pt.
Proof. unfold Cancel.abandon. by destruct pt as [f []]. Qed.

Lemma abandon_callable pt : callable (Cancel.abandon pt) = callable pt.
Proof. unfold Cancel.abandon. by destruct pt as [f []]. Qed.

Lemma abandon_unresolved pt :
  shared_state pt = Unresolved ->
  Cancel.abandon pt = mkPackaged (callable pt) (Failure future_error_broken_promise).
Proof. unfold Cancel.abandon. by intros ->. Qed.

Lemma abandon_resolved pt :
  shared_state pt <> Unresolved -> Cancel.abandon pt = pt.
Proof. unfold Cancel.abandon. by destruct (shared_state pt). Qed.

Lemma length_destroy_task t l : length (Cancel.destroy_task t l) = length l.
Proof.
  unfold Cancel.destroy_task. destruct (func_ t) as [[ptr]|]; [|done].
  destruct (l !! ptr); [by rewrite length_insert|done].
Qed.

(** The destruction of a task changes the packaged task it points to,
    and no other. *)
Lemma destroy_task_lookup t l ptr :
  Cancel.destroy_task t l !! ptr
  = if decide (func_ t = Some (RunPackaged ptr)) then Cancel.abandon <$> l !! ptr
    else l !! ptr.
Proof.
  unfold Cancel.destroy_task. case_decide as Hf.
  - rewrite Hf. destruct (l !! ptr) as [pt|] eqn:Hpt; [|by rewrite Hpt].
    cbn. apply list_lookup_insert_eq. by eapply lookup_lt_Some.
  - destruct (func_ t) as [[ptr']|]; [|done].
    destruct (l !! ptr') as [pt'|] eqn:Hpt'; [|done].
    apply list_lookup_insert_ne. congruence.
Qed.

Lemma destroy_tasks_lookup ts : forall l ptr,
  Cancel.destroy_tasks ts l !! ptr
  = if decide (sum_list_with (holds ptr) ts = 0%nat) then l !! ptr
    else Cancel.abandon <$> l !! ptr.
Proof.
  unfold Cancel.destroy_tasks.
  induction ts as [|t ts IH]; intros l ptr; cbn [foldl sum_list_with]; [done|].
  rewrite IH, destroy_task_lookup.
  destruct (decide (func_ t = Some (RunPackaged ptr))) as [Hf|Hf].
  - assert (holds ptr t = 1%nat) as -> by (unfold holds; by rewrite decide_True).
    rewrite (decide_False (P := (1 + _)%nat = 0%nat)) by lia.
    case_decide; [done|].
    destruct (l !! ptr) as [pt|]; [|done]. cbn. by rewrite abandon_idemp.
  - assert (holds ptr t = 0%nat) as -> by (unfold holds; by rewrite decide_False).
    done.
Qed.

Lemma length_destroy_tasks ts : forall l,
  length (Cancel.destroy_tasks ts l) = length l.
Proof.
  unfold Cancel.destroy_tasks.
  induction ts as [|t ts IH]; intros l; cbn [foldl]; [done|].
  by rewrite IH, length_destroy_task.
Qed.

(** The order of the destructions makes no difference. *)
Lemma destroy_tasks_perm ts ts' l :
  ts ≡ₚ ts' -> Cancel.destroy_tasks ts l = Cancel.destroy_tasks ts' l.
Proof.
  intros Hp. apply list_eq. intros ptr.
  rewrite !destroy_tasks_lookup.
  assert (sum_list_with (holds ptr) ts = sum_list_with (holds ptr) ts') as Hs
    by by rewrite Hp.
  repeat case_decide; try done; lia.
Qed.

Lemma destroy_tasks_nil l : Cancel.destroy_tasks [] l = l.
Proof. done. Qed.

(** *** Steps *)

Lemma state_eta s :
  mkState (set_packaged (packaged_tasks (memory (world s))) (world s))
          (workers s) (clients s) = s.
Proof. by destruct s as [[[p l] t] ws cs]. Qed.

(** A step that discards nothing is a step of the threads as it is. *)
Lemma step_nothing_discarded l s :
  Cancel.discarded l s = [] -> Cancel.step l s = step l s.
Proof.
  intros Hd. unfold Cancel.step. rewrite Hd.
  destruct (step l s) as [s'|]; [|done].
  by rewrite destroy_tasks_nil, state_eta.
Qed.

Lemma cancel_step_inv l s s'' :
  Cancel.step l s = Some s'' ->
  exists s',
    step l s = Some s' /\
    the_pool s'' = the_pool s' /\ now (world s'') = now (world s') /\
    workers s'' = workers s' /\ clients s'' = clients s' /\
    packaged_tasks (memory (world s''))
      = Cancel.destroy_tasks (Cancel.discarded l s) (packaged_tasks (memory (world s'))).
Proof.
  unfold Cancel.step. destruct (step l s) as [s'|]; [|done].
  intros [= <-]. by exists s'.
Qed.

Lemma cancel_run_invariant (P : State -> Prop) :
  (forall l s s', Cancel.step l s = Some s' -> P s -> P s') ->
  forall ls s s', Cancel.run ls s = Some s' -> P s -> P s'.
Proof.
  intros Hstep. induction ls as [|l ls IH]; intros s s' Hrun Hs; cbn [Cancel.run] in Hrun.
  - by injection Hrun as <-.
  - destruct (Cancel.step l s) as [s1|] eqn:Hl; [|discriminate].
    eapply IH; eauto.
Qed.

Lemma cancel_run_app ls1 : forall ls2 s,
  Cancel.run (ls1 ++ ls2) s
  = match Cancel.run ls1 s with Some s1 => Cancel.run ls2 s1 | None => None end.
Proof.
  induction ls1 as [|l ls1 IH]; intros ls2 s; cbn [Cancel.run app]; [done|].
  destruct (Cancel.step l s); [apply IH | done].
Qed.

(** *** What every execution keeps *)

(** A task that is discarded is not in the hands of a thread. *)
Lemma discarded_not_owned l s s1 ptr :
  exec_inv s -> step l s = Some s1 -> (1 <= owners ptr s1)%nat ->
  sum_list_with (holds ptr) (Cancel.discarded l s) = 0%nat.
Proof.
  intros Hinv Hstep Hown. unfold Cancel.discarded.
  destruct l as [| |i|j]; try done.
  destruct (clients s !! j) as [pc|] eqn:Hpc; [|done].
  destruct pc; try done.
  - (* clear() *)
    rewrite (step_client_at j s _ _ _ Hpc eq_refl) in Hstep. injection Hstep as <-.
    unfold owners, the_pool in Hown.
    cbn [world memory pool set_pool set_global global_queue_ workers clients] in Hown.
    rewrite clear_empty in Hown. cbn [queue_ sum_list_with] in Hown.
    pose proof (sum_insert (client_holds ptr) (clients s) j _ (SN_drain 0) Hpc) as Hs.
    cbn [client_holds] in Hs.
    pose proof (inv_once _ Hinv ptr) as Honce. unfold owners, the_pool in *. lia.
  - (* pop_front() *)
    destruct (_ <? _)%nat; [|done].
    destruct (local_queues_ (the_pool s) !! i) as [d|] eqn:Hd; [|done].
    destruct (inv_local _ Hinv) as (He & _).
    pose proof (Forall_lookup_1 _ _ _ _ He Hd) as Hd'. cbn beta in Hd'.
    destruct (empty_deque_calls d Hd') as [-> _]. done.
Qed.

Lemma cancel_step_exec_inv l s s' :
  Cancel.step l s = Some s' -> exec_inv s -> exec_inv s'.
Proof.
  intros H Hinv.
  destruct (cancel_step_inv _ _ _ H) as (s1 & Hstep & Hp & _ & Hw & Hc & Hpt).
  pose proof (step_exec_inv _ _ _ Hstep Hinv) as Hinv1.
  apply (exec_inv_keep s1 s' Hinv1).
  - unfold no_local_work. rewrite Hp, Hw. apply (inv_local _ Hinv1).
  - rewrite Hp. apply (inv_heap _ Hinv1).
  - intros ptr. unfold owners. by rewrite Hp, Hw, Hc.
  - intros ptr Hown. rewrite Hpt, destroy_tasks_lookup.
    rewrite decide_True; [done|].
    eapply discarded_not_owned; [exact Hinv|exact Hstep|].
    unfold owners in *. by rewrite Hp, Hw, Hc in Hown.
  - rewrite Hw. apply (inv_alive _ Hinv1).
Qed.

Lemma cancel_reachable_exec_inv n ls s :
  Cancel.run ls (init n) = Some s -> exec_inv s.
Proof.
  intros Hrun. eapply (cancel_run_invariant exec_inv); eauto.
  - apply cancel_step_exec_inv.
  - apply init_exec_inv.
Qed.

Lemma cancel_reachable_deques_counted n ls s :
  Cancel.run ls (init n) = Some s -> deques_counted s.
Proof.
  intros Hrun. eapply (cancel_run_invariant deques_counted); eauto.
  - intros l s1 s2 H Hc.
    destruct (cancel_step_inv _ _ _ H) as (s' & Hstep & Hp & _).
    pose proof (step_deques_counted _ _ _ Hstep Hc) as Hc'.
    unfold deques_counted, threads_of, the_pool in *. by rewrite Hp.
  - unfold deques_counted, init, threads_of, the_pool. cbn.
    by rewrite length_replicate.
Qed.

(** *** [shutdown_now], alone *)

Lemma destroy_tasks_app ts1 ts2 l :
  Cancel.destroy_tasks (ts1 ++ ts2) l
  = Cancel.destroy_tasks ts2 (Cancel.destroy_tasks ts1 l).
Proof. unfold Cancel.destroy_tasks. apply foldl_app. Qed.

(** One step of a caller, spelt out. *)
Lemma cancel_step_client_at j s pc pc' w' :
  clients s !! j = Some pc ->
  run_action (client_code (threads_of s) pc) s = Some (pc', w') ->
  Cancel.step (StepClient j) s =
    Some (mkState
            (set_packaged
               (Cancel.destroy_tasks (Cancel.discarded (StepClient j) s)
                                     (packaged_tasks (memory w')))
               w')
            (workers s) (<[j := pc']> (clients s))).
Proof.
  intros Hpc Hact. unfold Cancel.step.
  by rewrite (step_client_at j s pc pc' w' Hpc Hact).
Qed.

(** The inner loop of [shutdown_now] on the deque [i], alone: its tasks
    are destroyed, front first. *)
Lemma cancel_drain_deque len : forall s j i d,
  clients s !! j = Some (SN_drain i) ->
  (i < threads_of s)%nat ->
  local_queues_ (the_pool s) !! i = Some d ->
  length (deque_ d) = len ->
  Cancel.run (replicate (S len) (StepClient j)) s =
    Some (mkState
            (set_packaged
               (Cancel.destroy_tasks (deque_ d) (packaged_tasks (memory (world s))))
               (set_pool (set_locals (<[i := mkDeque []]> (local_queues_ (the_pool s)))
                                     (the_pool s)) (world s)))
            (workers s)
            (<[j := SN_drain (S i)]> (clients s))).
Proof.
  induction len as [|len IH]; intros s j i [l] Hpc Hi Hd Hlen; cbn [deque_] in Hlen.
  - destruct l; [|done]. cbn [replicate Cancel.run].
    erewrite cancel_step_client_at; [ | exact Hpc | ].
    2: { cbn [client_code]. apply Nat.ltb_lt in Hi. rewrite Hi.
         cbn [run_action perform]. unfold on_deque. unfold the_pool in Hd.
         rewrite Hd. reflexivity. }
    unfold Cancel.discarded. rewrite Hpc, Hd.
    apply Nat.ltb_lt in Hi. rewrite Hi. reflexivity.
  - destruct l as [|t l]; [done|]. injection Hlen as Hlen.
    change (S (S len)) with (1 + S len)%nat. rewrite replicate_add, cancel_run_app.
    change (replicate 1 (StepClient j)) with [StepClient j]. cbn [Cancel.run].
    erewrite cancel_step_client_at; [ | exact Hpc | ].
    2: { cbn [client_code]. pose proof Hi as Hi'. apply Nat.ltb_lt in Hi'. rewrite Hi'.
         cbn [run_action perform]. unfold on_deque. unfold the_pool in Hd.
         rewrite Hd. reflexivity. }
    erewrite (IH _ j i (mkDeque l)).
    + f_equal. unfold Cancel.discarded. rewrite Hpc, Hd.
      pose proof Hi as Hi'. apply Nat.ltb_lt in Hi'. rewrite Hi'.
      unfold the_pool.
      cbn [world memory pool local_queues_ set_pool set_locals set_packaged workers
           clients num_threads_ stop_ active_tasks_ global_queue_ stats_
           packaged_tasks now Deque.pop_front deque_ fst option_list
           Cancel.destroy_tasks foldl].
      by rewrite !list_insert_insert_eq.
    + cbn [clients]. by eapply lookup_insert_self.
    + done.
    + unfold the_pool. cbn. by eapply lookup_insert_self.
    + done.
Qed.

(** The outer loop of [shutdown_now] from the deque [i] on, alone. *)
Lemma cancel_drain_from m : forall s j i,
  clients s !! j = Some (SN_drain i) ->
  deques_counted s ->
  (i + m)%nat = threads_of s ->
  exists k s',
    Cancel.run (replicate k (StepClient j)) s = Some s' /\
    local_queues_ (the_pool s')
      = take i (local_queues_ (the_pool s)) ++ replicate m (mkDeque []) /\
    set_locals (local_queues_ (the_pool s)) (the_pool s') = the_pool s /\
    packaged_tasks (memory (world s'))
      = Cancel.destroy_tasks (concat (map deque_ (drop i (local_queues_ (the_pool s)))))
                             (packaged_tasks (memory (world s))) /\
    now (world s') = now (world s) /\
    workers s' = workers s /\
    clients s' = <[j := SN_notify]> (clients s).
Proof.
  induction m as [|m IH]; intros s j i Hpc Hlen Him; unfold deques_counted in Hlen.
  - exists 1%nat. eexists. split.
    + cbn [replicate Cancel.run]. rewrite step_nothing_discarded.
      * erewrite step_client_at; [reflexivity | exact Hpc |].
        cbn [client_code].
        assert ((i <? threads_of s)%nat = false) as -> by (apply Nat.ltb_ge; lia).
        reflexivity.
      * unfold Cancel.discarded. rewrite Hpc.
        by assert ((i <? threads_of s)%nat = false) as -> by (apply Nat.ltb_ge; lia).
    + cbn [world workers clients replicate]. rewrite take_ge by lia.
      rewrite drop_ge by lia.
      rewrite (right_id_L [] (++)). repeat split.
      unfold the_pool. by destruct s as [[[[] ?] ?] ? ?].
  - destruct (lookup_lt_is_Some_2 (local_queues_ (the_pool s)) i) as [d Hd]; [lia|].
    pose proof (cancel_drain_deque (length (deque_ d)) s j i d Hpc ltac:(lia) Hd eq_refl)
      as H1.
    match type of H1 with _ = Some ?s1 =>
      destruct (IH s1 j (S i)) as (k & s' & Hk & Hl & Hp & Hpt & Hnow & Hw & Hc)
    end.
    + cbn [clients]. by eapply lookup_insert_self.
    + unfold deques_counted, the_pool, threads_of in *. cbn. by rewrite length_insert.
    + unfold the_pool, threads_of in *. cbn. lia.
    + exists (S (length (deque_ d)) + k)%nat, s'. rewrite replicate_add, cancel_run_app, H1.
      split; [exact Hk|]. unfold the_pool in *.
      cbn [world memory pool workers clients local_queues_ set_pool set_locals
           set_packaged packaged_tasks now] in *.
      rewrite Hl, Hpt, Hnow, Hw, Hc. repeat split.
      * rewrite (take_S_r _ _ (mkDeque [])) by (by eapply lookup_insert_self).
        rewrite take_insert_ge by lia. rewrite <- (assoc_L (++)). done.
      * apply (f_equal (set_locals (local_queues_ (pool (memory (world s)))))) in Hp.
        unfold set_locals in Hp |- *.
        cbn [num_threads_ stop_ active_tasks_ global_queue_ stats_] in Hp.
        rewrite Hp. by destruct (pool (memory (world s))).
      * rewrite drop_insert_lt by lia.
        rewrite (drop_S _ _ _ Hd). cbn [map concat].
        by rewrite destroy_tasks_app.
      * by rewrite list_insert_insert_eq.
Qed.

(** [shutdown_now], alone: its effect is that of [Cancel.shutdown_now]. *)
Lemma cancel_shutdown_now_alone s j :
  clients s !! j = Some SN_store_stop ->
  deques_counted s ->
  exists k s',
    Cancel.run (replicate k (StepClient j)) s = Some s' /\
    memory (world s') = Cancel.shutdown_now (memory (world s)) /\
    now (world s') = now (world s) /\
    workers s' = workers s /\
    clients s' = <[j := C_returned RVoid]> (clients s).
Proof.
  intros Hpc Hlen.
  set (s1 := mkState (set_pool (set_stop true (the_pool s)) (world s))
                     (workers s) (<[j := SN_clear]> (clients s))).
  assert (Cancel.step (StepClient j) s = Some s1) as H1.
  { rewrite step_nothing_discarded.
    - by rewrite (step_client_at j s _ _ _ Hpc eq_refl).
    - unfold Cancel.discarded. by rewrite Hpc. }
  set (s2 := mkState
               (set_packaged
                  (Cancel.destroy_tasks (queue_ (global_queue_ (the_pool s)))
                                        (packaged_tasks (memory (world s))))
                  (set_pool (set_global (mkTaskQueue []) (set_stop true (the_pool s)))
                            (world s)))
               (workers s) (<[j := SN_drain 0]> (clients s))).
  assert (Cancel.step (StepClient j) s1 = Some s2) as H2.
  { assert (clients s1 !! j = Some SN_clear) as Hpc1
      by (cbn [s1 clients]; by eapply lookup_insert_self).
    rewrite (cancel_step_client_at j s1 _ _ _ Hpc1 eq_refl).
    unfold Cancel.discarded. rewrite Hpc1. unfold s1, s2, the_pool.
    cbn [world memory pool set_pool set_global set_stop global_queue_ packaged_tasks
         workers clients set_packaged now].
    rewrite clear_empty, list_insert_insert_eq. done. }
  destruct (cancel_drain_from (threads_of s) s2 j 0)
    as (k & s3 & H3 & Hl3 & Hp3 & Hpt3 & Hnow3 & Hws3 & Hcs3).
  { cbn [s2 clients]. by eapply lookup_insert_self. }
  { exact Hlen. }
  { done. }
  assert (clients s3 !! j = Some SN_notify) as Hpc3.
  { rewrite Hcs3. cbn [s2 clients]. rewrite list_insert_insert_eq.
    by eapply lookup_insert_self. }
  exists (2 + (k + 1))%nat. eexists. split.
  - rewrite replicate_add, cancel_run_app.
    change (replicate 2 (StepClient j)) with [StepClient j; StepClient j].
    cbn [Cancel.run]. rewrite H1, H2.
    rewrite replicate_add, cancel_run_app, H3.
    cbn [replicate Cancel.run]. rewrite step_nothing_discarded.
    + by rewrite (step_client_at j s3 _ _ _ Hpc3 eq_refl).
    + unfold Cancel.discarded. by rewrite Hpc3.
  - unfold deques_counted, the_pool in *.
    cbn [world workers clients memory].
    cbn [s2 world memory pool set_pool set_packaged set_global set_stop packaged_tasks
         now workers clients threads_of num_threads_ local_queues_ global_queue_]
      in Hl3, Hp3, Hpt3, Hnow3, Hws3, Hcs3.
    rewrite Hnow3, Hws3, Hcs3, !list_insert_insert_eq. repeat split.
    unfold Cancel.shutdown_now, Cancel.pending_tasks.
    rewrite destroy_tasks_app. rewrite drop_0 in Hpt3. rewrite <- Hpt3.
    transitivity (mkMemory (pool (memory (world s3))) (packaged_tasks (memory (world s3))));
      [by destruct (memory (world s3))|].
    f_equal.
    unfold Pool.shutdown_now.
    cbn [local_queues_ set_global set_stop].
    rewrite drained_all, Hlen.
    rewrite take_0 in Hl3. cbn [app] in Hl3.
    transitivity (set_locals (local_queues_ (pool (memory (world s3))))
                             (pool (memory (world s3))));
      [by destruct (pool (memory (world s3)))|].
    rewrite Hl3.
    apply (f_equal (set_locals (replicate (num_threads_ (pool (memory (world s))))
                                          (mkDeque [])))) in Hp3.
    unfold set_locals, set_global, set_stop in Hp3 |- *.
    cbn [num_threads_ stop_ active_tasks_ global_queue_ stats_ local_queues_] in Hp3 |- *.
    rewrite clear_empty. exact Hp3.
Qed.

(** *** The claim *)

Lemma sum_holds_pos ptr (ts : list Task) :
  sum_list_with (holds ptr) ts <> 0%nat ->
  exists t, t ∈ ts /\ func_ t = Some (RunPackaged ptr).
Proof.
  induction ts as [|t ts IH]; cbn [sum_list_with]; [done|]. intros Hs.
  unfold holds at 1 in Hs. case_decide as Hf.
  - exists t. split; [apply list_elem_of_here|done].
  - destruct IH as (u & Hu & Hfu); [lia|]. exists u. split; [|done].
    by apply list_elem_of_further.
Qed.

Lemma sum_holds_in ptr (ts : list Task) t :
  t ∈ ts -> func_ t = Some (RunPackaged ptr) ->
  sum_list_with (holds ptr) ts <> 0%nat.
Proof.
  intros Hin Hf. pose proof (sum_list_with_in _ (holds ptr) _ Hin) as Hle.
  unfold holds at 1 in Hle. rewrite decide_True in Hle by done. lia.
Qed.

(** What a step of [shutdown_now] does to the data of the pool. *)
Lemma shutdown_now_step_data s j pc s' :
  clients s !! j = Some pc -> in_shutdown_now pc = true ->
  step (StepClient j) s = Some s' ->
  packaged_tasks (memory (world s')) = packaged_tasks (memory (world s)) /\
  workers s' = workers s /\
  active_tasks_ (the_pool s') = active_tasks_ (the_pool s) /\
  stats_ (the_pool s') = stats_ (the_pool s) /\
  (pc = SN_store_stop \/ stop_ (the_pool s) = true -> stop_ (the_pool s') = true).
Proof.
  intros Hj Hpc H.
  rewrite (step_client_workers _ _ _ H).
  destruct (step_client_self _ _ _ H) as (pc0 & pc' & w' & Hpc0 & Hact & _ & Hw).
  rewrite Hj in Hpc0. injection Hpc0 as <-. unfold the_pool. rewrite Hw.
  clear H Hw Hj.
  destruct pc; try discriminate Hpc; cbn [client_code] in Hact;
    repeat match type of Hact with
    | context [if ?b then _ else _] => destruct b eqn:?
    end;
    cbn [run_action] in Hact;
    first [ injection Hact as <- <-
          | destruct (perform _ _) as [[? ?]|] eqn:Hperf; [|discriminate Hact];
            injection Hact as <- <-; perform_cases Hperf ];
    cbn; repeat split; try done; intros [?|?]; done.
Qed.

Lemma shutdown_now_pool p :
  stop_ (Pool.shutdown_now p) = true /\
  queue_ (global_queue_ (Pool.shutdown_now p)) = [] /\
  Forall (fun d => deque_ d = []) (local_queues_ (Pool.shutdown_now p)) /\
  length (local_queues_ (Pool.shutdown_now p)) = length (local_queues_ p) /\
  Pool.pending (Pool.shutdown_now p) = 0%N /\
  active_tasks_ (Pool.shutdown_now p) = active_tasks_ p /\
  stats_ (Pool.shutdown_now p) = stats_ p.
Proof.
  assert (Forall (fun d => deque_ d = []) (local_queues_ (Pool.shutdown_now p))) as Hl.
  { unfold Pool.shutdown_now, set_locals. cbn [local_queues_].
    apply Forall_fmap, Forall_forall.
    intros d _. unfold compose. rewrite drain_empty; [done|]. unfold Deque.size. lia. }
  assert (queue_ (global_queue_ (Pool.shutdown_now p)) = []) as Hg.
  { unfold Pool.shutdown_now, set_locals, set_global.
    cbn [global_queue_]. by rewrite QueueFacts.clear_empty. }
  repeat split; try done.
  - unfold Pool.shutdown_now, set_locals. cbn [local_queues_].
    by rewrite length_map.
  - by apply pending_empty.
Qed.

(** What becomes of a packaged task in [Cancel.shutdown_now]. *)
Lemma shutdown_now_lookup m ptr pt :
  packaged_tasks m !! ptr = Some pt ->
  (shared_state pt <> Unresolved ->
   packaged_tasks (Cancel.shutdown_now m) !! ptr = Some pt) /\
  ((forall t, t ∈ Cancel.pending_tasks (pool m) -> func_ t <> Some (RunPackaged ptr)) ->
   packaged_tasks (Cancel.shutdown_now m) !! ptr = Some pt) /\
  ((exists t, t ∈ Cancel.pending_tasks (pool m) /\ func_ t = Some (RunPackaged ptr)) ->
   shared_state pt = Unresolved ->
   packaged_tasks (Cancel.shutdown_now m) !! ptr
     = Some (mkPackaged (callable pt) (Failure future_error_broken_promise))).
Proof.
  intros Hlk. unfold Cancel.shutdown_now. cbn [packaged_tasks].
  rewrite destroy_tasks_lookup, Hlk. split; [|split].
  - intros Hr. case_decide; [done|]. cbn. by rewrite abandon_resolved.
  - intros Hno. rewrite decide_True; [done|].
    destruct (decide (sum_list_with (holds ptr) (Cancel.pending_tasks (pool m)) = 0%nat))
      as [|Hs]; [done|].
    destruct (sum_holds_pos _ _ Hs) as (t & Ht & Hf). by destruct (Hno t Ht).
  - intros (t & Ht & Hf) Hun. rewrite decide_False by by eapply sum_holds_in.
    cbn. by rewrite abandon_unresolved.
Qed.

(** C5, amended.  [shutdown_now] sets the stop flag and leaves the global
    queue and every local deque empty, so that nothing is pending; it
    changes neither the counters nor the number of active tasks.  No body
    runs on this path, and the future of a discarded task is resolved by
    it: a packaged task that was not ready and to which a queued task
    points holds the broken promise afterwards, every other packaged task
    is as it was.  As a thread, none of the steps of [shutdown_now]
    touches a worker, and a step changes a packaged task only when it
    discards the task that points to it; a call of [shutdown_now] that
    runs alone returns, and its effect is that of [Cancel.shutdown_now].
    In every execution, after such a call the future of each task that
    was in the global queue is ready, [get()] throwing
    [std::future_error(broken_promise)], and a task that a worker has
    taken and not yet called is untouched, as is the worker. *)
Theorem shutdown_now_abandons_pending :
  (forall p,
     stop_ (Pool.shutdown_now p) = true /\
     queue_ (global_queue_ (Pool.shutdown_now p)) = [] /\
     Forall (fun d => deque_ d = []) (local_queues_ (Pool.shutdown_now p)) /\
     length (local_queues_ (Pool.shutdown_now p)) = length (local_queues_ p) /\
     Pool.pending (Pool.shutdown_now p) = 0%N /\
     active_tasks_ (Pool.shutdown_now p) = active_tasks_ p /\
     stats_ (Pool.shutdown_now p) = stats_ p) /\
  (forall m,
     pool (Cancel.shutdown_now m) = Pool.shutdown_now (pool m) /\
     length (packaged_tasks (Cancel.shutdown_now m)) = length (packaged_tasks m) /\
     forall ptr pt,
       packaged_tasks m !! ptr = Some pt ->
       (shared_state pt <> Unresolved ->
        packaged_tasks (Cancel.shutdown_now m) !! ptr = Some pt) /\
       ((forall t, t ∈ Cancel.pending_tasks (pool m) ->
                   func_ t <> Some (RunPackaged ptr)) ->
        packaged_tasks (Cancel.shutdown_now m) !! ptr = Some pt) /\
       ((exists t, t ∈ Cancel.pending_tasks (pool m) /\
                   func_ t = Some (RunPackaged ptr)) ->
        shared_state pt = Unresolved ->
        packaged_tasks (Cancel.shutdown_now m) !! ptr
          = Some (mkPackaged (callable pt) (Failure future_error_broken_promise)))) /\
  (forall s j pc s',
     clients s !! j = Some pc -> in_shutdown_now pc = true ->
     Cancel.step (StepClient j) s = Some s' ->
     workers s' = workers s /\
     active_tasks_ (the_pool s') = active_tasks_ (the_pool s) /\
     stats_ (the_pool s') = stats_ (the_pool s) /\
     (pc = SN_store_stop \/ stop_ (the_pool s) = true -> stop_ (the_pool s') = true) /\
     (forall ptr pt,
        packaged_tasks (memory (world s)) !! ptr = Some pt ->
        packaged_tasks (memory (world s')) !! ptr = Some pt \/
        (shared_state pt = Unresolved /\
         (exists t, t ∈ Cancel.discarded (StepClient j) s /\
                    func_ t = Some (RunPackaged ptr)) /\
         packaged_tasks (memory (world s')) !! ptr
           = Some (mkPackaged (callable pt) (Failure future_error_broken_promise))))) /\
  (forall s j,
     clients s !! j = Some (call_entry CallShutdownNow) ->
     deques_counted s ->
     exists k s',
       Cancel.run (replicate k (StepClient j)) s = Some s' /\
       memory (world s') = Cancel.shutdown_now (memory (world s)) /\
       workers s' = workers s /\
       clients s' = <[j := C_returned RVoid]> (clients s)) /\
  (forall n ls s j,
     Cancel.run ls (init n) = Some s ->
     clients s !! j = Some (call_entry CallShutdownNow) ->
     exists k s',
       Cancel.run (replicate k (StepClient j)) s = Some s' /\
       clients s' = <[j := C_returned RVoid]> (clients s) /\
       workers s' = workers s /\
       Forall (promise_broken (packaged_tasks (memory (world s'))))
              (queue_ (global_queue_ (the_pool s))) /\
       (forall i pc ptr,
          workers s !! i = Some pc -> worker_holds ptr pc = 1%nat ->
          exists pt,
            packaged_tasks (memory (world s)) !! ptr = Some pt /\
            packaged_tasks (memory (world s')) !! ptr = Some pt /\
            shared_state pt = Unresolved)).
Proof.
  split; [|split; [|split; [|split]]].
  - apply shutdown_now_pool.
  - intros m. split; [done|]. split.
    + unfold Cancel.shutdown_now. cbn [packaged_tasks]. apply length_destroy_tasks.
    + apply shutdown_now_lookup.
  - intros s j pc s' Hj Hpc H.
    destruct (cancel_step_inv _ _ _ H) as (s1 & Hstep & Hp & _ & Hw & _ & Hpt).
    destruct (shutdown_now_step_data s j pc s1 Hj Hpc Hstep)
      as (Hpt1 & Hw1 & Ha1 & Hs1 & Hstop1).
    rewrite Hp, Hw. repeat split; try done.
    intros ptr pt Hlk. rewrite Hpt, Hpt1, destroy_tasks_lookup.
    case_decide as Hsum; [by left|].
    rewrite Hlk. cbn [fmap option_fmap option_map].
    destruct (shared_state pt) eqn:Hst.
    + right. split; [done|]. split; [by apply sum_holds_pos|].
      by rewrite abandon_unresolved.
    + left. rewrite abandon_resolved; [done|]. by rewrite Hst.
    + left. rewrite abandon_resolved; [done|]. by rewrite Hst.
  - intros s j Hj Hc.
    destruct (cancel_shutdown_now_alone s j Hj Hc) as (k & s' & Hk & Hm & _ & Hw & Hcs).
    by exists k, s'.
  - intros n ls s j Hrun Hj.
    pose proof (cancel_reachable_exec_inv _ _ _ Hrun) as Hinv.
    pose proof (cancel_reachable_deques_counted _ _ _ Hrun) as Hc.
    destruct (cancel_shutdown_now_alone s j Hj Hc) as (k & s' & Hk & Hm & _ & Hw & Hcs).
    exists k, s'. split; [exact Hk|]. split; [exact Hcs|]. split; [exact Hw|].
    rewrite Hm. split.
    + apply Forall_forall. intros t Ht ptr Hf.
      assert (t ∈ Cancel.pending_tasks (pool (memory (world s)))) as Hin
        by (unfold Cancel.pending_tasks; apply elem_of_app; by left).
      destruct (inv_fresh _ Hinv ptr) as (pt & Hlk & Hun).
      { pose proof (sum_holds_in ptr _ t Ht Hf). unfold owners. lia. }
      destruct (shutdown_now_lookup _ _ _ Hlk) as (_ & _ & Hb).
      eexists. split; [apply Hb; eauto|]. done.
    + intros i pc ptr Hpc Hh.
      pose proof (worker_owns s i pc ptr Hpc) as Hown.
      destruct (inv_fresh _ Hinv ptr) as (pt & Hlk & Hun); [lia|].
      exists pt. split; [done|]. split; [|done].
      destruct (shutdown_now_lookup _ _ _ Hlk) as (_ & Hkeep & _).
      apply Hkeep. intros t Ht Hf.
      unfold Cancel.pending_tasks in Ht. apply elem_of_app in Ht as [Ht|Ht].
      * pose proof (sum_holds_in ptr _ t Ht Hf).
        pose proof (inv_once _ Hinv ptr) as Honce.
        assert (worker_holds ptr pc <= sum_list_with (worker_holds ptr) (workers s))%nat.
        { apply sum_list_with_in. by eapply list_elem_of_lookup_2. }
        unfold owners, the_pool in Honce. lia.
      * destruct (inv_local _ Hinv) as (He & _). unfold deques_empty, the_pool in He.
        assert (concat (map deque_ (local_queues_ (pool (memory (world s))))) = []) as Hnil.
        { clear -He. induction He as [|d l Hd _ IH]; [done|].
          cbn [map concat]. by rewrite Hd, IH. }
        rewrite Hnil in Ht. by apply elem_of_nil in Ht.
Qed.

(** The theorem at the pool of [cancel_state], with one task in the hands
    of the worker and two in the global queue, and at [stray_state], with
    a task in a local deque. *)
Lemma shutdown_now_abandons_pending_witness :
  (exists k s',
     Cancel.run (replicate k (StepClient 3)) cancel_state = Some s' /\
     clients s' !! 3%nat = Some (C_returned RVoid) /\
     Forall (promise_broken (packaged_tasks (memory (world s'))))
            [Pool.make_task 1 0; Pool.make_task 2 0] /\
     left_unresolved (packaged_tasks (memory (world s'))) (Pool.make_task 0 0)) /\
  (exists k s',
     Cancel.run (replicate k (StepClient 0)) stray_state = Some s' /\
     Pool.pending (the_pool s') = 0%N /\
     map future_get (packaged_tasks (memory (world s')))
       = [Some (inr future_error_broken_promise);
          Some (inr future_error_broken_promise); Some (inl 3)]).
Proof.
  destruct shutdown_now_abandons_pending as (_ & _ & _ & Hany & Hreach).
  split.
  - destruct (Hreach 1%nat cancel_run cancel_state 3%nat)
      as (k & s' & Hk & Hcs & _ & Hbroken & Hheld);
      [vm_compute; reflexivity | reflexivity |].
    exists k, s'. split; [exact Hk|]. split; [by rewrite Hcs|].
    split; [exact Hbroken|].
    intros ptr [= <-].
    destruct (Hheld 0%nat (W_call (Pool.make_task 0 0) 0) 0%nat)
      as (pt & _ & Hpt & Hun); [reflexivity|reflexivity|].
    by exists pt.
  - destruct (Hany stray_state 0%nat) as (k & s' & Hk & Hm & _ & _);
      [reflexivity | reflexivity |].
    exists k, s'. split; [exact Hk|]. unfold the_pool. rewrite Hm.
    split; vm_compute; reflexivity.
Defined.

(** C5 as it is written fails: at the pool of [cancel_state],
    after [shutdown_now()] has returned, the futures of the two discarded
    tasks are ready, while that of the task the worker holds is not. *)
Lemma discarded_futures_become_ready :
  exists s',
    Cancel.run (replicate 5 (StepClient 3)) cancel_state = Some s' /\
    clients s' !! 3%nat = Some (C_returned RVoid) /\
    map future_wait_for (packaged_tasks (memory (world s'))) = [false; true; true] /\
    map future_get (packaged_tasks (memory (world s')))
      = [None; Some (inr future_error_broken_promise);
         Some (inr future_error_broken_promise)] /\
    ~ Forall (left_unresolved (packaged_tasks (memory (world s'))))
             (queue_ (global_queue_ (the_pool cancel_state))).
Proof.
  eexists. split; [vm_compute; reflexivity|].
  split; [reflexivity|]. split; [reflexivity|]. split; [reflexivity|].
  intros H. apply Forall_inv in H.
  destruct (H 1%nat eq_refl) as (pt & Hpt & Hun).
  injection Hpt as <-. discriminate Hun.
Qed.

End CancelFacts.

(* ===================================================================== *)
(** ** Wake-ups                                                          *)
(* ===================================================================== *)

Module WakeupFacts.
Import CancelFacts.

(** Without its waits and wake-ups, an execution is an execution of the
    threads. *)
Lemma sync_step_threads l σ σ' :
  Sync.step l σ = Some σ' ->
  Sync.threads σ' = Sync.threads σ \/
  exists l', Cancel.step l' (Sync.threads σ) = Some (Sync.threads σ').
Proof.
  assert (forall l0 σ0 σ1, Sync.moves l0 σ0 = Some σ1 ->
            Cancel.step l0 (Sync.threads σ0) = Some (Sync.threads σ1)) as Hmoves.
  { intros l0 σ0 σ1. unfold Sync.moves.
    destruct (Cancel.step l0 (Sync.threads σ0)); [|done]. by intros [= <-]. }
  assert (forall l0 σ0 σ1, Sync.thread_step l0 σ0 = Some σ1 ->
            Sync.threads σ1 = Sync.threads σ0 \/
            Cancel.step l0 (Sync.threads σ0) = Some (Sync.threads σ1)) as Hthread.
  { intros l0 σ0 σ1. unfold Sync.thread_step.
    destruct (Sync.use_at l0 (Sync.threads σ0)); destruct (Sync.free σ0);
      try discriminate;
      destruct (Sync.moves l0 σ0) as [σ2|] eqn:Hm;
      try (apply Hmoves in Hm); destruct l0; intros [= <-]; auto. }
  destruct l as [[| c | i | j] | j woken | i]; cbn [Sync.step].
  - intros H. right. eexists. by apply Hmoves.
  - intros H. right. eexists. by apply Hmoves.
  - destruct (Sync.member i (Sync.blocked σ)); [done|].
    destruct (Sync.holder σ) as [i'|].
    + destruct (i =? i')%nat.
      * intros [= <-]. by left.
      * intros H. destruct (Hthread _ _ _ H); eauto.
    + intros H. destruct (Hthread _ _ _ H); eauto.
  - destruct (Sync.member j (Sync.notifying σ)); [done|].
    intros H. destruct (Hthread _ _ _ H); eauto.
  - destruct (Sync.member j (Sync.notifying σ)); [|done].
    destruct woken as [i|].
    + destruct (Sync.member i (Sync.blocked σ)); [|done]. intros [= <-]. by left.
    + destruct (Sync.blocked σ); [|done]. intros [= <-]. by left.
  - destruct (Sync.member i (Sync.blocked σ)); [|done]. intros [= <-]. by left.
Qed.

Lemma sync_run_threads ls : forall σ σ',
  Sync.run ls σ = Some σ' ->
  exists ls', Cancel.run ls' (Sync.threads σ) = Some (Sync.threads σ').
Proof.
  induction ls as [|l ls IH]; intros σ σ' Hrun; cbn [Sync.run] in Hrun.
  - injection Hrun as <-. by exists [].
  - destruct (Sync.step l σ) as [σ1|] eqn:Hl; [|done].
    destruct (IH _ _ Hrun) as (ls' & Hls').
    destruct (sync_step_threads _ _ _ Hl) as [Heq|(l' & Hl')].
    + exists ls'. by rewrite <- Heq.
    + exists (l' :: ls'). cbn [Cancel.run]. by rewrite Hl'.
Qed.

(** In the state of the lost wake-up only the clock moves. *)
Lemma lost_wakeup_stuck l t σ' :
  left_alone l = true ->
  Sync.step l (lost_wakeup_state t) = Some σ' ->
  σ' = lost_wakeup_state (t + 1).
Proof.
  intros Hl.
  destruct l as [[| c | i | j] | j woken | i]; try discriminate Hl.
  - by intros [= <-].
  - destruct i as [|i]; [done|]. by destruct i.
  - destruct j as [|j]; [done|]. by destruct j.
  - done.
Qed.

Lemma lost_wakeup_stays ls : forall t σ',
  forallb left_alone ls = true ->
  Sync.run ls (lost_wakeup_state t) = Some σ' ->
  exists t', σ' = lost_wakeup_state t'.
Proof.
  induction ls as [|l ls IH]; intros t σ' Hls Hrun; cbn [Sync.run forallb] in *.
  - injection Hrun as <-. by exists t.
  - apply andb_true_iff in Hls as [Hl Hls].
    destruct (Sync.step l (lost_wakeup_state t)) as [σ1|] eqn:Hstep; [|done].
    apply lost_wakeup_stuck in Hstep as ->; [|done]. by eapply IH.
Qed.

(** C10.  The destructor can block for ever in [join].  A pool of one
    worker is destroyed while the worker is inside [wait_pop], between the
    evaluation of the predicate of the wait, which finds the queue empty
    and the stop flag clear, and the block in [cv_.wait]: [shutdown()]
    stores the flag and calls [notify_all()] when nobody is blocked, and
    then the worker blocks.  From there on, as long as no other thread
    calls into the pool and [cv_.wait] does not return spuriously, no
    thread can move: the worker stays in [wait_pop] with the stop flag
    set, the destructor stays at the [join] of the worker.  A second
    [shutdown()] is not without effect there: its [notify_all()] wakes
    the worker, which leaves its loop, and the destructor returns.
    [shutdown_now()] does not lose the wake-up in the same place: its
    [clear()] needs the mutex that the worker holds until it blocks, so
    that its [notify_all()] finds the worker blocked and wakes it. *)
Theorem destructor_join_can_block_forever :
  Sync.run lost_wakeup_run (Sync.init 1) = Some (lost_wakeup_state 0) /\
  (forall t,
     stop_ (the_pool (Sync.threads (lost_wakeup_state t))) = true /\
     workers (Sync.threads (lost_wakeup_state t)) = [W_wait_global] /\
     Sync.blocked (lost_wakeup_state t) = [0%nat] /\
     clients (Sync.threads (lost_wakeup_state t)) = [D_join 0]) /\
  (forall ls σ',
     forallb left_alone ls = true ->
     Sync.run ls (lost_wakeup_state 0) = Some σ' ->
     exists t, σ' = lost_wakeup_state t) /\
  (exists σ',
     Sync.run second_shutdown_run (lost_wakeup_state 0) = Some σ' /\
     workers (Sync.threads σ') = [W_exited] /\
     clients (Sync.threads σ') = [C_returned RVoid; C_returned RVoid]) /\
  (exists σ σ',
     Sync.run cancel_before_block_run (Sync.init 1) = Some σ /\
     Sync.holder σ = Some 0%nat /\
     clients (Sync.threads σ) = [SN_clear] /\
     Sync.step (Sync.Thread (StepClient 0)) σ = None /\
     Sync.run cancel_after_block_run σ = Some σ' /\
     workers (Sync.threads σ') = [W_exited] /\
     clients (Sync.threads σ') = [C_returned RVoid]).
Proof.
  split; [vm_compute; reflexivity|]. split; [done|]. split; [|split].
  - intros ls σ'. apply lost_wakeup_stays.
  - eexists. split; [vm_compute; reflexivity|]. done.
  - eexists _, _. split; [vm_compute; reflexivity|].
    split; [reflexivity|]. split; [reflexivity|]. split; [reflexivity|].
    split; [vm_compute; reflexivity|]. done.
Qed.

End WakeupFacts.

(* ===================================================================== *)
(** ** Orders on the queue and on the deque                              *)
(* ===================================================================== *)

Module QueueOrderFacts.
Import HeapFacts QueueFacts.

Lemma try_pop_nonempty q t :
  queue_ q !! 0%nat = Some t ->
  TaskQueueM.try_pop q = (Some t, mkTaskQueue (PriorityQueue.pop (queue_ q))).
Proof.
  intros Ht. unfold TaskQueueM.try_pop.
  assert (PriorityQueue.empty (queue_ q) = false) as ->.
  { apply empty_false. intros E. by rewrite E in Ht. }
  unfold PriorityQueue.top. by rewrite Ht.
Qed.

Lemma try_pop_empty q :
  queue_ q = [] -> TaskQueueM.try_pop q = (None, q).
Proof.
  intros E. unfold TaskQueueM.try_pop.
  by assert (PriorityQueue.empty (queue_ q) = true) as -> by by apply empty_true.
Qed.

Lemma pops_ascending k : forall q,
  heap_ordered (queue_ q) -> (length (queue_ q) <= k)%nat ->
  (queue_history (replicate k QCTryPop) q).1 ≡ₚ queue_ q /\
  ascending (queue_history (replicate k QCTryPop) q).1 /\
  queue_ (queue_history (replicate k QCTryPop) q).2 = [].
Proof.
  induction k as [|k IH]; intros [c] Hq Hlen; cbn [queue_] in *.
  - destruct c; [done|cbn in Hlen; lia].
  - cbn [replicate queue_history queue_call].
    destruct c as [|t c].
    + rewrite (try_pop_empty (mkTaskQueue [])) by done.
      destruct (IH (mkTaskQueue [])) as (Hp & Ha & He); [done|cbn; lia|].
      by destruct (queue_history (replicate k QCTryPop) _) as [out q2].
    + assert ((t :: c) !! 0%nat = Some t) as Ht by done.
      rewrite (try_pop_nonempty (mkTaskQueue (t :: c)) t Ht). cbn [queue_].
      destruct (pop_spec _ t Hq Ht) as [Hh Hperm].
      pose proof (heap_top_min _ _ Hq Ht) as Hmin.
      pose proof (length_pop (t :: c)) as Hl.
      destruct (IH (mkTaskQueue (PriorityQueue.pop (t :: c)))) as (Hp & Ha & He);
        [done|cbn [queue_]; rewrite Hl; cbn; cbn in Hlen; lia|].
      destruct (queue_history (replicate k QCTryPop) _) as [out q2].
      cbn [fst snd option_list app queue_] in *.
      split; [|split].
      * cbn. rewrite Hperm. by constructor.
      * cbn. split; [|done]. intros u Hu. unfold priority. apply Hmin.
        rewrite Hperm. rewrite Hp in Hu. by constructor.
      * done.
Qed.

(** X1.  Whatever the history of the queue, popping it until it is empty
    returns every queued task once, in ascending order of priority value;
    the calls after the last task return nothing. *)
Theorem queue_drains_in_priority_order (cs : list QueueCall) (more : nat) :
  let q := queue_after cs in
  let pops := replicate (TaskQueueM.size q + more) QCTryPop in
  (queue_history pops q).1 ≡ₚ queue_ q /\
  ascending (queue_history pops q).1 /\
  TaskQueueM.empty (queue_history pops q).2 = true /\
  TaskQueueM.size (queue_history pops q).2 = 0%nat.
Proof.
  cbv zeta. set (q := queue_after cs).
  destruct (pops_ascending (TaskQueueM.size q + more) q) as (Hp & Ha & He).
  - apply queue_after_heap.
  - unfold TaskQueueM.size, PriorityQueue.size. lia.
  - repeat split; try done.
    + unfold TaskQueueM.empty. by apply empty_true.
    + unfold TaskQueueM.size at 1. unfold PriorityQueue.size. by rewrite He.
Qed.

Lemma queue_call_conserved c q :
  heap_ordered (queue_ q) ->
  option_list (queue_call c q).1 ++ queue_ (queue_call c q).2
    ⊆+ option_list (match c with QCPush t => Some t | _ => None end) ++ queue_ q /\
  (is_clear c = false ->
   option_list (queue_call c q).1 ++ queue_ (queue_call c q).2
     ≡ₚ option_list (match c with QCPush t => Some t | _ => None end) ++ queue_ q).
Proof.
  intros Hq.
  assert (forall t, queue_ q !! 0%nat = Some t ->
            Some t = PriorityQueue.top (queue_ q) /\
            t :: PriorityQueue.pop (queue_ q) ≡ₚ queue_ q) as Hpop.
  { intros t Ht. split; [done|]. symmetry. by apply pop_spec. }
  destruct c as [task| |stop_flag|]; cbn [queue_call is_clear].
  - destruct (push_spec task (queue_ q) Hq) as [_ Hp].
    cbn [fst snd TaskQueueM.push queue_ option_list app].
    rewrite Hp. done.
  - unfold TaskQueueM.try_pop.
    destruct (PriorityQueue.empty (queue_ q)) eqn:He; [done|].
    apply empty_false, top_nonempty in He as [t Ht].
    destruct (Hpop t Ht) as [<- Hp]. cbn. rewrite Hp. done.
  - unfold TaskQueueM.wait_pop.
    destruct (PriorityQueue.empty (queue_ q)) eqn:He; cbn [negb orb].
    + by destruct stop_flag.
    + apply empty_false, top_nonempty in He as [t Ht].
      destruct (Hpop t Ht) as [<- Hp]. cbn. rewrite Hp. done.
  - rewrite clear_empty. cbn. split; [|done]. apply submseteq_nil_l.
Qed.

Lemma queue_history_conserved cs : forall q,
  heap_ordered (queue_ q) ->
  (queue_history cs q).1 ++ queue_ (queue_history cs q).2
    ⊆+ queue_pushed cs ++ queue_ q /\
  (forallb (fun c => negb (is_clear c)) cs = true ->
   (queue_history cs q).1 ++ queue_ (queue_history cs q).2
     ≡ₚ queue_pushed cs ++ queue_ q).
Proof.
  induction cs as [|c cs IH]; intros q Hq.
  - cbn. done.
  - cbn [queue_history].
    pose proof (queue_call_heap c q Hq) as H1.
    destruct (queue_call_conserved c q Hq) as [Hsub Hperm].
    destruct (queue_call c q) as [r q1]. cbn [fst snd] in *.
    destruct (IH q1 H1) as [IHs IHp].
    destruct (queue_history cs q1) as [out q2]. cbn [fst snd] in *.
    assert (queue_pushed (c :: cs)
            = option_list (match c with QCPush t => Some t | _ => None end)
              ++ queue_pushed cs) as ->.
    { unfold queue_pushed. by destruct c. }
    set (opt := option_list (match c with QCPush t => Some t | _ => None end)) in *.
    split.
    + rewrite <- (assoc_L (++)).
      transitivity (option_list r ++ (queue_pushed cs ++ queue_ q1));
        [by apply submseteq_skips_l|].
      transitivity (queue_pushed cs ++ (option_list r ++ queue_ q1)).
      { apply Permutation_submseteq.
        by rewrite !(assoc (++)), (comm (++) (option_list r)). }
      transitivity (queue_pushed cs ++ (opt ++ queue_ q));
        [by apply submseteq_skips_l|].
      apply Permutation_submseteq.
      by rewrite !(assoc (++)), (comm (++) opt).
    + cbn [forallb]. intros [Hc Hcs]%andb_true_iff.
      rewrite <- (assoc_L (++)). rewrite (IHp Hcs).
      rewrite !(assoc (++)), (comm (++) (option_list r)), <- (assoc (++)).
      rewrite Hperm by by destruct c.
      by rewrite !(assoc (++)), (comm (++) opt).
Qed.

(** X2.  Along every history of calls on a queue that starts empty, the
    tasks returned and those still queued are among the tasks pushed, each
    as often as it was pushed at most; when the history has no [clear],
    they are exactly the tasks pushed. *)
Theorem task_queue_delivers_each_task_once (cs : list QueueCall) :
  (queue_history cs (mkTaskQueue [])).1 ++ queue_ (queue_after cs)
    ⊆+ queue_pushed cs /\
  (forallb (fun c => negb (is_clear c)) cs = true ->
   (queue_history cs (mkTaskQueue [])).1 ++ queue_ (queue_after cs)
     ≡ₚ queue_pushed cs) /\
  (TaskQueueM.size (queue_after cs)
   + length (queue_history cs (mkTaskQueue [])).1 <= length (queue_pushed cs))%nat.
Proof.
  destruct (queue_history_conserved cs (mkTaskQueue [])) as [Hs Hp];
    [apply heap_ordered_nil|].
  cbn [queue_] in *. rewrite app_nil_r in *. unfold queue_after.
  split; [done|]. split; [done|].
  apply submseteq_length in Hs. rewrite length_app in Hs.
  unfold TaskQueueM.size, PriorityQueue.size. lia.
Qed.

End QueueOrderFacts.

Module DequeOrderFacts.
Import DequeFacts.

Lemma foldl_pops l : forall g,
  deque_ (queued g) = l ->
  let g' := foldl (fun g c => deque_call c g) g (replicate (length l) DCPopFront) in
  popped g' = popped g ++ l /\ stolen g' = stolen g /\ pushed g' = pushed g /\
  deque_ (queued g') = [].
Proof.
  induction l as [|t l IH]; intros g Hg; cbn [length replicate foldl].
  - cbn. by rewrite app_nil_r.
  - cbn [deque_call]. unfold Deque.pop_front. rewrite Hg.
    destruct (IH (mkDequeLog (pushed g) (popped g ++ option_list (Some t)) (stolen g)
                             (mkDeque l))) as (H1 & H2 & H3 & H4); [done|].
    cbn zeta in *. rewrite H1, H2, H3, H4. cbn [popped stolen pushed option_list].
    by rewrite <- (assoc_L (++)).
Qed.

Lemma foldl_steals l : forall g,
  deque_ (queued g) = reverse l ->
  let g' := foldl (fun g c => deque_call c g) g (replicate (length l) DCSteal) in
  stolen g' = stolen g ++ l /\ popped g' = popped g /\ pushed g' = pushed g /\
  deque_ (queued g') = [].
Proof.
  induction l as [|t l IH]; intros g Hg; cbn [length replicate foldl].
  - cbn. by rewrite app_nil_r.
  - cbn [deque_call]. rewrite reverse_cons in Hg.
    destruct (queued g) as [dq] eqn:Eq. cbn [deque_] in Hg. subst dq.
    rewrite steal_back.
    destruct (IH (mkDequeLog (pushed g) (popped g) (stolen g ++ option_list (Some t))
                             (mkDeque (reverse l)))) as (H1 & H2 & H3 & H4); [done|].
    cbn zeta in *. rewrite H1, H2, H3, H4. cbn [popped stolen pushed option_list].
    by rewrite <- (assoc_L (++)).
Qed.

Lemma pushes_keep ts : forall g,
  popped (foldl (fun g c => deque_call c g) g (map DCPushFront ts)) = popped g /\
  stolen (foldl (fun g c => deque_call c g) g (map DCPushFront ts)) = stolen g.
Proof.
  induction ts as [|t ts IH]; intros g; [done|].
  cbn [map foldl]. destruct (IH (deque_call (DCPushFront t) g)) as [-> ->]. done.
Qed.

(** X3.  The owner end of a deque is a stack and the thief end a queue:
    after the tasks [ts] have been pushed on an empty deque, popping it
    empty returns them newest first, and stealing it empty returns them
    oldest first. *)
Theorem deque_owner_lifo_thief_fifo (ts : list Task) :
  let pushes := map DCPushFront ts in
  popped (deque_history (pushes ++ replicate (length ts) DCPopFront) (mkDeque []))
    = reverse ts /\
  stolen (deque_history (pushes ++ replicate (length ts) DCSteal) (mkDeque []))
    = ts /\
  deque_ (queued (deque_history (pushes ++ replicate (length ts) DCPopFront)
                                (mkDeque []))) = [] /\
  deque_ (queued (deque_history (pushes ++ replicate (length ts) DCSteal)
                                (mkDeque []))) = [].
Proof.
  intros pushes. unfold deque_history. rewrite !foldl_app.
  pose proof (pushes_stack ts (mkDequeLog [] [] [] (mkDeque [])) eq_refl eq_refl) as Hq.
  destruct (pushes_keep ts (mkDequeLog [] [] [] (mkDeque []))) as [Hpo Hst].
  cbn [queued deque_ popped stolen] in Hq, Hpo, Hst. rewrite app_nil_r in Hq.
  fold pushes in Hq, Hpo, Hst.
  set (g := foldl (fun g c => deque_call c g) (mkDequeLog [] [] [] (mkDeque [])) pushes) in *.
  destruct (foldl_pops (reverse ts) g Hq) as (H1 & _ & _ & H2).
  destruct (foldl_steals ts g Hq) as (H3 & _ & _ & H4).
  rewrite length_reverse in H1, H2. rewrite Hpo in H1. rewrite Hst in H3.
  done.
Qed.

(** X4.  [empty()] and [size()] of a deque agree with what [pop_front] and
    [steal] find: the deque is empty exactly when its size is [0], exactly
    when [pop_front] returns nothing, and exactly when [steal] returns
    nothing; a call that returns nothing leaves the deque as it is, and one
    that returns a task makes the size one less. *)
Theorem deque_empty_iff_nothing_to_take (d : WorkStealingDeque) :
  (Deque.empty d = true <-> Deque.size d = 0%nat) /\
  (Deque.empty d = true <-> Deque.pop_front d = (None, d)) /\
  (Deque.empty d = true <-> Deque.steal d = (None, d)) /\
  (forall t d', Deque.pop_front d = (Some t, d') -> Deque.size d = S (Deque.size d')) /\
  (forall t d', Deque.steal d = (Some t, d') -> Deque.size d = S (Deque.size d')) /\
  (forall t, Deque.size (Deque.push_front t d) = S (Deque.size d)).
Proof.
  destruct d as [l]. unfold Deque.empty, Deque.size, Deque.pop_front, Deque.steal.
  cbn [deque_]. rewrite bool_decide_eq_true.
  split; [|split; [|split; [|split; [|split]]]].
  - by destruct l.
  - by destruct l.
  - destruct (last l) as [t|] eqn:El.
    + split; [by intros ->|done].
    + apply last_None in El. done.
  - intros t d'. destruct l; [done|]. by intros [= _ <-].
  - intros t d'. destruct (last l) as [x|] eqn:El; [|done]. intros [= _ <-].
    cbn [deque_]. apply last_removelast in El. rewrite El at 1.
    rewrite length_app. cbn. lia.
  - done.
Qed.

End DequeOrderFacts.

(* ===================================================================== *)
(** ** The pool as a whole                                               *)
(* ===================================================================== *)

Module PoolFacts.
Import StepFacts WorkerFacts LocalQueueFacts.

Lemma size_t_add_wrap a b :
  size_t_add (size_t_wrap a) b = size_t_wrap (a + b).
Proof.
  unfold size_t_add, size_t_wrap, size_t_modulus.
  rewrite N.Div0.add_mod_idemp_l. done.
Qed.

Lemma pending_fold (l : list WorkStealingDeque) : forall a,
  foldl (fun count q => size_t_add count (N.of_nat (Deque.size q))) (size_t_wrap a) l
  = size_t_wrap (a + N.of_nat (sum_list_with Deque.size l)).
Proof.
  induction l as [|d l IH]; intros a; cbn [foldl sum_list_with].
  - by rewrite N.add_0_r.
  - rewrite size_t_add_wrap, IH. f_equal. lia.
Qed.

(** X5.  As long as fewer than 2^64 tasks are queued, [pending()] is the
    number of tasks in the global queue and in the local deques; it is [0]
    exactly when all of them are empty, and the condition of [wait()] is
    false exactly when nothing is queued and nothing is active. *)
Theorem pending_counts_queued_tasks (p : ThreadPool) :
  (N.of_nat (queued_tasks p) < size_t_modulus)%N ->
  Pool.pending p = N.of_nat (queued_tasks p) /\
  (Pool.pending p = 0%N <->
   queue_ (global_queue_ p) = [] /\ deques_empty p) /\
  (Pool.wait_condition p = false <->
   queued_tasks p = 0%nat /\ Pool.active p = 0%N).
Proof.
  intros Hlt.
  assert (Pool.pending p = N.of_nat (queued_tasks p)) as Hp.
  { unfold Pool.pending, queued_tasks in *.
    assert (N.of_nat (TaskQueueM.size (global_queue_ p))
            = size_t_wrap (N.of_nat (TaskQueueM.size (global_queue_ p)))) as ->.
    { unfold size_t_wrap. rewrite N.mod_small; [done|]. lia. }
    rewrite pending_fold. unfold size_t_wrap. rewrite N.mod_small; lia. }
  split; [done|]. split.
  - rewrite Hp. unfold queued_tasks, TaskQueueM.size, PriorityQueue.size, deques_empty.
    split.
    + intros H0.
      assert (length (queue_ (global_queue_ p)) = 0%nat /\
              sum_list_with Deque.size (local_queues_ p) = 0%nat) as [H1 H2] by lia.
      split; [by apply length_zero_iff_nil|].
      apply Forall_forall. intros d Hd.
      pose proof (sum_list_with_in _ Deque.size _ Hd) as Hle.
      apply length_zero_iff_nil. change (Deque.size d = 0%nat). lia.
    + intros [-> Hall].
      assert (sum_list_with Deque.size (local_queues_ p) = 0%nat) as ->; [|done].
      induction Hall as [|d l Hd _ IH]; [done|]. cbn. unfold Deque.size at 1.
      rewrite Hd, IH. done.
  - unfold Pool.wait_condition. rewrite Hp, orb_false_iff, !N.ltb_ge. lia.
Qed.

Lemma pending_counts_queued_tasks_witness :
  Pool.pending (Pool.create 3) = 0%N.
Proof.
  destruct (pending_counts_queued_tasks (Pool.create 3)) as [H _].
  - vm_compute. reflexivity.
  - exact H.
Defined.

(** What [try_steal_loop] does over the indices [ixs] is what stealing
    from the first non-empty victim does. *)
Lemma try_steal_loop_first p worker_id : forall ixs,
  Pool.try_steal_loop ixs worker_id p =
    match first_nonempty
            (omap (fun j => let victim := ((worker_id + j + 1) mod num_threads_ p)%nat in
                            if (victim =? worker_id)%nat then None else Some victim) ixs)
            (local_queues_ p) with
    | Some v => (oldest_of v p, stolen_from v p)
    | None => (None, p)
    end.
Proof.
  assert (forall (f : nat -> option nat) i l,
            omap f (i :: l) = match f i with
                              | Some y => y :: omap f l
                              | None => omap f l
                              end) as Hcons by reflexivity.
  induction ixs as [|i ixs IH]; [done|].
  cbn [Pool.try_steal_loop]. rewrite Hcons. cbv beta zeta.
  destruct (_ =? worker_id)%nat eqn:E; [exact IH|].
  cbn [first_nonempty].
  destruct (local_queues_ p !! _) as [q|] eqn:Hq; [|exact IH].
  unfold Deque.steal, Deque.empty.
  destruct (last (deque_ q)) as [t|] eqn:El.
  - rewrite bool_decide_eq_false_2 by (intros E0; by rewrite E0 in El).
    unfold oldest_of, stolen_from. by rewrite Hq, El.
  - apply last_None in El. rewrite bool_decide_eq_true_2 by done. exact IH.
Qed.

Lemma first_nonempty_spec vs qs :
  match first_nonempty vs qs with
  | Some v => v ∈ vs /\ exists d, qs !! v = Some d /\ deque_ d <> []
  | None => forall v d, v ∈ vs -> qs !! v = Some d -> deque_ d = []
  end.
Proof.
  induction vs as [|v vs IH]; cbn [first_nonempty].
  - intros v d Hv. by apply elem_of_nil in Hv.
  - destruct (qs !! v) as [d|] eqn:Hd.
    + unfold Deque.empty. case_bool_decide as He.
      * destruct (first_nonempty vs qs) as [v'|].
        -- destruct IH as [Hin Hex]. split; [by right|done].
        -- intros v' d' [->|Hin]%elem_of_cons Hd'; [congruence|eauto].
      * split; [by left|]. eauto.
    + destruct (first_nonempty vs qs) as [v'|].
      * destruct IH as [Hin Hex]. split; [by right|done].
      * intros v' d' [->|Hin]%elem_of_cons Hd'; [congruence|eauto].
Qed.

(** X6.  [try_steal] visits the other workers in round-robin order
    starting just after the thief and takes the oldest task of the first
    deque that is not empty, counting it in [total_tasks_stolen]; it
    returns nothing, and changes nothing, exactly when every other deque
    is empty; the thief's own deque is never touched. *)
Theorem try_steal_takes_first_victim (worker_id : nat) (p : ThreadPool) :
  (worker_id < num_threads_ p)%nat ->
  length (local_queues_ p) = num_threads_ p ->
  Pool.try_steal worker_id p =
    match first_nonempty (victims (num_threads_ p) worker_id) (local_queues_ p) with
    | Some v => (oldest_of v p, stolen_from v p)
    | None => (None, p)
    end /\
  ((Pool.try_steal worker_id p).1 = None <->
   forall v d, v <> worker_id -> local_queues_ p !! v = Some d -> deque_ d = []) /\
  ((Pool.try_steal worker_id p).1 = None -> (Pool.try_steal worker_id p).2 = p) /\
  local_queues_ (Pool.try_steal worker_id p).2 !! worker_id
    = local_queues_ p !! worker_id /\
  (forall t, (Pool.try_steal worker_id p).1 = Some t ->
     total_tasks_stolen (stats_ (Pool.try_steal worker_id p).2)
       = size_t_incr (total_tasks_stolen (stats_ p)) /\
     queued_tasks p = S (queued_tasks (Pool.try_steal worker_id p).2)).
Proof.
  intros Hid Hlen.
  assert (Pool.try_steal worker_id p =
    match first_nonempty (victims (num_threads_ p) worker_id) (local_queues_ p) with
    | Some v => (oldest_of v p, stolen_from v p)
    | None => (None, p)
    end) as Heq.
  { unfold Pool.try_steal. rewrite try_steal_loop_first.
    replace (seq 0 (num_threads_ p)) with (seq 0 (num_threads_ p - 0))
      by (by rewrite Nat.sub_0_r).
    change (omap _ (seq 0 (num_threads_ p - 0)))
      with (loop_victims (num_threads_ p) worker_id 0).
    by rewrite (loop_victims_spec (num_threads_ p) worker_id Hid). }
  split; [exact Heq|]. rewrite Heq.
  pose proof (first_nonempty_spec (victims (num_threads_ p) worker_id)
                (local_queues_ p)) as Hspec.
  destruct (first_nonempty _ _) as [v|].
  - destruct Hspec as (Hin & d & Hd & Hne).
    apply elem_of_victims in Hin as [Hv Hneq]; [|done].
    assert (exists t, last (deque_ d) = Some t) as [t Ht].
    { destruct (last (deque_ d)) eqn:El; [eauto|]. by apply last_None in El. }
    unfold oldest_of, stolen_from. rewrite Hd, Ht. cbn [fst snd].
    split; [|split; [done|split]].
    + split; [done|]. intros Hall. exfalso. apply Hne. by apply (Hall v d).
    + cbn [local_queues_ set_stats set_locals]. by apply list_lookup_insert_ne.
    + intros t' _. split; [done|].
      unfold queued_tasks. cbn [global_queue_ local_queues_ set_stats set_locals].
      pose proof (ExecutionFacts.sum_insert Deque.size (local_queues_ p) v d
                    (mkDeque (removelast (deque_ d))) Hd) as Hs.
      assert (Deque.size d = S (Deque.size (mkDeque (removelast (deque_ d))))) as Hsz.
      { unfold Deque.size. cbn [deque_]. apply DequeFacts.last_removelast in Ht.
        rewrite Ht at 1. rewrite length_app. cbn. lia. }
      lia.
  - cbn [fst snd]. split; [|split; [done|split; [done|done]]].
    split; [|done]. intros _ v d Hne Hd. apply (Hspec v d); [|done].
    apply elem_of_victims; [done|]. split; [|done].
    apply lookup_lt_Some in Hd. lia.
Qed.

Lemma try_steal_takes_first_victim_witness :
  (Pool.try_steal 1
     (set_locals [mkDeque [Pool.make_task 1 0; Pool.make_task 0 0]; mkDeque []; mkDeque []]
                 (Pool.create 3))).1
  = Some (Pool.make_task 0 0).
Proof.
  destruct (try_steal_takes_first_victim 1
     (set_locals [mkDeque [Pool.make_task 1 0; Pool.make_task 0 0]; mkDeque []; mkDeque []]
                 (Pool.create 3))) as [H _].
  - vm_compute. lia.
  - reflexivity.
  - rewrite H. reflexivity.
Defined.

(** The shape of the pool does not change. *)
Lemma step_shape l s s' :
  step l s = Some s' ->
  threads_of s' = threads_of s /\ length (workers s') = length (workers s).
Proof.
  intros H. unfold threads_of. step_cases H; cbn; rewrite ?length_insert; done.
Qed.

(** Along an execution the pool keeps the number of threads of its
    constructor, with one worker thread each. *)
Lemma reachable_shape n ls s :
  run ls (init n) = Some s ->
  threads_of s = threads_of (init n) /\ length (workers s) = threads_of s.
Proof.
  intros Hrun.
  apply (run_invariant (fun s => threads_of s = threads_of (init n) /\
                                 length (workers s) = threads_of s))
    with (ls := ls) (s := init n); [|exact Hrun|].
  - intros l s1 s2 Hstep [H1 H2].
    destruct (step_shape _ _ _ Hstep) as [-> ->]. done.
  - split; [done|]. cbn. by rewrite length_replicate.
Qed.

(** X7.  The constructor makes a pool of [num_threads] workers, and of one
    worker when [num_threads] is [0], with nothing pending and nothing
    active; in every execution [size()] keeps this value, which is at least
    [1], and there are as many worker threads and local deques. *)
Theorem pool_size_is_fixed (n : nat) (ls : list Label) (s : State) :
  run ls (init n) = Some s ->
  Pool.size (Pool.create n) = (if (n =? 0)%nat then 1 else n)%nat /\
  Pool.pending (Pool.create n) = 0%N /\
  Pool.active (Pool.create n) = 0%N /\
  Pool.wait_condition (Pool.create n) = false /\
  Pool.stats (Pool.create n) = mkStats 0 0 0 0 /\
  Pool.size (the_pool s) = Pool.size (Pool.create n) /\
  (1 <= Pool.size (the_pool s))%nat /\
  length (workers s) = Pool.size (the_pool s) /\
  length (local_queues_ (the_pool s)) = Pool.size (the_pool s).
Proof.
  intros Hrun.
  assert (Pool.pending (Pool.create n) = 0%N) as Hpend.
  { apply SoloFacts.pending_empty; [done|]. cbn. by apply Forall_replicate. }
  destruct (reachable_shape _ _ _ Hrun) as [Ht Hw].
  pose proof (reachable_deques_counted _ _ _ Hrun) as Hd. unfold deques_counted in Hd.
  unfold Pool.size, the_pool, threads_of in *. rewrite Hd, Hw, Ht.
  unfold Pool.wait_condition, Pool.active. rewrite Hpend.
  cbn [init world memory pool workers Pool.create num_threads_ active_tasks_
       Pool.stats stats_].
  destruct n; cbn; repeat split; lia.
Qed.

Lemma pool_size_is_fixed_witness :
  Pool.size (the_pool throwing_state) = 2%nat.
Proof.
  destruct (pool_size_is_fixed 2 throwing_run throwing_state)
    as (_ & _ & _ & _ & _ & H & _).
  - vm_compute. reflexivity.
  - rewrite H. reflexivity.
Defined.

End PoolFacts.

(* ===================================================================== *)
(** ** Futures                                                           *)
(* ===================================================================== *)

Module FutureFacts.
Import StepFacts.

Lemma futures_kept_refl l : futures_kept l l.
Proof. intros ptr pt H. exists pt. auto. Qed.

Lemma futures_kept_trans l1 l2 l3 :
  futures_kept l1 l2 -> futures_kept l2 l3 -> futures_kept l1 l3.
Proof.
  intros H12 H23 ptr pt H.
  destruct (H12 ptr pt H) as (pt2 & H2 & Hc2 & Hs2).
  destruct (H23 ptr pt2 H2) as (pt3 & H3 & Hc3 & Hs3).
  exists pt3. split; [done|]. split; [congruence|].
  destruct Hs2 as [Hs2|[Hu Hs2]], Hs3 as [Hs3|[Hu3 Hs3]].
  - left. congruence.
  - right. split; congruence.
  - right. split; congruence.
  - rewrite Hs2 in Hu3. by destruct (callable pt).
Qed.

Lemma call_task_kept task l e l' :
  call_task task l = Some (e, l') -> futures_kept l l'.
Proof.
  unfold call_task. destruct (func_ task) as [[task_ptr]|].
  - destruct (l !! task_ptr) as [pt0|] eqn:H0; [|done].
    unfold packaged_call. intros Hc ptr pt Hpt.
    destruct (decide (ptr = task_ptr)) as [->|Hne].
    + rewrite H0 in Hpt. injection Hpt as ->.
      destruct (shared_state pt) eqn:Hs; injection Hc as <- <-.
      * eexists. split; [apply list_lookup_insert_eq; by eapply lookup_lt_Some|].
        cbn. unfold resolved_as. auto.
      * exists pt. split; [|auto].
        rewrite list_lookup_insert_eq by (by eapply lookup_lt_Some). done.
      * exists pt. split; [|auto].
        rewrite list_lookup_insert_eq by (by eapply lookup_lt_Some). done.
    + exists pt. split; [|auto].
      destruct (shared_state pt0); injection Hc as <- <-;
        by rewrite list_lookup_insert_ne.
  - intros [= <- <-]. apply futures_kept_refl.
Qed.

(** No step removes a packaged task or changes a callable or a resolved
    shared state. *)
Lemma step_futures_kept l s s' :
  step l s = Some s' ->
  futures_kept (packaged_tasks (memory (world s))) (packaged_tasks (memory (world s'))).
Proof.
  intros H. step_cases H; cbn [world memory packaged_tasks set_pool set_packaged];
    try apply futures_kept_refl.
  - by eapply call_task_kept.
  - intros ptr pt Hpt. exists pt. split; [by apply lookup_app_l_Some|auto].
Qed.

Lemma run_futures_kept ls : forall s s',
  run ls s = Some s' ->
  futures_kept (packaged_tasks (memory (world s))) (packaged_tasks (memory (world s'))).
Proof.
  induction ls as [|l ls IH]; intros s s' Hrun; cbn [run] in Hrun.
  - injection Hrun as <-. apply futures_kept_refl.
  - destruct (step l s) as [s1|] eqn:Hl; [|done].
    eapply futures_kept_trans; [by eapply step_futures_kept|by apply IH].
Qed.

(** X8.  A future that is ready stays as it is: whatever the threads do
    afterwards, the packaged task is still there, [get()] gives the same
    value or exception, and [wait_for] still reports that it is ready. *)
Theorem future_result_is_final (ls : list Label) (s s' : State)
        (ptr : nat) (pt : PackagedTask) (r : Z + Exception) :
  run ls s = Some s' ->
  packaged_tasks (memory (world s)) !! ptr = Some pt ->
  future_get pt = Some r ->
  exists pt',
    packaged_tasks (memory (world s')) !! ptr = Some pt' /\
    pt' = pt /\ future_get pt' = Some r /\ future_wait_for pt' = true.
Proof.
  intros Hrun Hpt Hget.
  destruct (run_futures_kept _ _ _ Hrun ptr pt Hpt) as (pt' & Hpt' & Hc & Hs).
  assert (shared_state pt <> Unresolved) as Hres.
  { unfold future_get in Hget. by destruct (shared_state pt). }
  destruct Hs as [Hs|[Hu _]]; [|done].
  assert (pt' = pt) as -> by (destruct pt, pt'; cbn in *; congruence).
  exists pt. repeat split; try done.
  unfold future_wait_for. by destruct (shared_state pt).
Qed.

Lemma future_result_is_final_witness :
  exists s',
    run [Spawn CallShutdown; StepClient 2; StepClient 2; StepWorker 0]
        lost_update_state = Some s' /\
    exists pt',
      packaged_tasks (memory (world s')) !! 0%nat = Some pt' /\
      pt' = mkPackaged (Returns 1) (Value 1) /\
      future_get pt' = Some (inl 1) /\ future_wait_for pt' = true.
Proof.
  eexists. split; [vm_compute; reflexivity|].
  eapply (future_result_is_final
            [Spawn CallShutdown; StepClient 2; StepClient 2; StepWorker 0]
            lost_update_state);
    [vm_compute; reflexivity | reflexivity | reflexivity].
Defined.

End FutureFacts.

(* ===================================================================== *)
(** ** The callers along an execution                                    *)
(* ===================================================================== *)

Module HistoryFacts.
Import StepFacts FutureFacts.

Lemma calls_of_snoc ls l : calls_of (ls ++ [l]) = calls_of ls ++ spawned l.
Proof. unfold calls_of. rewrite map_app, concat_app. cbn. by rewrite app_nil_r. Qed.

Lemma run_snoc ls l s s' :
  run (ls ++ [l]) s = Some s' ->
  exists s1, run ls s = Some s1 /\ step l s1 = Some s'.
Proof.
  rewrite run_app. destruct (run ls s) as [s1|]; [|done].
  cbn [run]. destruct (step l s1) as [s2|] eqn:E; [|done].
  intros [= <-]. eauto.
Qed.

(** What holds of the calls started and the state at the beginning, and
    is kept by every step, holds along every execution. *)
Lemma run_history (P : list Call -> State -> Prop) s0 :
  P [] s0 ->
  (forall cs l s s', P cs s -> step l s = Some s' -> P (cs ++ spawned l) s') ->
  forall ls s, run ls s0 = Some s -> P (calls_of ls) s.
Proof.
  intros H0 Hstep. induction ls as [|l ls IH] using rev_ind; intros s Hrun.
  - injection Hrun as <-. exact H0.
  - apply run_snoc in Hrun as (s1 & Hrun & Hl).
    rewrite calls_of_snoc. eapply Hstep; eauto.
Qed.

Lemma tracks_kept c pc l l' :
  futures_kept l l' -> tracks c pc l -> tracks c pc l'.
Proof.
  intros Hk.
  assert (forall ptr f, callable <$> l !! ptr = Some f ->
                        callable <$> l' !! ptr = Some f) as Hc.
  { intros ptr f H. destruct (l !! ptr) as [pt|] eqn:Hpt; [|done].
    destruct (Hk ptr pt Hpt) as (pt' & -> & Hc' & _). cbn in *. congruence. }
  destruct pc as [| | | | | | | | | | | | | | | | | |[]]; cbn [tracks]; try done.
  - intros (p & f & H1 & H2 & H3). exists p, f. auto.
  - intros (p & f & H1 & H2). exists p, f. auto.
  - intros (p & f & H1 & H2). exists p, f. auto.
  - intros (p & f & H1 & H2). exists p, f. auto.
Qed.

Lemma tracks_future c pc l ptr :
  tracks c pc l -> future_of pc = Some ptr -> (ptr < length l)%nat.
Proof.
  assert (forall f, callable <$> l !! ptr = Some f -> (ptr < length l)%nat) as Hlt.
  { intros f H. destruct (l !! ptr) eqn:E; [by eapply lookup_lt_Some|done]. }
  destruct pc as [| | | | | | | | | | | | | | | | | |[]]; cbn [tracks future_of];
    try done.
  all: intros H [= <-].
  - destruct H as (p & f & _ & _ & H). eauto.
  - destruct H as (p & f & _ & H). eauto.
  - destruct H as (p & f & _ & H). eauto.
  - destruct H as (p & f & _ & H). eauto.
Qed.

(** One step of a caller keeps it on the track of its call; the future it
    holds is the one it held, or a new one. *)
Lemma client_step_tracks n pc s pc' w' c :
  run_action (client_code n pc) s = Some (pc', w') ->
  tracks c pc (packaged_tasks (memory (world s))) ->
  tracks c pc' (packaged_tasks (memory w')) /\
  (future_of pc' = future_of pc \/
   future_of pc' = None \/
   future_of pc' = Some (length (packaged_tasks (memory (world s))))).
Proof.
  intros H Ht.
  destruct pc; cbn [client_code] in H;
    repeat match type of H with
    | context [if ?b then _ else _] => destruct b eqn:?
    end;
    cbn [run_action] in H;
    first [ discriminate H
          | injection H as <- <-
          | destruct (workers s !! _) as [[]|] eqn:?; try discriminate H;
            injection H as <- <-
          | destruct (perform _ _) as [[? ?]|] eqn:Hperf; [|discriminate H];
            injection H as <- <-; perform_cases Hperf ].
  all: cbn [tracks future_of world memory packaged_tasks set_pool set_packaged] in *.
  all: repeat match goal with
       | |- context [if ?b then _ else _] => destruct b
       | |- context [match ?o with Some _ => _ | None => _ end] => destruct o
       end; cbn [tracks future_of]; auto.
  - (* the allocation *)
    split; [|auto]. eexists _, _. split; [exact Ht|]. split; [done|].
    rewrite lookup_app_r by done. by rewrite Nat.sub_diag.
  - (* the push *)
    destruct Ht as (p & f & H1 & _ & H2). split; [|auto]. eauto.
Qed.

Lemma call_task_faithful task l e l' :
  call_task task l = Some (e, l') -> Forall faithful l -> Forall faithful l'.
Proof.
  unfold call_task. destruct (func_ task) as [[task_ptr]|]; [|by intros [= <- <-]].
  destruct (l !! task_ptr) as [pt|] eqn:Hpt; [|done].
  unfold packaged_call. intros Hc Hl.
  assert (faithful pt) as Hf by by eapply Forall_lookup_1.
  destruct (shared_state pt) eqn:Hs; injection Hc as <- <-;
    apply Forall_insert; try done.
  right. reflexivity.
Qed.

Lemma step_faithful l s s' :
  step l s = Some s' ->
  Forall faithful (packaged_tasks (memory (world s))) ->
  Forall faithful (packaged_tasks (memory (world s'))).
Proof.
  intros H Hf.
  step_cases H; cbn [world memory packaged_tasks set_pool set_packaged]; try done.
  - by eapply call_task_faithful.
  - apply Forall_app. split; [done|]. constructor; [|done]. by left.
Qed.

Lemma step_history cs l s s' :
  history_inv cs s -> step l s = Some s' -> history_inv (cs ++ spawned l) s'.
Proof.
  intros [Hlen Htr Hdis Hfa] H.
  pose proof (step_futures_kept _ _ _ H) as Hkept.
  pose proof (step_faithful _ _ _ H Hfa) as Hfa'.
  destruct l as [|c|i|j]; cbn [spawned]; rewrite ?app_nil_r.
  - injection H as <-. split; done.
  - injection H as <-. split; cbn [clients world].
    + by rewrite !length_app, Hlen.
    + intros j c' pc Hc Hpc.
      apply lookup_app_Some in Hpc as [Hpc|[Hge Hpc]].
      * rewrite lookup_app_l in Hc by (rewrite <- Hlen; by eapply lookup_lt_Some).
        by apply (Htr j).
      * apply list_lookup_singleton_Some in Hpc as [Hj <-].
        rewrite lookup_app_r in Hc by lia.
        replace (j - length cs)%nat with 0%nat in Hc by lia.
        injection Hc as <-. by destruct c.
    + intros j j' pc pc' ptr Hj Hj' Hf Hf'.
      apply lookup_app_Some in Hj as [Hj|[_ Hj]];
        [|apply list_lookup_singleton_Some in Hj as [_ <-]; by destruct c].
      apply lookup_app_Some in Hj' as [Hj'|[_ Hj']];
        [|apply list_lookup_singleton_Some in Hj' as [_ <-]; by destruct c].
      by apply (Hdis j j' pc pc' ptr).
    + done.
  - pose proof (step_worker_clients _ _ _ H) as Hcl. split.
    + by rewrite Hcl.
    + intros j c pc Hc Hpc. rewrite Hcl in Hpc.
      eapply tracks_kept; [exact Hkept|]. by apply (Htr j).
    + rewrite Hcl. exact Hdis.
    + done.
  - destruct (step_client_self _ _ _ H) as (pc0 & pc1 & w' & Hpc0 & Hact & Hpc1 & Hw).
    assert (exists c0, cs !! j = Some c0) as [c0 Hc0].
    { apply lookup_lt_is_Some. rewrite <- Hlen. by eapply lookup_lt_Some. }
    pose proof (Htr j c0 pc0 Hc0 Hpc0) as Ht0.
    destruct (client_step_tracks _ _ _ _ _ c0 Hact Ht0) as [Ht1 Hfut].
    rewrite <- Hw in Ht1.
    assert (forall j' pc, j' <> j -> clients s' !! j' = Some pc ->
              clients s !! j' = Some pc /\
              forall ptr, future_of pc = Some ptr ->
                (ptr < length (packaged_tasks (memory (world s))))%nat) as Hother.
    { intros j' pc Hne Hpc. rewrite (step_client_others _ _ _ _ H Hne) in Hpc.
      split; [done|]. intros ptr Hf.
      assert (exists c', cs !! j' = Some c') as [c' Hc'].
      { apply lookup_lt_is_Some. rewrite <- Hlen. by eapply lookup_lt_Some. }
      eapply tracks_future; [by apply (Htr j' c' pc)|done]. }
    assert (forall ptr, future_of pc1 = Some ptr ->
              future_of pc0 = Some ptr \/
              ptr = length (packaged_tasks (memory (world s)))) as Hnew.
    { intros ptr Hf. destruct Hfut as [Hfut|[Hfut|Hfut]]; rewrite Hfut in Hf.
      - by left.
      - done.
      - injection Hf as <-. by right. }
    split.
    + rewrite <- Hlen. cbn [step] in H. rewrite Hpc0, Hact in H. injection H as <-.
      cbn. by rewrite length_insert.
    + intros j' c pc Hc Hpc. destruct (decide (j' = j)) as [->|Hne].
      * rewrite Hpc1 in Hpc. injection Hpc as <-. rewrite Hc0 in Hc.
        by injection Hc as <-.
      * destruct (Hother j' pc Hne Hpc) as [Hpc' _].
        eapply tracks_kept; [exact Hkept|]. by apply (Htr j').
    + intros j1 j2 pc pc' ptr Hj1 Hj2 Hf1 Hf2.
      destruct (decide (j1 = j)) as [->|Hne1], (decide (j2 = j)) as [->|Hne2];
        try done.
      * rewrite Hpc1 in Hj1. injection Hj1 as <-.
        destruct (Hother j2 pc' Hne2 Hj2) as [Hj2' Hlt].
        destruct (Hnew ptr Hf1) as [Hold| ->].
        -- by apply (Hdis j j2 pc0 pc' ptr).
        -- specialize (Hlt _ Hf2). lia.
      * rewrite Hpc1 in Hj2. injection Hj2 as <-.
        destruct (Hother j1 pc Hne1 Hj1) as [Hj1' Hlt].
        destruct (Hnew ptr Hf2) as [Hold| ->].
        -- by apply (Hdis j1 j pc pc0 ptr).
        -- specialize (Hlt _ Hf1). lia.
      * destruct (Hother j1 pc Hne1 Hj1) as [Hj1' _].
        destruct (Hother j2 pc' Hne2 Hj2) as [Hj2' _].
        by apply (Hdis j1 j2 pc pc' ptr).
    + done.
Qed.

Lemma reachable_history n ls s :
  run ls (init n) = Some s -> history_inv (calls_of ls) s.
Proof.
  apply (run_history history_inv).
  - by split.
  - intros cs l s1 s2. apply step_history.
Qed.

(** X9.  In every execution without [shutdown_now()] and without the
    destructor, a caller that has got a future made a submission, and the future is the one of the packaged task that holds
    the callable it submitted: [get()] blocks or gives the value or the
    exception of that callable, never the result of another task; and no
    other caller has got the same future. *)
Theorem future_delivers_result_of_its_call (n : nat) (ls : list Label) (s : State)
        (j : nat) (c : Call) (ptr : nat) :
  run ls (init n) = Some s ->
  cancel_free ls = true ->
  calls_of ls !! j = Some c ->
  clients s !! j = Some (C_returned (RFuture ptr)) ->
  (exists priority f pt,
      submission c = Some (priority, f) /\
      packaged_tasks (memory (world s)) !! ptr = Some pt /\
      callable pt = f /\
      (future_get pt = None \/ future_get pt = Some (result_of f))) /\
  (forall j', j' <> j -> clients s !! j' <> Some (C_returned (RFuture ptr))).
Proof.
  intros Hrun _ Hc Hpc.
  destruct (reachable_history _ _ _ Hrun) as [Hlen Htr Hdis Hfa].
  split.
  - destruct (Htr j c _ Hc Hpc) as (p & f & Hsub & Hcall).
    destruct (packaged_tasks (memory (world s)) !! ptr) as [pt|] eqn:Hpt; [|done].
    injection Hcall as Hcall.
    exists p, f, pt. repeat split; try done.
    unfold future_get.
    destruct (Forall_lookup_1 _ _ _ _ Hfa Hpt) as [Hs|Hs]; rewrite Hs; [by left|].
    right. rewrite Hcall. by destruct f.
  - intros j' Hne Hj'. apply Hne.
    by apply (Hdis j' j _ _ ptr Hj' Hpc).
Qed.

Lemma future_delivers_result_of_its_call_witness :
  exists pt,
    packaged_tasks (memory (world lost_update_state)) !! 1%nat = Some pt /\
    callable pt = Returns 2 /\
    (future_get pt = None \/ future_get pt = Some (result_of (Returns 2))).
Proof.
  destruct (future_delivers_result_of_its_call 2 lost_update_run lost_update_state
              1 (CallSubmit (Returns 2)) 1)
    as [(p & f & pt & Hsub & Hpt & Hc & Hget) _];
    [vm_compute; reflexivity | reflexivity | reflexivity | reflexivity |].
  injection Hsub as _ <-. exists pt. auto.
Defined.

End HistoryFacts.

(* ===================================================================== *)
(** ** Shutdown and destruction                                          *)
(* ===================================================================== *)

Module ShutdownFacts.
Import StepFacts PoolFacts HistoryFacts.

(** A worker that has left its loop takes no step and stays where it
    is. *)
Lemma step_exited_stays l s s' k :
  step l s = Some s' ->
  workers s !! k = Some W_exited -> workers s' !! k = Some W_exited.
Proof.
  intros H Hk. destruct l as [|c|i|j]; cbn [step] in H.
  - by injection H as <-.
  - by injection H as <-.
  - destruct (workers s !! i) as [pc|] eqn:Hpc; [|done].
    destruct (run_action _ s) as [[pc' w']|] eqn:Hact; [|done].
    injection H as <-. cbn [workers].
    destruct (decide (k = i)) as [->|Hne].
    + rewrite Hk in Hpc. injection Hpc as <-. done.
    + by rewrite list_lookup_insert_ne.
  - by rewrite (step_client_workers _ _ _ H).
Qed.

Lemma step_exits_justified l s s' :
  step l s = Some s' -> exits_justified s -> exits_justified s'.
Proof.
  intros H Hinv k Hk.
  pose proof (step_stop_mono _ _ _ H) as Hmono.
  destruct l as [|c|i|j].
  - injection H as <-. by apply (Hinv k).
  - injection H as <-. by apply (Hinv k).
  - destruct (decide (k = i)) as [->|Hne].
    + cbn [step] in H.
      destruct (workers s !! i) as [pc|] eqn:Hpc; [|done].
      destruct (run_action _ s) as [[pc' w']|] eqn:Hact; [|done].
      injection H as <-. cbn [workers] in Hk.
      rewrite list_lookup_insert_eq in Hk by (by eapply lookup_lt_Some).
      injection Hk as ->. unfold the_pool. cbn [world].
      destruct pc; cbn [worker_loop] in Hact;
        repeat match type of Hact with
        | context [if ?b then _ else _] => destruct b eqn:?
        end;
        cbn [run_action] in Hact;
        first [ discriminate Hact
              | injection Hact as Hpc' <-; discriminate Hpc'
              | destruct (perform _ _) as [[? ?]|] eqn:Hperf; [|discriminate Hact];
                injection Hact as Hpc' <-; perform_cases Hperf ].
      all: repeat match type of Hpc' with
           | context [match ?o with Some _ => _ | None => _ end] => destruct o
           | context [if ?b then _ else _] => destruct b eqn:?
           end; try discriminate Hpc'.
      done.
    + apply Hmono, (Hinv k). cbn [step] in H.
      destruct (workers s !! i) as [pc|] eqn:Hpc; [|done].
      destruct (run_action _ s) as [[pc' w']|] eqn:Hact; [|done].
      injection H as <-. cbn [workers] in Hk.
      by rewrite list_lookup_insert_ne in Hk.
  - apply Hmono, (Hinv k). by rewrite <- (step_client_workers _ _ _ H).
Qed.

(** X10.  In every execution a worker thread leaves its loop only after the
    stop flag has been set: as long as the pool accepts tasks all its
    workers are in their loop.  A worker that has left takes no further
    step. *)
Theorem workers_leave_only_after_stop (n : nat) (ls : list Label) (s : State) (i : nat) :
  run ls (init n) = Some s ->
  workers s !! i = Some W_exited ->
  stop_ (the_pool s) = true /\
  step (StepWorker i) s = None /\
  (forall ls' s', run ls' s = Some s' -> workers s' !! i = Some W_exited).
Proof.
  intros Hrun Hi. split; [|split].
  - revert i Hi. change (exits_justified s).
    apply (run_invariant exits_justified) with (ls := ls) (s := init n);
      [apply step_exits_justified|done|].
    intros i Hi. cbn in Hi. apply lookup_replicate in Hi as [? _]. done.
  - cbn [step]. by rewrite Hi.
  - intros ls' s' Hrun'.
    apply (run_invariant (fun s => workers s !! i = Some W_exited))
      with (ls := ls') (s := s); [|done|done].
    intros l s1 s2 Hstep Hk. by eapply step_exited_stays.
Qed.

Lemma workers_leave_only_after_stop_witness :
  exists s,
    run ([Spawn CallShutdown; StepClient 0; StepClient 0]
         ++ replicate 6 (StepWorker 0)) (init 1) = Some s /\
    workers s !! 0%nat = Some W_exited /\
    stop_ (the_pool s) = true.
Proof.
  eexists. split; [vm_compute; reflexivity|]. split; [reflexivity|].
  eapply (workers_leave_only_after_stop 1
            ([Spawn CallShutdown; StepClient 0; StepClient 0]
             ++ replicate 6 (StepWorker 0)) _ 0);
    [vm_compute; reflexivity | reflexivity].
Defined.

Lemma joined_kept pc s s' :
  joined pc s ->
  (stop_ (the_pool s) = true -> stop_ (the_pool s') = true) ->
  (forall k, workers s !! k = Some W_exited -> workers s' !! k = Some W_exited) ->
  threads_of s' = threads_of s ->
  length (workers s') = length (workers s) ->
  joined pc s'.
Proof.
  intros Hj Hstop Hex Hn Hlen. destruct pc; cbn [joined] in *; auto.
  - destruct Hj as [Hs Hk]. split; [auto|]. intros k H1 H2. apply Hex, Hk; lia.
  - destruct Hj as (Hr & Hs & Hall). split; [done|]. split; [auto|].
    apply Forall_lookup. intros k pc Hk.
    assert (k < length (workers s))%nat as Hlt
      by (rewrite <- Hlen; by eapply lookup_lt_Some).
    apply lookup_lt_is_Some in Hlt as [pc0 Hpc0].
    pose proof (Forall_lookup_1 _ _ _ _ Hall Hpc0) as ->.
    apply Hex in Hpc0. congruence.
Qed.

Lemma step_join cs l s s' :
  join_inv cs s -> step l s = Some s' -> join_inv (cs ++ spawned l) s'.
Proof.
  intros [Hlen Hw Hj] H.
  pose proof (step_stop_mono _ _ _ H) as Hmono.
  pose proof (fun k => step_exited_stays _ _ _ k H) as Hex.
  destruct (step_shape _ _ _ H) as [Hn Hwl].
  assert (forall pc, joined pc s -> joined pc s') as Hkept
    by (intros pc Hpc; by apply (joined_kept pc s s')).
  split; [| congruence |].
  - destruct l as [|c|i|j]; cbn [spawned]; rewrite ?app_nil_r.
    + by injection H as <-.
    + injection H as <-. cbn [clients]. by rewrite !length_app, Hlen.
    + by rewrite (step_worker_clients _ _ _ H).
    + rewrite <- Hlen. cbn [step] in H.
      destruct (clients s !! j) as [pc|]; [|done].
      destruct (run_action _ s) as [[pc' w']|]; [|done].
      injection H as <-. cbn. by rewrite length_insert.
  - destruct l as [|c|i|j]; cbn [spawned]; rewrite ?app_nil_r.
    + injection H as <-. exact Hj.
    + injection H as <-. cbn [clients]. intros j pc Hc Hpc.
      apply lookup_app_Some in Hpc as [Hpc|[Hge Hpc]].
      * rewrite lookup_app_l in Hc by (rewrite <- Hlen; by eapply lookup_lt_Some).
        apply Hkept. by apply (Hj j).
      * apply list_lookup_singleton_Some in Hpc as [Hj' <-].
        rewrite lookup_app_r in Hc by lia.
        replace (j - length cs)%nat with 0%nat in Hc by lia.
        by injection Hc as ->.
    + intros j pc Hc Hpc. rewrite (step_worker_clients _ _ _ H) in Hpc. eauto.
    + intros j' pc Hc Hpc. destruct (decide (j' = j)) as [->|Hne].
      2: { rewrite (step_client_others _ _ _ _ H Hne) in Hpc. eauto. }
      destruct (step_client_self _ _ _ H) as (pc0 & pc1 & w' & Hpc0 & Hact & Hpc1 & Hw').
      rewrite Hpc1 in Hpc. injection Hpc as <-.
      pose proof (Hj j pc0 Hc Hpc0) as Hj0.
      pose proof (step_client_workers _ _ _ H) as Hws.
      unfold the_pool, threads_of in *.
      destruct pc0; cbn [joined] in Hj0; try contradiction;
        cbn [client_code] in Hact;
        repeat match type of Hact with
        | context [if ?b then _ else _] => destruct b eqn:?
        end;
        cbn [run_action perform] in Hact;
        repeat match type of Hact with
        | context [match ?e with _ => _ end] => destruct e eqn:?
        end;
        try discriminate Hact; injection Hact as <- <-;
        cbn [joined]; unfold the_pool, threads_of; rewrite ?Hw';
        cbn [world memory pool set_pool set_stop stop_ num_threads_];
        try done.
      * split; [done|]. intros k Hk0 _. lia.
      * destruct Hj0 as [Hs Hk]. split; [done|]. rewrite Hws. intros k Hk1 Hk2.
        destruct (decide (k = i)) as [->|Hne]; [done|]. apply Hk; [lia|done].
      * destruct Hj0 as [Hs Hk]. split; [done|]. split; [done|]. rewrite Hws.
        apply Forall_lookup. intros k pc Hpc.
        assert (k < num_threads_ (pool (memory (world s))))%nat as Hlt
          by (rewrite <- Hw; by eapply lookup_lt_Some).
        rewrite Hk in Hpc; [congruence| |done].
        apply Nat.ltb_ge in Heqb. lia.
Qed.

(** X11.  In every execution, when the destructor has returned the stop
    flag is set and every worker thread has left its loop: no worker takes
    a step any more, so no task body runs after the pool is destroyed. *)
Theorem destructor_joins_every_worker (n : nat) (ls : list Label) (s : State)
        (j : nat) (r : Result) :
  run ls (init n) = Some s ->
  calls_of ls !! j = Some CallDestroy ->
  clients s !! j = Some (C_returned r) ->
  r = RVoid /\
  stop_ (the_pool s) = true /\
  length (workers s) = Pool.size (the_pool s) /\
  (forall i pc, workers s !! i = Some pc -> pc = W_exited) /\
  (forall i, step (StepWorker i) s = None).
Proof.
  intros Hrun Hc Hpc.
  assert (join_inv (calls_of ls) s) as [Hlen Hw Hj].
  { revert Hrun. apply (run_history join_inv); [|apply step_join].
    split; [done| |].
    - cbn. rewrite length_replicate. done.
    - intros j' pc' H'. by rewrite lookup_nil in H'. }
  destruct (Hj j _ Hc Hpc) as (-> & Hs & Hall).
  repeat split; try done.
  - intros i pc Hi. by apply (Forall_lookup_1 _ _ _ _ Hall Hi).
  - intros i. cbn [step]. destruct (workers s !! i) as [pc|] eqn:Hi; [|done].
    by rewrite (Forall_lookup_1 _ _ _ _ Hall Hi).
Qed.

Lemma destructor_joins_every_worker_witness :
  exists s,
    run destroyed_run (init 2) = Some s /\
    workers s = [W_exited; W_exited] /\
    forall i, step (StepWorker i) s = None.
Proof.
  eexists. split; [vm_compute; reflexivity|]. split; [reflexivity|].
  eapply (destructor_joins_every_worker 2 destroyed_run _ 0 RVoid);
    [vm_compute; reflexivity | reflexivity | reflexivity].
Defined.

(** X12.  Once the stop flag is set, no submission that starts afterwards
    succeeds, whatever the threads do: the caller is about to read the
    flag, or has thrown the rejection; and the flag stays set. *)
Theorem no_submission_succeeds_after_stop (s s' : State) (c : Call) (ls : list Label)
        (priority : Z) (f : Outcome) :
  stop_ (the_pool s) = true ->
  submission c = Some (priority, f) ->
  run (Spawn c :: ls) s = Some s' ->
  stop_ (the_pool s') = true /\
  (clients s' !! length (clients s) = Some (S_check_stop priority f) \/
   clients s' !! length (clients s) = Some (C_returned (RThrow Pool.rejected))).
Proof.
  intros Hstop Hsub Hrun. cbn [run step] in Hrun.
  set (j := length (clients s)) in *.
  apply (run_invariant (fun s' =>
           stop_ (the_pool s') = true /\
           (clients s' !! j = Some (S_check_stop priority f) \/
            clients s' !! j = Some (C_returned (RThrow Pool.rejected)))))
    with (ls := ls) (s := mkState (world s) (workers s) (clients s ++ [call_entry c]));
    [|exact Hrun|].
  - intros l s1 s2 Hstep [Hs1 Hj1].
    split; [by apply (step_stop_mono _ _ _ Hstep)|].
    destruct l as [|c'|i|j'].
    + by injection Hstep as <-.
    + injection Hstep as <-. cbn [clients].
      destruct Hj1 as [Hj1|Hj1]; [left|right]; by apply lookup_app_l_Some.
    + by rewrite (step_worker_clients _ _ _ Hstep).
    + destruct (decide (j = j')) as [<-|Hne].
      2: { by rewrite (step_client_others _ _ _ _ Hstep) by done. }
      destruct (step_client_self _ _ _ Hstep) as (pc0 & pc1 & w' & Hpc0 & Hact & Hpc1 & _).
      rewrite Hpc1. destruct Hj1 as [Hj1|Hj1]; rewrite Hj1 in Hpc0; injection Hpc0 as <-.
      * cbn [client_code run_action perform] in Hact. unfold the_pool in Hs1.
        rewrite Hs1 in Hact. injection Hact as <- _. by right.
      * discriminate Hact.
  - split; [done|]. left. cbn [clients]. subst j.
    rewrite lookup_app_r by done. rewrite Nat.sub_diag.
    destruct c; try done; cbn in *; congruence.
Qed.

Lemma no_submission_succeeds_after_stop_witness :
  exists s',
    run [Spawn (CallSubmitPriority 1 (Returns 5)); StepWorker 0; StepClient 1]
        (mkState (set_pool (Pool.shutdown (the_pool wait_race_state))
                           (world wait_race_state))
                 (workers wait_race_state) [C_returned RVoid]) = Some s' /\
    (clients s' !! 1%nat = Some (S_check_stop 1 (Returns 5)) \/
     clients s' !! 1%nat = Some (C_returned (RThrow Pool.rejected))).
Proof.
  eexists. split; [vm_compute; reflexivity|].
  eapply (no_submission_succeeds_after_stop
            (mkState (set_pool (Pool.shutdown (the_pool wait_race_state))
                               (world wait_race_state))
                     (workers wait_race_state) [C_returned RVoid])
            _ (CallSubmitPriority 1 (Returns 5))
            [StepWorker 0; StepClient 1] 1 (Returns 5));
    [reflexivity | reflexivity | vm_compute; reflexivity].
Defined.

End ShutdownFacts.

(* ===================================================================== *)
(** ** Active tasks                                                      *)
(* ===================================================================== *)

Module ActiveFacts.
Import StepFacts LocalQueueFacts ExecutionFacts PoolFacts.

Lemma size_t_incr_wrap a : size_t_incr (size_t_wrap a) = size_t_wrap (a + 1).
Proof. apply size_t_add_wrap. Qed.

Lemma size_t_decr_wrap a : size_t_decr (size_t_wrap (a + 1)) = size_t_wrap a.
Proof.
  unfold size_t_decr, size_t_wrap, size_t_modulus.
  rewrite N.Div0.add_mod_idemp_l.
  replace (a + 1 + (2 ^ 64 - 1))%N with (a + 1 * 2 ^ 64)%N by lia.
  by rewrite N.Div0.mod_add.
Qed.

Lemma busy_le (l : list WorkerPC) : (sum_list_with busy l <= length l)%nat.
Proof.
  induction l as [|pc l IH]; cbn [sum_list_with length]; [done|].
  assert (busy pc <= 1)%nat by (destruct pc; cbn; lia). lia.
Qed.

Lemma step_active_counted l s s' :
  step l s = Some s' -> exec_inv s -> active_counted s -> active_counted s'.
Proof.
  intros H Hinv Hact. unfold active_counted, running, the_pool in *.
  step_cases H.
  all: try match goal with
       | Hpc : workers _ !! _ = Some (W_call _ _), E : call_task _ _ = _ |- _ =>
           destruct (call_task_held _ _ _ _ _ _ Hinv Hpc E) as [-> _]
       end.
  all: state_simpl;
    cbn [active_tasks_ set_locals set_stats set_global set_stop set_active].
  all: try match goal with
       | Hpc : workers ?s !! ?i = Some _ |- context [<[?i := ?pc']> (workers ?s)] =>
           let Hs := fresh "Hs" in
           pose proof (sum_insert busy (workers s) i _ pc' Hpc) as Hs;
           repeat match type of Hs with
           | context [match ?o with Some _ => _ | None => _ end] => destruct o
           | context [if ?b then _ else _] => destruct b
           end;
           cbn [busy] in Hs
       end.
  all: try exact Hact.
  all: try (rewrite Hact; f_equal; f_equal; lia).
  - (* ++active_tasks_ *)
    rewrite Hact, size_t_incr_wrap. f_equal. lia.
  - (* --active_tasks_ *)
    rewrite Hact.
    match goal with
    | |- context [sum_list_with busy (<[?i := ?pc]> ?ws)] =>
        replace (N.of_nat (sum_list_with busy ws))
          with (N.of_nat (sum_list_with busy (<[i := pc]> ws)) + 1)%N by lia
    end.
    apply size_t_decr_wrap.
Qed.

Lemma reachable_active_counted n ls s :
  run ls (init n) = Some s -> active_counted s.
Proof.
  intros Hrun.
  assert (exec_inv s /\ active_counted s) as [_ H]; [|done].
  apply (run_invariant (fun s => exec_inv s /\ active_counted s))
    with (ls := ls) (s := init n); [|exact Hrun|].
  - intros l s1 s2 Hstep [H1 H2]. split.
    + by eapply step_exec_inv.
    + by eapply step_active_counted.
  - split; [apply init_exec_inv|].
    unfold active_counted, running. cbn.
    assert (forall m, sum_list_with busy (replicate m W_pop_local) = 0%nat) as ->
      by (induction m; cbn; auto).
    done.
Qed.

(** X13.  In every execution [active()] is the number of workers that are
    between [++active_tasks_] and [--active_tasks_], modulo 2^64; when the
    pool has fewer than 2^64 threads it is exactly that number, and at most
    [size()]. *)
Theorem active_counts_running_workers (n : nat) (ls : list Label) (s : State) :
  run ls (init n) = Some s ->
  Pool.active (the_pool s) = size_t_wrap (N.of_nat (running s)) /\
  (running s <= Pool.size (the_pool s))%nat /\
  ((N.of_nat (Pool.size (the_pool s)) < size_t_modulus)%N ->
   Pool.active (the_pool s) = N.of_nat (running s) /\
   (Pool.active (the_pool s) <= N.of_nat (Pool.size (the_pool s)))%N).
Proof.
  intros Hrun.
  pose proof (reachable_active_counted _ _ _ Hrun) as Hact.
  destruct (reachable_shape _ _ _ Hrun) as [_ Hw].
  assert (running s <= Pool.size (the_pool s))%nat as Hle.
  { unfold running, Pool.size, the_pool. unfold threads_of in Hw. rewrite <- Hw.
    apply busy_le. }
  unfold Pool.active. split; [exact Hact|]. split; [exact Hle|].
  intros Hlt. rewrite Hact. unfold size_t_wrap. rewrite N.mod_small by lia.
  split; [done|lia].
Qed.

Lemma active_counts_running_workers_witness :
  Pool.active (the_pool throwing_state) = 1%N /\
  running throwing_state = 1%nat.
Proof.
  destruct (active_counts_running_workers 2 throwing_run throwing_state)
    as (_ & _ & H); [vm_compute; reflexivity|].
  destruct H as [H _]; [vm_compute; reflexivity|].
  split; [rewrite H|]; reflexivity.
Defined.

End ActiveFacts.

(* ===================================================================== *)
(** ** What becomes of a task                                            *)
(* ===================================================================== *)

Module ConservationFacts.
Import StepFacts HeapFacts QueueFacts LocalQueueFacts ExecutionFacts.

Lemma call_task_unresolved s i task start o r :
  exec_inv s -> workers s !! i = Some (W_call task start) ->
  call_task task (packaged_tasks (memory (world s))) = Some (o, r) ->
  forall ptr,
    unresolved_at ptr (packaged_tasks (memory (world s)))
    = (holds ptr task + unresolved_at ptr r)%nat.
Proof.
  intros Hinv Hpc. unfold call_task.
  destruct (func_ task) as [[task_ptr]|] eqn:Hf.
  - assert (holds task_ptr task = 1%nat) as Hh
      by (unfold holds; rewrite Hf; by case_decide).
    pose proof (worker_owns s i _ task_ptr Hpc) as Hown. cbn [worker_holds] in Hown.
    destruct (inv_fresh _ Hinv task_ptr) as (pt & Hpt & Hun); [lia|].
    rewrite Hpt. unfold packaged_call. rewrite Hun. intros [= <- <-] ptr.
    unfold unresolved_at. destruct (decide (ptr = task_ptr)) as [->|Hne].
    + rewrite Hh, Hpt, list_lookup_insert_eq by (by eapply lookup_lt_Some).
      destruct pt as [f st]. cbn in *. subst st. by destruct f.
    + rewrite list_lookup_insert_ne by done.
      assert (holds ptr task = 0%nat) as ->; [|done].
      unfold holds. rewrite Hf. case_decide; [congruence|done].
  - intros [= <- <-] ptr. unfold holds. rewrite Hf. by case_decide.
Qed.

Lemma unresolved_at_new l f ptr :
  unresolved_at ptr (l ++ [mkPackaged f Unresolved])
  = (unresolved_at ptr l + if decide (ptr = length l) then 1 else 0)%nat.
Proof.
  unfold unresolved_at. case_decide as Hp.
  - subst ptr. rewrite lookup_app_r by done. rewrite Nat.sub_diag.
    rewrite (lookup_ge_None_2 l) by done. done.
  - destruct (decide (ptr < length l)%nat) as [Hlt|Hge].
    + rewrite lookup_app_l by done. lia.
    + rewrite (lookup_ge_None_2 l) by lia.
      rewrite lookup_app_r by lia.
      destruct (ptr - length l)%nat eqn:E; [lia|]. done.
Qed.

Lemma step_accounted l s s' :
  step l s = Some s' -> l <> Spawn CallShutdownNow ->
  exec_inv s -> no_cancel s -> accounted s ->
  no_cancel s' /\ accounted s'.
Proof.
  intros H Hl Hinv Hnc Hacc.
  pose proof (inv_heap _ Hinv) as Hheap.
  destruct (inv_local _ Hinv) as (Hd & _ & Hw).
  unfold no_cancel, accounted, owners, the_pool, deques_empty in *.
  step_cases H; deque_results Hd.
  all: try match goal with
       | Hpc : workers _ !! _ = Some _ |- _ =>
           let Hc := fresh "Hc" in
           pose proof (Forall_lookup_1 _ _ _ _ Hw Hpc) as Hc; cbn in Hc;
           try discriminate Hc
       end.
  all: try match goal with
       | Hpc : clients _ !! _ = Some _ |- _ =>
           let Hc := fresh "Hc" in
           pose proof (Forall_lookup_1 _ _ _ _ Hnc Hpc) as Hc; cbn in Hc;
           try discriminate Hc
       end.
  all: try match goal with
       | Hpc : workers _ !! _ = Some (W_call _ _), E : call_task _ _ = _ |- _ =>
           pose proof (call_task_unresolved _ _ _ _ _ _ Hinv Hpc E) as Hun;
           destruct (call_task_held _ _ _ _ _ _ Hinv Hpc E) as [-> _]
       end.
  all: state_simpl.
  all: split.
  all: try exact Hnc.
  all: try (apply Forall_insert; [exact Hnc|]; case_results; reflexivity).
  all: try exact Hacc.
  all: try (intros ptr; specialize (Hacc ptr);
       try match goal with
       | Hun : forall _ : nat, unresolved_at _ _ = _ |- _ => specialize (Hun ptr)
       end;
       try match goal with
       | Hpc : workers ?s !! ?i = Some _ |- context [<[?i := ?pc']> (workers ?s)] =>
           pose proof (sum_insert (worker_holds ptr) (workers s) i _ pc' Hpc)
       | Hpc : clients ?s !! ?j = Some _ |- context [<[?j := ?pc']> (clients ?s)] =>
           pose proof (sum_insert (client_holds ptr) (clients s) j _ pc' Hpc)
       end;
       try match goal with
       | E : TaskQueueM.try_pop _ = _ |- _ =>
           destruct (try_pop_owners ptr _ _ _ Hheap E) as [_ ?]
       | E : TaskQueueM.wait_pop _ _ = _ |- _ =>
           destruct (wait_pop_owners ptr _ _ _ _ Hheap E) as [_ ?]
       | |- context [TaskQueueM.push ?t ?q] =>
           destruct (push_owners ptr t q Hheap) as [_ ?]
       end;
       rewrite ?sum_list_with_app, ?unresolved_at_new;
       repeat match goal with
       | H' : context [match ?o with Some _ => _ | None => _ end] |- _ => destruct o
       | H' : context [if ?b then _ else _] |- _ => destruct b
       | c : Call |- _ => destruct c
       end;
       cbn [worker_holds client_holds call_entry sum_list_with queue_] in *;
       rewrite ?holds_make_task in *; lia).
  - (* a call starts *)
    apply Forall_app. split; [exact Hnc|]. constructor; [|done].
    by destruct c.
Qed.

Lemma run_accounted ls : forall s s',
  run ls s = Some s' -> cancel_free ls = true ->
  exec_inv s -> no_cancel s -> accounted s ->
  exec_inv s' /\ no_cancel s' /\ accounted s'.
Proof.
  induction ls as [|l ls IH]; intros s s' Hrun Hfree Hinv Hnc Hacc; cbn [run] in Hrun.
  - by injection Hrun as <-.
  - destruct (step l s) as [s1|] eqn:Hl; [|done].
    cbn [cancel_free forallb] in Hfree. apply andb_true_iff in Hfree as [Hl' Hfree].
    assert (l <> Spawn CallShutdownNow) as Hl'' by (by intros ->).
    destruct (step_accounted _ _ _ Hl Hl'' Hinv Hnc Hacc) as [Hnc1 Hacc1].
    apply (IH s1 s'); try done. by eapply step_exec_inv.
Qed.

(** X14.  In every execution without [shutdown_now()] and without the
    destructor, no task is lost and none is duplicated: a packaged task that has not run is held by
    exactly one task object, which is in the global queue, in the hands of
    the worker that is about to run it, or in those of the submitter that
    is about to push it; a packaged task that has run is held by none. *)
Theorem no_task_is_lost_without_cancel (n : nat) (ls : list Label) (s : State)
        (ptr : nat) (pt : PackagedTask) :
  run ls (init n) = Some s ->
  cancel_free ls = true ->
  packaged_tasks (memory (world s)) !! ptr = Some pt ->
  (shared_state pt = Unresolved -> owners ptr s = 1%nat) /\
  (shared_state pt <> Unresolved -> owners ptr s = 0%nat).
Proof.
  intros Hrun Hfree Hpt.
  destruct (run_accounted ls (init n) s Hrun Hfree) as (_ & _ & Hacc).
  - apply init_exec_inv.
  - unfold no_cancel. cbn. constructor.
  - intros p. pose proof (inv_once _ (init_exec_inv n) p) as H1.
    pose proof (inv_fresh _ (init_exec_inv n) p) as H2.
    unfold unresolved_at. cbn [init world memory packaged_tasks] in *.
    rewrite lookup_nil.
    destruct (owners p (init n)) as [|k] eqn:E; [done|].
    destruct H2 as (pt' & Hpt' & _); [lia|]. by rewrite lookup_nil in Hpt'.
  - specialize (Hacc ptr). unfold unresolved_at in Hacc. rewrite Hpt in Hacc.
    destruct pt as [f st]. cbn [shared_state]. split.
    + by intros ->.
    + intros Hne. by destruct st.
Qed.

Lemma no_task_is_lost_without_cancel_witness :
  owners 0 throwing_state = 1%nat.
Proof.
  destruct (no_task_is_lost_without_cancel 2 throwing_run throwing_state 0
              (mkPackaged (Throws (user_exception 3)) Unresolved)) as [H _].
  - vm_compute. reflexivity.
  - reflexivity.
  - reflexivity.
  - apply H. reflexivity.
Defined.

End ConservationFacts.

(* ===================================================================== *)
(** ** Round trips                                                       *)
(* ===================================================================== *)

Module RoundTripFacts.
Import StepFacts LocalQueueFacts SoloFacts.

Lemma pool_eta p :
  mkPool (num_threads_ p) (stop_ p) (active_tasks_ p) (global_queue_ p)
         (local_queues_ p) (stats_ p) = p.
Proof. by destruct p. Qed.

(** The loop of [pending()] over the local deques from index [i] on,
    alone: one step for each deque, and nothing changes. *)
Lemma pending_from_alone m : forall s j i count,
  clients s !! j = Some (Wt_pending_local i count) ->
  length (local_queues_ (the_pool s)) = threads_of s ->
  (i + m)%nat = threads_of s ->
  exists s',
    alone j m s = Some s' /\
    the_pool s' = the_pool s /\
    packaged_tasks (memory (world s')) = packaged_tasks (memory (world s)) /\
    now (world s') = now (world s) /\
    workers s' = workers s /\
    clients s' =
      <[j := Wt_pending_local (threads_of s)
               (foldl (fun count q => size_t_add count (N.of_nat (Deque.size q)))
                      count (drop i (local_queues_ (the_pool s))))]> (clients s).
Proof.
  induction m as [|m IH]; intros s j i count Hpc Hlen Him.
  - exists s. unfold alone. cbn [replicate run]. repeat split.
    rewrite drop_ge by lia. cbn [foldl].
    replace (threads_of s) with i by lia. by rewrite list_insert_id.
  - destruct (lookup_lt_is_Some_2 (local_queues_ (the_pool s)) i) as [d Hd]; [lia|].
    change (S m) with (1 + m)%nat. rewrite alone_add.
    unfold alone at 1. cbn [replicate run].
    erewrite step_client_at; [ | exact Hpc | ].
    2: { cbn [client_code].
         assert ((i <? threads_of s)%nat = true) as -> by (apply Nat.ltb_lt; lia).
         cbn [run_action perform]. unfold on_deque. unfold the_pool in Hd.
         rewrite Hd. reflexivity. }
    match goal with |- context [alone j m ?s1] =>
      destruct (IH s1 j (S i) (size_t_add count (N.of_nat (Deque.size d))))
        as (s' & Hk & Hp & Hpt & Hnow & Hw & Hc)
    end.
    + cbn [clients]. by eapply lookup_insert_self.
    + unfold the_pool, threads_of in *. cbn. by rewrite length_insert.
    + unfold the_pool, threads_of in *. cbn. lia.
    + exists s'. split; [exact Hk|].
      unfold the_pool, threads_of in *.
      cbn [world memory pool workers clients local_queues_ set_pool set_locals
           packaged_tasks now num_threads_] in *.
      rewrite Hp, Hpt, Hnow, Hw, Hc.
      rewrite list_insert_id by done. rewrite list_insert_insert_eq.
      split; [apply pool_eta|]. repeat split.
      by rewrite (drop_S _ _ _ Hd).
Qed.

(** One round of the loop of [wait()], alone: it reads the sizes of the
    queues, then the number of active tasks unless something is pending,
    and changes nothing. *)
Lemma wait_round_alone s j :
  clients s !! j = Some Wt_pending_global ->
  length (local_queues_ (the_pool s)) = threads_of s ->
  exists k s',
    alone j k s = Some s' /\
    the_pool s' = the_pool s /\
    packaged_tasks (memory (world s')) = packaged_tasks (memory (world s)) /\
    now (world s') = now (world s) /\
    workers s' = workers s /\
    clients s' =
      <[j := if Pool.wait_condition (the_pool s) then Wt_sleep else C_returned RVoid]>
        (clients s).
Proof.
  intros Hpc Hlen.
  assert (alone j 1 s =
    Some (mkState (world s) (workers s)
            (<[j := Wt_pending_local 0
                      (N.of_nat (TaskQueueM.size (global_queue_ (the_pool s))))]>
               (clients s)))) as H1.
  { unfold alone. cbn [replicate run].
    by rewrite (step_client_at j s _ _ _ Hpc eq_refl). }
  match type of H1 with _ = Some ?s1 =>
    destruct (pending_from_alone (threads_of s) s1 j 0
                (N.of_nat (TaskQueueM.size (global_queue_ (the_pool s)))))
      as (s2 & Hk & Hp & Hpt & Hnow & Hw & Hc)
  end.
  - cbn [clients]. by eapply lookup_insert_self.
  - exact Hlen.
  - done.
  - unfold the_pool, threads_of in Hp, Hpt, Hnow, Hw, Hc.
    cbn [world workers clients] in Hp, Hpt, Hnow, Hw, Hc.
    rewrite drop_0, list_insert_insert_eq in Hc.
    fold (the_pool s) in Hc. fold (Pool.pending (the_pool s)) in Hc.
    assert (clients s2 !! j
            = Some (Wt_pending_local (num_threads_ (pool (memory (world s))))
                                     (Pool.pending (the_pool s)))) as Hpc2.
    { rewrite Hc. by eapply lookup_insert_self. }
    assert (threads_of s2 = num_threads_ (pool (memory (world s)))) as Hn2
      by (unfold threads_of; by rewrite Hp).
    unfold Pool.wait_condition.
    destruct (0 <? Pool.pending (the_pool s))%N eqn:Hpend; cbn [orb].
    + exists (1 + threads_of s + 1)%nat. eexists.
      rewrite !alone_add, H1, Hk. split.
      * unfold alone. cbn [replicate run].
        erewrite step_client_at; [reflexivity | exact Hpc2 |].
        cbn [client_code]. rewrite Hn2, Nat.ltb_irrefl, Hpend. reflexivity.
      * cbn [world workers clients]. unfold the_pool.
        rewrite Hc, list_insert_insert_eq. done.
    + destruct (0 <? Pool.active (the_pool s))%N eqn:Hact.
      * exists (1 + threads_of s + 2)%nat. eexists.
        rewrite !alone_add, H1, Hk. split.
        -- unfold alone. cbn [replicate run].
           erewrite step_client_at; [ | exact Hpc2 |].
           2: { cbn [client_code]. rewrite Hn2, Nat.ltb_irrefl, Hpend. reflexivity. }
           erewrite step_client_at;
             [reflexivity | cbn [clients]; by eapply lookup_insert_self |].
           cbn [client_code run_action perform world].
           rewrite Hp. unfold Pool.active, the_pool in Hact. rewrite Hact. reflexivity.
        -- cbn [world workers clients]. unfold the_pool.
           rewrite Hc, !list_insert_insert_eq. done.
      * exists (1 + threads_of s + 2)%nat. eexists.
        rewrite !alone_add, H1, Hk. split.
        -- unfold alone. cbn [replicate run].
           erewrite step_client_at; [ | exact Hpc2 |].
           2: { cbn [client_code]. rewrite Hn2, Nat.ltb_irrefl, Hpend. reflexivity. }
           erewrite step_client_at;
             [reflexivity | cbn [clients]; by eapply lookup_insert_self |].
           cbn [client_code run_action perform world].
           rewrite Hp. unfold Pool.active, the_pool in Hact. rewrite Hact. reflexivity.
        -- cbn [world workers clients]. unfold the_pool.
           rewrite Hc, !list_insert_insert_eq. done.
Qed.

(** X15.  A round of the polling loop of [wait()] that no other thread
    interrupts decides by [pending() > 0 || active() > 0]: when nothing is
    pending and nothing is active [wait()] returns, otherwise it goes to
    sleep, from where it starts the next round; it changes nothing in the
    pool, and touches no future and no worker. *)
Theorem wait_round_decides_by_pending_and_active (n : nat) (ls : list Label)
        (s : State) (j : nat) :
  run ls (init n) = Some s ->
  clients s !! j = Some (call_entry CallWait) ->
  exists k s',
    alone j k s = Some s' /\
    the_pool s' = the_pool s /\
    packaged_tasks (memory (world s')) = packaged_tasks (memory (world s)) /\
    workers s' = workers s /\
    clients s' =
      <[j := if Pool.wait_condition (the_pool s) then Wt_sleep else C_returned RVoid]>
        (clients s) /\
    (Pool.wait_condition (the_pool s) = true ->
     step (StepClient j) s' =
       Some (mkState (world s') (workers s') (<[j := Wt_pending_global]> (clients s')))).
Proof.
  intros Hrun Hpc.
  pose proof (reachable_deques_counted _ _ _ Hrun) as Hlen.
  destruct (wait_round_alone s j Hpc Hlen) as (k & s' & Hk & Hp & Hpt & _ & Hw & Hc).
  exists k, s'. repeat split; try done.
  intros Hcond. rewrite Hcond in Hc.
  rewrite (step_client_at j s' Wt_sleep Wt_pending_global (world s'));
    [done | rewrite Hc; by eapply lookup_insert_self | reflexivity].
Qed.

Lemma wait_round_decides_by_pending_and_active_witness :
  exists k s',
    alone 1 k waiting_state = Some s' /\
    clients s' !! 1%nat = Some Wt_sleep.
Proof.
  destruct (wait_round_decides_by_pending_and_active 2 waiting_run waiting_state 1)
    as (k & s' & Hk & _ & _ & _ & Hc & _);
    [vm_compute; reflexivity | reflexivity |].
  exists k, s'. split; [exact Hk|]. rewrite Hc. reflexivity.
Defined.

(** One step of a worker, spelt out. *)
Lemma step_worker_at i s pc pc' w' :
  workers s !! i = Some pc ->
  run_action (worker_loop (threads_of s) i pc) s = Some (pc', w') ->
  step (StepWorker i) s = Some (mkState w' (<[i := pc']> (workers s)) (clients s)).
Proof. intros Hpc Hact. cbn [step]. by rewrite Hpc, Hact. Qed.

Lemma size_t_decr_incr a : size_t_decr (size_t_incr a) = size_t_wrap a.
Proof.
  unfold size_t_decr, size_t_incr, size_t_add, size_t_wrap, size_t_modulus.
  rewrite N.Div0.add_mod_idemp_l.
  replace (a + 1 + (2 ^ 64 - 1))%N with (a + 1 * 2 ^ 64)%N by lia.
  by rewrite N.Div0.mod_add.
Qed.

(** X16.  Submit, then run: on a running pool whose global queue is empty,
    a submission followed by one iteration of a worker that is at the top
    of its loop, with no other thread in between, gives the caller a
    future, has the worker take the task from the global queue and call it,
    and leaves the value or the exception of the callable in the future;
    the worker is back at the top of its loop, the queue is empty again,
    both counters have been incremented and [active_tasks_] is back at its
    value. *)
Theorem submitted_task_is_executed (s : State) (j i : nat) (priority : Z) (f : Outcome) :
  clients s !! j = Some (call_entry (CallSubmitPriority priority f)) ->
  stop_ (the_pool s) = false ->
  workers s !! i = Some W_pop_local ->
  queue_ (global_queue_ (the_pool s)) = [] ->
  local_queues_ (the_pool s) !! i = Some (mkDeque []) ->
  exists s',
    run (replicate 5 (StepClient j) ++ replicate 11 (StepWorker i)) s = Some s' /\
    clients s' !! j
      = Some (C_returned (RFuture (length (packaged_tasks (memory (world s)))))) /\
    packaged_tasks (memory (world s'))
      = packaged_tasks (memory (world s)) ++ [mkPackaged f (resolved_as f)] /\
    future_get (mkPackaged f (resolved_as f)) = Some (result_of f) /\
    workers s' !! i = Some W_pop_local /\
    queue_ (global_queue_ (the_pool s')) = [] /\
    total_tasks_submitted (stats_ (the_pool s'))
      = size_t_incr (total_tasks_submitted (stats_ (the_pool s))) /\
    total_tasks_completed (stats_ (the_pool s'))
      = size_t_incr (total_tasks_completed (stats_ (the_pool s))) /\
    active_tasks_ (the_pool s') = size_t_wrap (active_tasks_ (the_pool s)).
Proof.
  intros Hpc Hstop Hw Hq Hd.
  assert (i < length (workers s))%nat as Hi by by eapply lookup_lt_Some.
  rewrite run_app. fold (alone j 5 s). rewrite (submit_alone s j priority f Hpc Hstop).
  unfold Pool.submit_priority, the_pool in *. rewrite Hstop. cbn [snd].
  destruct s as [[[p l] t] ws cs].
  destruct p as [n st a [q] locals stats].
  cbn [world memory pool workers clients stop_ global_queue_ queue_ local_queues_
       packaged_tasks] in *.
  subst st q.
  assert (forall pc, <[i := pc]> ws !! i = Some pc) as Hins
    by (intros pc; by apply list_lookup_insert_eq).
  assert (TaskQueueM.push (Pool.make_task (length l) priority) (mkTaskQueue [])
          = mkTaskQueue [Pool.make_task (length l) priority]) as -> by reflexivity.
  unfold set_stats, set_global, set_submitted.
  cbn [num_threads_ stop_ active_tasks_ global_queue_ local_queues_ stats_
       total_tasks_submitted total_tasks_completed total_tasks_stolen
       total_execution_time].
  cbn [replicate run].
  do 4 (erewrite step_worker_at;
        [ | first [exact Hw | cbn [workers]; apply Hins]
          | cbn [worker_loop run_action perform]; unfold on_deque;
            cbn [world memory pool local_queues_ global_queue_];
            rewrite ?Hd; unfold set_pool, set_locals, set_active; cbn;
            reflexivity ];
        cbn [workers clients world]; rewrite ?list_insert_insert_eq).
  erewrite step_worker_at; [ | cbn [workers]; apply Hins | ].
  2: { cbn [worker_loop run_action perform world memory packaged_tasks].
       unfold call_task, Pool.make_task. cbn [func_].
       rewrite lookup_app_r by done. rewrite Nat.sub_diag. cbn [lookup list_lookup].
       cbn [packaged_call shared_state callable]. reflexivity. }
  cbn [workers clients world]; rewrite ?list_insert_insert_eq.
  do 6 (erewrite step_worker_at;
        [ | cbn [workers]; apply Hins | cbn; reflexivity ];
        cbn [workers clients world]; rewrite ?list_insert_insert_eq).
  eexists. split; [reflexivity|].
  cbn [world memory pool workers clients stop_ global_queue_ queue_ local_queues_
       packaged_tasks stats_ active_tasks_ set_pool set_packaged set_stats set_global
       set_active set_submitted set_completed set_execution_time
       total_tasks_submitted total_tasks_completed].
  split; [by eapply lookup_insert_self|].
  split.
  { rewrite insert_app_r_alt by done. rewrite Nat.sub_diag. done. }
  split; [by destruct f|]. split; [apply Hins|]. split; [done|].
  split; [done|]. split; [done|]. apply size_t_decr_incr.
Qed.

Lemma submitted_task_is_executed_witness :
  exists s',
    run ([Spawn (CallSubmitPriority 2 (Throws (user_exception 1)))]
         ++ replicate 5 (StepClient 0) ++ replicate 11 (StepWorker 1)) (init 2)
      = Some s' /\
    packaged_tasks (memory (world s'))
      = [mkPackaged (Throws (user_exception 1)) (Failure (user_exception 1))] /\
    workers s' !! 1%nat = Some W_pop_local.
Proof.
  destruct (submitted_task_is_executed
              (mkState (world (init 2)) (workers (init 2))
                       [call_entry (CallSubmitPriority 2 (Throws (user_exception 1)))])
              0 1 2 (Throws (user_exception 1)))
    as (s' & Hrun & _ & Hpt & _ & Hw & _); try reflexivity.
  exists s'. split; [exact Hrun|]. split; [exact Hpt|exact Hw].
Defined.


End RoundTripFacts.

(* ===================================================================== *)
(** ** parallel_for and parallel_map                                     *)
(* ===================================================================== *)

Module UtilityFacts.
Import StepFacts FutureFacts HistoryFacts.

Lemma drun_invariant {PC : Type} (code : PC -> State -> option (PC * World))
      (P : Driven PC -> Prop) :
  (forall l u u', dstep code l u = Some u' -> P u -> P u') ->
  forall ls u u', drun code ls u = Some u' -> P u -> P u'.
Proof.
  intros Hstep. induction ls as [|l ls IH]; intros u u' Hrun Hu; cbn [drun] in Hrun.
  - by injection Hrun as <-.
  - destruct (dstep code l u) as [u1|] eqn:Hl; [|discriminate].
    eapply IH; eauto.
Qed.

(** A step of a call made by the driver is the step a caller of the
    pool's side would take. *)
Lemma client_action_as_step n pc s pc' w' :
  n = threads_of s ->
  run_action (client_code n pc) s = Some (pc', w') ->
  step (StepClient (length (clients s)))
       (mkState (world s) (workers s) (clients s ++ [pc]))
  = Some (mkState w' (workers s) (clients s ++ [pc'])).
Proof.
  intros -> Hact. cbn [step clients].
  rewrite lookup_app_r by done. rewrite Nat.sub_diag. cbn [lookup list_lookup].
  assert (run_action (client_code (threads_of (mkState (world s) (workers s)
                                                (clients s ++ [pc]))) pc)
                     (mkState (world s) (workers s) (clients s ++ [pc]))
          = Some (pc', w')) as ->.
  { rewrite <- Hact. unfold threads_of. cbn [world].
    by destruct (client_code _ pc). }
  cbn [world workers clients].
  rewrite insert_app_r_alt by done. by rewrite Nat.sub_diag.
Qed.

Lemma client_action_kept n pc s pc' w' :
  n = threads_of s ->
  run_action (client_code n pc) s = Some (pc', w') ->
  futures_kept (packaged_tasks (memory (world s))) (packaged_tasks (memory w')) /\
  (Forall faithful (packaged_tasks (memory (world s))) ->
   Forall faithful (packaged_tasks (memory w'))) /\
  (stop_ (the_pool s) = true -> stop_ (pool (memory w')) = true).
Proof.
  intros Hn Hact. pose proof (client_action_as_step _ _ _ _ _ Hn Hact) as Hstep.
  split; [|split].
  - apply (step_futures_kept _ _ _ Hstep).
  - apply (step_faithful _ _ _ Hstep).
  - apply (step_stop_mono _ _ _ Hstep).
Qed.

Lemma holds_callables_kept fs futures l l' :
  futures_kept l l' -> holds_callables fs futures l -> holds_callables fs futures l'.
Proof.
  intros Hk H0. eapply Forall2_impl; [exact H0|]. cbv beta. intros f ptr H.
  destruct (l !! ptr) as [pt|] eqn:Hpt; [|done].
  destruct (Hk ptr pt Hpt) as (pt' & -> & Hc & _). cbn in *. congruence.
Qed.

Lemma ready_upto_kept k futures l l' :
  futures_kept l l' -> ready_upto k futures l -> ready_upto k futures l'.
Proof.
  intros Hk Hr k' ptr Hlt Hf. destruct (Hr k' ptr Hlt Hf) as (pt & Hpt & Hne).
  destruct (Hk ptr pt Hpt) as (pt' & Hpt' & _ & [Hs|[Hs _]]); [|done].
  exists pt'. split; [done|]. congruence.
Qed.

Lemma holds_callables_snoc fs futures l f ptr :
  holds_callables fs futures l -> callable <$> l !! ptr = Some f ->
  holds_callables (fs ++ [f]) (futures ++ [ptr]) l.
Proof. intros H1 H2. apply Forall2_app; [done|]. by constructor. Qed.

Lemma N_seq_snoc start len :
  N_seq start (S len) = N_seq start len ++ [(start + N.of_nat len)%N].
Proof.
  revert start. induction len as [|len IH]; intros start.
  - cbn. by rewrite N.add_0_r.
  - change (N_seq start (S (S len))) with (start :: N_seq (start + 1) (S len)).
    rewrite IH. cbn [N_seq app]. do 3 f_equal. lia.
Qed.

Lemma N_seq_lookup start len k :
  (k < len)%nat -> N_seq start len !! k = Some (start + N.of_nat k)%N.
Proof.
  revert start k. induction len as [|len IH]; intros start [|k] Hk; try lia.
  - cbn. by rewrite N.add_0_r.
  - cbn [N_seq lookup list_lookup]. rewrite IH by lia. f_equal. lia.
Qed.

Lemma length_N_seq start len : length (N_seq start len) = len.
Proof. revert start. induction len as [|len IH]; intros start; cbn; auto. Qed.

Lemma holds_callables_lt fs futures l :
  holds_callables fs futures l -> Forall (fun ptr => (ptr < length l)%nat) futures.
Proof.
  induction 1 as [|f ptr fs futures H _ IH]; constructor; [|done].
  destruct (l !! ptr) eqn:E; [by eapply lookup_lt_Some|done].
Qed.

Lemma thrown_justified_kept pc s s' :
  (stop_ (the_pool s) = true -> stop_ (the_pool s') = true) ->
  thrown_justified pc s -> thrown_justified pc s'.
Proof. intros Hs. destruct pc as [| | | | | | | | | | | | | | | | | |[]]; cbn; tauto. Qed.

(** What a step of a submission made by the driver keeps. *)
Lemma submit_continues s c futures fs pc pc' w' :
  run_action (client_code (threads_of s) pc) s = Some (pc', w') ->
  tracks c pc (packaged_tasks (memory (world s))) ->
  futures_fresh futures pc ->
  holds_callables fs futures (packaged_tasks (memory (world s))) ->
  futures_fresh futures pc' /\
  holds_callables fs futures (packaged_tasks (memory w')) /\
  tracks c pc' (packaged_tasks (memory w')) /\
  thrown_justified pc' (mkState w' (workers s) (clients s)).
Proof.
  intros Hact Htr [Hnd Hfr] Hh.
  destruct (client_step_tracks _ _ _ _ _ c Hact Htr) as [Htr' Hfut].
  destruct (client_action_kept _ _ _ _ _ eq_refl Hact) as (Hk & _ & _).
  split; [split; [done|]|split; [|split]].
  - intros ptr Hp. destruct Hfut as [Hfut|[Hfut|Hfut]]; rewrite Hfut in Hp.
    + by apply Hfr.
    + done.
    + injection Hp as <-. intros Hin.
      pose proof (holds_callables_lt _ _ _ Hh) as Hlt.
      rewrite Forall_forall in Hlt. specialize (Hlt _ Hin). lia.
  - by eapply holds_callables_kept.
  - done.
  - destruct pc' as [| | | | | | | | | | | | | | | | | |[]]; cbn; try done.
    apply client_throws in Hact as (-> & Hs & -> & _). done.
Qed.

(** The steps of the pool's side keep what [parallel_for] relies on. *)
Lemma for_inv_pool_step max_size start end_ func pc l s s' :
  step l s = Some s' ->
  for_inv max_size start end_ func pc s -> for_inv max_size start end_ func pc s'.
Proof.
  intros Hstep. pose proof (step_futures_kept _ _ _ Hstep) as Hk.
  pose proof (step_stop_mono _ _ _ Hstep) as Hs.
  destruct pc as [|i futures|i futures pc|k futures|[|e|]]; cbn [for_inv]; cbv zeta;
    try done.
  - intros (H1 & H2 & H3 & H4). repeat split; try done.
    by eapply holds_callables_kept.
  - intros (H1 & H2 & H3 & H4 & H5 & H6). repeat split; try done; try apply H3.
    + by eapply holds_callables_kept.
    + by eapply tracks_kept.
    + by eapply thrown_justified_kept.
  - intros (H1 & H2 & H3 & H4). repeat split; try done.
    + by eapply holds_callables_kept.
    + by eapply ready_upto_kept.
  - intros (futures & H1 & H2 & H3 & H4). exists futures. repeat split; try done.
    + by eapply holds_callables_kept.
    + by eapply ready_upto_kept.
  - intros [H1 H2]. auto.
Qed.

(** The steps of [parallel_for] keep it too. *)
Lemma for_inv_driver_step max_size start end_ func pc s pc' w' :
  (end_ < size_t_modulus)%N ->
  for_code max_size start end_ func pc s = Some (pc', w') ->
  for_inv max_size start end_ func pc s ->
  for_inv max_size start end_ func pc' (mkState w' (workers s) (clients s)).
Proof.
  intros Hend Hcode Hinv.
  destruct pc as [|i futures|i futures pc|k futures|r]; cbn [for_code] in Hcode.
  - destruct (max_size <? size_t_sub end_ start)%N eqn:E; injection Hcode as <- <-;
      cbn [for_inv]; cbv zeta.
    + by apply N.ltb_lt.
    + cbn [length N_seq map]. repeat split; try done.
      * lia.
      * constructor.
      * constructor.
  - destruct Hinv as (Hi & Hle & Hnd & Hh).
    destruct (i <? end_)%N eqn:E; injection Hcode as <- <-; cbn [for_inv]; cbv zeta;
      cbn [world].
    + apply N.ltb_lt in E. repeat split; try done.
    + apply N.ltb_ge in E. repeat split; try done.
      * destruct futures as [|p futures]; [cbn in *; lia|].
        assert (i <= end_)%N by (by apply Hle). lia.
      * intros k' ptr Hk'. lia.
  - destruct Hinv as (Hi & Hlt & Hfr & Hh & Htr & Hth).
    unfold submit_step in Hcode.
    assert (forall pc1 w1,
              run_action (client_code (threads_of s) pc) s = Some (pc1, w1) ->
              for_inv max_size start end_ func (PF_submit i futures pc1)
                      (mkState w1 (workers s) (clients s))) as Hgo.
    { intros pc1 w1 Hact.
      destruct (submit_continues _ _ _ _ _ _ _ Hact Htr Hfr Hh) as (H1 & H2 & H3 & H4).
      cbn [for_inv]. cbv zeta. cbn [world]. repeat split; try done; apply H1. }
    destruct pc as [| | | | | | | | | | | | | | | | | |[|ptr|e]];
      try (destruct (run_action _ s) as [[pc1 w1]|] eqn:Hact; [|discriminate];
           injection Hcode as <- <-; by apply Hgo).
    + discriminate.
    + injection Hcode as <- <-. cbn [for_inv]. cbv zeta. cbn [world].
      destruct Htr as (p & f & Hsub & Hcall). injection Hsub as _ <-.
      destruct Hfr as [Hnd Hfr].
      assert (size_t_incr i = (i + 1)%N) as ->.
      { unfold size_t_incr, size_t_add, size_t_wrap. apply N.mod_small. lia. }
      rewrite length_app. cbn [length]. repeat split.
      * lia.
      * intros _. lia.
      * apply NoDup_app. split; [done|]. split; [|apply NoDup_singleton].
        intros x Hx ->%list_elem_of_singleton. by apply (Hfr ptr).
      * rewrite Nat.add_1_r, N_seq_snoc, map_app. cbn [map].
        apply holds_callables_snoc; [done|]. by rewrite <- Hi.
    + injection Hcode as <- <-. cbn [for_inv]. exact Hth.
  - destruct Hinv as (Hlen & Hnd & Hh & Hr).
    destruct (futures !! k) as [ptr|] eqn:Hk.
    + destruct (packaged_tasks (memory (world s)) !! ptr) as [pt|] eqn:Hpt;
        [|discriminate].
      destruct (future_wait_for pt) eqn:Hready; [|discriminate].
      injection Hcode as <- <-. cbn [for_inv]. cbv zeta. cbn [world].
      repeat split; try done.
      intros k' ptr' Hk' Hf'. destruct (decide (k' = k)) as [->|Hne].
      * rewrite Hk in Hf'. injection Hf' as <-. exists pt. split; [done|].
        unfold future_wait_for in Hready. by destruct (shared_state pt).
      * apply (Hr k' ptr'); [lia|done].
    + injection Hcode as <- <-. cbn [for_inv]. cbv zeta. cbn [world].
      exists futures. repeat split; try done.
      intros k' ptr' Hk' Hf'. apply (Hr k' ptr'); [|done].
      apply lookup_ge_None in Hk. lia.
  - discriminate.
Qed.

Lemma all_ran_intro fs futures l :
  NoDup futures -> holds_callables fs futures l ->
  ready_upto (length futures) futures l -> Forall faithful l ->
  all_ran fs futures l.
Proof.
  intros Hnd Hh Hr Hf. split; [done|].
  apply Forall2_same_length_lookup in Hh as [Hlen Hh].
  apply Forall2_same_length_lookup. split; [done|].
  intros k f ptr Hk1 Hk2. specialize (Hh k f ptr Hk1 Hk2).
  destruct (Hr k ptr) as (pt & Hpt & Hne); [by eapply lookup_lt_Some|done|].
  rewrite Hpt in Hh. injection Hh as Hc.
  exists pt. repeat split; try done.
  destruct (Forall_lookup_1 _ _ _ _ Hf Hpt) as [Hs|Hs]; [done|]. by rewrite Hs, Hc.
Qed.

(** A step of the driver leaves the memory as it is or is a step of a
    submission. *)
Lemma submit_step_faithful {PC : Type} s pc (k : ClientPC -> PC) r t pc' w' :
  submit_step s pc k r t = Some (pc', w') ->
  Forall faithful (packaged_tasks (memory (world s))) ->
  Forall faithful (packaged_tasks (memory w')).
Proof.
  unfold submit_step. intros H Hf.
  destruct pc as [| | | | | | | | | | | | | | | | | |[|ptr|e]];
    try (destruct (run_action _ s) as [[pc1 w1]|] eqn:Hact; [|discriminate];
         injection H as _ <-;
         by apply (client_action_kept _ _ _ _ _ eq_refl Hact)).
  - discriminate.
  - by injection H as _ <-.
  - by injection H as _ <-.
Qed.

Lemma for_code_faithful max_size start end_ func pc s pc' w' :
  for_code max_size start end_ func pc s = Some (pc', w') ->
  Forall faithful (packaged_tasks (memory (world s))) ->
  Forall faithful (packaged_tasks (memory w')).
Proof.
  intros H Hf. destruct pc as [|i futures|i futures pc|k futures|r]; cbn [for_code] in H.
  - destruct (_ <? _)%N; by injection H as _ <-.
  - destruct (_ <? _)%N; by injection H as _ <-.
  - by eapply submit_step_faithful.
  - destruct (futures !! k); [|by injection H as _ <-].
    destruct (_ !! _) as [pt|]; [|discriminate].
    destruct (future_wait_for pt); [|discriminate]. by injection H as _ <-.
  - discriminate.
Qed.

(** X17.  [parallel_for] returns only when every iteration has run: in
    every execution without [shutdown_now()] and without the destructor,
    once [parallel_for(pool, start, end, func)] has returned, each index of
    [start, end) has a packaged task of its own that holds the value or the
    exception of [func] at that index; an exception thrown by [func] does
    not leave [parallel_for].  The only exceptions that leave it are the
    rejection of [submit], the stop flag being set then, and the
    [length_error] of [reserve]. *)
Theorem parallel_for_waits_for_every_body (n : nat) (max_size start end_ : N)
        (func : N -> Outcome) (ls : list DLabel) (u : Driven ForPC) (r : ForResult) :
  (start < size_t_modulus)%N -> (end_ < size_t_modulus)%N ->
  driven_cancel_free ls = true ->
  drun (for_code max_size start end_ func) ls (mkDriven (init n) PF_reserve) = Some u ->
  driver u = PF_returned r ->
  match r with
  | FVoid =>
      exists futures,
        all_ran (map func (N_seq start (N.to_nat (end_ - start)))) futures
                (packaged_tasks (memory (world (pool_side u))))
  | FThrow e => e = Pool.rejected /\ stop_ (the_pool (pool_side u)) = true
  | FLengthError => (max_size < size_t_sub end_ start)%N
  end.
Proof.
  intros _ Hend _ Hrun Hr.
  assert (Forall faithful (packaged_tasks (memory (world (pool_side u)))) /\
          for_inv max_size start end_ func (driver u) (pool_side u)) as [Hf Hinv].
  { apply (drun_invariant (for_code max_size start end_ func)
             (fun u => Forall faithful (packaged_tasks (memory (world (pool_side u)))) /\
                       for_inv max_size start end_ func (driver u) (pool_side u)))
      with (ls := ls) (u := mkDriven (init n) PF_reserve); [|exact Hrun|].
    - intros l u1 u2 Hstep [H1 H2]. destruct l as [l|]; cbn [dstep] in Hstep.
      + destruct (step l (pool_side u1)) as [s'|] eqn:Hl; [|discriminate].
        injection Hstep as <-. cbn [pool_side driver]. split.
        * by eapply step_faithful.
        * by eapply for_inv_pool_step.
      + destruct (for_code _ _ _ _ _ _) as [[pc' w']|] eqn:Hc; [|discriminate].
        injection Hstep as <-. cbn [pool_side driver world]. split.
        * by eapply for_code_faithful.
        * eapply for_inv_driver_step; eauto.
    - split; [constructor|done]. }
  rewrite Hr in Hinv. destruct r as [|e|]; cbn [for_inv] in Hinv; try done.
  destruct Hinv as (futures & Hlen & Hnd & Hh & Hready).
  exists futures. rewrite <- Hlen. by apply all_ran_intro.
Qed.

Lemma parallel_for_waits_for_every_body_witness :
  exists futures,
    all_ran [Throws (user_exception 0)] futures
            (packaged_tasks (memory (world (pool_side for_state)))).
Proof.
  apply (parallel_for_waits_for_every_body 1 1000 0 1
           (fun i => Throws (user_exception (N.to_nat i))) for_run for_state FVoid);
    [reflexivity | reflexivity | reflexivity | vm_compute; reflexivity | reflexivity].
Defined.

Lemma all_ran_kept fs futures l l' :
  futures_kept l l' -> all_ran fs futures l -> all_ran fs futures l'.
Proof.
  intros Hk [Hnd Hall]. split; [done|].
  eapply Forall2_impl; [exact Hall|]. cbv beta.
  intros f ptr (pt & Hpt & Hc & Hs).
  destruct (Hk ptr pt Hpt) as (pt' & Hpt' & Hc' & [Hs'|[Hs' _]]).
  - exists pt'. repeat split; congruence.
  - rewrite Hs in Hs'. by destruct f.
Qed.

(** The steps of the pool's side keep what [parallel_map] relies on. *)
Lemma map_inv_pool_step max_futures max_results input func pc l s s' :
  step l s = Some s' ->
  map_inv max_futures max_results input func pc s ->
  map_inv max_futures max_results input func pc s'.
Proof.
  intros Hstep. pose proof (step_futures_kept _ _ _ Hstep) as Hk.
  pose proof (step_stop_mono _ _ _ Hstep) as Hs.
  destruct pc as [|rest futures|rest futures pc|futures|k futures results|[results|e|]];
    cbn [map_inv]; cbv zeta; try done.
  - intros (done & H1 & H2 & H3). exists done. repeat split; try done.
    by eapply holds_callables_kept.
  - intros (done & item & H1 & H2 & H3 & H4 & H5). exists done, item.
    repeat split; try done; try apply H2.
    + by eapply holds_callables_kept.
    + by eapply tracks_kept.
    + by eapply thrown_justified_kept.
  - intros [H1 H2]. split; [done|]. by eapply holds_callables_kept.
  - intros (H1 & H2 & H3 & H4 & H5). repeat split; try done.
    + by eapply holds_callables_kept.
    + by eapply ready_upto_kept.
  - intros (H1 & futures & H2). split; [done|]. exists futures.
    by eapply all_ran_kept.
  - intros [[H1 H2]|H]; [left|right]; auto.
Qed.

(** The steps of [parallel_map] keep it too. *)
Lemma map_inv_driver_step max_futures max_results input func pc s pc' w' :
  Forall faithful (packaged_tasks (memory (world s))) ->
  map_code max_futures max_results input func pc s = Some (pc', w') ->
  map_inv max_futures max_results input func pc s ->
  map_inv max_futures max_results input func pc' (mkState w' (workers s) (clients s)).
Proof.
  intros Hfaith Hcode Hinv.
  destruct pc as [|rest futures|rest futures pc|futures|k futures results|r];
    cbn [map_code] in Hcode.
  - destruct (max_futures <? N.of_nat (length input))%N eqn:E;
      injection Hcode as <- <-; cbn [map_inv]; cbv zeta.
    + left. by apply N.ltb_lt.
    + exists []. repeat split; constructor.
  - destruct Hinv as (done & Hin & Hnd & Hh).
    destruct rest as [|item rest]; injection Hcode as <- <-; cbn [map_inv]; cbv zeta;
      cbn [world].
    + rewrite app_nil_r in Hin. by subst done.
    + exists done, item. repeat split; try done.
  - destruct Hinv as (done & item & Hin & Hfr & Hh & Htr & Hth).
    unfold submit_step in Hcode.
    assert (forall pc1 w1,
              run_action (client_code (threads_of s) pc) s = Some (pc1, w1) ->
              map_inv max_futures max_results input func (PM_submit rest futures pc1)
                      (mkState w1 (workers s) (clients s))) as Hgo.
    { intros pc1 w1 Hact.
      destruct (submit_continues _ _ _ _ _ _ _ Hact Htr Hfr Hh) as (H1 & H2 & H3 & H4).
      cbn [map_inv]. cbv zeta. cbn [world]. exists done, item.
      repeat split; try done; apply H1. }
    destruct pc as [| | | | | | | | | | | | | | | | | |[|ptr|e]];
      try (destruct (run_action _ s) as [[pc1 w1]|] eqn:Hact; [|discriminate];
           injection Hcode as <- <-; by apply Hgo).
    + discriminate.
    + injection Hcode as <- <-. cbn [map_inv]. cbv zeta. cbn [world].
      destruct Htr as (p & f & Hsub & Hcall). injection Hsub as _ <-.
      destruct Hfr as [Hnd Hfr].
      exists (done ++ [item]). repeat split.
      * by rewrite <- (assoc_L (++)).
      * apply NoDup_app. split; [done|]. split; [|apply NoDup_singleton].
        intros x Hx ->%list_elem_of_singleton. by apply (Hfr ptr).
      * rewrite map_app. cbn [map]. by apply holds_callables_snoc.
    + injection Hcode as <- <-. cbn [map_inv]. by left.
  - destruct Hinv as [Hnd Hh].
    assert (length futures = length input) as Hlen.
    { apply Forall2_length in Hh. by rewrite length_map in Hh. }
    destruct (max_results <? N.of_nat (length futures))%N eqn:E;
      injection Hcode as <- <-; cbn [map_inv]; cbv zeta; cbn [world].
    + right. apply N.ltb_lt in E. lia.
    + repeat split; try done. intros k' ptr Hk'. lia.
  - destruct Hinv as (Hnd & Hh & Hres & Hready & Hvals).
    assert (length futures = length input) as Hlen.
    { pose proof (Forall2_length _ _ _ Hh) as H. by rewrite length_map in H. }
    destruct (futures !! k) as [ptr|] eqn:Hk.
    + destruct (packaged_tasks (memory (world s)) !! ptr) as [pt|] eqn:Hpt;
        [|discriminate].
      assert (exists x, input !! k = Some x) as [x Hx].
      { apply lookup_lt_is_Some. rewrite <- Hlen. by eapply lookup_lt_Some. }
      assert (callable pt = func x) as Hc.
      { apply Forall2_same_length_lookup in Hh as [_ Hh].
        specialize (Hh k (func x) ptr). rewrite list_lookup_fmap, Hx in Hh.
        specialize (Hh eq_refl Hk). rewrite Hpt in Hh. by injection Hh. }
      pose proof (Forall_lookup_1 _ _ _ _ Hfaith Hpt) as Hfa.
      unfold future_get in Hcode.
      destruct (shared_state pt) as [|v|e] eqn:Hs; [discriminate| |];
        injection Hcode as <- <-; cbn [map_inv]; cbv zeta; cbn [world].
      * destruct Hfa as [Hfa|Hfa]; [congruence|].
        rewrite Hs, Hc in Hfa. destruct (func x) as [v'|] eqn:Hfx; [|done].
        injection Hfa as <-.
        repeat split; try done.
        -- rewrite length_app. cbn. lia.
        -- intros k' ptr' Hk' Hf'. destruct (decide (k' = k)) as [->|Hne].
           ++ rewrite Hk in Hf'. injection Hf' as <-. exists pt. split; [done|].
              by rewrite Hs.
           ++ apply (Hready k' ptr'); [lia|done].
        -- rewrite (take_S_r _ _ _ Hx). apply Forall2_app; [done|]. by constructor.
      * destruct Hfa as [Hfa|Hfa]; [congruence|].
        rewrite Hs, Hc in Hfa. destruct (func x) as [|e'] eqn:Hfx; [done|].
        injection Hfa as <-.
        right. exists k, x. repeat split; try done.
        clear -Hvals. induction Hvals; constructor; eauto.
    + injection Hcode as <- <-. cbn [map_inv]. cbv zeta. cbn [world].
      apply lookup_ge_None in Hk.
      rewrite take_ge in Hvals by lia. split; [done|].
      exists futures. apply all_ran_intro; try done.
      intros k' ptr' Hk' Hf'. apply (Hready k' ptr'); [lia|done].
  - discriminate.
Qed.

Lemma map_code_faithful max_futures max_results input func pc s pc' w' :
  map_code max_futures max_results input func pc s = Some (pc', w') ->
  Forall faithful (packaged_tasks (memory (world s))) ->
  Forall faithful (packaged_tasks (memory w')).
Proof.
  intros H Hf.
  destruct pc as [|rest futures|rest futures pc|futures|k futures results|r];
    cbn [map_code] in H.
  - destruct (_ <? _)%N; by injection H as _ <-.
  - destruct rest; by injection H as _ <-.
  - by eapply submit_step_faithful.
  - destruct (_ <? _)%N; by injection H as _ <-.
  - destruct (futures !! k); [|by injection H as _ <-].
    destruct (_ !! _) as [pt|]; [|discriminate].
    destruct (future_get pt) as [[v|e]|]; [| |discriminate]; by injection H as _ <-.
  - discriminate.
Qed.

(** X18.  [parallel_map] gives the results in the order of the input: in
    every execution without [shutdown_now()] and without the destructor,
    when [parallel_map(pool, input, func)] has returned a vector, it holds
    the value of [func] at each item of [input], in order, and each item
    has a packaged task of its own, which has run; when an exception leaves
    it, it is the rejection of [submit], the stop flag being set, or what
    [func] throws at the first item of [input] at which it throws, or the
    [length_error] of a [reserve]. *)
Theorem parallel_map_returns_results_in_order (n : nat) (max_futures max_results : N)
        (input : list Z) (func : Z -> Outcome) (ls : list DLabel)
        (u : Driven MapPC) (r : MapResult) :
  driven_cancel_free ls = true ->
  drun (map_code max_futures max_results input func) ls
       (mkDriven (init n) PM_reserve) = Some u ->
  driver u = PM_returned r ->
  match r with
  | MValues results =>
      Forall2 (fun x v => func x = Returns v) input results /\
      exists futures,
        all_ran (map func input) futures (packaged_tasks (memory (world (pool_side u))))
  | MThrow e =>
      (e = Pool.rejected /\ stop_ (the_pool (pool_side u)) = true) \/
      (exists k x,
          input !! k = Some x /\ func x = Throws e /\
          Forall (fun y => exists v, func y = Returns v) (take k input))
  | MLengthError =>
      (max_futures < N.of_nat (length input))%N \/
      (max_results < N.of_nat (length input))%N
  end.
Proof.
  intros _ Hrun Hr.
  assert (Forall faithful (packaged_tasks (memory (world (pool_side u)))) /\
          map_inv max_futures max_results input func (driver u) (pool_side u))
    as [Hf Hinv].
  { apply (drun_invariant (map_code max_futures max_results input func)
             (fun u => Forall faithful (packaged_tasks (memory (world (pool_side u)))) /\
                       map_inv max_futures max_results input func
                               (driver u) (pool_side u)))
      with (ls := ls) (u := mkDriven (init n) PM_reserve); [|exact Hrun|].
    - intros l u1 u2 Hstep [H1 H2]. destruct l as [l|]; cbn [dstep] in Hstep.
      + destruct (step l (pool_side u1)) as [s'|] eqn:Hl; [|discriminate].
        injection Hstep as <-. cbn [pool_side driver]. split.
        * by eapply step_faithful.
        * by eapply map_inv_pool_step.
      + destruct (map_code _ _ _ _ _ _) as [[pc' w']|] eqn:Hc; [|discriminate].
        injection Hstep as <-. cbn [pool_side driver world]. split.
        * by eapply map_code_faithful.
        * eapply map_inv_driver_step; eauto.
    - split; [constructor|done]. }
  rewrite Hr in Hinv. by destruct r.
Qed.

Lemma parallel_map_returns_results_in_order_witness :
  match driver map_state with
  | PM_returned (MValues results) =>
      Forall2 (fun x v => Returns (x * x) = Returns v) [3; 4] results
  | _ => False
  end.
Proof.
  apply (parallel_map_returns_results_in_order 2 1000 1000 [3; 4]
           (fun x => Returns (x * x)) map_run map_state (MValues [9; 16]));
    [reflexivity | vm_compute; reflexivity | reflexivity].
Defined.

End UtilityFacts.

(* ===================================================================== *)
(** ** Statistics                                                        *)
(* ===================================================================== *)

Module StatsFacts.
Import StepFacts HeapFacts QueueFacts LocalQueueFacts ExecutionFacts.

Lemma size_t_incr_le v : (size_t_incr v <= v + 1)%N.
Proof.
  unfold size_t_incr, size_t_add, size_t_wrap, size_t_modulus.
  apply N.Div0.mod_le.
Qed.

(** [push], [try_pop] and [wait_pop] move tasks, whatever is counted on
    them. *)
Lemma push_sum (f : Task -> nat) t q :
  heap_ordered (queue_ q) ->
  sum_list_with f (queue_ (TaskQueueM.push t q))
    = (f t + sum_list_with f (queue_ q))%nat.
Proof.
  intros Hq. destruct (push_spec t (queue_ q) Hq) as [_ Hp].
  cbn [TaskQueueM.push queue_]. by rewrite Hp.
Qed.

Lemma try_pop_sum (f : Task -> nat) q r q' :
  heap_ordered (queue_ q) -> TaskQueueM.try_pop q = (r, q') ->
  sum_list_with f (queue_ q)
    = (match r with Some t => f t | None => 0 end + sum_list_with f (queue_ q'))%nat.
Proof.
  intros Hq. unfold TaskQueueM.try_pop.
  destruct (PriorityQueue.empty (queue_ q)) eqn:He.
  - intros [= <- <-]. done.
  - apply empty_false, top_nonempty in He as [t Ht].
    unfold PriorityQueue.top. rewrite Ht. intros [= <- <-].
    destruct (pop_spec _ t Hq Ht) as [_ Hp]. cbn [queue_]. by rewrite Hp at 1.
Qed.

Lemma wait_pop_sum (f : Task -> nat) stop q r q' :
  heap_ordered (queue_ q) -> TaskQueueM.wait_pop stop q = Some (r, q') ->
  sum_list_with f (queue_ q)
    = (match r with Some t => f t | None => 0 end + sum_list_with f (queue_ q'))%nat.
Proof.
  intros Hq. unfold TaskQueueM.wait_pop.
  destruct (PriorityQueue.empty (queue_ q)) eqn:He; cbn [negb orb].
  - destruct stop; [|done]. intros [= <- <-]. done.
  - apply empty_false, top_nonempty in He as [t Ht].
    unfold PriorityQueue.top. rewrite Ht. intros [= <- <-].
    destruct (pop_spec _ t Hq Ht) as [_ Hp]. cbn [queue_]. by rewrite Hp at 1.
Qed.

(** No task with an empty [func_] ever enters the pool. *)
Lemma step_named l s s' :
  step l s = Some s' -> exec_inv s ->
  anonymous_tasks s = 0%nat -> anonymous_tasks s' = 0%nat.
Proof.
  intros H Hinv Hnamed.
  pose proof (inv_heap _ Hinv) as Hheap.
  destruct (inv_local _ Hinv) as (Hd & _ & Hw).
  unfold anonymous_tasks, the_pool, deques_empty in *.
  step_cases H; deque_results Hd.
  all: try match goal with
       | Hpc : workers _ !! _ = Some _ |- _ =>
           let Hc := fresh "Hc" in
           pose proof (Forall_lookup_1 _ _ _ _ Hw Hpc) as Hc; cbn in Hc;
           try discriminate Hc
       end.
  all: state_simpl.
  all: try exact Hnamed.
  all: try match goal with
       | Hpc : workers ?s !! ?i = Some _ |- context [<[?i := ?pc']> (workers ?s)] =>
           pose proof (sum_insert worker_anonymous (workers s) i _ pc' Hpc)
       | Hpc : clients ?s !! ?j = Some _ |- context [<[?j := ?pc']> (clients ?s)] =>
           pose proof (sum_insert client_anonymous (clients s) j _ pc' Hpc)
       end;
       try match goal with
       | E : TaskQueueM.try_pop _ = _ |- _ =>
           pose proof (try_pop_sum anonymous _ _ _ Hheap E)
       | E : TaskQueueM.wait_pop _ _ = _ |- _ =>
           pose proof (wait_pop_sum anonymous _ _ _ _ Hheap E)
       | |- context [TaskQueueM.push ?t ?q] =>
           pose proof (push_sum anonymous t q Hheap)
       | |- context [TaskQueueM.clear ?q] => rewrite (clear_empty q)
       end;
       rewrite ?sum_list_with_app;
       repeat match goal with
       | H' : context [match ?o with Some _ => _ | None => _ end] |- _ => destruct o
       | H' : context [if ?b then _ else _] |- _ => destruct b
       | c : Call |- _ => destruct c
       end;
       cbn [worker_anonymous client_anonymous call_entry sum_list_with queue_
            anonymous Pool.make_task func_] in *; lia.
Qed.

(** The call of a task by the worker that holds it makes one more
    future ready. *)
Lemma call_task_ready s i task start o r :
  exec_inv s -> anonymous_tasks s = 0%nat ->
  workers s !! i = Some (W_call task start) ->
  call_task task (packaged_tasks (memory (world s))) = Some (o, r) ->
  sum_list_with ready r = S (ready_futures s).
Proof.
  intros Hinv Hnamed Hpc. unfold call_task, ready_futures.
  destruct (func_ task) as [[task_ptr]|] eqn:Hf.
  - assert (holds task_ptr task = 1%nat) as Hh
      by (unfold holds; rewrite Hf; by case_decide).
    pose proof (worker_owns s i _ task_ptr Hpc) as Hown. cbn [worker_holds] in Hown.
    destruct (inv_fresh _ Hinv task_ptr) as (pt & Hpt & Hun); [lia|].
    rewrite Hpt. unfold packaged_call. rewrite Hun. intros [= <- <-].
    pose proof (sum_insert ready (packaged_tasks (memory (world s))) task_ptr pt
                  (mkPackaged (callable pt)
                     match callable pt with
                     | Returns v => Value v
                     | Throws e => Failure e
                     end) Hpt) as Hs.
    assert (ready pt = 0%nat) as Hr0
      by (unfold ready, future_wait_for; by rewrite Hun).
    assert (ready (mkPackaged (callable pt)
                     match callable pt with
                     | Returns v => Value v
                     | Throws e => Failure e
                     end) = 1%nat) as Hr1
      by (unfold ready, future_wait_for; cbn; by destruct (callable pt)).
    lia.
  - exfalso.
    assert (worker_anonymous (W_call task start)
            <= sum_list_with worker_anonymous (workers s))%nat as Hle.
    { apply sum_list_with_in. by eapply list_elem_of_lookup_2. }
    unfold anonymous_tasks in Hnamed. cbn [worker_anonymous] in Hle.
    unfold anonymous in Hle. rewrite Hf in Hle. lia.
Qed.

(** [total_tasks_completed] never runs ahead of the futures that are
    ready. *)
Lemma step_completed l s s' :
  step l s = Some s' -> exec_inv s -> stats_inv s ->
  (total_tasks_completed (stats_ (the_pool s'))
   + N.of_nat (sum_list_with uncounted (workers s'))
   <= N.of_nat (ready_futures s'))%N /\
  (forall i pc, workers s' !! i = Some pc ->
    (completed_claim pc + N.of_nat (sum_list_with uncounted (workers s'))
     <= N.of_nat (ready_futures s') + 1)%N).
Proof.
  intros H Hinv [Hnamed Hc Hcl _ _].
  unfold ready_futures, the_pool in Hc, Hcl |- *.
  step_cases H.
  all: try match goal with
       | Hpc : workers _ !! _ = Some (W_call _ _), E : call_task _ _ = _ |- _ =>
           pose proof (call_task_ready _ _ _ _ _ _ Hinv Hnamed Hpc E) as Hready;
           unfold ready_futures in Hready;
           destruct (call_task_held _ _ _ _ _ _ Hinv Hpc E) as [-> _]
       end.
  all: state_simpl;
    cbn [total_tasks_completed stats_ set_locals set_stats set_global set_stop
         set_active set_submitted set_completed set_stolen set_execution_time
         store_counter load_counter] in *.
  all: rewrite ?sum_list_with_app; cbn [sum_list_with ready future_wait_for
                                          shared_state].
  all: try (split; [exact Hc|exact Hcl]).
  all: try match goal with
       | Hpc : workers ?s !! ?i = Some ?pc0
         |- context [<[?i := ?pc']> (workers ?s)] =>
           let Hs := fresh "Hs" in
           pose proof (sum_insert uncounted (workers s) i _ pc' Hpc) as Hs;
           pose proof (Hcl i pc0 Hpc) as Hmine;
           split;
           [ | let i' := fresh "i'" in let pcx := fresh "pcx" in
               let Hl := fresh "Hl" in
               intros i' pcx Hl;
               apply list_lookup_insert_Some in Hl as [(_ & <- & _)|[_ Hl]];
               [ | pose proof (Hcl _ _ Hl) ] ]
       end.
  all: try (split; [ | intros i' pcx Hl; pose proof (Hcl _ _ Hl) ]).
  all: repeat match goal with
       | H' : context [match ?o with Some _ => _ | None => _ end] |- _ => destruct o
       | H' : context [if ?b then _ else _] |- _ => destruct b
       | |- context [match ?o with Some _ => _ | None => _ end] => destruct o
       | |- context [if ?b then _ else _] => destruct b
       end.
  all: cbn [uncounted completed_claim] in *.
  all: try match goal with
       | |- context [size_t_incr ?v] => pose proof (size_t_incr_le v)
       end.
  all: try lia.
Qed.

(** [total_tasks_submitted] never runs ahead of the packaged tasks that
    have been allocated. *)
Lemma step_submitted l s s' :
  step l s = Some s' -> stats_inv s ->
  (total_tasks_submitted (stats_ (the_pool s'))
   + N.of_nat (sum_list_with unsubmitted (clients s'))
   <= N.of_nat (length (packaged_tasks (memory (world s')))))%N /\
  (forall j pc, clients s' !! j = Some pc ->
    (submitted_claim pc + N.of_nat (sum_list_with unsubmitted (clients s'))
     <= N.of_nat (length (packaged_tasks (memory (world s')))) + 1)%N).
Proof.
  intros H [_ _ _ Hc Hcl].
  unfold the_pool in Hc, Hcl |- *.
  assert (forall task pts e pts',
            call_task task pts = Some (e, pts') -> length pts' = length pts) as Hlen.
  { intros task pts e pts'. unfold call_task.
    destruct (func_ task) as [[p]|]; [|by intros [= _ <-]].
    destruct (pts !! p) as [pt|]; [|done]. destruct (packaged_call pt).
    intros [= _ <-]. by rewrite length_insert. }
  step_cases H.
  all: try match goal with
       | E : call_task _ _ = _ |- _ => apply Hlen in E
       end.
  all: state_simpl;
    cbn [total_tasks_submitted stats_ set_locals set_stats set_global set_stop
         set_active set_submitted set_completed set_stolen set_execution_time
         store_counter load_counter] in *.
  all: rewrite ?length_app; cbn [length].
  all: try (split; [exact Hc|exact Hcl]).
  all: try match goal with
       | Hpc : clients ?s !! ?j = Some ?pc0
         |- context [<[?j := ?pc']> (clients ?s)] =>
           let Hs := fresh "Hs" in
           pose proof (sum_insert unsubmitted (clients s) j _ pc' Hpc) as Hs;
           pose proof (Hcl j pc0 Hpc) as Hmine;
           split;
           [ | let j' := fresh "j'" in let pcx := fresh "pcx" in
               let Hl := fresh "Hl" in
               intros j' pcx Hl;
               apply list_lookup_insert_Some in Hl as [(_ & <- & _)|[_ Hl]];
               [ | pose proof (Hcl _ _ Hl) ] ]
       end.
  all: try (split; [ | intros j' pcx Hl;
                      try (apply lookup_app_Some in Hl as [Hl|[_ Hl]];
                           [|apply list_lookup_singleton_Some in Hl as [_ <-]]);
                      try pose proof (Hcl _ _ Hl) ]).
  all: rewrite ?sum_list_with_app; cbn [sum_list_with].
  all: repeat match goal with
       | H' : context [match ?o with Some _ => _ | None => _ end] |- _ => destruct o
       | H' : context [if ?b then _ else _] |- _ => destruct b
       | |- context [match ?o with Some _ => _ | None => _ end] => destruct o
       | |- context [if ?b then _ else _] => destruct b
       | c : Call |- _ => destruct c
       end.
  all: cbn [unsubmitted submitted_claim call_entry] in *.
  all: try match goal with
       | |- context [size_t_incr ?v] => pose proof (size_t_incr_le v)
       end.
  all: try match goal with
       | E : length _ = length _ |- _ => rewrite E
       end.
  all: try lia.
Qed.

Lemma step_stats_inv l s s' :
  step l s = Some s' -> exec_inv s -> stats_inv s -> stats_inv s'.
Proof.
  intros H Hinv Hst.
  destruct (step_completed _ _ _ H Hinv Hst) as [H1 H2].
  destruct (step_submitted _ _ _ H Hst) as [H3 H4].
  split; try done. apply (step_named _ _ _ H Hinv), Hst.
Qed.

Lemma reachable_stats_inv n ls s : run ls (init n) = Some s -> stats_inv s.
Proof.
  intros Hrun.
  assert (exec_inv s /\ stats_inv s) as [_ H]; [|done].
  apply (run_invariant (fun s => exec_inv s /\ stats_inv s))
    with (ls := ls) (s := init n); [|exact Hrun|].
  - intros l s1 s2 Hstep [H1 H2]. split.
    + by eapply step_exec_inv.
    + by eapply step_stats_inv.
  - split; [apply init_exec_inv|].
    assert (forall (f : WorkerPC -> nat) m,
              f W_pop_local = 0%nat -> sum_list_with f (replicate m W_pop_local) = 0%nat)
      as Hz by (intros f m Hf; induction m; cbn; lia).
    split; unfold anonymous_tasks, ready_futures, the_pool; cbn.
    + rewrite Hz by done. done.
    + rewrite Hz by done. done.
    + intros i pc [-> _]%lookup_replicate. rewrite Hz by done. done.
    + done.
    + intros j pc Hj. by rewrite lookup_nil in Hj.
Qed.

(** X19.  The statistics never over-count: in every execution,
    [total_tasks_completed] is at most the number of futures that are
    ready, that is of tasks that have run, [total_tasks_submitted] is at
    most the number of packaged tasks that submissions have allocated, and
    no more futures are ready than packaged tasks exist.  (The counters can
    be less: updates of these plain fields can be lost.) *)
Theorem statistics_never_overcount (n : nat) (ls : list Label) (s : State) :
  run ls (init n) = Some s ->
  (total_tasks_completed (Pool.stats (the_pool s)) <= N.of_nat (ready_futures s))%N /\
  (total_tasks_submitted (Pool.stats (the_pool s))
   <= N.of_nat (length (packaged_tasks (memory (world s)))))%N /\
  (ready_futures s <= length (packaged_tasks (memory (world s))))%nat.
Proof.
  intros Hrun. destruct (reachable_stats_inv _ _ _ Hrun) as [_ Hc _ Hs _].
  unfold Pool.stats. repeat split; try lia.
  unfold ready_futures. clear.
  induction (packaged_tasks (memory (world s))) as [|pt l IH]; cbn; [done|].
  assert (ready pt <= 1)%nat by (unfold ready; destruct (future_wait_for pt); lia).
  lia.
Qed.

Lemma statistics_never_overcount_witness :
  (total_tasks_completed (Pool.stats (the_pool lost_update_state)) <= 2)%N /\
  (total_tasks_submitted (Pool.stats (the_pool lost_update_state)) <= 2)%N.
Proof.
  destruct (statistics_never_overcount 2 lost_update_run lost_update_state)
    as (H1 & H2 & _); [vm_compute; reflexivity|].
  split; [exact H1|exact H2].
Defined.

End StatsFacts.

(* ===================================================================== *)
(** ** Draining the queue                                                *)
(* ===================================================================== *)

Module DrainFacts.
Import StepFacts HeapFacts QueueFacts LocalQueueFacts SoloFacts ExecutionFacts.
Import QueueOrderFacts PoolFacts FutureFacts RoundTripFacts.

(** One iteration of a worker that finds a task in the global queue,
    alone: eleven steps. *)
Lemma worker_iteration_alone s i t l' :
  workers s !! i = Some W_pop_local ->
  local_queues_ (the_pool s) !! i = Some (mkDeque []) ->
  queue_ (global_queue_ (the_pool s)) !! 0%nat = Some t ->
  call_task t (packaged_tasks (memory (world s))) = Some (None, l') ->
  exists s',
    run (replicate 11 (StepWorker i)) s = Some s' /\
    workers s' = workers s /\
    clients s' = clients s /\
    stop_ (the_pool s') = stop_ (the_pool s) /\
    queue_ (global_queue_ (the_pool s'))
      = PriorityQueue.pop (queue_ (global_queue_ (the_pool s))) /\
    packaged_tasks (memory (world s')) = l'.
Proof.
  intros Hw Hd Ht Hcall. unfold the_pool in *.
  destruct s as [[[p l] now_] ws cs].
  destruct p as [n st a [q] locals stats].
  cbn [world memory pool workers clients stop_ global_queue_ queue_ local_queues_
       packaged_tasks] in *.
  assert (forall pc, <[i := pc]> ws !! i = Some pc) as Hins
    by (intros pc; apply list_lookup_insert_eq; by eapply lookup_lt_Some).
  pose proof (try_pop_nonempty (mkTaskQueue q) t Ht) as Hpop. cbn [queue_] in Hpop.
  cbn [replicate run].
  erewrite step_worker_at; [ | exact Hw | ].
  2: { cbn [worker_loop run_action perform]; unfold on_deque;
       cbn [world memory pool local_queues_ global_queue_];
       rewrite Hd; unfold set_pool, set_locals; cbn; reflexivity. }
  cbn [workers clients world].
  erewrite step_worker_at; [ | cbn [workers]; apply Hins | ].
  2: { cbn [worker_loop run_action perform world memory pool global_queue_].
       rewrite Hpop. unfold set_pool, set_global. cbn. reflexivity. }
  cbn [workers clients world]; rewrite ?list_insert_insert_eq.
  do 2 (erewrite step_worker_at;
        [ | cbn [workers]; apply Hins
          | cbn [worker_loop run_action perform]; unfold set_pool, set_active; cbn;
            reflexivity ];
        cbn [workers clients world]; rewrite ?list_insert_insert_eq).
  erewrite step_worker_at; [ | cbn [workers]; apply Hins | ].
  2: { cbn [worker_loop run_action perform world memory packaged_tasks].
       rewrite Hcall. reflexivity. }
  cbn [workers clients world]; rewrite ?list_insert_insert_eq.
  do 6 (erewrite step_worker_at;
        [ | cbn [workers]; apply Hins | cbn; reflexivity ];
        cbn [workers clients world]; rewrite ?list_insert_insert_eq).
  eexists. split; [reflexivity|].
  cbn [world memory pool workers clients stop_ global_queue_ queue_ packaged_tasks].
  repeat split. by apply list_insert_id.
Qed.

(** The loop of [try_steal] from index [idx] on, alone, when every deque
    is empty: it finds nothing and changes nothing. *)
Lemma steal_loop_alone m : forall s i idx,
  workers s !! i = Some (W_steal idx) ->
  deques_empty (the_pool s) ->
  length (local_queues_ (the_pool s)) = threads_of s ->
  (idx + m)%nat = threads_of s ->
  exists s',
    run (replicate (S m) (StepWorker i)) s = Some s' /\
    the_pool s' = the_pool s /\
    packaged_tasks (memory (world s')) = packaged_tasks (memory (world s)) /\
    clients s' = clients s /\
    workers s' = <[i := W_wait_global]> (workers s).
Proof.
  induction m as [|m IH]; intros s i idx Hw Hd Hlen Hm.
  - eexists. split.
    + cbn [replicate run]. erewrite step_worker_at; [reflexivity | exact Hw |].
      cbn [worker_loop].
      assert ((idx <? threads_of s)%nat = false) as -> by (apply Nat.ltb_ge; lia).
      reflexivity.
    + done.
  - assert (exists s1,
              step (StepWorker i) s = Some s1 /\
              the_pool s1 = the_pool s /\
              packaged_tasks (memory (world s1)) = packaged_tasks (memory (world s)) /\
              clients s1 = clients s /\
              workers s1 = <[i := W_steal (S idx)]> (workers s)) as (s1 & Hs1 & Hp & Hpt & Hc & Hws).
    { assert ((idx <? threads_of s)%nat = true) as Hlt by (apply Nat.ltb_lt; lia).
      destruct ((i + idx + 1) mod threads_of s =? i)%nat eqn:Hv.
      - eexists. split.
        + erewrite step_worker_at; [reflexivity | exact Hw |].
          cbn [worker_loop]. rewrite Hlt, Hv. reflexivity.
        + done.
      - destruct (lookup_lt_is_Some_2 (local_queues_ (the_pool s))
                    ((i + idx + 1) mod threads_of s)) as [d Hdq].
        { rewrite Hlen. apply Nat.mod_upper_bound. lia. }
        pose proof (Forall_lookup_1 _ _ _ _ Hd Hdq) as He. cbn beta in He.
        destruct (empty_deque_calls d He) as [_ Hsteal].
        eexists. split.
        + erewrite step_worker_at; [reflexivity | exact Hw |].
          cbn [worker_loop]. rewrite Hlt, Hv.
          cbn [run_action perform]. unfold on_deque. unfold the_pool in Hdq.
          rewrite Hdq, Hsteal. reflexivity.
        + unfold the_pool in *. cbn [world memory pool set_pool set_locals
                                       packaged_tasks workers clients].
          rewrite list_insert_id by done. split; [apply pool_eta|done]. }
    destruct (IH s1 i (S idx)) as (s' & Hrun & Hp' & Hpt' & Hc' & Hws').
    + rewrite Hws. apply list_lookup_insert_eq. by eapply lookup_lt_Some.
    + by rewrite Hp.
    + unfold threads_of, the_pool in *. by rewrite Hp.
    + unfold threads_of, the_pool in *. rewrite Hp. lia.
    + exists s'. split.
      * change (S (S m)) with (1 + S m)%nat. rewrite replicate_add, run_app.
        cbn [replicate run]. rewrite Hs1. exact Hrun.
      * rewrite Hp', Hpt', Hc', Hws', Hws, list_insert_insert_eq. done.
Qed.

(** A worker that finds nothing to do, alone: it leaves its loop when the
    stop flag is set, and is blocked in [wait_pop] otherwise. *)
Lemma idle_worker_alone s i :
  workers s !! i = Some W_pop_local ->
  queue_ (global_queue_ (the_pool s)) = [] ->
  deques_empty (the_pool s) ->
  length (local_queues_ (the_pool s)) = threads_of s ->
  (i < threads_of s)%nat ->
  exists k s',
    run (replicate k (StepWorker i)) s = Some s' /\
    the_pool s' = the_pool s /\
    packaged_tasks (memory (world s')) = packaged_tasks (memory (world s)) /\
    clients s' = clients s /\
    workers s'
      = <[i := if stop_ (the_pool s) then W_exited else W_wait_global]> (workers s) /\
    (stop_ (the_pool s) = false -> step (StepWorker i) s' = None).
Proof.
  intros Hw Hq Hd Hlen Hi.
  assert (i < length (workers s))%nat as Hiw by by eapply lookup_lt_Some.
  destruct (lookup_lt_is_Some_2 (local_queues_ (the_pool s)) i) as [d Hdq]; [lia|].
  pose proof (Forall_lookup_1 _ _ _ _ Hd Hdq) as He. cbn beta in He.
  destruct (empty_deque_calls d He) as [Hpopf _].
  (* the own deque, then the global queue *)
  assert (exists s2,
            run (replicate 2 (StepWorker i)) s = Some s2 /\
            the_pool s2 = the_pool s /\
            packaged_tasks (memory (world s2)) = packaged_tasks (memory (world s)) /\
            clients s2 = clients s /\
            workers s2 = <[i := W_steal 0]> (workers s))
    as (s2 & Hrun2 & Hp2 & Hpt2 & Hc2 & Hws2).
  { eexists. split.
    - cbn [replicate run]. erewrite step_worker_at; [ | exact Hw | ].
      2: { cbn [worker_loop run_action perform]. unfold on_deque.
           unfold the_pool in Hdq. rewrite Hdq, Hpopf. reflexivity. }
      erewrite step_worker_at;
        [ reflexivity | cbn [workers]; by apply list_lookup_insert_eq | ].
      cbn [worker_loop run_action perform world memory pool set_pool set_locals
           global_queue_].
      fold (the_pool s). rewrite (try_pop_empty _ Hq). reflexivity.
    - unfold the_pool in *.
      cbn [world memory pool set_pool set_locals set_global packaged_tasks workers
           clients num_threads_ stop_ active_tasks_ global_queue_ local_queues_ stats_].
      rewrite list_insert_id by done. rewrite list_insert_insert_eq.
      split; [|done]. destruct (pool (memory (world s))) as [? ? ? [?] ? ?]. done. }
  destruct (steal_loop_alone (threads_of s) s2 i 0)
    as (s3 & Hrun3 & Hp3 & Hpt3 & Hc3 & Hws3).
  { rewrite Hws2. by apply list_lookup_insert_eq. }
  { by rewrite Hp2. }
  { unfold threads_of, the_pool in *. by rewrite Hp2. }
  { unfold threads_of, the_pool in *. by rewrite Hp2. }
  assert (workers s3 !! i = Some W_wait_global) as Hw3.
  { rewrite Hws3, Hws2, list_insert_insert_eq. by apply list_lookup_insert_eq. }
  assert (the_pool s3 = the_pool s) as Hp3' by congruence.
  assert (TaskQueueM.wait_pop (stop_ (the_pool s)) (global_queue_ (the_pool s))
          = if stop_ (the_pool s) then Some (None, global_queue_ (the_pool s)) else None)
    as Hwait.
  { unfold TaskQueueM.wait_pop.
    assert (PriorityQueue.empty (queue_ (global_queue_ (the_pool s))) = true) as ->
      by by apply empty_true.
    by destruct (stop_ (the_pool s)). }
  destruct (stop_ (the_pool s)) eqn:Hstop.
  - exists (2 + S (threads_of s) + 2)%nat. eexists. split.
    + rewrite !replicate_add, !run_app, Hrun2, Hrun3.
      cbn [replicate run]. erewrite step_worker_at; [ | exact Hw3 | ].
      2: { cbn [worker_loop run_action perform]. fold (the_pool s3).
           rewrite Hp3', Hstop, Hwait. reflexivity. }
      erewrite step_worker_at;
        [ reflexivity | cbn [workers]; apply list_lookup_insert_eq;
                        by eapply lookup_lt_Some | ].
      cbn [worker_loop run_action perform world memory pool set_pool set_global stop_].
      rewrite ?Hstop. reflexivity.
    + unfold the_pool in *.
      cbn [world memory pool set_pool set_global packaged_tasks workers clients
           num_threads_ stop_ active_tasks_ global_queue_ local_queues_ stats_].
      rewrite Hpt3, Hpt2, Hc3, Hc2, Hws3, Hws2, !list_insert_insert_eq.
      split; [|done]. destruct (pool (memory (world s))) as [? ? ? [?] ? ?]. done.
  - exists (2 + S (threads_of s))%nat, s3. split.
    + by rewrite !replicate_add, !run_app, Hrun2, Hrun3.
    + rewrite Hpt3, Hpt2, Hc3, Hc2, Hws3, Hws2, !list_insert_insert_eq.
      repeat split; try done.
      intros _. cbn [step]. rewrite Hw3. cbn [worker_loop run_action perform].
      fold (the_pool s3). by rewrite Hp3', Hstop, Hwait.
Qed.

Lemma queued_task_callable s t :
  exec_inv s -> t ∈ queue_ (global_queue_ (the_pool s)) ->
  exists l',
    call_task t (packaged_tasks (memory (world s))) = Some (None, l') /\
    task_ran l' t.
Proof.
  intros Hinv Hin. unfold call_task, task_ran.
  destruct (func_ t) as [[task_ptr]|] eqn:Hf; [|by eexists].
  assert (holds task_ptr t = 1%nat) as Hh
    by (unfold holds; rewrite Hf; by case_decide).
  pose proof (sum_list_with_in _ (holds task_ptr) _ Hin) as Hsum.
  destruct (inv_fresh _ Hinv task_ptr) as (pt & Hpt & Hun);
    [unfold owners; lia|].
  rewrite Hpt. unfold packaged_call. rewrite Hun.
  eexists. split; [reflexivity|].
  eexists. split.
  - apply list_lookup_insert_eq. by eapply lookup_lt_Some.
  - unfold future_wait_for. cbn. by destruct (callable pt).
Qed.

Lemma task_ran_kept l l' t :
  futures_kept l l' -> task_ran l t -> task_ran l' t.
Proof.
  intros Hk. unfold task_ran.
  destruct (func_ t) as [[task_ptr]|]; [|done].
  intros (pt & Hpt & Hr).
  destruct (Hk _ _ Hpt) as (pt' & Hpt' & _ & Hs).
  exists pt'. split; [done|].
  unfold future_wait_for in *.
  destruct Hs as [->|[Hs _]]; [done|]. by rewrite Hs in Hr.
Qed.

(** A worker at the top of its loop after the stop flag is set, alone:
    it takes the tasks of the global queue one after the other, runs each,
    and leaves its loop when the queue is empty. *)
Lemma worker_drains_alone n i : forall m ls s,
  run ls (init n) = Some s ->
  length (queue_ (global_queue_ (the_pool s))) = m ->
  stop_ (the_pool s) = true ->
  workers s !! i = Some W_pop_local ->
  exists k s',
    run (replicate k (StepWorker i)) s = Some s' /\
    workers s' = <[i := W_exited]> (workers s) /\
    clients s' = clients s /\
    queue_ (global_queue_ (the_pool s')) = [] /\
    Forall (task_ran (packaged_tasks (memory (world s'))))
           (queue_ (global_queue_ (the_pool s))).
Proof.
  induction m as [|m IH]; intros ls s Hrun Hlen Hstop Hw.
  all: pose proof (reachable_exec_inv _ _ _ Hrun) as Hinv.
  all: destruct (inv_local _ Hinv) as (Hd & _).
  all: pose proof (reachable_deques_counted _ _ _ Hrun) as Hcnt.
  all: destruct (reachable_shape _ _ _ Hrun) as [_ Hws].
  all: assert (i < threads_of s)%nat as Hi
         by (rewrite <- Hws; by eapply lookup_lt_Some).
  - apply nil_length_inv in Hlen.
    destruct (idle_worker_alone s i Hw Hlen Hd Hcnt Hi)
      as (k & s' & Hk & Hp & _ & Hc & Hws' & _).
    exists k, s'. rewrite Hp, Hlen. rewrite Hstop in Hws'. done.
  - destruct (queue_ (global_queue_ (the_pool s))) as [|t c] eqn:Hq; [done|].
    assert (t ∈ queue_ (global_queue_ (the_pool s))) as Hin
      by (rewrite Hq; apply list_elem_of_here).
    destruct (queued_task_callable s t Hinv Hin) as (l' & Hcall & Hran).
    destruct (lookup_lt_is_Some_2 (local_queues_ (the_pool s)) i) as [d Hdq];
      [unfold deques_counted in Hcnt; lia|].
    pose proof (Forall_lookup_1 _ _ _ _ Hd Hdq) as He. cbn beta in He.
    destruct d as [dl]. cbn in He. subst dl.
    destruct (worker_iteration_alone s i t l' Hw Hdq) as
      (s1 & Hrun1 & Hws1 & Hc1 & Hstop1 & Hq1 & Hl1); [by rewrite Hq|done|].
    assert (heap_ordered (t :: c)) as Hheap by (rewrite <- Hq; apply (inv_heap _ Hinv)).
    destruct (pop_spec (t :: c) t Hheap eq_refl) as [_ Hperm].
    destruct (IH (ls ++ replicate 11 (StepWorker i)) s1)
      as (k & s' & Hk & Hws' & Hc' & Hq' & Hall).
    + by rewrite run_app, Hrun.
    + rewrite Hq1, Hq, length_pop. cbn [length] in *. lia.
    + by rewrite Hstop1.
    + by rewrite Hws1.
    + exists (11 + k)%nat, s'. rewrite replicate_add, run_app, Hrun1.
      split; [done|]. rewrite Hws', Hws1, Hc', Hc1. repeat split; try done.
      rewrite Hperm. constructor.
      * eapply task_ran_kept; [by eapply run_futures_kept|]. by rewrite Hl1.
      * by rewrite Hq1, Hq in Hall.
Qed.

(** X20.  [shutdown()] lets the queued tasks finish: once the stop flag is
    set, a worker at the top of its loop that is left to run alone takes
    every task that is in the global queue, runs it -- its future is ready
    afterwards -- and leaves its loop with the queue empty. *)
Theorem shutdown_lets_queued_tasks_finish (n : nat) (ls : list Label) (s : State)
    (i : nat) :
  run ls (init n) = Some s ->
  stop_ (the_pool s) = true ->
  workers s !! i = Some W_pop_local ->
  exists k s',
    run (replicate k (StepWorker i)) s = Some s' /\
    workers s' !! i = Some W_exited /\
    Pool.pending (the_pool s') = 0%N /\
    Forall (task_ran (packaged_tasks (memory (world s'))))
           (queue_ (global_queue_ (the_pool s))).
Proof.
  intros Hrun Hstop Hw.
  destruct (worker_drains_alone n i _ ls s Hrun eq_refl Hstop Hw)
    as (k & s' & Hk & Hws & _ & Hq & Hall).
  exists k, s'. repeat split; try done.
  - rewrite Hws. apply list_lookup_insert_eq. by eapply lookup_lt_Some.
  - pose proof (reachable_exec_inv _ _ _
                  (eq_trans (run_app ls _ (init n))
                     (eq_trans (f_equal (fun o => match o with
                                                  | Some s1 => run _ s1
                                                  | None => None
                                                  end) Hrun) Hk))) as Hinv.
    destruct (inv_local _ Hinv) as (Hd & _).
    apply pending_empty; [by rewrite Hq|done].
Qed.

Lemma shutdown_lets_queued_tasks_finish_witness :
  length (queue_ (global_queue_ (the_pool draining_state))) = 2%nat /\
  exists k s',
    run (replicate k (StepWorker 0)) draining_state = Some s' /\
    workers s' !! 0%nat = Some W_exited /\
    Pool.pending (the_pool s') = 0%N /\
    Forall (task_ran (packaged_tasks (memory (world s'))))
           (queue_ (global_queue_ (the_pool draining_state))).
Proof.
  split; [reflexivity|].
  apply (shutdown_lets_queued_tasks_finish 1 draining_run draining_state 0);
    vm_compute; reflexivity.
Defined.

End DrainFacts.

(* ===================================================================== *)
(** ** The merge sort of the example                                     *)
(* ===================================================================== *)

Module SortFacts.
Import MergeSort.

(** *** Indices *)

Lemma size_t_add_small (a b : N) :
  (a + b < size_t_modulus)%N -> size_t_add a b = (a + b)%N.
Proof. intros H. unfold size_t_add, size_t_wrap. by apply N.mod_small. Qed.

Lemma size_t_incr_small (a : N) :
  (a + 1 < size_t_modulus)%N -> size_t_incr a = (a + 1)%N.
Proof. apply size_t_add_small. Qed.

Lemma size_t_sub_small (a b : N) :
  (b <= a)%N -> (a < size_t_modulus)%N -> size_t_sub a b = (a - b)%N.
Proof.
  intros Hb Ha. unfold size_t_sub, size_t_wrap, size_t_modulus in *.
  replace (a + (2 ^ 64 - b))%N with (a - b + 1 * 2 ^ 64)%N by lia.
  rewrite N.Div0.mod_add. apply N.mod_small. lia.
Qed.

(** *** Vectors *)

Lemma vector_store_in (arr : list Z) (i : N) (v : Z) :
  (N.to_nat i < length arr)%nat ->
  vector_store arr i v = Some (<[N.to_nat i := v]> arr).
Proof.
  intros H. unfold vector_store.
  by destruct (lookup_lt_is_Some_2 arr (N.to_nat i) H) as [x ->].
Qed.

Lemma take_store (arr : list Z) (p : nat) (v : Z) :
  (p < length arr)%nat -> take (S p) (<[p := v]> arr) = take p arr ++ [v].
Proof.
  intros H. rewrite (take_S_r _ _ v) by by apply list_lookup_insert_eq.
  by rewrite take_insert_ge.
Qed.

Lemma lies_at_nil arr p : lies_at arr p [].
Proof. intros x a H. done. Qed.

Lemma lies_at_cons arr p a l :
  lies_at arr p (a :: l) -> arr !! p = Some a /\ lies_at arr (S p) l.
Proof.
  intros H. split.
  - rewrite <- (Nat.add_0_r p). by apply H.
  - intros x b Hx. replace (S p + x)%nat with (p + S x)%nat by lia. by apply H.
Qed.

Lemma lies_at_segment arr left right :
  lies_at arr (N.to_nat left) (segment arr left right).
Proof.
  intros x a. unfold segment. intros H.
  apply lookup_take_Some in H as [H _]. by rewrite lookup_drop in H.
Qed.

Lemma length_segment arr left right :
  (N.to_nat right < length arr)%nat ->
  (N.to_nat left + length (segment arr left right)
   = Nat.max (N.to_nat left) (N.to_nat right + 1))%nat.
Proof. intros H. unfold segment. rewrite length_take, length_drop. lia. Qed.

Lemma segment_split arr left mid right :
  (left <= mid + 1)%N -> (mid <= right)%N ->
  segment arr left right = segment arr left mid ++ segment arr (mid + 1) right.
Proof.
  intros H1 H2. unfold segment.
  replace (N.to_nat right + 1 - N.to_nat left)%nat
    with ((N.to_nat mid + 1 - N.to_nat left)
          + (N.to_nat right + 1 - N.to_nat (mid + 1)))%nat by lia.
  rewrite <- take_take_drop, drop_drop. do 3 f_equal. lia.
Qed.

Lemma segment_take_eq a b left right :
  (left <= right + 1)%N ->
  take (N.to_nat right + 1) a = take (N.to_nat right + 1) b ->
  segment a left right = segment b left right.
Proof.
  intros Hl H. unfold segment. rewrite !take_drop_commute.
  replace (N.to_nat left + (N.to_nat right + 1 - N.to_nat left))%nat
    with (N.to_nat right + 1)%nat by lia.
  by rewrite H.
Qed.

Lemma segment_drop_eq a b left right :
  drop (N.to_nat left) a = drop (N.to_nat left) b ->
  segment a left right = segment b left right.
Proof. intros H. unfold segment. by rewrite H. Qed.

Lemma take_le_eq (a b : list Z) (n m : nat) :
  (n <= m)%nat -> take m a = take m b -> take n a = take n b.
Proof.
  intros Hn H.
  rewrite <- (Nat.min_l n m) by done. by rewrite <- !take_take, H.
Qed.

Lemma drop_ge_eq (a b : list Z) (n m : nat) :
  (n <= m)%nat -> drop n a = drop n b -> drop m a = drop m b.
Proof.
  intros Hn H.
  replace m with (n + (m - n))%nat by lia. by rewrite <- !drop_drop, H.
Qed.

Lemma rebuild arr left right :
  (left <= right + 1)%N ->
  arr = take (N.to_nat left) arr ++ segment arr left right
        ++ drop (N.to_nat right + 1) arr.
Proof.
  intros H. unfold segment.
  rewrite <- (take_drop (N.to_nat left) arr) at 1. f_equal.
  rewrite <- (take_drop (N.to_nat right + 1 - N.to_nat left)
                (drop (N.to_nat left) arr)) at 1.
  f_equal. rewrite drop_drop. f_equal. lia.
Qed.

(** *** Merging two lists *)

Lemma merge_lists_nil_l l2 : merge_lists [] l2 = l2.
Proof. by destruct l2. Qed.

Lemma merge_lists_nil_r l1 : merge_lists l1 [] = l1.
Proof. by destruct l1. Qed.

Lemma merge_lists_cons a l1 b l2 :
  merge_lists (a :: l1) (b :: l2)
  = if (a <=? b)%Z then a :: merge_lists l1 (b :: l2)
    else b :: merge_lists (a :: l1) l2.
Proof. reflexivity. Qed.

Lemma merge_lists_perm l1 : forall l2, merge_lists l1 l2 ≡ₚ l1 ++ l2.
Proof.
  induction l1 as [|a l1 IH1]; [intros l2; by rewrite merge_lists_nil_l|].
  induction l2 as [|b l2 IH2]; [by rewrite merge_lists_nil_r, app_nil_r|].
  rewrite merge_lists_cons. destruct (a <=? b)%Z.
  - cbn [app]. by rewrite IH1.
  - rewrite IH2. by rewrite <- Permutation_middle.
Qed.

Lemma merge_lists_sorted l1 : forall l2,
  StronglySorted Z.le l1 -> StronglySorted Z.le l2 ->
  StronglySorted Z.le (merge_lists l1 l2).
Proof.
  induction l1 as [|a l1 IH1]; [intros l2 _ H2; by rewrite merge_lists_nil_l|].
  induction l2 as [|b l2 IH2]; intros H1 H2; [by rewrite merge_lists_nil_r|].
  rewrite merge_lists_cons.
  apply StronglySorted_inv in H1 as H1'. destruct H1' as [H1s H1a].
  apply StronglySorted_inv in H2 as H2'. destruct H2' as [H2s H2b].
  destruct (a <=? b)%Z eqn:Hab.
  - apply Z.leb_le in Hab. constructor; [by apply IH1|].
    rewrite merge_lists_perm. apply Forall_app. split; [done|].
    constructor; [done|]. eapply Forall_impl; [exact H2b|]. intros; cbn in *; lia.
  - apply Z.leb_gt in Hab. constructor; [by apply IH2|].
    rewrite merge_lists_perm. apply Forall_app. split; [|done].
    constructor; [lia|]. eapply Forall_impl; [exact H1a|]. intros; cbn in *; lia.
Qed.

(** *** The loops of [merge] *)

Lemma merge_both_spec l1 : forall l2 fuel arr temp mid right i j k,
  (N.to_nat i + length l1 = N.to_nat mid + 1)%nat ->
  (N.to_nat j + length l2 = N.to_nat right + 1)%nat ->
  lies_at arr (N.to_nat i) l1 ->
  lies_at arr (N.to_nat j) l2 ->
  (N.to_nat k + length l1 + length l2 <= length temp)%nat ->
  (length l1 + length l2 < fuel)%nat ->
  (mid + 1 < size_t_modulus)%N ->
  (right + 1 < size_t_modulus)%N ->
  (N.of_nat (length temp) < size_t_modulus)%N ->
  exists d r1 r2 temp' i' j' k',
    merge_both fuel arr temp mid right i j k = Some (temp', i', j', k') /\
    merge_lists l1 l2 = d ++ r1 ++ r2 /\
    length temp' = length temp /\
    N.to_nat k' = (N.to_nat k + length d)%nat /\
    take (N.to_nat k') temp' = take (N.to_nat k) temp ++ d /\
    (N.to_nat i' + length r1 = N.to_nat mid + 1)%nat /\
    (N.to_nat j' + length r2 = N.to_nat right + 1)%nat /\
    lies_at arr (N.to_nat i') r1 /\
    lies_at arr (N.to_nat j') r2.
Proof.
  induction l1 as [|a l1 IH1].
  { intros l2 fuel arr temp mid right i j k Hi Hj Ha1 Ha2 Hk Hf Hm Hr Ht.
    exists [], [], l2, temp, i, j, k. cbn [length] in *. rewrite merge_lists_nil_l.
    assert ((i <=? mid)%N = false) as Hc by (apply N.leb_gt; lia).
    destruct fuel; cbn [merge_both]; rewrite Hc; cbn [andb].
    all: repeat split; try done; try lia; by rewrite app_nil_r. }
  induction l2 as [|b l2 IH2];
    intros fuel arr temp mid right i j k Hi Hj Ha1 Ha2 Hk Hf Hm Hr Ht.
  { exists [], (a :: l1), [], temp, i, j, k. cbn [length] in *.
    assert ((j <=? right)%N = false) as Hc by (apply N.leb_gt; lia).
    destruct fuel; cbn [merge_both]; rewrite Hc, andb_false_r.
    all: repeat split; try done; try lia; by rewrite app_nil_r. }
  cbn [length] in *.
  destruct fuel as [|fuel]; [lia|]. cbn [merge_both].
  assert ((i <=? mid)%N = true) as -> by (apply N.leb_le; lia).
  assert ((j <=? right)%N = true) as -> by (apply N.leb_le; lia).
  cbn [andb]. unfold vector_at.
  destruct (lies_at_cons _ _ _ _ Ha1) as [-> Ha1'].
  destruct (lies_at_cons _ _ _ _ Ha2) as [-> Ha2'].
  rewrite merge_lists_cons.
  rewrite !(vector_store_in temp k) by lia.
  assert (size_t_incr k = (k + 1)%N) as -> by (apply size_t_incr_small; lia).
  destruct (a <=? b)%Z.
  - assert (size_t_incr i = (i + 1)%N) as -> by (apply size_t_incr_small; lia).
    destruct (IH1 (b :: l2) fuel arr (<[N.to_nat k := a]> temp) mid right
                (i + 1)%N j (k + 1)%N)
      as (d & r1 & r2 & temp' & i' & j' & k' & Hrun & Hml & Hlen & Hk' & Htk
          & Hi' & Hj' & Hr1 & Hr2);
      rewrite ?length_insert; cbn [length]; try done; try lia.
    { by replace (N.to_nat (i + 1)) with (S (N.to_nat i)) by lia. }
    exists (a :: d), r1, r2, temp', i', j', k'. rewrite Hrun, Hml.
    rewrite length_insert in Hlen.
    repeat split; try done; try (cbn [length]; lia).
    rewrite Htk. replace (N.to_nat (k + 1)) with (S (N.to_nat k)) by lia.
    rewrite take_store by lia. by rewrite <- app_assoc.
  - assert (size_t_incr j = (j + 1)%N) as -> by (apply size_t_incr_small; lia).
    destruct (IH2 fuel arr (<[N.to_nat k := b]> temp) mid right
                i (j + 1)%N (k + 1)%N)
      as (d & r1 & r2 & temp' & i' & j' & k' & Hrun & Hml & Hlen & Hk' & Htk
          & Hi' & Hj' & Hr1 & Hr2);
      rewrite ?length_insert; cbn [length]; try done; try lia.
    { by replace (N.to_nat (j + 1)) with (S (N.to_nat j)) by lia. }
    exists (b :: d), r1, r2, temp', i', j', k'. rewrite Hrun, Hml.
    rewrite length_insert in Hlen.
    repeat split; try done; try (cbn [length]; lia).
    rewrite Htk. replace (N.to_nat (k + 1)) with (S (N.to_nat k)) by lia.
    rewrite take_store by lia. by rewrite <- app_assoc.
Qed.

Lemma merge_rest_spec l : forall fuel arr temp last i k,
  (N.to_nat i + length l = N.to_nat last + 1)%nat ->
  lies_at arr (N.to_nat i) l ->
  (N.to_nat k + length l <= length temp)%nat ->
  (length l < fuel)%nat ->
  (last + 1 < size_t_modulus)%N ->
  (N.of_nat (length temp) < size_t_modulus)%N ->
  exists temp' i' k',
    merge_rest fuel arr temp last i k = Some (temp', i', k') /\
    length temp' = length temp /\
    N.to_nat k' = (N.to_nat k + length l)%nat /\
    take (N.to_nat k') temp' = take (N.to_nat k) temp ++ l.
Proof.
  induction l as [|a l IH]; intros fuel arr temp last i k Hi Ha Hk Hf Hl Ht;
    cbn [length] in *.
  { exists temp, i, k.
    assert ((i <=? last)%N = false) as Hc by (apply N.leb_gt; lia).
    destruct fuel; cbn [merge_rest]; rewrite Hc.
    all: repeat split; try done; try lia; by rewrite app_nil_r. }
  destruct fuel as [|fuel]; [lia|]. cbn [merge_rest].
  assert ((i <=? last)%N = true) as -> by (apply N.leb_le; lia).
  unfold vector_at. destruct (lies_at_cons _ _ _ _ Ha) as [-> Ha'].
  rewrite (vector_store_in temp k) by lia.
  assert (size_t_incr k = (k + 1)%N) as -> by (apply size_t_incr_small; lia).
  assert (size_t_incr i = (i + 1)%N) as -> by (apply size_t_incr_small; lia).
  destruct (IH fuel arr (<[N.to_nat k := a]> temp) last (i + 1)%N (k + 1)%N)
    as (temp' & i' & k' & Hrun & Hlen & Hk' & Htk);
    rewrite ?length_insert; try done; try lia.
  { by replace (N.to_nat (i + 1)) with (S (N.to_nat i)) by lia. }
  exists temp', i', k'. rewrite Hrun. rewrite length_insert in Hlen.
  repeat split; try done; try lia.
  rewrite Htk. replace (N.to_nat (k + 1)) with (S (N.to_nat k)) by lia.
  rewrite take_store by lia. by rewrite <- app_assoc.
Qed.

Lemma copy_back_spec rest : forall arr left i,
  (N.to_nat left + N.to_nat i + length rest <= length arr)%nat ->
  (N.of_nat (length arr) < size_t_modulus)%N ->
  copy_back rest arr left i
  = Some (take (N.to_nat left + N.to_nat i) arr ++ rest
          ++ drop (N.to_nat left + N.to_nat i + length rest) arr).
Proof.
  induction rest as [|v rest IH]; intros arr left i Hle Hlt; cbn [length] in *.
  { cbn [copy_back app]. by rewrite Nat.add_0_r, take_drop. }
  cbn [copy_back].
  assert (size_t_add left i = (left + i)%N) as -> by (apply size_t_add_small; lia).
  assert (size_t_incr i = (i + 1)%N) as -> by (apply size_t_incr_small; lia).
  rewrite vector_store_in by lia.
  rewrite IH by (rewrite ?length_insert; lia). f_equal.
  replace (N.to_nat left + N.to_nat (i + 1))%nat
    with (S (N.to_nat (left + i))) by lia.
  rewrite take_store by lia.
  rewrite drop_insert_lt by lia.
  replace (N.to_nat (left + i)) with (N.to_nat left + N.to_nat i)%nat by lia.
  rewrite <- app_assoc. cbn [app].
  replace (S (N.to_nat left + N.to_nat i) + length rest)%nat
    with (N.to_nat left + N.to_nat i + S (length rest))%nat by lia.
  done.
Qed.

(** *** [merge] *)

Lemma merge_spec arr left mid right :
  (left <= mid)%N -> (mid <= right)%N ->
  (right < N.of_nat (length arr))%N ->
  (N.of_nat (length arr) < size_t_modulus)%N ->
  merge arr left mid right
  = Some (take (N.to_nat left) arr
          ++ merge_lists (segment arr left mid) (segment arr (mid + 1) right)
          ++ drop (N.to_nat right + 1) arr).
Proof.
  intros Hlm Hmr Hr Hlen. unfold merge.
  assert (size_t_add (size_t_sub right left) 1 = (right - left + 1)%N) as ->.
  { rewrite size_t_sub_small by lia. apply size_t_add_small. lia. }
  assert (size_t_add mid 1 = (mid + 1)%N) as -> by (apply size_t_add_small; lia).
  set (temp := replicate (N.to_nat (right - left + 1)) 0).
  assert (length temp = N.to_nat (right - left + 1)) as Htemp
    by apply length_replicate.
  set (l1 := segment arr left mid). set (l2 := segment arr (mid + 1) right).
  assert (N.to_nat left + length l1 = N.to_nat mid + 1)%nat as Hl1.
  { unfold l1. rewrite length_segment; lia. }
  assert (N.to_nat (mid + 1) + length l2 = N.to_nat right + 1)%nat as Hl2.
  { unfold l2. rewrite length_segment; lia. }
  destruct (merge_both_spec l1 l2 (S (length temp)) arr temp mid right
              left (mid + 1)%N 0%N)
    as (d & r1 & r2 & temp1 & i1 & j1 & k1 & Hrun1 & Hml & Hlen1 & Hk1 & Htk1
        & Hi1 & Hj1 & Hr1 & Hr2);
    try done; try lia; try apply lies_at_segment.
  rewrite Hrun1.
  assert (length l1 + length l2 = length d + length r1 + length r2)%nat as Hsum.
  { rewrite <- !length_app, <- app_assoc, <- Hml.
    by rewrite merge_lists_perm. }
  destruct (merge_rest_spec r1 (S (length temp)) arr temp1 mid i1 k1)
    as (temp2 & i2 & k2 & Hrun2 & Hlen2 & Hk2 & Htk2); try done; try lia.
  rewrite Hrun2.
  destruct (merge_rest_spec r2 (S (length temp)) arr temp2 right j1 k2)
    as (temp3 & j3 & k3 & Hrun3 & Hlen3 & Hk3 & Htk3); try done; try lia.
  rewrite Hrun3.
  rewrite copy_back_spec by lia.
  assert (temp3 = merge_lists l1 l2) as ->.
  { rewrite <- (take_ge temp3 (N.to_nat k3)) by lia.
    rewrite Htk3, Htk2, Htk1. cbn [take]. change (N.to_nat 0) with 0%nat.
    cbn [take app]. by rewrite Hml, app_assoc. }
  change (N.to_nat 0) with 0%nat. rewrite Nat.add_0_r.
  replace (N.to_nat left + length (merge_lists l1 l2))%nat
    with (N.to_nat right + 1)%nat; [done|].
  rewrite merge_lists_perm, length_app. lia.
Qed.

Lemma segment_of_rebuilt arr m left right :
  (left <= right + 1)%N ->
  (N.to_nat right < length arr)%nat ->
  (N.to_nat left + length m = N.to_nat right + 1)%nat ->
  segment (take (N.to_nat left) arr ++ m ++ drop (N.to_nat right + 1) arr)
          left right = m.
Proof.
  intros Hl Hr Hm. unfold segment.
  rewrite drop_app_length' by (rewrite length_take; lia).
  apply take_app_length'. lia.
Qed.

Lemma outside_of_rebuilt arr m left right :
  (N.to_nat right < length arr)%nat ->
  (N.to_nat left + length m = N.to_nat right + 1)%nat ->
  outside_kept arr (take (N.to_nat left) arr ++ m ++ drop (N.to_nat right + 1) arr)
               left right.
Proof.
  intros Hr Hm. unfold outside_kept. repeat split.
  - rewrite !length_app, length_take, length_drop. lia.
  - apply take_app_length'. rewrite length_take. lia.
  - rewrite app_assoc. apply drop_app_length'.
    rewrite length_app, length_take. lia.
Qed.

Lemma merge_result arr left mid right :
  (left <= mid)%N -> (mid <= right)%N ->
  (right < N.of_nat (length arr))%N ->
  (N.of_nat (length arr) < size_t_modulus)%N ->
  exists arr',
    merge arr left mid right = Some arr' /\
    outside_kept arr arr' left right /\
    segment arr' left right
    = merge_lists (segment arr left mid) (segment arr (mid + 1) right).
Proof.
  intros Hlm Hmr Hr Hlen. eexists. split; [by apply merge_spec|].
  assert (N.to_nat left
          + length (merge_lists (segment arr left mid) (segment arr (mid + 1) right))
          = N.to_nat right + 1)%nat as Hm.
  { rewrite merge_lists_perm, <- segment_split by lia.
    rewrite length_segment; lia. }
  split.
  - apply outside_of_rebuilt; [lia|done].
  - apply segment_of_rebuilt; [lia|lia|done].
Qed.

(** *** [sequential_merge_sort] *)

Lemma sequential_merge_sort_done fuel arr left right :
  (right <= left)%N -> sequential_merge_sort fuel arr left right = Some arr.
Proof.
  intros H. apply N.leb_le in H.
  destruct fuel; cbn [sequential_merge_sort]; by rewrite H.
Qed.

Lemma short_segment_sorted arr left right :
  (right <= left)%N -> StronglySorted Z.le (segment arr left right).
Proof.
  intros H. unfold segment.
  destruct (take _ _) as [|x [|y l]] eqn:E; [constructor|repeat constructor|].
  apply (f_equal length) in E. rewrite length_take in E. cbn [length] in E. lia.
Qed.

Lemma sequential_merge_sort_spec fuel : forall arr left right,
  (right < N.of_nat (length arr))%N ->
  (N.of_nat (length arr) < size_t_modulus)%N ->
  (N.to_nat right - N.to_nat left <= fuel)%nat ->
  exists arr',
    sequential_merge_sort fuel arr left right = Some arr' /\
    outside_kept arr arr' left right /\
    segment arr' left right ≡ₚ segment arr left right /\
    StronglySorted Z.le (segment arr' left right).
Proof.
  induction fuel as [|fuel IH]; intros arr left right Hr Hlen Hf.
  all: destruct (right <=? left)%N eqn:Hc;
    [apply N.leb_le in Hc|apply N.leb_gt in Hc].
  1,3: exists arr; split; [by apply sequential_merge_sort_done|];
       split; [done|]; split; [done|]; by apply short_segment_sorted.
  { lia. }
  assert ((right <=? left)%N = false) as Hb by by apply N.leb_gt.
  cbn [sequential_merge_sort]. rewrite Hb.
  assert (size_t_add left (size_t_sub right left / 2)
          = (left + (right - left) / 2)%N) as ->.
  { rewrite size_t_sub_small by lia. apply size_t_add_small. lia. }
  set (mid := (left + (right - left) / 2)%N).
  assert (left <= mid)%N as Hlm by lia.
  assert (mid < right)%N as Hmr by lia.
  assert (size_t_add mid 1 = (mid + 1)%N) as -> by (apply size_t_add_small; lia).
  destruct (IH arr left mid) as (arr1 & Hrun1 & (Hlen1 & Htk1 & Hdr1) & Hp1 & Hs1);
    [lia|lia|lia|].
  rewrite Hrun1.
  destruct (IH arr1 (mid + 1)%N right)
    as (arr2 & Hrun2 & (Hlen2 & Htk2 & Hdr2) & Hp2 & Hs2); [lia|lia|lia|].
  rewrite Hrun2.
  destruct (merge_result arr2 left mid right)
    as (arr' & Hrun & (Hlen' & Htk' & Hdr') & Hseg); [lia|lia|lia|lia|].
  exists arr'. split; [done|].
  assert (segment arr2 left mid = segment arr1 left mid) as Hleft.
  { apply segment_take_eq; [lia|].
    by replace (N.to_nat mid + 1)%nat with (N.to_nat (mid + 1)) by lia. }
  assert (segment arr1 (mid + 1) right = segment arr (mid + 1) right) as Hright.
  { apply segment_drop_eq.
    by replace (N.to_nat (mid + 1)) with (N.to_nat mid + 1)%nat by lia. }
  split; [|split].
  - repeat split.
    + lia.
    + rewrite Htk'. transitivity (take (N.to_nat left) arr1).
      * eapply take_le_eq; [|exact Htk2]. lia.
      * done.
    + rewrite Hdr', Hdr2. eapply drop_ge_eq; [|exact Hdr1]. lia.
  - rewrite Hseg, merge_lists_perm, Hleft, Hp1, Hp2, Hright.
    by rewrite <- segment_split by lia.
  - rewrite Hseg. apply merge_lists_sorted; [by rewrite Hleft|done].
Qed.

(** *** [is_sorted] *)

Lemma Sorted_snoc (l : list Z) (a : Z) :
  Sorted Z.le l -> (forall b, last l = Some b -> b <= a) -> Sorted Z.le (l ++ [a]).
Proof.
  induction l as [|x l IH]; intros Hs Hl; cbn [app].
  - repeat constructor.
  - apply Sorted_inv in Hs as [Hs Hhd]. constructor.
    + apply IH; [done|]. intros b Hb. apply Hl.
      destruct l; [done|]. exact Hb.
    + destruct l as [|y l]; cbn [app].
      * constructor. by apply Hl.
      * constructor. by apply HdRel_inv in Hhd.
Qed.

Lemma Sorted_adjacent (l : list Z) : forall n x y,
  Sorted Z.le l -> l !! n = Some x -> l !! S n = Some y -> x <= y.
Proof.
  induction l as [|a l IH]; intros n x y Hs Hx Hy; [done|].
  apply Sorted_inv in Hs as [Hs Hhd].
  destruct n as [|n].
  - cbn in Hx, Hy. injection Hx as ->. destruct l as [|b l]; [done|].
    cbn in Hy. injection Hy as ->. by apply HdRel_inv in Hhd.
  - by apply (IH n).
Qed.

Lemma last_take (l : list Z) (n : nat) (b : Z) :
  l !! n = Some b -> last (take (S n) l) = Some b.
Proof.
  intros H. rewrite (take_S_r _ _ _ H). apply last_snoc.
Qed.

Lemma is_sorted_loop_spec vec fuel : forall i,
  (1 <= i)%N ->
  (N.of_nat (length vec) < size_t_modulus)%N ->
  (length vec - N.to_nat i <= fuel)%nat ->
  Sorted Z.le (take (N.to_nat i) vec) ->
  exists b, is_sorted_loop fuel vec i = Some b /\ (b = true <-> Sorted Z.le vec).
Proof.
  induction fuel as [|fuel IH]; intros i Hi Hlen Hf Hs.
  all: destruct (i <? N.of_nat (length vec))%N eqn:Hc;
    [apply N.ltb_lt in Hc|apply N.ltb_ge in Hc].
  1: lia.
  1,3: exists true; cbn [is_sorted_loop];
       assert ((i <? N.of_nat (length vec))%N = false) as -> by (apply N.ltb_ge; lia);
       split; [done|]; split; [intros _|done];
       by rewrite take_ge in Hs by lia.
  cbn [is_sorted_loop].
  assert ((i <? N.of_nat (length vec))%N = true) as -> by by apply N.ltb_lt.
  assert (size_t_sub i 1 = (i - 1)%N) as -> by (apply size_t_sub_small; lia).
  assert (size_t_incr i = (i + 1)%N) as -> by (apply size_t_incr_small; lia).
  unfold vector_at.
  destruct (lookup_lt_is_Some_2 vec (N.to_nat i)) as [a Ha]; [lia|].
  destruct (lookup_lt_is_Some_2 vec (N.to_nat (i - 1))) as [b Hb]; [lia|].
  rewrite Ha, Hb.
  assert (N.to_nat i = S (N.to_nat (i - 1))) as Hsucc by lia.
  destruct (a <? b)%Z eqn:Hab; [apply Z.ltb_lt in Hab|apply Z.ltb_ge in Hab].
  - exists false. split; [done|]. split; [done|]. intros Hsorted.
    rewrite Hsucc in Ha.
    pose proof (Sorted_adjacent _ _ _ _ Hsorted Hb Ha). lia.
  - apply IH; [lia|done|lia|].
    replace (N.to_nat (i + 1)) with (S (N.to_nat i)) by lia.
    rewrite (take_S_r _ _ _ Ha). apply Sorted_snoc; [done|].
    intros b' Hb'. rewrite Hsucc, (last_take _ _ _ Hb) in Hb'.
    injection Hb' as <-. done.
Qed.

Lemma is_sorted_spec vec :
  (N.of_nat (length vec) < size_t_modulus)%N ->
  exists b, is_sorted vec = Some b /\ (b = true <-> Sorted Z.le vec).
Proof.
  intros Hlen. unfold is_sorted.
  destruct vec as [|x vec].
  - exists true. cbn. split; [done|]. split; [constructor|done].
  - apply is_sorted_loop_spec; [lia|done|cbn [length]; lia|].
    change (N.to_nat 1) with 1%nat. cbn [take]. repeat constructor.
Qed.

(** X21.  [merge] merges: when [left <= mid <= right < arr.size()], the call
    [merge(arr, left, mid, right)] stays inside the vector, leaves the size
    of [arr] and its elements before [left] and after [right] as they
    are, and rearranges [arr[left..right]]; if [arr[left..mid]] and
    [arr[mid+1..right]] were in ascending order, [arr[left..right]] is in
    ascending order afterwards. *)
Theorem merge_merges_sorted_halves (arr : list Z) (left mid right : N) :
  (left <= mid)%N -> (mid <= right)%N ->
  (right < N.of_nat (length arr))%N ->
  (N.of_nat (length arr) < size_t_modulus)%N ->
  exists arr',
    merge arr left mid right = Some arr' /\
    outside_kept arr arr' left right /\
    segment arr' left right ≡ₚ segment arr left right /\
    (Sorted Z.le (segment arr left mid) ->
     Sorted Z.le (segment arr (mid + 1) right) ->
     Sorted Z.le (segment arr' left right)).
Proof.
  intros Hlm Hmr Hr Hlen.
  destruct (merge_result arr left mid right Hlm Hmr Hr Hlen)
    as (arr' & Hrun & Hout & Hseg).
  exists arr'. repeat split; try done; try apply Hout.
  - rewrite Hseg, merge_lists_perm. by rewrite <- segment_split by lia.
  - intros H1 H2. rewrite Hseg. apply StronglySorted_Sorted.
    apply merge_lists_sorted; apply Sorted_StronglySorted; try done.
    all: intros x y z; apply Z.le_trans.
Qed.

Lemma merge_merges_sorted_halves_witness :
  exists arr',
    merge [9; 2; 5; 8; 1; 5; 7; 0] 1 3 6 = Some arr' /\
    outside_kept [9; 2; 5; 8; 1; 5; 7; 0] arr' 1 6 /\
    segment arr' 1 6 ≡ₚ segment [9; 2; 5; 8; 1; 5; 7; 0] 1 6 /\
    (Sorted Z.le (segment [9; 2; 5; 8; 1; 5; 7; 0] 1 3) ->
     Sorted Z.le (segment [9; 2; 5; 8; 1; 5; 7; 0] (3 + 1) 6) ->
     Sorted Z.le (segment arr' 1 6)).
Proof.
  apply (merge_merges_sorted_halves [9; 2; 5; 8; 1; 5; 7; 0] 1 3 6);
    [lia | lia | vm_compute; reflexivity | vm_compute; reflexivity].
Defined.

(** X22.  [sequential_merge_sort] sorts: when [right < arr.size()], the call
    [sequential_merge_sort(arr, left, right)] returns -- a recursion depth
    of [right - left] is never exceeded --, stays inside the vector,
    leaves the size of [arr] and its elements before [left] and after
    [right] as they are, and leaves in [arr[left..right]] the elements
    that were there, in ascending order. *)
Theorem sequential_merge_sort_sorts (fuel : nat) (arr : list Z) (left right : N) :
  (right < N.of_nat (length arr))%N ->
  (N.of_nat (length arr) < size_t_modulus)%N ->
  (N.to_nat right - N.to_nat left <= fuel)%nat ->
  exists arr',
    sequential_merge_sort fuel arr left right = Some arr' /\
    outside_kept arr arr' left right /\
    segment arr' left right ≡ₚ segment arr left right /\
    Sorted Z.le (segment arr' left right).
Proof.
  intros Hr Hlen Hf.
  destruct (sequential_merge_sort_spec fuel arr left right Hr Hlen Hf)
    as (arr' & Hrun & Hout & Hp & Hs).
  exists arr'. repeat split; try done; try apply Hout.
  by apply StronglySorted_Sorted.
Qed.

Lemma sequential_merge_sort_sorts_witness :
  exists arr',
    sequential_merge_sort 4 [9; 3; 7; 3; -1; 8; 0] 1 5 = Some arr' /\
    outside_kept [9; 3; 7; 3; -1; 8; 0] arr' 1 5 /\
    segment arr' 1 5 ≡ₚ segment [9; 3; 7; 3; -1; 8; 0] 1 5 /\
    Sorted Z.le (segment arr' 1 5).
Proof.
  apply (sequential_merge_sort_sorts 4 [9; 3; 7; 3; -1; 8; 0] 1 5);
    [vm_compute; reflexivity | vm_compute; reflexivity | simpl; lia].
Defined.

(** X23.  [is_sorted] decides the order: on every vector it stays inside the
    vector, returns, and returns [true] exactly when no element is
    followed by a smaller one. *)
Theorem is_sorted_decides_order (vec : list Z) :
  (N.of_nat (length vec) < size_t_modulus)%N ->
  exists b, is_sorted vec = Some b /\ (b = true <-> Sorted Z.le vec).
Proof. apply is_sorted_spec. Qed.

Lemma is_sorted_decides_order_witness :
  exists b, is_sorted [1; 4; 4; 9; 3] = Some b /\
            (b = true <-> Sorted Z.le [1; 4; 4; 9; 3]).
Proof.
  apply (is_sorted_decides_order [1; 4; 4; 9; 3]). vm_compute. reflexivity.
Defined.

(** X24.  Sorting a whole vector as [main] does: for a vector that is not
    empty, [sequential_merge_sort(arr, 0, arr.size() - 1)] returns a
    vector with the same elements, each as often as before, on which
    [is_sorted] returns [true]. *)
Theorem sorted_vector_passes_is_sorted (arr : list Z) :
  arr <> [] ->
  (N.of_nat (length arr) < size_t_modulus)%N ->
  exists arr',
    sequential_merge_sort (length arr) arr 0 (size_t_sub (N.of_nat (length arr)) 1)
    = Some arr' /\
    arr' ≡ₚ arr /\
    is_sorted arr' = Some true.
Proof.
  intros Hne Hlen.
  assert (0 < length arr)%nat as Hpos by (destruct arr; [done|cbn; lia]).
  rewrite size_t_sub_small by lia.
  destruct (sequential_merge_sort_spec (length arr) arr 0
              (N.of_nat (length arr) - 1))
    as (arr' & Hrun & (Hlen' & _ & _) & Hp & Hs); [lia|done|lia|].
  assert (forall a : list Z, length a = length arr ->
            segment a 0 (N.of_nat (length arr) - 1) = a) as Hwhole.
  { intros a Ha. unfold segment. change (N.to_nat 0) with 0%nat.
    rewrite drop_0. apply take_ge. lia. }
  rewrite Hwhole in Hp, Hs by done. rewrite (Hwhole arr) in Hp by done.
  exists arr'. split; [done|]. split; [done|].
  destruct (is_sorted_spec arr') as (b & Hb & Hiff); [by rewrite Hlen'|].
  rewrite Hb. f_equal. apply Hiff. by apply StronglySorted_Sorted.
Qed.

Lemma sorted_vector_passes_is_sorted_witness :
  exists arr',
    sequential_merge_sort 6 [5; 2; 9; 2; 0; 7] 0 (size_t_sub 6 1) = Some arr' /\
    arr' ≡ₚ [5; 2; 9; 2; 0; 7] /\
    is_sorted arr' = Some true.
Proof.
  apply (sorted_vector_passes_is_sorted [5; 2; 9; 2; 0; 7]); [discriminate|].
  vm_compute. reflexivity.
Defined.

End SortFacts.
